(** * AD-Census stereo matcher: a shallow embedding and its properties

    This development embeds the cost aggregation, scanline optimisation,
    disparity picking and multi-step refinement passes of the AD-Census
    pipeline (ADCensusStereo.cpp, cross_aggregator.cpp,
    scanline_optimizer.cpp, multistep_refiner.cpp) and states the
    properties of the specification over the embedded code.

    Conventions.
    - [sint32] values are [Z].  The buffers the code allocates have
      [width * height * disp_range] entries, and the arithmetic on
      indices into them is carried out in [Z].  In the methods that
      accept or reject a configuration and size, allocate or copy whole
      buffers ([Initialize], [Reset], [Aggregate], [Match],
      [compute_disparity]), a [sint32] product or difference is reduced
      modulo 2^32 as the machine does ([to_sint32]); so is every value
      the code narrows from a wider type to [sint32] or [int].  [uint8]
      counters wrap modulo 256 and the wrap-around is written out
      ([uint8_inc]).
    - A call that does not return is an [outcome] of its own: an
      exception leaves it, or the program ends in it (a failed [assert],
      a [memcpy] whose size was converted from a negative count).
    - [float32] values are IEEE-754 binary32 numbers, modelled by
      [spec_float] with precision 24 and maximal exponent 128; the
      arithmetic is the round-to-nearest-even arithmetic of [SpecFloat].
    - Buffers are lists.  A read outside the buffer (undefined in C++)
      yields the default inhabitant and a write outside is dropped; the
      theorems are stated for accesses inside the buffers. *)

From Stdlib Require Import ZArith Lia Bool List.
From Stdlib Require Import Floats.SpecFloat.
From stdpp Require Import base tactics option list numbers.

Local Open Scope Z_scope.

(** ** Binary32 arithmetic *)

Module F32.

Definition prec : Z := 24.
Definition emax : Z := 128.

Definition add : spec_float -> spec_float -> spec_float := SFadd prec emax.
Definition sub : spec_float -> spec_float -> spec_float := SFsub prec emax.
Definition mul : spec_float -> spec_float -> spec_float := SFmul prec emax.
Definition div : spec_float -> spec_float -> spec_float := SFdiv prec emax.
Definition abs : spec_float -> spec_float := SFabs.

(** [a < b], [a == b], [a <= b] of C++; every comparison with a NaN is
    false. *)
Definition ltb : spec_float -> spec_float -> bool := SFltb.
Definition eqb : spec_float -> spec_float -> bool := SFeqb.
Definition leb : spec_float -> spec_float -> bool := SFleb.
(** [a > b] and [a != b]. *)
Definition gtb (a b : spec_float) : bool := SFltb b a.
Definition neqb (a b : spec_float) : bool := negb (SFeqb a b).

(** [static_cast<float32>(n)] for an integer [n]. *)
Definition of_Z (n : Z) : spec_float := binary_normalize prec emax n 0 false.

(** The literal [0.0f]. *)
Definition zero : spec_float := S754_zero false.

Definition is_nan (a : spec_float) : bool :=
  match a with S754_nan => true | _ => false end.

Definition is_finite (a : spec_float) : bool :=
  match a with S754_zero _ | S754_finite _ _ _ => true | _ => false end.

(** [lround]: nearest integer, halfway cases away from zero.  The C
    library leaves the result unspecified for infinities and NaN; the
    model returns 0 there. *)
Definition lround (a : spec_float) : Z :=
  match a with
  | S754_finite s m e =>
      let v := if 0 <=? e then Z.pos m * 2 ^ e
               else (Z.pos m + 2 ^ (- e - 1)) / 2 ^ (- e) in
      if s then - v else v
  | _ => 0
  end.

(** A key that orders the numbers that are not NaN as the comparisons
    do: the sign class first, then exponent and mantissa. *)
Definition key (a : spec_float) : Z * Z * Z :=
  match a with
  | S754_infinity true => (-2, 0, 0)
  | S754_finite true m e => (-1, - e, - Z.pos m)
  | S754_zero _ | S754_nan => (0, 0, 0)
  | S754_finite false m e => (1, e, Z.pos m)
  | S754_infinity false => (2, 0, 0)
  end.

Definition key_lt (a b : Z * Z * Z) : Prop :=
  let '(a1, a2, a3) := a in
  let '(b1, b2, b3) := b in
  a1 < b1 \/ (a1 = b1 /\ (a2 < b2 \/ (a2 = b2 /\ a3 < b3))).

(** [std::min(a, b)]: [b] when [b < a], else [a]. *)
Definition std_min (a b : spec_float) : spec_float :=
  if ltb b a then b else a.

End F32.

Abbreviation float32 := spec_float.

#[global] Instance float32_inhabited : Inhabited float32 :=
  populate (S754_zero false).

#[global] Instance float32_eq_dec : EqDecision float32.
Proof. solve_decision. Defined.

(** Modelled from the spec: the header that declares the sentinels
    (adcensus_types.h) is not among the sources.  The specification calls
    the entries that are not [Invalid_Float] "finite", so the sentinel is
    the positive infinity; [Large_Float] is a finite cost above every
    matching cost. *)
Definition Invalid_Float : float32 := S754_infinity false.
Definition Large_Float : float32 := F32.of_Z 99999.

(** Modelled from the spec: [MAX_ARM_LENGTH = 255], the largest value of
    the byte that stores an arm length. *)
Definition MAX_ARM_LENGTH : Z := 255.

Definition uint8_inc (n : Z) : Z := (n + 1) mod 256.

(** Conversion to [sint32]: the value congruent to [n] modulo 2^32 in
    [[-2^31, 2^31)]. *)
Definition to_sint32 (n : Z) : Z := (n + 2 ^ 31) mod 2 ^ 32 - 2 ^ 31.

(** ** How a call ends *)

(** The exceptions of the C++ library that the code can raise: [new T[n]]
    with a negative [n], and [resize(n)] with a size converted from a
    negative [sint32]. *)
Inductive exn := bad_array_new_length | length_error.

(** The ways the program ends inside a call: a failed [assert], and a
    [memcpy] whose byte count was converted from a negative [sint32]
    (about 2^64 bytes; undefined). *)
Inductive halt := assertion_failed | memcpy_size.

(** A call returns a value, or an exception leaves it with the object in
    the state [s], or the program ends in it. *)
Inductive outcome (S A : Type) : Type :=
| Returns (a : A)
| Throws (e : exn) (s : S)
| Halts (h : halt).

Arguments Returns {S A} a.
Arguments Throws {S A} e s.
Arguments Halts {S A} h.

(** Sequencing: what follows a call runs when the call returns. *)
#[global] Instance outcome_bind {S} : MBind (outcome S) :=
  fun A B (f : A -> outcome S B) (m : outcome S A) =>
    match m with
    | Returns a => f a
    | Throws e s => Throws e s
    | Halts h => Halts h
    end.

(** A call on a member of an object: an exception leaves the object with
    the member in the state of the throw. *)
Definition within {S S' A} (put : S -> S') (m : outcome S A) : outcome S' A :=
  match m with
  | Returns a => Returns a
  | Throws e s => Throws e (put s)
  | Halts h => Halts h
  end.

(** The value of a call that returns. *)
Definition returned {S A} (m : outcome S A) : option A :=
  match m with Returns a => Some a | _ => None end.


(** ** Buffers and loops *)

(** [a[i]]. *)
Definition rd {A} `{Inhabited A} (a : list A) (i : Z) : A :=
  if decide (0 <= i) then a !!! Z.to_nat i else inhabitant.

(** [a[i] = v]. *)
Definition wr {A} (a : list A) (i : Z) (v : A) : list A :=
  if decide (0 <= i) then <[Z.to_nat i := v]> a else a.

(** [for (i = lo; i < hi; i++) body], without [break]. *)
Definition for_loop {S} (lo hi : Z) (body : Z -> S -> S) (s : S) : S :=
  fold_left (fun s i => body i s) (seqZ lo (hi - lo)) s.

(** [memcpy(dst + doff, src + soff, n * sizeof(T))] on distinct buffers. *)
Definition memcpy {A} `{Inhabited A}
    (dst : list A) (doff : Z) (src : list A) (soff : Z) (n : Z) : list A :=
  for_loop 0 n (fun i dst => wr dst (doff + i) (rd src (soff + i))) dst.

(** The pixels of a [width] x [height] image in scanline order, as
    [(x, y)] pairs. *)
Definition row_major (width height : Z) : list (Z * Z) :=
  y ← seqZ 0 height; x ← seqZ 0 width; [(x, y)].

(** ** Colours *)

(** Modelled from the spec: [ADColor] and [ColorDist] are declared in
    headers that are not among the sources (adcensus_types.h,
    adcensus_util.h).  A colour holds the three 8-bit channels of a pixel
    and [ColorDist(a,b) = max(|aB-bB|, |aG-bG|, |aR-bR|)]. *)
Record ADColor := mkADColor { b_ : Z; g_ : Z; r_ : Z }.

Definition ColorDist (c1 c2 : ADColor) : Z :=
  Z.max (Z.abs (r_ c1 - r_ c2))
        (Z.max (Z.abs (g_ c1 - g_ c2)) (Z.abs (b_ c1 - b_ c2))).

(** [ADColor(p[0], p[1], p[2])] for [p = img + off]. *)
Definition color_at (img : list Z) (off : Z) : ADColor :=
  mkADColor (rd img off) (rd img (off + 1)) (rd img (off + 2)).

(** ** cross_aggregator.cpp *)

(** The four arm lengths of a pixel, each stored in a byte. *)
Module CrossArm.
Record t := mk { left : Z; right : Z; top : Z; bottom : Z }.
End CrossArm.

#[global] Instance CrossArm_inhabited : Inhabited CrossArm.t :=
  populate (CrossArm.mk 0 0 0 0).

Module CrossAggregator.

Section Methods.

(** The members the methods below read without changing them. *)
Variables (width_ height_ : Z) (img_left_ : list Z).
Variables (cross_L1_ cross_L2_ cross_t1_ cross_t2_ : Z).
Variables (min_disparity_ max_disparity_ : Z).

(** The loop over [n] of [FindHorizontalArm] and [FindVerticalArm]: the
    two functions run the same body in two directions each; [pn] is [xn]
    or [yn], [at_border] the direction's border test, [img] the offset of
    the examined pixel in the image and [stride] its increment
    ([dir * 3] or [dir * width_ * 3]).  The result is the arm length. *)
Fixpoint arm_loop (color0 : ADColor) (at_border : Z -> bool) (dir stride : Z)
    (ns : list Z) (img : Z) (color_last : ADColor) (pn : Z) (len : Z) : Z :=
  match ns with
  | [] => len
  | n :: ns' =>
      if at_border pn then len else
      let color := color_at img_left_ img in
      let color_dist1 := ColorDist color color0 in
      if cross_t1_ <=? color_dist1 then len else
      if (0 <? n) && (cross_t1_ <=? ColorDist color color_last) then len else
      if (cross_L2_ <? n + 1) && (cross_t2_ <=? color_dist1) then len else
      arm_loop color0 at_border dir stride ns'
               (img + stride) color (pn + dir) (uint8_inc len)
  end.

Definition FindHorizontalArm (x y : Z) : Z * Z :=
  let img0 := y * width_ * 3 + 3 * x in
  let color0 := color_at img_left_ img0 in
  let steps := seqZ 0 (Z.min cross_L1_ MAX_ARM_LENGTH) in
  let left :=
    arm_loop color0 (fun xn => xn <? 0) (-1) (-1 * 3) steps
             (img0 + -1 * 3) color0 (x + -1) 0 in
  let right :=
    arm_loop color0 (fun xn => xn =? width_) 1 (1 * 3) steps
             (img0 + 1 * 3) color0 (x + 1) 0 in
  (left, right).

Definition FindVerticalArm (x y : Z) : Z * Z :=
  let img0 := y * width_ * 3 + 3 * x in
  let color0 := color_at img_left_ img0 in
  let steps := seqZ 0 (Z.min cross_L1_ MAX_ARM_LENGTH) in
  let top :=
    arm_loop color0 (fun yn => yn <? 0) (-1) (-1 * width_ * 3) steps
             (img0 + -1 * width_ * 3) color0 (y + -1) 0 in
  let bottom :=
    arm_loop color0 (fun yn => yn =? height_) 1 (1 * width_ * 3) steps
             (img0 + 1 * width_ * 3) color0 (y + 1) 0 in
  (top, bottom).

Definition BuildArms (vec_cross_arms_ : list CrossArm.t) : list CrossArm.t :=
  for_loop 0 height_ (fun y =>
    for_loop 0 width_ (fun x arms =>
      let horizontal := FindHorizontalArm x y in
      let vertical := FindVerticalArm x y in
      wr arms (y * width_ + x)
         (CrossArm.mk (fst horizontal) (snd horizontal)
                      (fst vertical) (snd vertical))))
    vec_cross_arms_.

(** [ComputeSupPixelCount]: the state is [vec_sup_count_tmp_] and the two
    maps [vec_sup_count_[0]], [vec_sup_count_[1]]. *)
Definition sup_count_pixel (vec_cross_arms_ : list CrossArm.t)
    (horizontal_first : bool) (k y x : Z) (vec_sup_count_tmp_ : list Z) : Z :=
  let arm := rd vec_cross_arms_ (y * width_ + x) in
  if horizontal_first then
    if k =? 0 then
      for_loop (- CrossArm.left arm) (CrossArm.right arm + 1)
        (fun t count => count + 1) 0
    else
      for_loop (- CrossArm.top arm) (CrossArm.bottom arm + 1)
        (fun t count => count + rd vec_sup_count_tmp_ ((y + t) * width_ + x)) 0
  else
    if k =? 0 then
      for_loop (- CrossArm.top arm) (CrossArm.bottom arm + 1)
        (fun t count => count + 1) 0
    else
      for_loop (- CrossArm.left arm) (CrossArm.right arm + 1)
        (fun t count => count + rd vec_sup_count_tmp_ (y * width_ + x + t)) 0.

Definition ComputeSupPixelCount (vec_cross_arms_ : list CrossArm.t)
    (st : list Z * list (list Z)) : list Z * list (list Z) :=
  snd (for_loop 0 2 (fun n '(horizontal_first, st) =>
    let id := if horizontal_first : bool then 0 else 1 in
    let st :=
      for_loop 0 2 (fun k =>
        for_loop 0 height_ (fun y =>
          for_loop 0 width_ (fun x '(vec_sup_count_tmp_, vec_sup_count_) =>
            let count :=
              sup_count_pixel vec_cross_arms_ horizontal_first k y x
                              vec_sup_count_tmp_ in
            if k =? 0 then
              (wr vec_sup_count_tmp_ (y * width_ + x) count, vec_sup_count_)
            else
              (vec_sup_count_tmp_,
               wr vec_sup_count_ id
                  (wr (rd vec_sup_count_ id) (y * width_ + x) count)))))
        st in
    (negb horizontal_first, st)) (true, st)).

(** [AggregateInArms]: the state is the two scratch planes
    [vec_cost_tmp_] and the aggregated volume [cost_aggr_]. *)
Definition aggr_pixel (vec_cross_arms_ : list CrossArm.t)
    (horizontal_first : bool) (k y x : Z)
    (vec_cost_tmp_ : list (list float32)) : float32 :=
  let arm := rd vec_cross_arms_ (y * width_ + x) in
  if horizontal_first then
    if k =? 0 then
      for_loop (- CrossArm.left arm) (CrossArm.right arm + 1)
        (fun t cost => F32.add cost (rd (rd vec_cost_tmp_ 0) (y * width_ + x + t)))
        F32.zero
    else
      for_loop (- CrossArm.top arm) (CrossArm.bottom arm + 1)
        (fun t cost => F32.add cost (rd (rd vec_cost_tmp_ 1) ((y + t) * width_ + x)))
        F32.zero
  else
    if k =? 0 then
      for_loop (- CrossArm.top arm) (CrossArm.bottom arm + 1)
        (fun t cost => F32.add cost (rd (rd vec_cost_tmp_ 0) ((y + t) * width_ + x)))
        F32.zero
    else
      for_loop (- CrossArm.left arm) (CrossArm.right arm + 1)
        (fun t cost => F32.add cost (rd (rd vec_cost_tmp_ 1) (y * width_ + x + t)))
        F32.zero.

Definition AggregateInArms (vec_cross_arms_ : list CrossArm.t)
    (vec_sup_count_ : list (list Z))
    (disparity : Z) (horizontal_first : bool)
    (st : list (list float32) * list float32)
    : list (list float32) * list float32 :=
  if (disparity <? min_disparity_) || (max_disparity_ <=? disparity) then st
  else
    let disp := disparity - min_disparity_ in
    let disp_range := max_disparity_ - min_disparity_ in
    if disp_range <=? 0 then st
    else
      let st :=
        for_loop 0 height_ (fun y =>
          for_loop 0 width_ (fun x '(vec_cost_tmp_, cost_aggr_) =>
            (wr vec_cost_tmp_ 0
                (wr (rd vec_cost_tmp_ 0) (y * width_ + x)
                    (rd cost_aggr_ (y * width_ * disp_range + x * disp_range + disp))),
             cost_aggr_))) st in
      let ct_id := if horizontal_first then 0 else 1 in
      for_loop 0 2 (fun k =>
        for_loop 0 height_ (fun y =>
          for_loop 0 width_ (fun x '(vec_cost_tmp_, cost_aggr_) =>
            let cost :=
              aggr_pixel vec_cross_arms_ horizontal_first k y x vec_cost_tmp_ in
            if k =? 0 then
              (wr vec_cost_tmp_ 1
                  (wr (rd vec_cost_tmp_ 1) (y * width_ + x) cost),
               cost_aggr_)
            else
              (vec_cost_tmp_,
               wr cost_aggr_ (y * width_ * disp_range + x * disp_range + disp)
                  (F32.div cost
                     (F32.of_Z (rd (rd vec_sup_count_ ct_id) (y * width_ + x))))))))
        st.

End Methods.

(** The object: the members of the class. *)
Record t := mk {
  width_ : Z;
  height_ : Z;
  img_left_ : list Z;
  img_right_ : list Z;
  cost_init_ : list float32;
  cross_L1_ : Z;
  cross_L2_ : Z;
  cross_t1_ : Z;
  cross_t2_ : Z;
  min_disparity_ : Z;
  max_disparity_ : Z;
  is_initialized_ : bool;
  vec_cross_arms_ : list CrossArm.t;
  vec_cost_tmp_ : list (list float32);
  vec_sup_count_ : list (list Z);
  vec_sup_count_tmp_ : list Z;
  cost_aggr_ : list float32
}.

(** The constructor: every scalar is zero, every buffer empty. *)
Definition new : t :=
  mk 0 0 [] [] [] 0 0 0 0 0 0 false [] [[]; []] [[]; []] [] [].

(** [v.clear(); v.resize(n)]: [n] value-initialised entries. *)
Definition fresh {A} `{Inhabited A} (n : Z) : list A :=
  replicate (Z.to_nat n) inhabitant.

(** [Initialize].  The two sizes are [sint32] products.  The vectors of
    [img_size] entries are resized after the guard [img_size <= 0]; a
    product [img_size * disp_range] that is negative makes
    [cost_aggr_.resize] throw, after the other vectors were resized and
    before [is_initialized_] is written. *)
Definition Initialize (width height min_disparity max_disparity : Z) (o : t)
    : outcome t (bool * t) :=
  let img_size := to_sint32 (width * height) in
  let disp_range := to_sint32 (max_disparity - min_disparity) in
  if (img_size <=? 0) || (disp_range <=? 0) then
    Returns
      (false,
       mk width height (img_left_ o) (img_right_ o) (cost_init_ o)
          (cross_L1_ o) (cross_L2_ o) (cross_t1_ o) (cross_t2_ o)
          min_disparity max_disparity false
          (vec_cross_arms_ o) (vec_cost_tmp_ o) (vec_sup_count_ o)
          (vec_sup_count_tmp_ o) (cost_aggr_ o))
  else
    let arms : list CrossArm.t := fresh img_size in
    let tmp : list (list float32) := [fresh img_size; fresh img_size] in
    let sup : list (list Z) := [fresh img_size; fresh img_size] in
    let sup_tmp : list Z := fresh img_size in
    let aggr_size := to_sint32 (img_size * disp_range) in
    if aggr_size <? 0 then
      Throws length_error
        (mk width height (img_left_ o) (img_right_ o) (cost_init_ o)
            (cross_L1_ o) (cross_L2_ o) (cross_t1_ o) (cross_t2_ o)
            min_disparity max_disparity (is_initialized_ o)
            arms tmp sup sup_tmp (cost_aggr_ o))
    else
      let aggr := resize (Z.to_nat aggr_size) F32.zero (cost_aggr_ o) in
      let ok :=
        negb (bool_decide (arms = [])) && negb (bool_decide (rd tmp 0 = []))
        && negb (bool_decide (rd tmp 1 = [])) && negb (bool_decide (rd sup 0 = []))
        && negb (bool_decide (rd sup 1 = [])) && negb (bool_decide (sup_tmp = []))
        && negb (bool_decide (aggr = [])) in
      Returns
        (ok,
         mk width height (img_left_ o) (img_right_ o) (cost_init_ o)
            (cross_L1_ o) (cross_L2_ o) (cross_t1_ o) (cross_t2_ o)
            min_disparity max_disparity ok
            arms tmp sup sup_tmp aggr).

Definition SetData (img_left img_right : list Z) (cost_init : list float32)
    (o : t) : t :=
  mk (width_ o) (height_ o) img_left img_right cost_init
     (cross_L1_ o) (cross_L2_ o) (cross_t1_ o) (cross_t2_ o)
     (min_disparity_ o) (max_disparity_ o) (is_initialized_ o)
     (vec_cross_arms_ o) (vec_cost_tmp_ o) (vec_sup_count_ o)
     (vec_sup_count_tmp_ o) (cost_aggr_ o).

Definition SetParams (cross_L1 cross_L2 cross_t1 cross_t2 : Z) (o : t) : t :=
  mk (width_ o) (height_ o) (img_left_ o) (img_right_ o) (cost_init_ o)
     cross_L1 cross_L2 cross_t1 cross_t2
     (min_disparity_ o) (max_disparity_ o) (is_initialized_ o)
     (vec_cross_arms_ o) (vec_cost_tmp_ o) (vec_sup_count_ o)
     (vec_sup_count_tmp_ o) (cost_aggr_ o).

(** [Aggregate].  The count of the [memcpy] that seeds the aggregated
    volume is the [sint32] product [width_ * height_ * disp_range]; a
    negative count is converted to a size of about 2^64 bytes. *)
Definition Aggregate (num_iters : Z) (o : t) : outcome t t :=
  if negb (is_initialized_ o) then Returns o
  else
    let disp_range := max_disparity_ o - min_disparity_ o in
    let arms :=
      BuildArms (width_ o) (height_ o) (img_left_ o)
                (cross_L1_ o) (cross_L2_ o) (cross_t1_ o) (cross_t2_ o)
                (vec_cross_arms_ o) in
    let '(sup_tmp, sup) :=
      ComputeSupPixelCount (width_ o) (height_ o) arms
                           (vec_sup_count_tmp_ o, vec_sup_count_ o) in
    let count := to_sint32 (width_ o * height_ o * disp_range) in
    if count <? 0 then Halts memcpy_size
    else
      let aggr := memcpy (cost_aggr_ o) 0 (cost_init_ o) 0 count in
      let '(_, (tmp, aggr)) :=
        for_loop 0 num_iters (fun k '(horizontal_first, st) =>
          (negb horizontal_first,
           for_loop (min_disparity_ o) (max_disparity_ o) (fun d st =>
             AggregateInArms (width_ o) (height_ o)
                             (min_disparity_ o) (max_disparity_ o)
                             arms sup d horizontal_first st) st))
          (true, (vec_cost_tmp_ o, aggr)) in
      Returns
        (mk (width_ o) (height_ o) (img_left_ o) (img_right_ o) (cost_init_ o)
            (cross_L1_ o) (cross_L2_ o) (cross_t1_ o) (cross_t2_ o)
            (min_disparity_ o) (max_disparity_ o) (is_initialized_ o)
            arms tmp sup sup_tmp aggr).

(** An aggregator whose flag is set can seed its volume: the count of
    the [memcpy] of [Aggregate] is not negative. *)
Definition sound (o : t) : Prop :=
  is_initialized_ o = true ->
  0 <= to_sint32 (width_ o * height_ o * (max_disparity_ o - min_disparity_ o)).

End CrossAggregator.

(** ** Cross arms, as the specification words them *)

Module ArmSpec.

(** The pixel that step [n] (counted from 0) of the arm of [(x, y)] in
    direction [(dx, dy)] examines. *)
Definition arm_pixel (x y dx dy n : Z) : Z * Z :=
  (x + (n + 1) * dx, y + (n + 1) * dy).

Definition in_image (width height : Z) (p : Z * Z) : bool :=
  (0 <=? fst p) && (fst p <? width) && (0 <=? snd p) && (snd p <? height).

Definition pixel_color (img : list Z) (width : Z) (p : Z * Z) : ADColor :=
  color_at img (snd p * width * 3 + 3 * fst p).

(** Step [n] is accepted: the pixel is inside the image, its colour is
    closer than [cross_t1] to the centre and, after the first step, to the
    previous pixel of the arm, and closer than [cross_t2] to the centre
    once the step count plus one exceeds [cross_L2]. *)
Definition step_accepted (img : list Z) (width height : Z)
    (cross_L2 cross_t1 cross_t2 : Z) (x y dx dy n : Z) : bool :=
  let p := arm_pixel x y dx dy n in
  let c := pixel_color img width p in
  let c0 := pixel_color img width (x, y) in
  in_image width height p
  && (ColorDist c c0 <? cross_t1)
  && ((n =? 0)
      || (ColorDist c (pixel_color img width (arm_pixel x y dx dy (n - 1)))
          <? cross_t1))
  && ((n + 1 <=? cross_L2) || (ColorDist c c0 <? cross_t2)).

(** [len] is the length of the largest prefix of accepted steps among
    the steps of index below [limit]. *)
Definition largest_prefix (limit : Z) (accepted : Z -> bool) (len : Z) : Prop :=
  0 <= len /\ len <= Z.max 0 limit
  /\ (forall n, 0 <= n < len -> accepted n = true)
  /\ (len < limit -> accepted len = false).

End ArmSpec.

(** ** The two-pass cross region of a pixel *)

Module RegionSpec.

Section Region.

Variables (width height : Z) (arms : list CrossArm.t).

(** The pixels [(x + s, y)], [-left <= s <= right], of the horizontal arm
    through [(x, y)], and the pixels of its vertical arm. *)
Definition horizontal_arm (p : Z * Z) : list (Z * Z) :=
  let arm := rd arms (snd p * width + fst p) in
  (fun s => (fst p + s, snd p))
    <$> seqZ (- CrossArm.left arm) (CrossArm.right arm + 1 + CrossArm.left arm).

Definition vertical_arm (p : Z * Z) : list (Z * Z) :=
  let arm := rd arms (snd p * width + fst p) in
  (fun t => (fst p, snd p + t))
    <$> seqZ (- CrossArm.top arm) (CrossArm.bottom arm + 1 + CrossArm.top arm).

(** The region summed for [(x, y)] by the two passes, one row per pixel
    of the arm that the second pass walks: with [horizontal_first] the
    second pass walks the vertical arm of [(x, y)] and each of its pixels
    contributes its horizontal arm. *)
Definition cross_region (horizontal_first : bool) (p : Z * Z)
    : list (list (Z * Z)) :=
  if horizontal_first then horizontal_arm <$> vertical_arm p
  else vertical_arm <$> horizontal_arm p.

Definition region_size (rows : list (list (Z * Z))) : Z :=
  Z.of_nat (length (concat rows)).

(** The sum of the costs of the region, added up row by row in the
    order of the two passes. *)
Definition row_sum (cost : Z * Z -> float32) (row : list (Z * Z)) : float32 :=
  fold_left (fun acc q => F32.add acc (cost q)) row F32.zero.

Definition region_sum (cost : Z * Z -> float32) (rows : list (list (Z * Z)))
    : float32 :=
  fold_left (fun acc row => F32.add acc (row_sum cost row)) rows F32.zero.

(** Every arm stays inside the image. *)
Definition arms_in_bounds : bool :=
  forallb (fun p =>
    let arm := rd arms (snd p * width + fst p) in
    (0 <=? CrossArm.left arm) && (CrossArm.left arm <=? fst p)
    && (0 <=? CrossArm.right arm) && (fst p + CrossArm.right arm <? width)
    && (0 <=? CrossArm.top arm) && (CrossArm.top arm <=? snd p)
    && (0 <=? CrossArm.bottom arm) && (snd p + CrossArm.bottom arm <? height))
    (row_major width height).

End Region.

End RegionSpec.

(** ** multistep_refiner.cpp *)

Module MultiStepRefiner.

(** [v.empty()]. *)
Definition is_empty {A} (l : list A) : bool :=
  match l with [] => true | _ => false end.

(** Modelled from the spec: [adcensus_util::MedianFilter] is declared in
    adcensus_util.h, whose implementation is not among the sources.  The
    specification describes a 3 x 3 median on the raw values, in place:
    the window of a pixel holds the values of its neighbours that lie
    inside the image, read from the buffer that is being rewritten in
    scanline order, and the pixel receives the middle element of the
    sorted window. *)
Fixpoint insert_sorted (v : float32) (l : list float32) : list float32 :=
  match l with
  | [] => [v]
  | u :: l' => if F32.ltb v u then v :: l else u :: insert_sorted v l'
  end.

Definition sort_window (l : list float32) : list float32 :=
  fold_right insert_sorted [] l.

Definition MedianFilter (disp : list float32) (width height wnd_size : Z)
    : list float32 :=
  let radius := wnd_size / 2 in
  for_loop 0 height (fun y =>
    for_loop 0 width (fun x disp =>
      let wnd_data :=
        for_loop (- radius) (radius + 1) (fun r =>
          for_loop (- radius) (radius + 1) (fun c wnd_data =>
            let row := y + r in
            let col := x + c in
            if (0 <=? row) && (row <? height) && (0 <=? col) && (col <? width)
            then wnd_data ++ [rd disp (row * width + col)]
            else wnd_data)) [] in
      wr disp (y * width + x)
         (rd (sort_window wnd_data) (Z.of_nat (length wnd_data) / 2)))) disp.

Section Methods.

(** The members the methods below read without changing them. *)
Variables (width_ height_ : Z) (img_left_ : list Z).
Variables (cost_ : list float32) (cross_arms_ : list CrossArm.t).
Variables (disp_right_ : list float32).
Variables (min_disparity_ max_disparity_ irv_ts_ : Z).
Variables (irv_th_ lrcheck_thres_ : float32).

(** The state of [OutlierDetection]: the left disparity map and the two
    lists, [occlusions_] and [mismatches_]. *)
Definition OutlierDetection (disp_left_ : list float32)
    : list float32 * list (Z * Z) * list (Z * Z) :=
  let width := width_ in
  let height := height_ in
  let threshold := lrcheck_thres_ in
  for_loop 0 height (fun y =>
    for_loop 0 width (fun x '(disp_left_, occlusions, mismatches) =>
      let disp := rd disp_left_ (y * width + x) in
      if F32.eqb disp Invalid_Float then
        (disp_left_, occlusions, mismatches ++ [(x, y)])
      else
        let col_right := F32.lround (F32.sub (F32.of_Z x) disp) in
        if (0 <=? col_right) && (col_right <? width) then
          let disp_r := rd disp_right_ (y * width + col_right) in
          if F32.gtb (F32.abs (F32.sub disp disp_r)) threshold then
            let col_rl :=
              to_sint32 (F32.lround (F32.add (F32.of_Z col_right) disp_r)) in
            let '(occlusions, mismatches) :=
              if (0 <? col_rl) && (col_rl <? width) then
                let disp_l := rd disp_left_ (y * width + col_rl) in
                if F32.gtb disp_l disp then (occlusions ++ [(x, y)], mismatches)
                else (occlusions, mismatches ++ [(x, y)])
              else (occlusions, mismatches ++ [(x, y)]) in
            (wr disp_left_ (y * width + x) Invalid_Float, occlusions, mismatches)
          else (disp_left_, occlusions, mismatches)
        else
          (wr disp_left_ (y * width + x) Invalid_Float,
           occlusions, mismatches ++ [(x, y)])))
    (disp_left_, [], []).

(** [memset(&histogram[0], 0, n * sizeof(sint32))]. *)
Definition memset_zero (histogram : list Z) (n : Z) : list Z :=
  for_loop 0 n (fun d histogram => wr histogram d 0) histogram.

(** The body of the loop over the pixels of a list in
    [IterativeRegionVoting]: the state is the disparity map and the
    histogram. *)
Definition vote_pixel (pix : Z * Z) (st : list float32 * list Z)
    : list float32 * list Z :=
  let '(disp_left_, histogram) := st in
  let width := width_ in
  let disp_range := max_disparity_ - min_disparity_ in
  let arms := cross_arms_ in
  let x := fst pix in
  let y := snd pix in
  let disp := rd disp_left_ (y * width + x) in
  if F32.neqb disp Invalid_Float then st
  else
    let histogram := memset_zero histogram disp_range in
    let arm := rd arms (y * width + x) in
    let histogram :=
      for_loop (- CrossArm.top arm) (CrossArm.bottom arm + 1) (fun t histogram =>
        let yt := y + t in
        let arm2 := rd arms (yt * width_ + x) in
        for_loop (- CrossArm.left arm2) (CrossArm.right arm2 + 1)
          (fun s histogram =>
            let d := rd disp_left_ (yt * width + x + s) in
            if F32.neqb d Invalid_Float then
              let di := F32.lround d in
              wr histogram (di - min_disparity_)
                 (rd histogram (di - min_disparity_) + 1)
            else histogram) histogram) histogram in
    let '(best_disp, count, max_ht) :=
      for_loop 0 disp_range (fun d '(best_disp, count, max_ht) =>
        let h := rd histogram d in
        let '(max_ht, best_disp) :=
          if max_ht <? h then (h, d) else (max_ht, best_disp) in
        (best_disp, count + h, max_ht)) (0, 0, 0) in
    let disp_left_ :=
      if 0 <? max_ht then
        if (irv_ts_ <? count)
           && F32.gtb (F32.div (F32.mul (F32.of_Z max_ht) (F32.of_Z 1))
                               (F32.of_Z count)) irv_th_
        then wr disp_left_ (y * width + x) (F32.of_Z (best_disp + min_disparity_))
        else disp_left_
      else disp_left_ in
    (disp_left_, histogram).

(** The loop that erases from a list the pixels that are no longer
    invalid. *)
Fixpoint erase_filled (disp_left_ : list float32) (trg_pixels : list (Z * Z))
    : list (Z * Z) :=
  match trg_pixels with
  | [] => []
  | pix :: rest =>
      if F32.neqb (rd disp_left_ (snd pix * width_ + fst pix)) Invalid_Float
      then erase_filled disp_left_ rest
      else pix :: erase_filled disp_left_ rest
  end.

(** The state of [IterativeRegionVoting]: the disparity map, [mismatches_]
    and [occlusions_]. *)
Definition IterativeRegionVoting
    (st : list float32 * list (Z * Z) * list (Z * Z))
    : list float32 * list (Z * Z) * list (Z * Z) :=
  let disp_range := max_disparity_ - min_disparity_ in
  if disp_range <=? 0 then st
  else
    let histogram : list Z := replicate (Z.to_nat disp_range) 0 in
    let num_iters := 5 in
    fst (for_loop 0 num_iters (fun it =>
      for_loop 0 2 (fun k '(disp_left_, mismatches_, occlusions_, histogram) =>
        let trg_pixels := if k =? 0 then mismatches_ else occlusions_ in
        let '(disp_left_, histogram) :=
          fold_left (fun st pix => vote_pixel pix st) trg_pixels
                    (disp_left_, histogram) in
        let trg_pixels := erase_filled disp_left_ trg_pixels in
        if k =? 0 then (disp_left_, trg_pixels, occlusions_, histogram)
        else (disp_left_, mismatches_, trg_pixels, histogram)))
      (st, histogram)).

Section Interpolation.

(** The points of the 16 rays.  [ProperInterpolation] computes them with
    [sin] and [cos] in double precision, which are not modelled:
    [ray_yy s m y] stands for [lround(y + m * sin(ang))] and
    [ray_xx s m x] for [lround(x + m * cos(ang))], where [ang] is the
    angle of ray [s]. *)
Variables (ray_yy ray_xx : Z -> Z -> Z -> Z).

(** The loop over [m] along ray [s]: the first valid disparity, with the
    image offset of its pixel. *)
Fixpoint ray_search (disp_left_ : list float32) (s x y : Z) (ms : list Z)
    : option (Z * float32) :=
  match ms with
  | [] => None
  | m :: ms' =>
      let yy := ray_yy s m y in
      let xx := ray_xx s m x in
      if (yy <? 0) || (height_ <=? yy) || (xx <? 0) || (width_ <=? xx) then None
      else
        let d := rd disp_left_ (yy * width_ + xx) in
        if F32.neqb d Invalid_Float then Some (yy * width_ * 3 + 3 * xx, d)
        else ray_search disp_left_ s x y ms'
  end.

Definition collect (disp_left_ : list float32) (x y : Z)
    : list (Z * float32) :=
  let max_search_length :=
    Z.max (Z.abs max_disparity_) (Z.abs min_disparity_) in
  for_loop 0 16 (fun s disp_collects =>
    match ray_search disp_left_ s x y (seqZ 1 (max_search_length - 1)) with
    | Some dc => disp_collects ++ [dc]
    | None => disp_collects
    end) [].

(** The value chosen among the collected candidates: for a mismatch
    ([k = 0]) the disparity of the candidate closest in colour, for an
    occlusion the smallest disparity. *)
Definition choose (k x y : Z) (disp_collects : list (Z * float32)) : float32 :=
  if k =? 0 then
    let width := width_ in
    let color := color_at img_left_ (y * width * 3 + 3 * x) in
    snd (fold_left (fun '(min_dist, d) dc =>
           let color2 := color_at img_left_ (fst dc) in
           let dist :=
             Z.abs (r_ color - r_ color2) + Z.abs (g_ color - g_ color2)
             + Z.abs (b_ color - b_ color2) in
           if dist <? min_dist then (dist, snd dc) else (min_dist, d))
         disp_collects (9999, F32.zero))
  else
    fold_left (fun min_disp dc => F32.std_min min_disp (snd dc))
      disp_collects Large_Float.

(** The first loop over a list: the fill values, computed from the
    disparity map as it is before any of them is written. *)
Definition fill_values (k : Z) (disp_left_ : list float32)
    (trg_pixels : list (Z * Z)) : list float32 :=
  for_loop 0 (Z.of_nat (length trg_pixels)) (fun n fill_disps =>
    let pix := rd trg_pixels n in
    let x := fst pix in
    let y := snd pix in
    let disp_collects := collect disp_left_ x y in
    if is_empty disp_collects then fill_disps
    else wr fill_disps n (choose k x y disp_collects))
    (replicate (length trg_pixels) F32.zero).

Definition ProperInterpolation (mismatches_ occlusions_ : list (Z * Z))
    (disp_left_ : list float32) : list float32 :=
  let width := width_ in
  for_loop 0 2 (fun k disp_left_ =>
    let trg_pixels := if k =? 0 then mismatches_ else occlusions_ in
    if is_empty trg_pixels then disp_left_
    else
      let fill_disps := fill_values k disp_left_ trg_pixels in
      for_loop 0 (Z.of_nat (length trg_pixels)) (fun n disp_left_ =>
        let pix := rd trg_pixels n in
        let x := fst pix in
        let y := snd pix in
        wr disp_left_ (y * width + x) (rd fill_disps n)) disp_left_)
    disp_left_.

End Interpolation.

Definition EdgeDetect (edge_mask : list Z) (disp_ptr : list float32)
    (width height : Z) (threshold : float32) : list Z :=
  let edge_mask := for_loop 0 (width * height) (fun i m => wr m i 0) edge_mask in
  let at_ (i : Z) := rd disp_ptr i in
  let two := F32.of_Z 2 in
  for_loop 1 (height - 1) (fun y =>
    for_loop 1 (width - 1) (fun x edge_mask =>
      let grad_x :=
        F32.add
          (F32.add
             (F32.add (SFopp (at_ ((y - 1) * width + x - 1)))
                      (at_ ((y - 1) * width + x + 1)))
             (F32.add (F32.mul (F32.of_Z (-2)) (at_ (y * width + x - 1)))
                      (F32.mul two (at_ (y * width + x + 1)))))
          (F32.add (SFopp (at_ ((y + 1) * width + x - 1)))
                   (at_ ((y + 1) * width + x + 1))) in
      let grad_y :=
        F32.add
          (F32.sub
             (F32.sub (SFopp (at_ ((y - 1) * width + x - 1)))
                      (F32.mul two (at_ ((y - 1) * width + x))))
             (at_ ((y - 1) * width + x + 1)))
          (F32.add
             (F32.add (at_ ((y + 1) * width + x - 1))
                      (F32.mul two (at_ ((y + 1) * width + x))))
             (at_ ((y + 1) * width + x + 1))) in
      let grad := F32.add (F32.abs grad_x) (F32.abs grad_y) in
      if F32.gtb grad threshold then wr edge_mask (y * width + x) 1
      else edge_mask)) edge_mask.

(** The state of [DepthDiscontinuityAdjustment]: the edge mask
    [vec_edge_left_] and the disparity map. *)
Definition DepthDiscontinuityAdjustment (st : list Z * list float32)
    : list Z * list float32 :=
  let '(vec_edge_left_, disp_left_) := st in
  let width := width_ in
  let height := height_ in
  let disp_range := max_disparity_ - min_disparity_ in
  if disp_range <=? 0 then st
  else
    let edge_thres := F32.of_Z 5 in
    let vec_edge_left_ :=
      EdgeDetect vec_edge_left_ disp_left_ width height edge_thres in
    (vec_edge_left_,
     for_loop 0 height (fun y =>
       for_loop 1 (width - 1) (fun x disp_left_ =>
         let e_label := rd vec_edge_left_ (y * width + x) in
         if e_label =? 1 then
           let disp_ptr := y * width in
           let d := rd disp_left_ (disp_ptr + x) in
           if F32.neqb d Invalid_Float then
             let di := to_sint32 (F32.lround d) in
             let cost_ptr := y * width * disp_range + x * disp_range in
             let c0 := rd cost_ (cost_ptr + di) in
             fst (for_loop 0 2 (fun k '(disp_left_, c0) =>
               let x2 := if k =? 0 then x - 1 else x + 1 in
               let d2 := rd disp_left_ (disp_ptr + x2) in
               let d2i := to_sint32 (F32.lround d2) in
               if F32.neqb d2 Invalid_Float then
                 let c :=
                   if k =? 0 then rd cost_ (cost_ptr + - disp_range + d2i)
                   else rd cost_ (cost_ptr + disp_range + d2i) in
                 if F32.ltb c c0 then (wr disp_left_ (disp_ptr + x) d2, c)
                 else (disp_left_, c0)
               else (disp_left_, c0)) (disp_left_, c0))
           else disp_left_
         else disp_left_)) disp_left_).

End Methods.

(** The object.  The buffers that [SetData] points the refiner to belong
    to the caller: [Refine] receives them and returns the rewritten left
    disparity map. *)
Record t := mk {
  width_ : Z;
  height_ : Z;
  min_disparity_ : Z;
  max_disparity_ : Z;
  irv_ts_ : Z;
  irv_th_ : float32;
  lrcheck_thres_ : float32;
  do_lr_check_ : bool;
  do_region_voting_ : bool;
  do_interpolating_ : bool;
  do_discontinuity_adjustment_ : bool;
  vec_edge_left_ : list Z;
  occlusions_ : list (Z * Z);
  mismatches_ : list (Z * Z)
}.

Definition new : t :=
  mk 0 0 0 0 0 F32.zero F32.zero false false false false [] [] [].

(** [Initialize]: the edge mask has the [sint32] product
    [width * height] as its size; a negative product makes [resize]
    throw, after [clear]. *)
Definition Initialize (width height : Z) (o : t) : outcome t (bool * t) :=
  let o' edge :=
    mk width height (min_disparity_ o) (max_disparity_ o) (irv_ts_ o)
       (irv_th_ o) (lrcheck_thres_ o) (do_lr_check_ o) (do_region_voting_ o)
       (do_interpolating_ o) (do_discontinuity_adjustment_ o)
       edge (occlusions_ o) (mismatches_ o) in
  if (width <=? 0) || (height <=? 0) then Returns (false, o' (vec_edge_left_ o))
  else
    let size := to_sint32 (width * height) in
    if size <? 0 then Throws length_error (o' [])
    else Returns (true, o' (replicate (Z.to_nat size) 0)).

Definition SetParam (min_disparity max_disparity irv_ts : Z)
    (irv_th lrcheck_thres : float32)
    (do_lr_check do_region_voting do_interpolating
     do_discontinuity_adjustment : bool) (o : t) : t :=
  mk (width_ o) (height_ o) min_disparity max_disparity irv_ts irv_th
     lrcheck_thres do_lr_check do_region_voting do_interpolating
     do_discontinuity_adjustment
     (vec_edge_left_ o) (occlusions_ o) (mismatches_ o).

Section Refine.

Variables (ray_yy ray_xx : Z -> Z -> Z -> Z).

(** [Refine], for the buffers handed over by [SetData]; [None] is a null
    pointer.  The result is the refiner and the left disparity map. *)
Definition Refine (img_left_ : list Z) (cost_ : option (list float32))
    (cross_arms_ : option (list CrossArm.t))
    (disp_left_ disp_right_ : option (list float32)) (o : t)
    : t * option (list float32) :=
  match disp_left_, disp_right_, cost_, cross_arms_ with
  | Some disp_left, Some disp_right, Some cost, Some cross_arms =>
      if (width_ o <=? 0) || (height_ o <=? 0) then (o, disp_left_)
      else
        (* step1: outlier detection *)
        let '(disp_left, occlusions, mismatches) :=
          if do_lr_check_ o then
            OutlierDetection (width_ o) (height_ o) disp_right
                             (lrcheck_thres_ o) disp_left
          else (disp_left, occlusions_ o, mismatches_ o) in
        (* step2: iterative region voting *)
        let '(disp_left, mismatches, occlusions) :=
          if do_region_voting_ o then
            IterativeRegionVoting (width_ o) cross_arms
              (min_disparity_ o) (max_disparity_ o) (irv_ts_ o) (irv_th_ o)
              (disp_left, mismatches, occlusions)
          else (disp_left, mismatches, occlusions) in
        (* step3: proper interpolation *)
        let disp_left :=
          if do_interpolating_ o then
            ProperInterpolation (width_ o) (height_ o) img_left_
              (min_disparity_ o) (max_disparity_ o) ray_yy ray_xx
              mismatches occlusions disp_left
          else disp_left in
        (* step4: discontinuities adjustment *)
        let '(edge, disp_left) :=
          if do_discontinuity_adjustment_ o then
            DepthDiscontinuityAdjustment (width_ o) (height_ o) cost
              (min_disparity_ o) (max_disparity_ o)
              (vec_edge_left_ o, disp_left)
          else (vec_edge_left_ o, disp_left) in
        (* median filter *)
        let disp_left := MedianFilter disp_left (width_ o) (height_ o) 3 in
        (mk (width_ o) (height_ o) (min_disparity_ o) (max_disparity_ o)
            (irv_ts_ o) (irv_th_ o) (lrcheck_thres_ o) (do_lr_check_ o)
            (do_region_voting_ o) (do_interpolating_ o)
            (do_discontinuity_adjustment_ o) edge occlusions mismatches,
         Some disp_left)
  | _, _, _, _ => (o, disp_left_)
  end.

End Refine.

End MultiStepRefiner.

(** ** scanline_optimizer.cpp *)

Module ScanlineOptimizer.

(** Conversion to [uint8]. *)
Definition to_uint8 (n : Z) : Z := n mod 256.

Section Methods.

(** The members, set by [SetData] and [SetParam]. *)
Variables (width_ height_ : Z) (img_left_ img_right_ : list Z).
Variables (min_disparity_ max_disparity_ : Z).
Variables (so_p1_ so_p2_ : float32) (so_tso_ : Z).

(** The selection of [P1] and [P2] from the two colour distances. *)
Definition penalties (d1 d2 : Z) : float32 * float32 :=
  let p1 := so_p1_ in
  let p2 := so_p2_ in
  let tso := so_tso_ in
  if (d1 <? tso) && (d2 <? tso) then (p1, p2)
  else if (d1 <? tso) && (tso <=? d2) then
    (F32.div p1 (F32.of_Z 4), F32.div p2 (F32.of_Z 4))
  else if (tso <=? d1) && (d2 <? tso) then
    (F32.div p1 (F32.of_Z 4), F32.div p2 (F32.of_Z 4))
  else if (tso <=? d1) && (tso <=? d2) then
    (F32.div p1 (F32.of_Z 10), F32.div p2 (F32.of_Z 10))
  else (F32.zero, F32.zero).

(** The cost of one disparity at one pixel of a path. *)
Definition path_cost (cost : float32) (cost_last_path : list float32)
    (mincost_last_path : float32) (d : Z) (P1 P2 : float32) : float32 :=
  let l1 := rd cost_last_path (d + 1) in
  let l2 := F32.add (rd cost_last_path d) P1 in
  let l3 := F32.add (rd cost_last_path (d + 2)) P1 in
  let l4 := F32.add mincost_last_path P2 in
  let cost_s :=
    F32.add cost (F32.std_min (F32.std_min l1 l2) (F32.std_min l3 l4)) in
  F32.div cost_s (F32.of_Z 2).

(** The loop over the disparities at one pixel of a path.  [right_pixel]
    and [right_last] give the image offsets of the two pixels of the right
    image whose colours are compared at column [xr]; [src] and [dst] are
    the offsets of the pixel in the source and destination volumes.  The
    state is [d2], the destination volume and [min_cost]. *)
Definition disparity_loop (cost_so_src : list float32)
    (right_pixel right_last : Z -> Z) (x src dst d1 : Z)
    (cost_last_path : list float32) (mincost_last_path : float32)
    (cost_so_dst : list float32) : Z * list float32 * float32 :=
  let width := width_ in
  let disp_range := max_disparity_ - min_disparity_ in
  for_loop 0 disp_range (fun d '(d2, cost_so_dst, min_cost) =>
    let xr := x - d - min_disparity_ in
    let d2 :=
      if (0 <? xr) && (xr <? width - 1) then
        to_uint8 (ColorDist (color_at img_right_ (right_pixel xr))
                            (color_at img_right_ (right_last xr)))
      else d2 in
    let '(P1, P2) := penalties d1 d2 in
    let cost := rd cost_so_src (src + d) in
    let cost_s := path_cost cost cost_last_path mincost_last_path d P1 P2 in
    (d2, wr cost_so_dst (dst + d) cost_s, F32.std_min min_cost cost_s))
    (d1, cost_so_dst, Large_Float).

(** The minimum of the padded costs of the first pixel of a path. *)
Definition min_of_path (cost_last_path : list float32) : float32 :=
  fold_left F32.std_min cost_last_path Large_Float.

(** The state of the loop along a path: the destination volume, the
    offsets of the current pixel in the source and destination volumes and
    in the left image, its coordinate along the path, the last colour,
    and the costs and the minimal cost of the last pixel. *)
Record path_state := mk_path {
  ps_dst : list float32;
  ps_cost_init : Z;
  ps_cost_aggr : Z;
  ps_img : Z;
  ps_pos : Z;
  ps_color_last : ADColor;
  ps_cost_last_path : list float32;
  ps_mincost_last_path : float32
}.

(** The two sweeps begin with
    [assert(width > 0 && height > 0 && max_disparity > min_disparity)]:
    their result is [None] when the assertion fails and the program ends
    there (the build keeps its assertions: [NDEBUG] is not defined). *)
Definition ScanlineOptimizeLeftRight (cost_so_src cost_so_dst : list float32)
    (is_forward : bool) : option (list float32) :=
  let width := width_ in
  let height := height_ in
  let min_disparity := min_disparity_ in
  let max_disparity := max_disparity_ in
  if negb ((0 <? width) && (0 <? height) && (min_disparity <? max_disparity))
  then None
  else
  let disp_range := max_disparity - min_disparity in
  let direction := if is_forward then 1 else -1 in
  Some (for_loop 0 height (fun y cost_so_dst =>
    let cost_init_row :=
      if is_forward then y * width * disp_range
      else y * width * disp_range + (width - 1) * disp_range in
    let cost_aggr_row :=
      if is_forward then y * width * disp_range
      else y * width * disp_range + (width - 1) * disp_range in
    let img_row :=
      if is_forward then y * width * 3 else y * width * 3 + 3 * (width - 1) in
    let img_row_r := y * width * 3 in
    let x := if is_forward then 0 else width - 1 in
    let color := color_at img_left_ img_row in
    let color_last := color in
    let cost_last_path := replicate (Z.to_nat (disp_range + 2)) Large_Float in
    let cost_so_dst :=
      memcpy cost_so_dst cost_aggr_row cost_so_src cost_init_row disp_range in
    let cost_last_path :=
      memcpy cost_last_path 1 cost_so_dst cost_aggr_row disp_range in
    let mincost_last_path := min_of_path cost_last_path in
    ps_dst
      (for_loop 0 (width - 1) (fun j st =>
         let color := color_at img_left_ (ps_img st) in
         let d1 := to_uint8 (ColorDist color (ps_color_last st)) in
         let '(_, cost_so_dst, min_cost) :=
           disparity_loop cost_so_src
             (fun xr => img_row_r + 3 * xr)
             (fun xr => img_row_r + 3 * (xr - direction))
             (ps_pos st) (ps_cost_init st) (ps_cost_aggr st) d1
             (ps_cost_last_path st) (ps_mincost_last_path st) (ps_dst st) in
         mk_path cost_so_dst
           (ps_cost_init st + direction * disp_range)
           (ps_cost_aggr st + direction * disp_range)
           (ps_img st + direction * 3)
           (ps_pos st + direction)
           color
           (memcpy (ps_cost_last_path st) 1 cost_so_dst (ps_cost_aggr st) disp_range)
           min_cost)
         (mk_path cost_so_dst
            (cost_init_row + direction * disp_range)
            (cost_aggr_row + direction * disp_range)
            (img_row + direction * 3)
            (x + direction)
            color_last cost_last_path mincost_last_path)))
    cost_so_dst).

Definition ScanlineOptimizeUpDown (cost_so_src cost_so_dst : list float32)
    (is_forward : bool) : option (list float32) :=
  let width := width_ in
  let height := height_ in
  let min_disparity := min_disparity_ in
  let max_disparity := max_disparity_ in
  if negb ((0 <? width) && (0 <? height) && (min_disparity <? max_disparity))
  then None
  else
  let disp_range := max_disparity - min_disparity in
  let direction := if is_forward then 1 else -1 in
  Some (for_loop 0 width (fun x cost_so_dst =>
    let cost_init_col :=
      if is_forward then x * disp_range
      else (height - 1) * width * disp_range + x * disp_range in
    let cost_aggr_col :=
      if is_forward then x * disp_range
      else (height - 1) * width * disp_range + x * disp_range in
    let img_col :=
      if is_forward then 3 * x else (height - 1) * width * 3 + 3 * x in
    let y := if is_forward then 0 else height - 1 in
    let color := color_at img_left_ img_col in
    let color_last := color in
    let cost_last_path := replicate (Z.to_nat (disp_range + 2)) Large_Float in
    let cost_so_dst :=
      memcpy cost_so_dst cost_aggr_col cost_so_src cost_init_col disp_range in
    let cost_last_path :=
      memcpy cost_last_path 1 cost_so_dst cost_aggr_col disp_range in
    let mincost_last_path := min_of_path cost_last_path in
    ps_dst
      (for_loop 0 (height - 1) (fun i st =>
         let color := color_at img_left_ (ps_img st) in
         let d1 := to_uint8 (ColorDist color (ps_color_last st)) in
         let y := ps_pos st in
         let '(_, cost_so_dst, min_cost) :=
           disparity_loop cost_so_src
             (fun xr => y * width * 3 + 3 * xr)
             (fun xr => (y - direction) * width * 3 + 3 * xr)
             x (ps_cost_init st) (ps_cost_aggr st) d1
             (ps_cost_last_path st) (ps_mincost_last_path st) (ps_dst st) in
         mk_path cost_so_dst
           (ps_cost_init st + direction * width * disp_range)
           (ps_cost_aggr st + direction * width * disp_range)
           (ps_img st + direction * width * 3)
           (ps_pos st + direction)
           color
           (memcpy (ps_cost_last_path st) 1 cost_so_dst (ps_cost_aggr st) disp_range)
           min_cost)
         (mk_path cost_so_dst
            (cost_init_col + direction * width * disp_range)
            (cost_aggr_col + direction * width * disp_range)
            (img_col + direction * width * 3)
            (y + direction)
            color_last cost_last_path mincost_last_path)))
    cost_so_dst).

(** [Optimize], on the two volumes [cost_init_] and [cost_aggr_]; the
    result is the pair of volumes after the four sweeps, or [None] when
    the assertion of a sweep fails. *)
Definition Optimize (cost_init_ cost_aggr_ : list float32)
    : option (list float32 * list float32) :=
  (* left to right *)
  cost_init_ ← ScanlineOptimizeLeftRight cost_aggr_ cost_init_ true;
  (* right to left *)
  cost_aggr_ ← ScanlineOptimizeLeftRight cost_init_ cost_aggr_ false;
  (* up to down *)
  cost_init_ ← ScanlineOptimizeUpDown cost_aggr_ cost_init_ true;
  (* down to up *)
  cost_aggr_ ← ScanlineOptimizeUpDown cost_init_ cost_aggr_ false;
  Some (cost_init_, cost_aggr_).

End Methods.

(** [Optimize] with its guard.  In the arguments and in the pair of the
    result, [None] is a null pointer; the result is [None] when the
    assertion of a sweep fails. *)
Definition Optimize_guarded (width_ height_ : Z)
    (img_left_ img_right_ : option (list Z))
    (min_disparity_ max_disparity_ : Z) (so_p1_ so_p2_ : float32) (so_tso_ : Z)
    (cost_init_ cost_aggr_ : option (list float32))
    : option (option (list float32) * option (list float32)) :=
  match img_left_, img_right_, cost_init_, cost_aggr_ with
  | Some img_left, Some img_right, Some cost_init, Some cost_aggr =>
      if (width_ <=? 0) || (height_ <=? 0) then Some (cost_init_, cost_aggr_)
      else
        '(cost_init, cost_aggr) ←
          Optimize width_ height_ img_left img_right
                   min_disparity_ max_disparity_ so_p1_ so_p2_ so_tso_
                   cost_init cost_aggr;
        Some (Some cost_init, Some cost_aggr)
  | _, _, _, _ => Some (cost_init_, cost_aggr_)
  end.

End ScanlineOptimizer.

(** ** ADCensusStereo.cpp *)

(** Modelled from the spec: [ADCensusOption] is declared in
    adcensus_types.h, which is not among the sources; the fields are the
    configuration values that the specification enumerates. *)
Module ADCensusOption.
Record t := mk {
  min_disparity : Z;
  max_disparity : Z;
  lambda_ad : float32;
  lambda_census : float32;
  cross_L1 : Z;
  cross_L2 : Z;
  cross_t1 : Z;
  cross_t2 : Z;
  so_p1 : float32;
  so_p2 : float32;
  so_tso : Z;
  irv_ts : Z;
  irv_th : float32;
  lrcheck_thres : float32;
  do_lr_check : bool;
  do_filling : bool;
  do_discontinuity_adjustment : bool
}.
End ADCensusOption.

Module ADCensusStereo.

Section Pickers.

Variables (width_ height_ : Z) (option_ : ADCensusOption.t).

(** The parabola fit shared by the two pickers. *)
Definition subpixel (best_disparity : Z) (cost_1 cost_2 min_cost : float32)
    : float32 :=
  let denom :=
    F32.sub (F32.add cost_1 cost_2) (F32.mul (F32.of_Z 2) min_cost) in
  if F32.neqb denom F32.zero then
    F32.add (F32.of_Z best_disparity)
            (F32.div (F32.sub cost_1 cost_2) (F32.mul denom (F32.of_Z 2)))
  else F32.of_Z best_disparity.

(** [ComputeDisparity]: [cost_ptr] is the aggregator's volume; the state
    of the loops is the left disparity map and [cost_local]. *)
Definition ComputeDisparity (cost_ptr : list float32)
    (disp_left_ : list float32) : list float32 :=
  let min_disparity := ADCensusOption.min_disparity option_ in
  let max_disparity := ADCensusOption.max_disparity option_ in
  let disp_range := max_disparity - min_disparity in
  if disp_range <=? 0 then disp_left_
  else
    let width := width_ in
    let height := height_ in
    let cost_local : list float32 := replicate (Z.to_nat disp_range) F32.zero in
    fst (for_loop 0 height (fun i =>
      for_loop 0 width (fun j '(disparity, cost_local) =>
        let '(min_cost, best_disparity, cost_local) :=
          for_loop min_disparity max_disparity
            (fun d '(min_cost, best_disparity, cost_local) =>
              let d_idx := d - min_disparity in
              let cost :=
                rd cost_ptr (i * width * disp_range + j * disp_range + d_idx) in
              let cost_local := wr cost_local d_idx cost in
              if F32.gtb min_cost cost then (cost, d, cost_local)
              else (min_cost, best_disparity, cost_local))
            (Large_Float, 0, cost_local) in
        if (best_disparity =? min_disparity)
           || (best_disparity =? max_disparity - 1) then
          (wr disparity (i * width + j) Invalid_Float, cost_local)
        else
          let idx_1 := best_disparity - 1 - min_disparity in
          let idx_2 := best_disparity + 1 - min_disparity in
          let cost_1 := rd cost_local idx_1 in
          let cost_2 := rd cost_local idx_2 in
          (wr disparity (i * width + j)
              (subpixel best_disparity cost_1 cost_2 min_cost),
           cost_local)))
      (disp_left_, cost_local)).

Definition ComputeDisparityRight (cost_ptr : list float32)
    (disp_right_ : list float32) : list float32 :=
  let min_disparity := ADCensusOption.min_disparity option_ in
  let max_disparity := ADCensusOption.max_disparity option_ in
  let disp_range := max_disparity - min_disparity in
  if disp_range <=? 0 then disp_right_
  else
    let width := width_ in
    let height := height_ in
    let cost_local : list float32 := replicate (Z.to_nat disp_range) F32.zero in
    fst (for_loop 0 height (fun i =>
      for_loop 0 width (fun j '(disparity, cost_local) =>
        let '(min_cost, best_disparity, cost_local) :=
          for_loop min_disparity max_disparity
            (fun d '(min_cost, best_disparity, cost_local) =>
              let d_idx := d - min_disparity in
              let col_left := j + d in
              if (0 <=? col_left) && (col_left <? width) then
                let cost :=
                  rd cost_ptr (i * width * disp_range + col_left * disp_range
                               + d_idx) in
                let cost_local := wr cost_local d_idx cost in
                if F32.gtb min_cost cost then (cost, d, cost_local)
                else (min_cost, best_disparity, cost_local)
              else
                (min_cost, best_disparity, wr cost_local d_idx Large_Float))
            (Large_Float, 0, cost_local) in
        if (best_disparity =? min_disparity)
           || (best_disparity =? max_disparity - 1) then
          (wr disparity (i * width + j) (F32.of_Z best_disparity), cost_local)
        else
          let idx_1 := best_disparity - 1 - min_disparity in
          let idx_2 := best_disparity + 1 - min_disparity in
          let cost_1 := rd cost_local idx_1 in
          let cost_2 := rd cost_local idx_2 in
          (wr disparity (i * width + j)
              (subpixel best_disparity cost_1 cost_2 min_cost),
           cost_local)))
      (disp_right_, cost_local)).

End Pickers.

Section Object.

(** The cost computer (cost_computer.cpp) is not among the sources: its
    state and its methods are parameters.  [CostComputer_put_cost] stands
    for a write through the pointer that [get_cost_ptr] returns, which the
    scanline optimiser uses as its second volume. *)
Variable CostComputer : Type.
Variable CostComputer_new : CostComputer.
Variable CostComputer_Initialize :
  Z -> Z -> Z -> Z -> CostComputer -> bool * CostComputer.
Variable CostComputer_Compute :
  list Z -> list Z -> float32 -> float32 -> CostComputer -> CostComputer.
Variable CostComputer_get_cost_ptr : CostComputer -> option (list float32).
Variable CostComputer_put_cost :
  option (list float32) -> CostComputer -> CostComputer.

(** The tables of ray points of the refiner's interpolation. *)
Variables (ray_yy ray_xx : Z -> Z -> Z -> Z).

(** The object; [None] is a null pointer. *)
Record t := mk {
  width_ : Z;
  height_ : Z;
  option_ : ADCensusOption.t;
  img_left_ : option (list Z);
  img_right_ : option (list Z);
  disp_left_ : option (list float32);
  disp_right_ : option (list float32);
  is_initialized_ : bool;
  cost_computer_ : CostComputer;
  aggregator_ : CrossAggregator.t;
  refiner_ : MultiStepRefiner.t
}.

(** The constructor. *)
Definition new : t :=
  mk 0 0
     (ADCensusOption.mk 0 0 F32.zero F32.zero 0 0 0 0 F32.zero F32.zero 0 0
        F32.zero F32.zero false false false)
     None None None None false
     CostComputer_new CrossAggregator.new MultiStepRefiner.new.

(** [new float32[n]] for [n >= 0]: the model fills the fresh buffer with
    zeros. *)
Definition new_float32 (n : Z) : option (list float32) :=
  Some (replicate (Z.to_nat n) F32.zero).

Definition is_null {A} (p : option A) : bool :=
  match p with None => true | Some _ => false end.

Definition put_aggregator (o : t) (ag : CrossAggregator.t) : t :=
  mk (width_ o) (height_ o) (option_ o) (img_left_ o) (img_right_ o)
     (disp_left_ o) (disp_right_ o) (is_initialized_ o)
     (cost_computer_ o) ag (refiner_ o).

Definition put_refiner (o : t) (rf : MultiStepRefiner.t) : t :=
  mk (width_ o) (height_ o) (option_ o) (img_left_ o) (img_right_ o)
     (disp_left_ o) (disp_right_ o) (is_initialized_ o)
     (cost_computer_ o) (aggregator_ o) rf.

(** [Initialize].  The size of the two disparity maps is the [sint32]
    product [width_ * height_]; [new float32[img_size]] with a negative
    size throws before anything else is changed.  The flag
    [is_initialized_] is written on the paths that follow the
    allocations only. *)
Definition Initialize (width height : Z) (option : ADCensusOption.t) (o : t)
    : outcome t (bool * t) :=
  (* width_ = width; height_ = height; option_ = option *)
  let o := mk width height option (img_left_ o) (img_right_ o)
              (disp_left_ o) (disp_right_ o) (is_initialized_ o)
              (cost_computer_ o) (aggregator_ o) (refiner_ o) in
  if (width <=? 0) || (height <=? 0) then Returns (false, o)
  else
    let img_size := to_sint32 (width_ o * height_ o) in
    let disp_range :=
      to_sint32 (ADCensusOption.max_disparity (option_ o)
                 - ADCensusOption.min_disparity (option_ o)) in
    if disp_range <=? 0 then Returns (false, o)
    else if img_size <? 0 then Throws bad_array_new_length o
    else
      let disp_left := new_float32 img_size in
      let disp_right := new_float32 img_size in
      let o := mk (width_ o) (height_ o) (option_ o) (img_left_ o)
                  (img_right_ o) disp_left disp_right (is_initialized_ o)
                  (cost_computer_ o) (aggregator_ o) (refiner_ o) in
      let '(ok_c, cc) :=
        CostComputer_Initialize (width_ o) (height_ o)
          (ADCensusOption.min_disparity (option_ o))
          (ADCensusOption.max_disparity (option_ o)) (cost_computer_ o) in
      let o := mk (width_ o) (height_ o) (option_ o) (img_left_ o)
                  (img_right_ o) disp_left disp_right (is_initialized_ o)
                  cc (aggregator_ o) (refiner_ o) in
      if negb ok_c then
        Returns
          (false, mk (width_ o) (height_ o) (option_ o) (img_left_ o)
                     (img_right_ o) disp_left disp_right false
                     cc (aggregator_ o) (refiner_ o))
      else
        '(ok_a, ag) ←
          within (put_aggregator o)
            (CrossAggregator.Initialize (width_ o) (height_ o)
               (ADCensusOption.min_disparity (option_ o))
               (ADCensusOption.max_disparity (option_ o)) (aggregator_ o));
        let o := put_aggregator o ag in
        if negb ok_a then
          Returns
            (false, mk (width_ o) (height_ o) (option_ o) (img_left_ o)
                       (img_right_ o) disp_left disp_right false
                       cc ag (refiner_ o))
        else
          '(ok_r, rf) ←
            within (put_refiner o)
              (MultiStepRefiner.Initialize (width_ o) (height_ o) (refiner_ o));
          if negb ok_r then
            Returns
              (false, mk (width_ o) (height_ o) (option_ o) (img_left_ o)
                         (img_right_ o) disp_left disp_right false cc ag rf)
          else
            let ok := negb (is_null disp_left) && negb (is_null disp_right) in
            Returns
              (ok, mk (width_ o) (height_ o) (option_ o) (img_left_ o)
                      (img_right_ o) disp_left disp_right ok cc ag rf).

(** [Release]: [SAFE_DELETE] frees a buffer and nulls its pointer. *)
Definition Release (o : t) : t :=
  mk (width_ o) (height_ o) (option_ o) (img_left_ o) (img_right_ o)
     None None (is_initialized_ o)
     (cost_computer_ o) (aggregator_ o) (refiner_ o).

Definition Reset (width height : Z) (option : ADCensusOption.t) (o : t)
    : outcome t (bool * t) :=
  let o := Release o in
  let o := mk (width_ o) (height_ o) (option_ o) (img_left_ o) (img_right_ o)
              (disp_left_ o) (disp_right_ o) false
              (cost_computer_ o) (aggregator_ o) (refiner_ o) in
  Initialize (to_sint32 width) (to_sint32 height) option o.

Definition ComputeCost (o : t) : t :=
  match img_left_ o, img_right_ o with
  | Some img_left, Some img_right =>
      mk (width_ o) (height_ o) (option_ o) (img_left_ o) (img_right_ o)
         (disp_left_ o) (disp_right_ o) (is_initialized_ o)
         (CostComputer_Compute img_left img_right
            (ADCensusOption.lambda_ad (option_ o))
            (ADCensusOption.lambda_census (option_ o)) (cost_computer_ o))
         (aggregator_ o) (refiner_ o)
  | _, _ => o
  end.

Definition CostAggregation (o : t) : outcome t t :=
  match img_left_ o, img_right_ o with
  | Some img_left, Some img_right =>
      let cost_init :=
        default [] (CostComputer_get_cost_ptr (cost_computer_ o)) in
      let ag := CrossAggregator.SetData img_left img_right cost_init
                  (aggregator_ o) in
      let ag := CrossAggregator.SetParams
                  (ADCensusOption.cross_L1 (option_ o))
                  (ADCensusOption.cross_L2 (option_ o))
                  (ADCensusOption.cross_t1 (option_ o))
                  (ADCensusOption.cross_t2 (option_ o)) ag in
      ag ← within (put_aggregator o) (CrossAggregator.Aggregate 4 ag);
      Returns (put_aggregator o ag)
  | _, _ => Returns o
  end.

(** [CrossAggregator::get_cost_ptr]. *)
Definition aggregator_cost_ptr (ag : CrossAggregator.t)
    : option (list float32) :=
  if MultiStepRefiner.is_empty (CrossAggregator.cost_aggr_ ag) then None
  else Some (CrossAggregator.cost_aggr_ ag).

Definition put_aggregator_cost (cost : option (list float32))
    (ag : CrossAggregator.t) : CrossAggregator.t :=
  match cost with
  | Some cost_aggr =>
      CrossAggregator.mk
        (CrossAggregator.width_ ag) (CrossAggregator.height_ ag)
        (CrossAggregator.img_left_ ag) (CrossAggregator.img_right_ ag)
        (CrossAggregator.cost_init_ ag)
        (CrossAggregator.cross_L1_ ag) (CrossAggregator.cross_L2_ ag)
        (CrossAggregator.cross_t1_ ag) (CrossAggregator.cross_t2_ ag)
        (CrossAggregator.min_disparity_ ag) (CrossAggregator.max_disparity_ ag)
        (CrossAggregator.is_initialized_ ag)
        (CrossAggregator.vec_cross_arms_ ag) (CrossAggregator.vec_cost_tmp_ ag)
        (CrossAggregator.vec_sup_count_ ag)
        (CrossAggregator.vec_sup_count_tmp_ ag) cost_aggr
  | None => ag
  end.

(** [ScanlineOptimize]: the program ends in it when the assertion of a
    sweep fails. *)
Definition ScanlineOptimize (o : t) : outcome t t :=
  match
    ScanlineOptimizer.Optimize_guarded (width_ o) (height_ o)
      (img_left_ o) (img_right_ o)
      (ADCensusOption.min_disparity (option_ o))
      (ADCensusOption.max_disparity (option_ o))
      (ADCensusOption.so_p1 (option_ o)) (ADCensusOption.so_p2 (option_ o))
      (ADCensusOption.so_tso (option_ o))
      (CostComputer_get_cost_ptr (cost_computer_ o))
      (aggregator_cost_ptr (aggregator_ o))
  with
  | None => Halts assertion_failed
  | Some (cost_init, cost_aggr) =>
      Returns
        (mk (width_ o) (height_ o) (option_ o) (img_left_ o) (img_right_ o)
            (disp_left_ o) (disp_right_ o) (is_initialized_ o)
            (CostComputer_put_cost cost_init (cost_computer_ o))
            (put_aggregator_cost cost_aggr (aggregator_ o)) (refiner_ o))
  end.

Definition MultiStepRefine (o : t) : t :=
  match img_left_ o with
  | Some img_left =>
      let rf :=
        MultiStepRefiner.SetParam
          (ADCensusOption.min_disparity (option_ o))
          (ADCensusOption.max_disparity (option_ o))
          (ADCensusOption.irv_ts (option_ o))
          (ADCensusOption.irv_th (option_ o))
          (ADCensusOption.lrcheck_thres (option_ o))
          (ADCensusOption.do_lr_check (option_ o))
          (ADCensusOption.do_filling (option_ o))
          (ADCensusOption.do_filling (option_ o))
          (ADCensusOption.do_discontinuity_adjustment (option_ o))
          (refiner_ o) in
      let '(rf, disp_left) :=
        MultiStepRefiner.Refine ray_yy ray_xx img_left
          (aggregator_cost_ptr (aggregator_ o))
          (Some (CrossAggregator.vec_cross_arms_ (aggregator_ o)))
          (disp_left_ o) (disp_right_ o) rf in
      mk (width_ o) (height_ o) (option_ o) (img_left_ o) (img_right_ o)
         disp_left (disp_right_ o) (is_initialized_ o)
         (cost_computer_ o) (aggregator_ o) rf
  | None => o
  end.

(** The two pickers, on the object. *)
Definition ComputeDisparities (o : t) : t :=
  let cost_ptr := default [] (aggregator_cost_ptr (aggregator_ o)) in
  mk (width_ o) (height_ o) (option_ o) (img_left_ o) (img_right_ o)
     (ComputeDisparity (width_ o) (height_ o) (option_ o) cost_ptr
        <$> disp_left_ o)
     (ComputeDisparityRight (width_ o) (height_ o) (option_ o) cost_ptr
        <$> disp_right_ o)
     (is_initialized_ o) (cost_computer_ o) (aggregator_ o) (refiner_ o).

(** [Match]: the result, the object and the caller's output buffer.  The
    count of the final [memcpy] is the [sint32] product
    [height_ * width_]; a negative count is converted to a size of about
    2^64 bytes. *)
Definition Match (img_left img_right : option (list Z))
    (disp_left : option (list float32)) (o : t)
    : outcome t (bool * t * option (list float32)) :=
  if negb (is_initialized_ o) then Returns (false, o, disp_left)
  else
    match img_left, img_right, disp_left with
    | Some _, Some _, Some out =>
        let o := mk (width_ o) (height_ o) (option_ o) img_left img_right
                    (disp_left_ o) (disp_right_ o) (is_initialized_ o)
                    (cost_computer_ o) (aggregator_ o) (refiner_ o) in
        let o := ComputeCost o in
        o ← CostAggregation o;
        o ← ScanlineOptimize o;
        let o := ComputeDisparities o in
        let o := MultiStepRefine o in
        let count := to_sint32 (height_ o * width_ o) in
        if count <? 0 then Halts memcpy_size
        else
          let out := memcpy out 0 (default [] (disp_left_ o)) 0 count in
          Returns (true, o, Some out)
    | _, _, _ => Returns (false, o, disp_left)
    end.

(** A matcher on which [Match] runs to its end: the flag is set, the
    dimensions are positive and their [sint32] product is not negative,
    the disparity range passes the assertion of the sweeps, the size of
    the cost volume is a [sint32], and the aggregator is sound.  A
    successful [Initialize] with such sizes leaves the matcher so, and
    [Match] keeps it so. *)
Definition ready (o : t) : Prop :=
  is_initialized_ o = true
  /\ 0 < width_ o /\ 0 < height_ o
  /\ 0 <= to_sint32 (height_ o * width_ o)
  /\ (0 < ADCensusOption.max_disparity (option_ o)
          - ADCensusOption.min_disparity (option_ o)
      /\ width_ o * height_ o
         * (ADCensusOption.max_disparity (option_ o)
            - ADCensusOption.min_disparity (option_ o)) < 2 ^ 31)
  /\ CrossAggregator.sound (aggregator_ o).

End Object.

End ADCensusStereo.

(** ** Winner-take-all selection, as the specification words it *)

Module PickerSpec.

(** [d] is the arg-min index of the costs [c 0 .. c (n - 1)]: no cost is
    smaller, and every earlier cost is larger. *)
Definition is_argmin (c : Z -> float32) (n d : Z) : Prop :=
  0 <= d < n
  /\ (forall k, 0 <= k < n -> F32.leb (c d) (c k) = true)
  /\ (forall k, 0 <= k < d -> F32.ltb (c d) (c k) = true).

(** The parabolic refinement around the index [d]:
    [(d + min_disparity) + (c[d-1] - c[d+1]) / (2 * denom)] with
    [denom = c[d-1] + c[d+1] - 2 * c[d]] when [denom] is not zero, and
    [d + min_disparity] otherwise. *)
Definition parabola (min_disparity : Z) (c : Z -> float32) (d : Z) : float32 :=
  let denom :=
    F32.sub (F32.add (c (d - 1)) (c (d + 1))) (F32.mul (F32.of_Z 2) (c d)) in
  if F32.neqb denom F32.zero then
    F32.add (F32.of_Z (d + min_disparity))
            (F32.div (F32.sub (c (d - 1)) (c (d + 1)))
                     (F32.mul (F32.of_Z 2) denom))
  else F32.of_Z (d + min_disparity).

(** What the left view records for the arg-min index [d]. *)
Definition left_record (min_disparity disp_range : Z) (c : Z -> float32)
    (d : Z) : float32 :=
  if (d =? 0) || (d =? disp_range - 1) then Invalid_Float
  else parabola min_disparity c d.

(** The candidates of the right pixel [(j, i)]: the cost of the left
    pixel of column [j + d + offset] at index [d] when that column is
    inside the image, [Large_Float] otherwise. *)
Definition right_candidate (width disp_range offset : Z)
    (cost_ptr : list float32) (j i d : Z) : float32 :=
  let col_left := j + d + offset in
  if (0 <=? col_left) && (col_left <? width) then
    rd cost_ptr (i * width * disp_range + col_left * disp_range + d)
  else Large_Float.

(** The claim on the right view: the recorded value at the borders of
    the range is the integer [d + offset] for the arg-min index [d] of the
    candidates. *)
Definition right_claim (width disp_range offset : Z)
    (cost_ptr disp_right : list float32) (j i : Z) : Prop :=
  exists d,
    is_argmin (right_candidate width disp_range offset cost_ptr j i) disp_range d
    /\ (d = 0 \/ d = disp_range - 1 ->
        rd disp_right (i * width + j) = F32.of_Z (d + offset)).

End PickerSpec.

(** ** The refinement steps, as the specification words them *)

Module RefinerSpec.

Inductive verdict := Keep | Mismatch | Occlusion.

Section LRCheck.

Variables (width : Z) (lrcheck_thres : float32) (DR : list float32).

(** The class of the left pixel [(x, y)] and whether its disparity is
    invalidated. *)
Definition lr_verdict (DL : list float32) (x y : Z) : verdict * bool :=
  let d := rd DL (y * width + x) in
  if F32.eqb d Invalid_Float then (Mismatch, false)
  else
    let xr := F32.lround (F32.sub (F32.of_Z x) d) in
    if negb ((0 <=? xr) && (xr <? width)) then (Mismatch, true)
    else
      let d_r := rd DR (y * width + xr) in
      if F32.leb (F32.abs (F32.sub d d_r)) lrcheck_thres then (Keep, false)
      else
        let xrl := F32.lround (F32.add (F32.of_Z xr) d_r) in
        if (0 <? xrl) && (xrl <? width) && F32.gtb (rd DL (y * width + xrl)) d
        then (Occlusion, true)
        else (Mismatch, true).

(** The effect of the check at one pixel on the disparity map and on the
    lists of occlusions and mismatches. *)
Definition lr_step (st : list float32 * list (Z * Z) * list (Z * Z))
    (p : Z * Z) : list float32 * list (Z * Z) * list (Z * Z) :=
  let '(DL, occlusions, mismatches) := st in
  let '(v, invalidate) := lr_verdict DL (fst p) (snd p) in
  let DL' :=
    if invalidate then wr DL (snd p * width + fst p) Invalid_Float else DL in
  match v with
  | Keep => (DL', occlusions, mismatches)
  | Mismatch => (DL', occlusions, mismatches ++ [p])
  | Occlusion => (DL', occlusions ++ [p], mismatches)
  end.

(** The check of the whole map: the pixels are visited in scanline
    order. *)
Definition lr_check (height : Z) (DL : list float32)
    : list float32 * list (Z * Z) * list (Z * Z) :=
  fold_left lr_step (row_major width height) (DL, [], []).

End LRCheck.

(** The entries of a disparity map are finite numbers or the sentinel. *)
Definition valid_or_sentinel (v : float32) : Prop :=
  F32.is_finite v = true \/ v = Invalid_Float.

Section Voting.

Variables (width : Z) (arms : list CrossArm.t).
Variables (min_disparity disp_range irv_ts : Z) (irv_th : float32).

(** The voting region of a pixel: the horizontal arms of the pixels of
    its vertical arm. *)
Definition vote_region (p : Z * Z) : list (Z * Z) :=
  concat (RegionSpec.cross_region width arms true p).

(** The votes of the region: the bins of the rounded valid disparities. *)
Definition vote_of (DL : list float32) (q : Z * Z) : option Z :=
  let d := rd DL (snd q * width + fst q) in
  if F32.neqb d Invalid_Float then Some (F32.lround d - min_disparity) else None.

Definition votes (DL : list float32) (p : Z * Z) : list Z :=
  omap (vote_of DL) (vote_region p).

(** The histogram: the number of votes of each bin. *)
Definition bin_count (vs : list Z) (b : Z) : Z :=
  Z.of_nat (length (filter (fun v => v = b) vs)).

(** The total of the bins [0 .. n - 1]. *)
Definition total_votes (h : Z -> Z) (n : Z) : Z :=
  fold_left Z.add (h <$> seqZ 0 n) 0.

(** [max_h] is the peak of the bins [0 .. n - 1] and [best] the first bin
    that reaches it ([0] when every bin is empty). *)
Definition is_peak (h : Z -> Z) (n best max_h : Z) : Prop :=
  (forall b, 0 <= b < n -> h b <= max_h)
  /\ ((max_h = 0 /\ best = 0)
      \/ (0 < max_h /\ 0 <= best < n /\ h best = max_h
          /\ forall b, 0 <= b < best -> h b < max_h)).

(** The voting rule at the pixel [p]: a valid pixel is left alone; a
    pixel that is still invalid receives [best + min_disparity] if and
    only if the total count exceeds [irv_ts] and the fraction of the peak
    exceeds [irv_th]. *)
Definition voting_rule (DL : list float32) (p : Z * Z) (DL' : list float32)
    : Prop :=
  if F32.neqb (rd DL (snd p * width + fst p)) Invalid_Float then DL' = DL
  else
    exists best max_h,
      let h := bin_count (votes DL p) in
      let count := total_votes h disp_range in
      is_peak h disp_range best max_h
      /\ DL' =
         if (irv_ts <? count)
            && F32.gtb (F32.div (F32.mul (F32.of_Z max_h) (F32.of_Z 1))
                                (F32.of_Z count)) irv_th
         then wr DL (snd p * width + fst p) (F32.of_Z (best + min_disparity))
         else DL.

(** The pixel's disparity is still the sentinel. *)
Definition still_invalid (DL : list float32) (p : Z * Z) : Prop :=
  F32.eqb (rd DL (snd p * width + fst p)) Invalid_Float = true.

#[global] Instance still_invalid_dec DL p : Decision (still_invalid DL p).
Proof. unfold still_invalid. apply _. Defined.

(** One pass over a list: the pixels vote in the order of the list, each
    on the map as the earlier ones left it; then the pixels that are no
    longer invalid leave the list. *)
Definition voting_pass (vote : list float32 -> Z * Z -> list float32)
    (DL : list float32) (trg : list (Z * Z)) : list float32 * list (Z * Z) :=
  let DL' := fold_left vote trg DL in
  (DL', filter (still_invalid DL') trg).

(** Five iterations, each over the mismatches and then the occlusions. *)
Definition voting (vote : list float32 -> Z * Z -> list float32)
    (st : list float32 * list (Z * Z) * list (Z * Z))
    : list float32 * list (Z * Z) * list (Z * Z) :=
  Nat.iter 5 (fun '(DL, mismatches, occlusions) =>
    let '(DL, mismatches) := voting_pass vote DL mismatches in
    let '(DL, occlusions) := voting_pass vote DL occlusions in
    (DL, mismatches, occlusions)) st.

End Voting.

End RefinerSpec.

(** ** The scanline recurrence, as the specification words it *)

Module ScanlineSpec.

Section Sweep.

Variables (width : Z) (img_left img_right : list Z).
Variables (min_disparity disp_range : Z) (p1 p2 : float32) (tso : Z).

(** The threshold table. *)
Definition table (d1 d2 : Z) : float32 * float32 :=
  match d1 <? tso, d2 <? tso with
  | true, true => (p1, p2)
  | true, false | false, true =>
      (F32.div p1 (F32.of_Z 4), F32.div p2 (F32.of_Z 4))
  | false, false => (F32.div p1 (F32.of_Z 10), F32.div p2 (F32.of_Z 10))
  end.

Definition pixel_color (img : list Z) (x y : Z) : ADColor :=
  color_at img (y * width * 3 + 3 * x).

(** [d1]: the distance in the left image between the pixel and its
    predecessor on a horizontal path of direction [dir]. *)
Definition left_distance (dir x y : Z) : Z :=
  ScanlineOptimizer.to_uint8
    (ColorDist (pixel_color img_left x y) (pixel_color img_left (x - dir) y)).

(** [d2]: the distance in the right image at column [x - d], which
    defaults to [d1] when the column is not in [(0, width - 1)]. *)
Definition right_distance (dir x y d d1 : Z) : Z :=
  let xr := x - d - min_disparity in
  if (0 <? xr) && (xr <? width - 1) then
    ScanlineOptimizer.to_uint8
      (ColorDist (pixel_color img_right xr y)
                 (pixel_color img_right (xr - dir) y))
  else d1.

(** [L[p0, k]], with [Large_Float] outside the disparity range. *)
Definition padded (L : Z -> float32) (k : Z) : float32 :=
  if (0 <=? k) && (k <? disp_range) then L k else Large_Float.

Definition min_last (L : Z -> float32) : float32 :=
  fold_left F32.std_min (L <$> seqZ 0 disp_range) Large_Float.

(** The recurrence. *)
Definition recurrence (C : float32) (L : Z -> float32) (d : Z)
    (P1 P2 : float32) : float32 :=
  F32.div
    (F32.add C
       (F32.std_min
          (F32.std_min (padded L d) (F32.add (padded L (d - 1)) P1))
          (F32.std_min (F32.add (padded L (d + 1)) P1)
                       (F32.add (min_last L) P2))))
    (F32.of_Z 2).

(** The left-to-right path of row [y]: [path src y n d] is [L[(n, y), d]],
    seeded with the source costs at the first column. *)
Fixpoint path (C_src : list float32) (y : Z) (n : nat) (d : Z) : float32 :=
  match n with
  | O => rd C_src (y * width * disp_range + d)
  | S n' =>
      let x := Z.of_nat n in
      let d1 := left_distance 1 x y in
      let d2 := right_distance 1 x y d d1 in
      let '(P1, P2) := table d1 d2 in
      recurrence (rd C_src (y * width * disp_range + x * disp_range + d))
                 (path C_src y n') d P1 P2
  end.

End Sweep.

End ScanlineSpec.

(** ** The costs along a scanline path *)

Module PathSpec.

(** The [n] costs of the pixel whose costs start at offset [off] of the
    volume [v]. *)
Definition cells (n : Z) (v : list float32) (off : Z) : list float32 :=
  (fun d => rd v (off + d)) <$> seqZ 0 n.

(** [cost_last_path]: the costs of the last pixel between two entries
    [Large_Float]. *)
Definition padded (n : Z) (v : list float32) (off : Z) : list float32 :=
  Large_Float :: cells n v off ++ [Large_Float].

(** [mincost_last_path]. *)
Definition min_cells (n : Z) (v : list float32) (off : Z) : float32 :=
  fold_left F32.std_min (cells n v off) Large_Float.

(** The value of the variable [d2] of the loop over the disparities when
    the disparity of index [d] is handled at column [x]: the distance
    [right_dist xr] of the right image at [xr = x - d - min_disparity]
    when [xr] is in [(0, width - 1)]; to the right of that interval
    [d1]; to its left the distance of the last column that was inside
    the interval, [xr = 1], when there was one. *)
Definition running_d2 (width min_disparity : Z) (right_dist : Z -> Z)
    (x d1 d : Z) : Z :=
  let xr := x - d - min_disparity in
  if (0 <? xr) && (xr <? width - 1) then right_dist xr
  else if (xr <=? 0) && (0 <=? x - min_disparity - 1) && (2 <? width)
       then right_dist 1
       else d1.

Section Path.

Variables (width_ : Z) (img_left_ img_right_ : list Z).
Variables (min_disparity_ max_disparity_ : Z).
Variables (so_p1_ so_p2_ : float32) (so_tso_ : Z).
Variable (cost_so_src : list float32).

(** The path that starts at the pixel whose costs are at offset [c0],
    whose colour is at offset [i0] of the left image and whose coordinate
    along the path is [pos0], and that advances [len - 1] times by
    [cstep], [istep] and [dir]: the body of the loop over the rows in
    [ScanlineOptimizeLeftRight] and over the columns in
    [ScanlineOptimizeUpDown].  [x_of] gives the column of a position and
    [right_pixel], [right_last] the offsets of the two pixels of the
    right image that are compared. *)
Definition path_row (c0 i0 pos0 cstep istep dir len : Z) (x_of : Z -> Z)
    (right_pixel right_last : Z -> Z -> Z) (cost_so_dst : list float32)
    : list float32 :=
  let disp_range := max_disparity_ - min_disparity_ in
  let color := color_at img_left_ i0 in
  let color_last := color in
  let cost_last_path := replicate (Z.to_nat (disp_range + 2)) Large_Float in
  let cost_so_dst := memcpy cost_so_dst c0 cost_so_src c0 disp_range in
  let cost_last_path := memcpy cost_last_path 1 cost_so_dst c0 disp_range in
  let mincost_last_path := ScanlineOptimizer.min_of_path cost_last_path in
  ScanlineOptimizer.ps_dst
    (for_loop 0 (len - 1) (fun j st =>
       let color := color_at img_left_ (ScanlineOptimizer.ps_img st) in
       let d1 :=
         ScanlineOptimizer.to_uint8
           (ColorDist color (ScanlineOptimizer.ps_color_last st)) in
       let '(_, cost_so_dst, min_cost) :=
         ScanlineOptimizer.disparity_loop width_ img_right_ min_disparity_
           max_disparity_ so_p1_ so_p2_ so_tso_ cost_so_src
           (right_pixel (ScanlineOptimizer.ps_pos st))
           (right_last (ScanlineOptimizer.ps_pos st))
           (x_of (ScanlineOptimizer.ps_pos st))
           (ScanlineOptimizer.ps_cost_init st)
           (ScanlineOptimizer.ps_cost_aggr st) d1
           (ScanlineOptimizer.ps_cost_last_path st)
           (ScanlineOptimizer.ps_mincost_last_path st)
           (ScanlineOptimizer.ps_dst st) in
       ScanlineOptimizer.mk_path cost_so_dst
         (ScanlineOptimizer.ps_cost_init st + cstep)
         (ScanlineOptimizer.ps_cost_aggr st + cstep)
         (ScanlineOptimizer.ps_img st + istep)
         (ScanlineOptimizer.ps_pos st + dir)
         color
         (memcpy (ScanlineOptimizer.ps_cost_last_path st) 1 cost_so_dst
            (ScanlineOptimizer.ps_cost_aggr st) disp_range)
         min_cost)
       (ScanlineOptimizer.mk_path cost_so_dst
          (c0 + cstep) (c0 + cstep) (i0 + istep) (pos0 + dir)
          color_last cost_last_path mincost_last_path)).

(** The cost that the recurrence gives to the disparity of index [d] of a
    pixel: [cost] is its source cost, [d1] its distance to the last pixel
    in the left image, [d2] the distance in the right image, and [last]
    the offset of the costs of the last pixel in the volume [v]. *)
Definition step_cost (v : list float32) (last : Z) (cost : float32)
    (d1 d2 d : Z) : float32 :=
  let disp_range := max_disparity_ - min_disparity_ in
  let '(P1, P2) := ScanlineOptimizer.penalties so_p1_ so_p2_ so_tso_ d1 d2 in
  ScanlineOptimizer.path_cost cost (padded disp_range v last)
    (min_cells disp_range v last) d P1 P2.

End Path.

End PathSpec.

(** ** python/adcensus_wrapper.cpp *)

Module ADCensusPython.

(** A numpy array as the wrapper sees it through [request()]: its shape
    ([ndim] is the length of the shape) and its elements in row-major
    order. *)
Record ndarray (A : Type) := mk_array { shape : list Z; data : list A }.
Arguments mk_array {A} _ _.
Arguments shape {A} _.
Arguments data {A} _.

Definition ndim {A} (a : ndarray A) : Z := Z.of_nat (length (shape a)).

(** The [std::runtime_error]s that [compute_disparity] throws, in the
    order of its checks: "ADCensus not initialized. Call initialize()
    first.", "Input images must be 3-dimensional (height, width,
    channels)", "Input images must have 3 channels (BGR)", "Image
    dimensions don't match initialized dimensions", "Left and right images
    must have the same dimensions" and "Stereo matching failed". *)
Inductive error :=
  | NotInitialized
  | NotThreeDimensional
  | NotThreeChannels
  | DimensionMismatch
  | LeftRightMismatch
  | MatchingFailed
  | NegativeCount.

(** [NegativeCount] is not an error of the wrapper's own: it stands for
    the Python error that pybind11 raises when [py::array_t<float>(n)] is
    asked for a negative number of elements. *)

Section Object.

Variable CostComputer : Type.
Variable CostComputer_new : CostComputer.
Variable CostComputer_Initialize :
  Z -> Z -> Z -> Z -> CostComputer -> bool * CostComputer.
Variable CostComputer_Compute :
  list Z -> list Z -> float32 -> float32 -> CostComputer -> CostComputer.
Variable CostComputer_get_cost_ptr : CostComputer -> option (list float32).
Variable CostComputer_put_cost :
  option (list float32) -> CostComputer -> CostComputer.
Variables (ray_yy ray_xx : Z -> Z -> Z -> Z).

(** The members of the class [ADCensusPython]. *)
Record t := mk {
  stereo_ : ADCensusStereo.t CostComputer;
  width_ : Z;
  height_ : Z;
  initialized_ : bool
}.

Definition new : t :=
  mk (ADCensusStereo.new CostComputer CostComputer_new) 0 0 false.

(** [initialize]: the two [lambda] arguments are integers and are
    converted when they are stored in the options.  An exception of
    [Initialize] leaves [initialize] before [initialized_] is written. *)
Definition initialize (width height min_disparity max_disparity : Z)
    (lambda_ad lambda_census : Z)
    (cross_L1 cross_L2 cross_t1 cross_t2 : Z)
    (so_p1 so_p2 : float32) (so_tso irv_ts : Z)
    (irv_th lrcheck_thres : float32)
    (do_lr_check do_filling do_discontinuity_adjustment : bool) (o : t)
    : outcome t (bool * t) :=
  let option :=
    ADCensusOption.mk min_disparity max_disparity
      (F32.of_Z lambda_ad) (F32.of_Z lambda_census)
      cross_L1 cross_L2 cross_t1 cross_t2 so_p1 so_p2 so_tso irv_ts
      irv_th lrcheck_thres do_lr_check do_filling
      do_discontinuity_adjustment in
  '(ok, stereo) ←
    within (fun stereo => mk stereo width height (initialized_ o))
      (ADCensusStereo.Initialize CostComputer CostComputer_Initialize
         width height option (stereo_ o));
  Returns (ok, mk stereo width height ok).

(** [compute_disparity]: the object after the call and the exception
    thrown ([inl]) or the array returned ([inr]).  The shape entries are
    [ssize_t] values; [height] and [width] are [int]s.  The disparity
    array is created with the [int] product [width * height] as its
    number of elements, which the model sets to zero, and is resized to
    the shape [(height, width)] after the matching. *)
Definition compute_disparity (img_left img_right : ndarray Z) (o : t)
    : outcome t (t * (error + ndarray float32)) :=
  if negb (initialized_ o) then Returns (o, inl NotInitialized)
  else if negb (ndim img_left =? 3) || negb (ndim img_right =? 3) then
    Returns (o, inl NotThreeDimensional)
  else if negb (rd (shape img_left) 2 =? 3)
          || negb (rd (shape img_right) 2 =? 3) then
    Returns (o, inl NotThreeChannels)
  else
    let height := to_sint32 (rd (shape img_left) 0) in
    let width := to_sint32 (rd (shape img_left) 1) in
    if negb (height =? height_ o) || negb (width =? width_ o) then
      Returns (o, inl DimensionMismatch)
    else if negb (height =? rd (shape img_right) 0)
            || negb (width =? rd (shape img_right) 1) then
      Returns (o, inl LeftRightMismatch)
    else
      let count := to_sint32 (width * height) in
      if count <? 0 then Returns (o, inl NegativeCount)
      else
        let disparity := replicate (Z.to_nat count) F32.zero in
        '(ok, stereo, out) ←
          within (fun stereo => mk stereo (width_ o) (height_ o) (initialized_ o))
            (ADCensusStereo.Match CostComputer CostComputer_Compute
               CostComputer_get_cost_ptr CostComputer_put_cost ray_yy ray_xx
               (Some (data img_left)) (Some (data img_right)) (Some disparity)
               (stereo_ o));
        let o' := mk stereo (width_ o) (height_ o) (initialized_ o) in
        if negb ok then Returns (o', inl MatchingFailed)
        else
          Returns
            (o', inr (mk_array [height; width]
                        (resize (Z.to_nat (height * width)) F32.zero
                                (default [] out)))).

(** The wrapper's flag implies the matcher's, and the matcher holds the
    wrapper's dimensions. *)
Definition consistent (o : t) : Prop :=
  initialized_ o = true ->
  ADCensusStereo.is_initialized_ CostComputer (stereo_ o) = true
  /\ ADCensusStereo.width_ CostComputer (stereo_ o) = width_ o
  /\ ADCensusStereo.height_ CostComputer (stereo_ o) = height_ o.

(** A wrapper on which [compute_disparity] runs to its end: its flag is
    set, and its matcher is ready and holds the wrapper's dimensions. *)
Definition ready (o : t) : Prop :=
  initialized_ o = true
  /\ ADCensusStereo.ready CostComputer (stereo_ o)
  /\ ADCensusStereo.width_ CostComputer (stereo_ o) = width_ o
  /\ ADCensusStereo.height_ CostComputer (stereo_ o) = height_ o.

End Object.

End ADCensusPython.

(** ** Sample inputs *)

Module Examples.

(** A 2 x 2 image: three pixels of one colour and one that differs. *)
Definition img_2x2 : list Z := [10; 10; 10; 12; 12; 12; 11; 11; 11; 90; 90; 90].

Definition arms_2x2 : list CrossArm.t :=
  CrossAggregator.BuildArms 2 2 img_2x2 34 17 20 6 (CrossAggregator.fresh 4).

(** A cost volume of a 2 x 2 image with two disparities. *)
Definition cost_2x2x2 : list float32 :=
  F32.of_Z <$> [1; 2; 3; 4; 5; 6; 7; 8].

(** The costs of a single pixel with three disparities. *)
Definition cost_1x1x3 : list float32 := F32.of_Z <$> [3; 1; 2].

(** The final costs of a 2 x 1 image with the disparities -1 and 0. *)
Definition cost_2x1x2 : list float32 := F32.of_Z <$> [1; 2; 9; 5].

(** Left and right disparity maps of a 3 x 1 image. *)
Definition DL_3x1 : list float32 := [Invalid_Float; F32.of_Z 1; F32.of_Z 2].
Definition DR_3x1 : list float32 := [F32.of_Z 1; F32.of_Z 0; F32.of_Z 0].

(** The configuration as shipped, for the disparity range [min, max). *)
Definition option_range (min_disparity max_disparity : Z) : ADCensusOption.t :=
  ADCensusOption.mk min_disparity max_disparity
    (F32.of_Z 10) (F32.of_Z 30) 34 17 20 6
    (F32.of_Z 1) (F32.of_Z 3) 15 20
    (F32.div (F32.of_Z 2) (F32.of_Z 5)) (F32.of_Z 1)
    true true false.

Definition default_option : ADCensusOption.t := option_range 0 64.

(** A stand-in for the cost computer, whose code is not among the
    sources: it holds a cost volume, its initialisation succeeds and its
    computation leaves the volume as it is. *)
Definition cc_Initialize (w h dmin dmax : Z) (c : option (list float32))
    : bool * option (list float32) := (true, c).
Definition cc_Compute (img_left img_right : list Z) (lambda_ad lambda_census : float32)
    (c : option (list float32)) : option (list float32) := c.
Definition cc_get_cost_ptr (c : option (list float32)) : option (list float32) := c.
Definition cc_put_cost (cost c : option (list float32)) : option (list float32) :=
  cost.

(** A row of three pixels: the left image is flat, the right image has
    one bright pixel in the middle; two disparities, 0 and 1. *)
Definition left_3x1 : list Z := [0; 0; 0; 0; 0; 0; 0; 0; 0].
Definition right_3x1 : list Z := [0; 0; 0; 100; 100; 100; 0; 0; 0].
Definition cost_3x1x2 : list float32 := F32.of_Z <$> [0; 2; 1; 1; 1; 1].

(** A 3 x 3 map with a step at its last pixel, which makes the centre an
    edge pixel, and a volume of two disparities in which the centre
    pixel's own disparity is the expensive one. *)
Definition DL_3x3 : list float32 := F32.of_Z <$> [0; 0; 0; 0; 1; 0; 0; 0; 9].
Definition cost_3x3x2 : list float32 :=
  F32.of_Z <$> [0; 0; 0; 0; 0; 0; 0; 0; 0; 5; 0; 0; 0; 0; 0; 0; 0; 0].

(** A column of two pixels, the lower one brighter in both images; two
    disparities. *)
Definition left_1x2 : list Z := [0; 0; 0; 50; 50; 50].
Definition right_1x2 : list Z := [0; 0; 0; 50; 50; 50].
Definition cost_1x2x2 : list float32 := F32.of_Z <$> [1; 2; 4; 3].

End Examples.

(** * Properties *)

(** ** Buffers and loops *)

Lemma length_wr {A} (a : list A) i v : length (wr a i v) = length a.
Proof. unfold wr. case_decide; [apply length_insert | reflexivity]. Qed.

Lemma rd_wr_eq {A} `{Inhabited A} (a : list A) i v :
  0 <= i < Z.of_nat (length a) -> rd (wr a i v) i = v.
Proof.
  intros Hi. unfold rd, wr. rewrite !decide_True by lia.
  apply list_lookup_total_insert_eq. lia.
Qed.

Lemma rd_wr_ne {A} `{Inhabited A} (a : list A) i j v :
  i <> j -> rd (wr a i v) j = rd a j.
Proof.
  intros Hne. unfold rd, wr.
  destruct (decide (0 <= j)), (decide (0 <= i)); try reflexivity.
  apply list_lookup_total_insert_ne. lia.
Qed.

Lemma rd_wr {A} `{Inhabited A} (a : list A) i j v :
  0 <= i < Z.of_nat (length a) ->
  rd (wr a i v) j = if decide (i = j) then v else rd a j.
Proof.
  intros Hi. case_decide; [subst; by apply rd_wr_eq | by apply rd_wr_ne].
Qed.

Lemma for_loop_nil {S} lo hi (body : Z -> S -> S) s :
  hi <= lo -> for_loop lo hi body s = s.
Proof. intros. unfold for_loop. by rewrite seqZ_nil by lia. Qed.

Lemma for_loop_first {S} lo hi (body : Z -> S -> S) s :
  lo < hi -> for_loop lo hi body s = for_loop (lo + 1) hi body (body lo s).
Proof.
  intros. unfold for_loop. rewrite seqZ_cons by lia. simpl.
  by replace (Z.pred (hi - lo)) with (hi - (lo + 1)) by lia.
Qed.

Lemma for_loop_last {S} lo hi (body : Z -> S -> S) s :
  lo <= hi -> for_loop lo (hi + 1) body s = body hi (for_loop lo hi body s).
Proof.
  intros. unfold for_loop.
  replace (hi + 1 - lo) with ((hi - lo) + 1) by lia.
  rewrite seqZ_app by lia. rewrite fold_left_app.
  rewrite (seqZ_cons _ 1) by lia. rewrite seqZ_nil by lia. simpl.
  by replace (lo + (hi - lo)) with hi by lia.
Qed.

(** Loop invariants: [P i s] holds of the state before iteration [i]. *)
Lemma for_loop_ind {S} (P : Z -> S -> Prop) lo hi (body : Z -> S -> S) s :
  lo <= hi ->
  P lo s ->
  (forall i s, lo <= i < hi -> P i s -> P (i + 1) (body i s)) ->
  P hi (for_loop lo hi body s).
Proof.
  intros Hle H0 Hstep.
  assert (Hgen : forall n : nat, lo + Z.of_nat n <= hi ->
            P (lo + Z.of_nat n) (for_loop lo (lo + Z.of_nat n) body s)).
  { induction n as [|n IH]; intros Hn.
    - rewrite Z.add_0_r, for_loop_nil by lia. exact H0.
    - replace (lo + Z.of_nat (Datatypes.S n)) with (lo + Z.of_nat n + 1) by lia.
      rewrite for_loop_last by lia. apply Hstep; [lia|]. apply IH. lia. }
  specialize (Hgen (Z.to_nat (hi - lo))).
  replace (lo + Z.of_nat (Z.to_nat (hi - lo))) with hi in Hgen by lia.
  apply Hgen. lia.
Qed.

Lemma for_loop_ext {S} lo hi (f g : Z -> S -> S) s :
  (forall i s, lo <= i < hi -> f i s = g i s) ->
  for_loop lo hi f s = for_loop lo hi g s.
Proof.
  intros Hfg. destruct (decide (lo <= hi)) as [Hle|Hgt].
  - apply (for_loop_ind (fun i t => t = for_loop lo i g s)); [done| |].
    + by rewrite for_loop_nil.
    + intros i t Hi ->. rewrite for_loop_last by lia. by apply Hfg.
  - by rewrite !for_loop_nil by lia.
Qed.

(** A counting loop. *)
Lemma for_loop_count lo hi c :
  lo <= hi -> for_loop lo hi (fun _ count => count + 1) c = c + (hi - lo).
Proof.
  intros Hle.
  apply (for_loop_ind (fun i t => t = c + (i - lo))); [done|lia|].
  intros i t _ ->. lia.
Qed.

Lemma elem_of_row_major w h x y :
  (x, y) ∈ row_major w h <-> 0 <= x < w /\ 0 <= y < h.
Proof.
  unfold row_major. rewrite list_elem_of_bind. split.
  - intros (y' & Hx & Hy). apply list_elem_of_bind in Hx as (x' & Hp & Hx).
    apply list_elem_of_singleton in Hp. injection Hp as -> ->.
    apply elem_of_seqZ in Hx, Hy. lia.
  - intros [Hx Hy]. exists y. split; [|apply elem_of_seqZ; lia].
    apply list_elem_of_bind. exists x. split; [by apply list_elem_of_singleton|].
    apply elem_of_seqZ. lia.
Qed.

(** *** Narrowing *)

Lemma to_sint32_id n : - 2 ^ 31 <= n < 2 ^ 31 -> to_sint32 n = n.
Proof. intros Hn. unfold to_sint32. rewrite Z.mod_small; lia. Qed.

Lemma to_sint32_range n : - 2 ^ 31 <= to_sint32 n < 2 ^ 31.
Proof.
  unfold to_sint32. pose proof (Z.mod_pos_bound (n + 2 ^ 31) (2 ^ 32)). lia.
Qed.

Lemma to_sint32_mul n m : to_sint32 (to_sint32 n * m) = to_sint32 (n * m).
Proof.
  unfold to_sint32. f_equal.
  replace ((((n + 2 ^ 31) mod 2 ^ 32 - 2 ^ 31) * m + 2 ^ 31))
    with (((n + 2 ^ 31) mod 2 ^ 32) * m + (2 ^ 31 - 2 ^ 31 * m)) by lia.
  replace (n * m + 2 ^ 31)
    with ((n + 2 ^ 31) * m + (2 ^ 31 - 2 ^ 31 * m)) by lia.
  rewrite (Z.add_mod (_ * m)), (Z.add_mod ((n + 2 ^ 31) * m)) by lia.
  by rewrite Z.mul_mod_idemp_l by lia.
Qed.

(** ** Arm construction *)

Lemma pixel_index_inj w x y x' y' :
  0 <= x < w -> 0 <= x' < w -> y * w + x = y' * w + x' -> x = x' /\ y = y'.
Proof. intros. assert (y = y') by nia. subst. lia. Qed.

Lemma pixel_index_bound w h x y :
  0 <= x < w -> 0 <= y < h -> 0 <= y * w + x < w * h.
Proof. intros. nia. Qed.

(** Invariants of a scan over the pixels in row-major order: [P n s]
    holds of the state when [n] pixels have been processed. *)
Lemma pixel_loop_ind {S} (P : Z -> S -> Prop) w h (body : Z -> Z -> S -> S) s :
  0 <= w -> 0 <= h ->
  P 0 s ->
  (forall x y s, 0 <= x < w -> 0 <= y < h ->
     P (y * w + x) s -> P (y * w + x + 1) (body x y s)) ->
  P (w * h) (for_loop 0 h (fun y => for_loop 0 w (fun x => body x y)) s).
Proof.
  intros Hw Hh H0 Hstep.
  replace (w * h) with (h * w) by lia.
  apply (for_loop_ind (fun y t => P (y * w) t)); [done|done|].
  intros y t Hy Ht.
  replace ((y + 1) * w) with (y * w + w) by lia.
  apply (for_loop_ind (fun x t => P (y * w + x) t)); [done|by rewrite Z.add_0_r|].
  intros x u Hx Hu. rewrite Z.add_assoc. by apply Hstep.
Qed.

(** A scan that stores a value computed from the pixel alone. *)
Lemma pixel_loop_tabulate {A} `{Inhabited A} w h (f : Z -> Z -> A) a0 :
  0 <= w -> 0 <= h -> Z.of_nat (length a0) = w * h ->
  let a := for_loop 0 h (fun y =>
             for_loop 0 w (fun x a => wr a (y * w + x) (f x y))) a0 in
  length a = length a0 /\
  forall x y, 0 <= x < w -> 0 <= y < h -> rd a (y * w + x) = f x y.
Proof.
  intros Hw Hh Hlen a. subst a.
  pose (P := fun (n : Z) (a : list A) =>
    length a = length a0 /\
    forall x y, 0 <= x < w -> 0 <= y < h -> y * w + x < n ->
      rd a (y * w + x) = f x y).
  assert (HP : P (w * h) (for_loop 0 h (fun y =>
             for_loop 0 w (fun x a => wr a (y * w + x) (f x y))) a0)).
  { apply (pixel_loop_ind P); [done|done| |].
    - split; [done|]. intros x y Hx Hy Hn. nia.
    - intros x y a Hx Hy [Hl Ha]. split; [by rewrite length_wr|].
      intros x' y' Hx' Hy' Hn.
      pose proof (pixel_index_bound w h x y Hx Hy).
      rewrite rd_wr by lia. case_decide as Heq.
      + apply pixel_index_inj in Heq as [-> ->]; [done|lia|lia].
      + apply Ha; [done|done|lia]. }
  destruct HP as [Hl Ha]. split; [done|].
  intros x y Hx Hy. apply Ha; [done|done|]. nia.
Qed.

Section ArmLoop.

Variables (img_left : list Z) (cross_L2 cross_t1 cross_t2 : Z).
Variables (color0 : ADColor) (at_border : Z -> bool) (dir stride : Z).
Variables (img0 p0 : Z).

Let C (n : Z) : ADColor := color_at img_left (img0 + (n + 1) * stride).

(** The acceptance test of step [n], in the loop's own quantities. *)
Let acc (n : Z) : bool :=
  negb (at_border (p0 + (n + 1) * dir))
  && (ColorDist (C n) color0 <? cross_t1)
  && ((n =? 0) || (ColorDist (C n) (C (n - 1)) <? cross_t1))
  && ((n + 1 <=? cross_L2) || (ColorDist (C n) color0 <? cross_t2)).

Lemma arm_loop_prefix (k : nat) : forall n0 color_last,
  0 <= n0 -> n0 + Z.of_nat k <= 255 ->
  (0 < n0 -> color_last = C (n0 - 1)) ->
  let len :=
    CrossAggregator.arm_loop img_left cross_L2 cross_t1 cross_t2
      color0 at_border dir stride (seqZ n0 (Z.of_nat k))
      (img0 + (n0 + 1) * stride) color_last (p0 + (n0 + 1) * dir) n0 in
  n0 <= len <= n0 + Z.of_nat k
  /\ (forall n, n0 <= n < len -> acc n = true)
  /\ (len < n0 + Z.of_nat k -> acc len = false).
Proof.
  induction k as [|k IH]; intros n0 color_last Hn0 Hk Hlast; cbn zeta.
  - rewrite seqZ_nil by lia. simpl. split; [lia|]. split; intros; lia.
  - rewrite seqZ_cons by lia. simpl.
    replace (Z.pred (Z.of_nat (S k))) with (Z.of_nat k) by lia.
    fold (C n0).
    assert (Hacc : acc n0 =
      negb (at_border (p0 + (n0 + 1) * dir))
      && negb (cross_t1 <=? ColorDist (C n0) color0)
      && negb ((0 <? n0) && (cross_t1 <=? ColorDist (C n0) color_last))
      && negb ((cross_L2 <? n0 + 1) && (cross_t2 <=? ColorDist (C n0) color0))).
    { unfold acc. f_equal; [f_equal; [f_equal|]|].
      - by rewrite Z.leb_antisym, negb_involutive.
      - destruct (decide (n0 = 0)) as [->|Hne].
        + reflexivity.
        + rewrite Hlast by lia.
          replace (n0 =? 0) with false by (symmetry; apply Z.eqb_neq; lia).
          replace (0 <? n0) with true by (symmetry; apply Z.ltb_lt; lia).
          simpl. by rewrite Z.leb_antisym, negb_involutive.
      - rewrite negb_andb. f_equal.
        + rewrite Z.ltb_antisym. by rewrite negb_involutive.
        + by rewrite Z.leb_antisym, negb_involutive. }
    destruct (at_border (p0 + (n0 + 1) * dir)) eqn:Hb.
    { split; [lia|]. split; [intros; lia|]. intros _. by rewrite Hacc. }
    destruct (cross_t1 <=? ColorDist (C n0) color0) eqn:H1.
    { split; [lia|]. split; [intros; lia|]. intros _. by rewrite Hacc. }
    destruct ((0 <? n0) && (cross_t1 <=? ColorDist (C n0) color_last)) eqn:H2.
    { split; [lia|]. split; [intros; lia|]. intros _. by rewrite Hacc. }
    destruct ((cross_L2 <? n0 + 1) && (cross_t2 <=? ColorDist (C n0) color0)) eqn:H3.
    { split; [lia|]. split; [intros; lia|]. intros _. by rewrite Hacc. }
    unfold uint8_inc. rewrite Z.mod_small by lia.
    replace (img0 + (n0 + 1) * stride + stride)
      with (img0 + (n0 + 1 + 1) * stride) by lia.
    replace (p0 + (n0 + 1) * dir + dir) with (p0 + (n0 + 1 + 1) * dir) by lia.
    replace (Z.succ n0) with (n0 + 1) by lia.
    specialize (IH (n0 + 1) (C n0)).
    destruct IH as (Hr & Hall & Hstop); [lia|lia| |].
    { intros _. f_equal. lia. }
    split; [lia|]. split.
    + intros n Hn. destruct (decide (n = n0)) as [->|Hne].
      * by rewrite Hacc.
      * apply Hall. lia.
    + intros Hlt. apply Hstop. lia.
Qed.

End ArmLoop.

Section FindArms.

Variables (width height : Z) (img_left : list Z).
Variables (cross_L1 cross_L2 cross_t1 cross_t2 : Z).
Variables (x y : Z).
Hypothesis (Hx : 0 <= x < width) (Hy : 0 <= y < height).

Let limit := Z.min cross_L1 MAX_ARM_LENGTH.
Let accepted (dx dy : Z) :=
  ArmSpec.step_accepted img_left width height cross_L2 cross_t1 cross_t2 x y dx dy.

(** One direction: the loop's result is the largest accepted prefix, given
    that the border test agrees with the image bounds along the prefix. *)
Lemma arm_direction at_border dir stride dx dy p0 :
  (forall n, ArmSpec.pixel_color img_left width (ArmSpec.arm_pixel x y dx dy n)
             = color_at img_left (y * width * 3 + 3 * x + (n + 1) * stride)) ->
  (forall n, 0 <= n ->
     (n = 0 \/ ArmSpec.in_image width height (ArmSpec.arm_pixel x y dx dy (n - 1)) = true) ->
     at_border (p0 + (n + 1) * dir)
     = negb (ArmSpec.in_image width height (ArmSpec.arm_pixel x y dx dy n))) ->
  ArmSpec.largest_prefix limit (accepted dx dy)
    (CrossAggregator.arm_loop img_left cross_L2 cross_t1 cross_t2
       (color_at img_left (y * width * 3 + 3 * x)) at_border dir stride
       (seqZ 0 limit) (y * width * 3 + 3 * x + stride)
       (color_at img_left (y * width * 3 + 3 * x)) (p0 + dir) 0).
Proof.
  intros Hcol Hborder.
  pose proof (arm_loop_prefix img_left cross_L2 cross_t1 cross_t2
    (color_at img_left (y * width * 3 + 3 * x)) at_border dir stride
    (y * width * 3 + 3 * x) p0 (Z.to_nat limit) 0
    (color_at img_left (y * width * 3 + 3 * x))) as Hloop.
  cbn zeta in Hloop.
  replace (y * width * 3 + 3 * x + (0 + 1) * stride)
    with (y * width * 3 + 3 * x + stride) in Hloop by lia.
  replace (p0 + (0 + 1) * dir) with (p0 + dir) in Hloop by lia.
  assert (Hseq : seqZ 0 (Z.of_nat (Z.to_nat limit)) = seqZ 0 limit).
  { destruct (decide (0 <= limit)).
    - by rewrite Z2Nat.id.
    - rewrite !seqZ_nil; [done|lia|lia]. }
  rewrite Hseq in Hloop.
  destruct Hloop as (Hr & Hall & Hstop); [lia| |lia|].
  { subst limit. unfold MAX_ARM_LENGTH. lia. }
  set (len := CrossAggregator.arm_loop _ _ _ _ _ _ _ _ _ _ _ _ _) in *.
  assert (Heq : forall n, 0 <= n ->
    (n = 0 \/ ArmSpec.in_image width height (ArmSpec.arm_pixel x y dx dy (n - 1)) = true) ->
    accepted dx dy n =
      negb (at_border (p0 + (n + 1) * dir))
      && (ColorDist (color_at img_left (y * width * 3 + 3 * x + (n + 1) * stride))
                    (color_at img_left (y * width * 3 + 3 * x)) <? cross_t1)
      && ((n =? 0)
          || (ColorDist (color_at img_left (y * width * 3 + 3 * x + (n + 1) * stride))
                        (color_at img_left (y * width * 3 + 3 * x + (n - 1 + 1) * stride))
              <? cross_t1))
      && ((n + 1 <=? cross_L2)
          || (ColorDist (color_at img_left (y * width * 3 + 3 * x + (n + 1) * stride))
                        (color_at img_left (y * width * 3 + 3 * x)) <? cross_t2))).
  { intros n Hn Hprev. unfold accepted, ArmSpec.step_accepted. cbn zeta.
    rewrite (Hborder n Hn Hprev), negb_involutive, !Hcol.
    reflexivity. }
  assert (Hinside : forall n, accepted dx dy n = true ->
    ArmSpec.in_image width height (ArmSpec.arm_pixel x y dx dy n) = true).
  { intros n Hacc. unfold accepted, ArmSpec.step_accepted in Hacc. cbn zeta in Hacc.
    rewrite !andb_true_iff in Hacc. tauto. }
  assert (Hin : forall k : nat, Z.of_nat k < len ->
    accepted dx dy (Z.of_nat k) = true).
  { induction k as [|k IHk]; intros Hk.
    - rewrite Heq; [|lia|by left]. apply Hall. lia.
    - rewrite Heq; [apply Hall; lia|lia|]. right.
      replace (Z.of_nat (S k) - 1) with (Z.of_nat k) by lia.
      apply Hinside, IHk. lia. }
  split; [lia|]. split; [lia|]. split.
  - intros n Hn. replace n with (Z.of_nat (Z.to_nat n)) by lia. apply Hin. lia.
  - intros Hlt. rewrite Heq; [apply Hstop; lia|lia|].
    destruct (decide (len = 0)); [by left|right].
    apply Hinside. replace (len - 1) with (Z.of_nat (Z.to_nat (len - 1))) by lia.
    apply Hin. lia.
Qed.

End FindArms.

Lemma step_accepted_in_image img w h L2 t1 t2 x y dx dy n :
  ArmSpec.step_accepted img w h L2 t1 t2 x y dx dy n = true ->
  ArmSpec.in_image w h (ArmSpec.arm_pixel x y dx dy n) = true.
Proof.
  unfold ArmSpec.step_accepted. cbn zeta. rewrite !andb_true_iff. tauto.
Qed.

Lemma in_image_iff w h p :
  ArmSpec.in_image w h p = true <-> 0 <= fst p < w /\ 0 <= snd p < h.
Proof.
  unfold ArmSpec.in_image.
  rewrite !andb_true_iff, !Z.leb_le, !Z.ltb_lt. lia.
Qed.

Lemma in_image_false_iff w h p :
  ArmSpec.in_image w h p = false <-> ~ (0 <= fst p < w /\ 0 <= snd p < h).
Proof. rewrite <- in_image_iff. by destruct (ArmSpec.in_image w h p). Qed.

(** The end of an arm is a pixel of the image. *)
Lemma largest_prefix_end_in_image img w h L2 t1 t2 x y dx dy limit len :
  0 <= x < w -> 0 <= y < h ->
  ArmSpec.largest_prefix limit
    (ArmSpec.step_accepted img w h L2 t1 t2 x y dx dy) len ->
  0 <= x + len * dx < w /\ 0 <= y + len * dy < h.
Proof.
  intros Hx Hy (H0 & _ & Hall & _).
  destruct (decide (len = 0)) as [->|Hne]; [lia|].
  specialize (Hall (len - 1) ltac:(lia)).
  apply step_accepted_in_image, in_image_iff in Hall.
  unfold ArmSpec.arm_pixel in Hall. simpl in Hall.
  replace (len - 1 + 1) with len in Hall by lia. exact Hall.
Qed.

Lemma FindHorizontalArm_spec width height img_left L1 L2 t1 t2 x y :
  0 <= x < width -> 0 <= y < height ->
  let arm := CrossAggregator.FindHorizontalArm width img_left L1 L2 t1 t2 x y in
  let accepted := ArmSpec.step_accepted img_left width height L2 t1 t2 x y in
  ArmSpec.largest_prefix (Z.min L1 MAX_ARM_LENGTH) (accepted (-1) 0) (fst arm)
  /\ ArmSpec.largest_prefix (Z.min L1 MAX_ARM_LENGTH) (accepted 1 0) (snd arm).
Proof.
  intros Hx Hy. cbn zeta. unfold CrossAggregator.FindHorizontalArm. cbn zeta.
  simpl fst; simpl snd. split.
  - replace (x + -1) with (x + (-1)) by lia.
    apply (arm_direction width height img_left L1 L2 t1 t2 x y Hx Hy
             (fun xn => xn <? 0) (-1) (-1 * 3) (-1) 0 x).
    + intros n. unfold ArmSpec.pixel_color, ArmSpec.arm_pixel. simpl.
      f_equal. lia.
    + intros n Hn _. symmetry.
      destruct (Z.ltb_spec (x + (n + 1) * -1) 0); simpl.
      * apply negb_true_iff, in_image_false_iff. unfold ArmSpec.arm_pixel. simpl. lia.
      * apply negb_false_iff, in_image_iff. unfold ArmSpec.arm_pixel. simpl. lia.
  - apply (arm_direction width height img_left L1 L2 t1 t2 x y Hx Hy
             (fun xn => xn =? width) 1 (1 * 3) 1 0 x).
    + intros n. unfold ArmSpec.pixel_color, ArmSpec.arm_pixel. simpl.
      f_equal. lia.
    + intros n Hn Hprev.
      assert (Hle : x + (n + 1) * 1 <= width).
      { destruct Hprev as [->|Hprev]; [lia|].
        apply in_image_iff in Hprev. unfold ArmSpec.arm_pixel in Hprev.
        simpl in Hprev. lia. }
      destruct (Z.eqb_spec (x + (n + 1) * 1) width) as [Heq|Hne]; simpl; symmetry.
      * apply negb_true_iff, in_image_false_iff. unfold ArmSpec.arm_pixel. simpl. lia.
      * apply negb_false_iff, in_image_iff. unfold ArmSpec.arm_pixel. simpl. lia.
Qed.

Lemma FindVerticalArm_spec width height img_left L1 L2 t1 t2 x y :
  0 <= x < width -> 0 <= y < height ->
  let arm := CrossAggregator.FindVerticalArm width height img_left L1 L2 t1 t2 x y in
  let accepted := ArmSpec.step_accepted img_left width height L2 t1 t2 x y in
  ArmSpec.largest_prefix (Z.min L1 MAX_ARM_LENGTH) (accepted 0 (-1)) (fst arm)
  /\ ArmSpec.largest_prefix (Z.min L1 MAX_ARM_LENGTH) (accepted 0 1) (snd arm).
Proof.
  intros Hx Hy. cbn zeta. unfold CrossAggregator.FindVerticalArm. cbn zeta.
  simpl fst; simpl snd. split.
  - replace (y + -1) with (y + (-1)) by lia.
    apply (arm_direction width height img_left L1 L2 t1 t2 x y Hx Hy
             (fun yn => yn <? 0) (-1) (-1 * width * 3) 0 (-1) y).
    + intros n. unfold ArmSpec.pixel_color, ArmSpec.arm_pixel. simpl.
      f_equal. lia.
    + intros n Hn _. symmetry.
      destruct (Z.ltb_spec (y + (n + 1) * -1) 0); simpl.
      * apply negb_true_iff, in_image_false_iff. unfold ArmSpec.arm_pixel. simpl. lia.
      * apply negb_false_iff, in_image_iff. unfold ArmSpec.arm_pixel. simpl. lia.
  - apply (arm_direction width height img_left L1 L2 t1 t2 x y Hx Hy
             (fun yn => yn =? height) 1 (1 * width * 3) 0 1 y).
    + intros n. unfold ArmSpec.pixel_color, ArmSpec.arm_pixel. simpl.
      f_equal. lia.
    + intros n Hn Hprev.
      assert (Hle : y + (n + 1) * 1 <= height).
      { destruct Hprev as [->|Hprev]; [lia|].
        apply in_image_iff in Hprev. unfold ArmSpec.arm_pixel in Hprev.
        simpl in Hprev. lia. }
      destruct (Z.eqb_spec (y + (n + 1) * 1) height) as [Heq|Hne]; simpl; symmetry.
      * apply negb_true_iff, in_image_false_iff. unfold ArmSpec.arm_pixel. simpl. lia.
      * apply negb_false_iff, in_image_iff. unfold ArmSpec.arm_pixel. simpl. lia.
Qed.

Lemma BuildArms_rd width height img_left L1 L2 t1 t2 arms0 :
  0 <= width -> 0 <= height -> Z.of_nat (length arms0) = width * height ->
  let arms := CrossAggregator.BuildArms width height img_left L1 L2 t1 t2 arms0 in
  length arms = length arms0 /\
  forall x y, 0 <= x < width -> 0 <= y < height ->
    rd arms (y * width + x) =
      CrossArm.mk
        (fst (CrossAggregator.FindHorizontalArm width img_left L1 L2 t1 t2 x y))
        (snd (CrossAggregator.FindHorizontalArm width img_left L1 L2 t1 t2 x y))
        (fst (CrossAggregator.FindVerticalArm width height img_left L1 L2 t1 t2 x y))
        (snd (CrossAggregator.FindVerticalArm width height img_left L1 L2 t1 t2 x y)).
Proof.
  intros Hw Hh Hlen. unfold CrossAggregator.BuildArms.
  apply (pixel_loop_tabulate width height
    (fun x y => CrossArm.mk
        (fst (CrossAggregator.FindHorizontalArm width img_left L1 L2 t1 t2 x y))
        (snd (CrossAggregator.FindHorizontalArm width img_left L1 L2 t1 t2 x y))
        (fst (CrossAggregator.FindVerticalArm width height img_left L1 L2 t1 t2 x y))
        (snd (CrossAggregator.FindVerticalArm width height img_left L1 L2 t1 t2 x y))));
    assumption.
Qed.

(** C8.  For every pixel [(x, y)] of the image, each of the four arm
    lengths that [BuildArms] stores is the length of the largest prefix of
    accepted steps among the steps of index below
    [min(cross_L1, MAX_ARM_LENGTH)], where a step is accepted when its pixel
    is inside the image, closer than [cross_t1] in colour to the centre
    and (after the first step) to the previous pixel, and closer than
    [cross_t2] to the centre once the step count plus one exceeds
    [cross_L2].  Hence [x - left >= 0], [x + right < width],
    [y - top >= 0] and [y + bottom < height].  The arms that [Aggregate]
    computes do not depend on the right image. *)
Theorem cross_arms_largest_prefix
    (width height : Z) (img_left : list Z)
    (cross_L1 cross_L2 cross_t1 cross_t2 : Z)
    (arms0 : list CrossArm.t) (x y : Z) :
  0 <= x < width -> 0 <= y < height ->
  Z.of_nat (length arms0) = width * height ->
  let arm :=
    rd (CrossAggregator.BuildArms width height img_left
          cross_L1 cross_L2 cross_t1 cross_t2 arms0) (y * width + x) in
  let limit := Z.min cross_L1 MAX_ARM_LENGTH in
  let accepted :=
    ArmSpec.step_accepted img_left width height cross_L2 cross_t1 cross_t2 x y in
  (ArmSpec.largest_prefix limit (accepted (-1) 0) (CrossArm.left arm)
   /\ ArmSpec.largest_prefix limit (accepted 1 0) (CrossArm.right arm)
   /\ ArmSpec.largest_prefix limit (accepted 0 (-1)) (CrossArm.top arm)
   /\ ArmSpec.largest_prefix limit (accepted 0 1) (CrossArm.bottom arm))
  /\ (0 <= x - CrossArm.left arm /\ x + CrossArm.right arm < width
      /\ 0 <= y - CrossArm.top arm /\ y + CrossArm.bottom arm < height)
  /\ (forall (o : CrossAggregator.t) (num_iters : Z)
             (img_right img_right' : list Z) (cost_init : list float32),
        CrossAggregator.vec_cross_arms_
          <$> returned
                (CrossAggregator.Aggregate num_iters
                   (CrossAggregator.SetData img_left img_right cost_init o))
        = CrossAggregator.vec_cross_arms_
          <$> returned
                (CrossAggregator.Aggregate num_iters
                   (CrossAggregator.SetData img_left img_right' cost_init o))).
Proof.
  intros Hx Hy Hlen. cbn zeta.
  destruct (BuildArms_rd width height img_left cross_L1 cross_L2 cross_t1
              cross_t2 arms0 ltac:(lia) ltac:(lia) Hlen) as [_ Hrd].
  rewrite (Hrd x y Hx Hy).
  cbn [CrossArm.left CrossArm.right CrossArm.top CrossArm.bottom].
  destruct (FindHorizontalArm_spec width height img_left cross_L1 cross_L2
              cross_t1 cross_t2 x y Hx Hy) as [Hl Hr].
  destruct (FindVerticalArm_spec width height img_left cross_L1 cross_L2
              cross_t1 cross_t2 x y Hx Hy) as [Ht Hb].
  split; [exact (conj Hl (conj Hr (conj Ht Hb)))|]. split.
  - pose proof (largest_prefix_end_in_image _ _ _ _ _ _ _ _ _ _ _ _ Hx Hy Hl).
    pose proof (largest_prefix_end_in_image _ _ _ _ _ _ _ _ _ _ _ _ Hx Hy Hr).
    pose proof (largest_prefix_end_in_image _ _ _ _ _ _ _ _ _ _ _ _ Hx Hy Ht).
    pose proof (largest_prefix_end_in_image _ _ _ _ _ _ _ _ _ _ _ _ Hx Hy Hb).
    lia.
  - intros o num_iters img_right img_right' cost_init.
    unfold CrossAggregator.Aggregate, CrossAggregator.SetData. simpl.
    destruct (CrossAggregator.is_initialized_ o); simpl; [|reflexivity].
    destruct (CrossAggregator.ComputeSupPixelCount _ _ _ _) as [sup_tmp sup].
    destruct (_ <? 0); [reflexivity|].
    destruct (for_loop 0 num_iters _ _) as [hf [tmp aggr]]. reflexivity.
Qed.

Lemma cross_arms_largest_prefix_witness :
  0 <= 1 - CrossArm.left
            (rd (CrossAggregator.BuildArms 3 1 [10; 10; 10; 12; 12; 12; 90; 90; 90]
                   34 17 20 6 (CrossAggregator.fresh 3)) (0 * 3 + 1))
  /\ 1 + CrossArm.right
            (rd (CrossAggregator.BuildArms 3 1 [10; 10; 10; 12; 12; 12; 90; 90; 90]
                   34 17 20 6 (CrossAggregator.fresh 3)) (0 * 3 + 1)) < 3.
Proof.
  pose proof (cross_arms_largest_prefix 3 1 [10; 10; 10; 12; 12; 12; 90; 90; 90]
                34 17 20 6 (CrossAggregator.fresh 3) 1 0
                ltac:(lia) ltac:(lia) ltac:(reflexivity)) as H.
  cbn zeta in H. destruct H as (_ & (Hl & Hr & _) & _). split; assumption.
Defined.

(** ** Support counts and aggregation *)

(** A scan that stores, in the cell [idx x y] of one buffer of the state,
    a value computed from the part of the state that the scan leaves
    alone. *)
Lemma pixel_loop_cells {S V O} `{Inhabited V} w h (idx : Z -> Z -> Z)
    (inv : S -> Prop) (arr : S -> list V) (other : S -> O)
    (f : Z -> Z -> O -> V) (body : Z -> Z -> S -> S) s0 :
  0 <= w -> 0 <= h ->
  (forall x y, 0 <= x < w -> 0 <= y < h ->
     0 <= idx x y < Z.of_nat (length (arr s0))) ->
  (forall x y x' y', 0 <= x < w -> 0 <= y < h -> 0 <= x' < w -> 0 <= y' < h ->
     idx x y = idx x' y' -> x = x' /\ y = y') ->
  inv s0 ->
  (forall x y s, 0 <= x < w -> 0 <= y < h -> inv s ->
     inv (body x y s)
     /\ arr (body x y s) = wr (arr s) (idx x y) (f x y (other s))
     /\ other (body x y s) = other s) ->
  let s := for_loop 0 h (fun y => for_loop 0 w (fun x => body x y)) s0 in
  inv s /\ other s = other s0 /\ length (arr s) = length (arr s0)
  /\ forall x y, 0 <= x < w -> 0 <= y < h ->
       rd (arr s) (idx x y) = f x y (other s0).
Proof.
  intros Hw Hh Hidx Hinj Hinv Hbody s.
  pose (P := fun (n : Z) (s : S) =>
    inv s /\ other s = other s0 /\ length (arr s) = length (arr s0)
    /\ forall x y, 0 <= x < w -> 0 <= y < h -> y * w + x < n ->
         rd (arr s) (idx x y) = f x y (other s0)).
  assert (HP : P (w * h) s).
  { subst s. apply (pixel_loop_ind P); [done|done| |].
    - repeat split; [done|]. intros x y Hx Hy Hn. nia.
    - intros x y t Hx Hy (Hi & Ho & Hl & Ha).
      destruct (Hbody x y t Hx Hy Hi) as (Hi' & Harr & Ho').
      split; [done|]. split; [congruence|].
      split; [by rewrite Harr, length_wr|].
      intros x' y' Hx' Hy' Hn. rewrite Harr.
      rewrite rd_wr by (rewrite Hl; by apply Hidx).
      case_decide as Heq.
      + apply Hinj in Heq as [-> ->]; [by rewrite Ho|done..].
      + apply Ha; [done|done|].
        destruct (decide (y' * w + x' = y * w + x)) as [Heq'|]; [|lia].
        apply pixel_index_inj in Heq' as [-> ->]; [done|lia|lia]. }
  destruct HP as (Hi & Ho & Hl & Ha). repeat split; [done..|].
  intros x y Hx Hy. apply Ha; [done|done|nia].
Qed.

Lemma fold_left_fmap {A B C} (g : A -> B) (f : C -> B -> C) (l : list A) c :
  fold_left f (g <$> l) c = fold_left (fun c a => f c (g a)) l c.
Proof. revert c. induction l as [|a l IH]; intros c; simpl; [done|apply IH]. Qed.

Lemma fold_left_ext_in {A C} (f g : C -> A -> C) (l : list A) c :
  (forall c a, a ∈ l -> f c a = g c a) -> fold_left f l c = fold_left g l c.
Proof.
  revert c. induction l as [|a l IH]; intros c Hfg; simpl; [done|].
  rewrite Hfg by left. apply IH. intros; apply Hfg. by right.
Qed.

Lemma fold_left_length_concat {A B} (row : A -> list B) (l : list A) c :
  fold_left (fun c a => c + Z.of_nat (length (row a))) l c
  = c + Z.of_nat (length (concat (row <$> l))).
Proof.
  revert c. induction l as [|a l IH]; intros c; csimpl; [lia|].
  rewrite IH, length_app. lia.
Qed.

Lemma arms_in_bounds_spec width height arms x y :
  RegionSpec.arms_in_bounds width height arms = true ->
  0 <= x < width -> 0 <= y < height ->
  let arm := rd arms (y * width + x) in
  0 <= CrossArm.left arm <= x /\ 0 <= CrossArm.right arm
  /\ x + CrossArm.right arm < width
  /\ 0 <= CrossArm.top arm <= y /\ 0 <= CrossArm.bottom arm
  /\ y + CrossArm.bottom arm < height.
Proof.
  unfold RegionSpec.arms_in_bounds. rewrite forallb_forall.
  intros Hall Hx Hy. specialize (Hall (x, y)). simpl in Hall.
  rewrite !andb_true_iff, !Z.leb_le, !Z.ltb_lt in Hall.
  cbn zeta.
  assert (Hin : In (x, y) (row_major width height)).
  { apply list_elem_of_In, elem_of_row_major. lia. }
  specialize (Hall Hin). lia.
Qed.

Lemma for_loop_0_2 {S} (body : Z -> S -> S) s :
  for_loop 0 2 body s = body 1 (body 0 s).
Proof. reflexivity. Qed.

Lemma length_horizontal_arm width arms p :
  0 <= CrossArm.left (rd arms (snd p * width + fst p)) ->
  0 <= CrossArm.right (rd arms (snd p * width + fst p)) ->
  Z.of_nat (length (RegionSpec.horizontal_arm width arms p))
  = CrossArm.left (rd arms (snd p * width + fst p))
    + CrossArm.right (rd arms (snd p * width + fst p)) + 1.
Proof.
  intros. unfold RegionSpec.horizontal_arm. cbn zeta.
  rewrite length_fmap, length_seqZ. lia.
Qed.

Lemma length_vertical_arm width arms p :
  0 <= CrossArm.top (rd arms (snd p * width + fst p)) ->
  0 <= CrossArm.bottom (rd arms (snd p * width + fst p)) ->
  Z.of_nat (length (RegionSpec.vertical_arm width arms p))
  = CrossArm.top (rd arms (snd p * width + fst p))
    + CrossArm.bottom (rd arms (snd p * width + fst p)) + 1.
Proof.
  intros. unfold RegionSpec.vertical_arm. cbn zeta.
  rewrite length_fmap, length_seqZ. lia.
Qed.

Section SupCount.

Variables (width height : Z) (arms : list CrossArm.t).
Hypothesis (Hw : 0 <= width) (Hh : 0 <= height).
Hypothesis (Harms : RegionSpec.arms_in_bounds width height arms = true).

(** One pass of [ComputeSupPixelCount] over the image. *)
Let pass (horizontal_first : bool) (k : Z) (st : list Z * list (list Z)) :=
  for_loop 0 height (fun y =>
    for_loop 0 width (fun x '(vec_sup_count_tmp_, vec_sup_count_) =>
      let count :=
        CrossAggregator.sup_count_pixel width arms horizontal_first k y x
          vec_sup_count_tmp_ in
      if k =? 0 then
        (wr vec_sup_count_tmp_ (y * width + x) count, vec_sup_count_)
      else
        (vec_sup_count_tmp_,
         wr vec_sup_count_ (if horizontal_first then 0 else 1)
            (wr (rd vec_sup_count_ (if horizontal_first then 0 else 1))
                (y * width + x) count)))) st.

Lemma sup_pass1 hf tmp sup :
  Z.of_nat (length tmp) = width * height ->
  let st := pass hf 0 (tmp, sup) in
  snd st = sup /\ length (fst st) = length tmp
  /\ forall x y, 0 <= x < width -> 0 <= y < height ->
       rd (fst st) (y * width + x)
       = Z.of_nat (length (if hf then RegionSpec.horizontal_arm width arms (x, y)
                           else RegionSpec.vertical_arm width arms (x, y))).
Proof.
  intros Hlen st. subst st. unfold pass.
  pose proof (pixel_loop_cells width height (fun x y => y * width + x)
    (fun _ => True) fst snd
    (fun x y (_ : list (list Z)) =>
       Z.of_nat (length (if hf then RegionSpec.horizontal_arm width arms (x, y)
                         else RegionSpec.vertical_arm width arms (x, y))))
    (fun x y '(vec_sup_count_tmp_, vec_sup_count_) =>
      let count :=
        CrossAggregator.sup_count_pixel width arms hf 0 y x
          vec_sup_count_tmp_ in
      if 0 =? 0 then
        (wr vec_sup_count_tmp_ (y * width + x) count, vec_sup_count_)
      else
        (vec_sup_count_tmp_,
         wr vec_sup_count_ (if hf then 0 else 1)
            (wr (rd vec_sup_count_ (if hf then 0 else 1))
                (y * width + x) count)))
    (tmp, sup) Hw Hh) as Hcells.
  cbn zeta in Hcells. simpl fst in Hcells. simpl snd in Hcells.
  destruct Hcells as (_ & Ho & Hl & Ha); [| |done| |by auto].
  - intros x y Hx Hy. simpl. pose proof (pixel_index_bound width height x y Hx Hy). lia.
  - intros x y x' y' Hx Hy Hx' Hy' Heq.
    by apply (pixel_index_inj width).
  - intros x y [t s] Hx Hy _. split; [done|]. simpl. split; [|done].
    f_equal. unfold CrossAggregator.sup_count_pixel.
    pose proof (arms_in_bounds_spec width height arms x y Harms Hx Hy) as Hb.
    cbn zeta in Hb. destruct hf; simpl.
    + rewrite for_loop_count by lia.
      rewrite length_horizontal_arm by (simpl; lia). simpl. lia.
    + rewrite for_loop_count by lia.
      rewrite length_vertical_arm by (simpl; lia). simpl. lia.
Qed.

Lemma region_size_fold (hf : bool) x y (tmp : list Z) :
  0 <= x < width -> 0 <= y < height ->
  (forall x y, 0 <= x < width -> 0 <= y < height ->
     rd tmp (y * width + x)
     = Z.of_nat (length (if hf then RegionSpec.horizontal_arm width arms (x, y)
                         else RegionSpec.vertical_arm width arms (x, y)))) ->
  CrossAggregator.sup_count_pixel width arms hf 1 y x tmp
  = RegionSpec.region_size (RegionSpec.cross_region width arms hf (x, y)).
Proof.
  intros Hx Hy Htmp.
  pose proof (arms_in_bounds_spec width height arms x y Harms Hx Hy) as Hb.
  cbn zeta in Hb.
  unfold CrossAggregator.sup_count_pixel, RegionSpec.region_size,
    RegionSpec.cross_region, for_loop.
  destruct hf; simpl.
  - unfold RegionSpec.vertical_arm at 1. cbn zeta. simpl fst; simpl snd.
    rewrite <- list_fmap_compose.
    rewrite <- (Z.add_0_l (Z.of_nat _)), <- fold_left_length_concat.
    replace (CrossArm.bottom (rd arms (y * width + x)) + 1
             - - CrossArm.top (rd arms (y * width + x)))
      with (CrossArm.bottom (rd arms (y * width + x)) + 1
            + CrossArm.top (rd arms (y * width + x))) by lia.
    apply fold_left_ext_in. intros c t Ht. apply elem_of_seqZ in Ht.
    f_equal. simpl. apply Htmp; lia.
  - unfold RegionSpec.horizontal_arm at 1. cbn zeta. simpl fst; simpl snd.
    rewrite <- list_fmap_compose.
    rewrite <- (Z.add_0_l (Z.of_nat _)), <- fold_left_length_concat.
    replace (CrossArm.right (rd arms (y * width + x)) + 1
             - - CrossArm.left (rd arms (y * width + x)))
      with (CrossArm.right (rd arms (y * width + x)) + 1
            + CrossArm.left (rd arms (y * width + x))) by lia.
    apply fold_left_ext_in. intros c t Ht. apply elem_of_seqZ in Ht.
    f_equal. simpl. rewrite <- Htmp by lia. f_equal. lia.
Qed.

Lemma sup_pass2 (hf : bool) tmp (sup : list (list Z)) :
  length sup = 2%nat ->
  Z.of_nat (length (rd sup (if hf then 0 else 1))) = width * height ->
  (forall x y, 0 <= x < width -> 0 <= y < height ->
     rd tmp (y * width + x)
     = Z.of_nat (length (if hf then RegionSpec.horizontal_arm width arms (x, y)
                         else RegionSpec.vertical_arm width arms (x, y)))) ->
  let st := pass hf 1 (tmp, sup) in
  fst st = tmp /\ length (snd st) = 2%nat
  /\ rd (snd st) (if hf then 1 else 0) = rd sup (if hf then 1 else 0)
  /\ length (rd (snd st) (if hf then 0 else 1))
     = length (rd sup (if hf then 0 else 1))
  /\ forall x y, 0 <= x < width -> 0 <= y < height ->
       rd (rd (snd st) (if hf then 0 else 1)) (y * width + x)
       = RegionSpec.region_size (RegionSpec.cross_region width arms hf (x, y)).
Proof.
  intros Hlen2 Hlen Htmp st. subst st. unfold pass.
  pose proof (pixel_loop_cells width height (fun x y => y * width + x)
    (fun s : list Z * list (list Z) => length (snd s) = 2%nat)
    (fun s => rd (snd s) (if hf then 0 else 1))
    (fun s => (fst s, rd (snd s) (if hf then 1 else 0)))
    (fun x y (o : list Z * list Z) =>
       CrossAggregator.sup_count_pixel width arms hf 1 y x (fst o))
    (fun x y '(vec_sup_count_tmp_, vec_sup_count_) =>
      let count :=
        CrossAggregator.sup_count_pixel width arms hf 1 y x
          vec_sup_count_tmp_ in
      if 1 =? 0 then
        (wr vec_sup_count_tmp_ (y * width + x) count, vec_sup_count_)
      else
        (vec_sup_count_tmp_,
         wr vec_sup_count_ (if hf then 0 else 1)
            (wr (rd vec_sup_count_ (if hf then 0 else 1))
                (y * width + x) count)))
    (tmp, sup) Hw Hh) as Hcells.
  cbn zeta in Hcells. simpl fst in Hcells. simpl snd in Hcells.
  destruct Hcells as (Hi & Ho & Hl & Ha); [| |done| |].
  - intros x y Hx Hy. simpl. pose proof (pixel_index_bound width height x y Hx Hy). lia.
  - intros x y x' y' Hx Hy Hx' Hy' Heq.
    by apply (pixel_index_inj width).
  - intros x y [t s] Hx Hy Hi. simpl in Hi. simpl.
    split; [by rewrite length_wr|]. split.
    + rewrite rd_wr_eq; [done|]. destruct hf; lia.
    + f_equal. rewrite rd_wr_ne; [done|]. by destruct hf.
  - injection Ho as Ho1 Ho2. repeat split; [done..|].
    intros x y Hx Hy. rewrite Ha by done. simpl. by apply region_size_fold.
Qed.

Lemma ComputeSupPixelCount_passes st :
  CrossAggregator.ComputeSupPixelCount width height arms st
  = pass false 1 (pass false 0 (pass true 1 (pass true 0 st))).
Proof.
  unfold CrossAggregator.ComputeSupPixelCount.
  rewrite for_loop_0_2. cbn beta iota zeta.
  rewrite !for_loop_0_2. reflexivity.
Qed.

Lemma ComputeSupPixelCount_spec tmp (sup : list (list Z)) :
  Z.of_nat (length tmp) = width * height ->
  length sup = 2%nat ->
  Z.of_nat (length (rd sup 0)) = width * height ->
  Z.of_nat (length (rd sup 1)) = width * height ->
  let st := CrossAggregator.ComputeSupPixelCount width height arms (tmp, sup) in
  length (fst st) = length tmp /\ length (snd st) = 2%nat
  /\ length (rd (snd st) 0) = length (rd sup 0)
  /\ length (rd (snd st) 1) = length (rd sup 1)
  /\ forall (hf : bool) x y, 0 <= x < width -> 0 <= y < height ->
       rd (rd (snd st) (if hf then 0 else 1)) (y * width + x)
       = RegionSpec.region_size (RegionSpec.cross_region width arms hf (x, y)).
Proof.
  intros Htmp Hsup Hs0 Hs1 st. subst st.
  rewrite ComputeSupPixelCount_passes.
  destruct (sup_pass1 true tmp sup Htmp) as (Ha1 & Ha2 & Ha3).
  destruct (pass true 0 (tmp, sup)) as [tmp1 sup1]. simpl in Ha1, Ha2, Ha3. subst sup1.
  destruct (sup_pass2 true tmp1 sup Hsup Hs0 Ha3) as (Hb1 & Hb2 & Hb3 & Hb4 & Hb5).
  destruct (pass true 1 (tmp1, sup)) as [tmp2 sup2].
  simpl in Hb1, Hb2, Hb3, Hb4, Hb5. subst tmp2.
  destruct (sup_pass1 false tmp1 sup2 ltac:(lia)) as (Hc1 & Hc2 & Hc3).
  destruct (pass false 0 (tmp1, sup2)) as [tmp3 sup3]. simpl in Hc1, Hc2, Hc3. subst sup3.
  destruct (sup_pass2 false tmp3 sup2 Hb2 ltac:(simpl; congruence) Hc3)
    as (Hd1 & Hd2 & Hd3 & Hd4 & Hd5).
  destruct (pass false 1 (tmp3, sup2)) as [tmp4 sup4].
  simpl in Hd1, Hd2, Hd3, Hd4, Hd5. subst tmp4. simpl.
  split; [congruence|]. split; [done|]. split; [congruence|]. split; [congruence|].
  intros [|] x y Hx Hy.
  - rewrite Hd3. by apply Hb5.
  - by apply Hd5.
Qed.

End SupCount.

Lemma arm_in_image width height arms (p q : Z * Z) :
  RegionSpec.arms_in_bounds width height arms = true ->
  0 <= fst p < width -> 0 <= snd p < height ->
  q ∈ RegionSpec.horizontal_arm width arms p
  \/ q ∈ RegionSpec.vertical_arm width arms p ->
  0 <= fst q < width /\ 0 <= snd q < height.
Proof.
  intros Harms Hx Hy Hq. destruct p as [x y]. simpl in Hx, Hy.
  pose proof (arms_in_bounds_spec width height arms x y Harms Hx Hy) as Hb.
  cbn zeta in Hb.
  unfold RegionSpec.horizontal_arm, RegionSpec.vertical_arm in Hq.
  cbn zeta in Hq. simpl fst in Hq; simpl snd in Hq.
  destruct Hq as [Hq|Hq]; apply list_elem_of_fmap in Hq as (t & -> & Ht);
    apply elem_of_seqZ in Ht; simpl; lia.
Qed.

Lemma row_sum_ext (f g : Z * Z -> float32) row :
  (forall q, q ∈ row -> f q = g q) ->
  RegionSpec.row_sum f row = RegionSpec.row_sum g row.
Proof.
  intros Hfg. unfold RegionSpec.row_sum. apply fold_left_ext_in.
  intros c q Hq. by rewrite Hfg.
Qed.

Section AggregateInArms.

Variables (width height min_disparity max_disparity : Z).
Variables (arms : list CrossArm.t) (vec_sup_count_ : list (list Z)).
Variables (disparity : Z) (horizontal_first : bool).
Hypothesis (Hw : 0 <= width) (Hh : 0 <= height).
Hypothesis (Hd : min_disparity <= disparity < max_disparity).
Hypothesis (Harms : RegionSpec.arms_in_bounds width height arms = true).

Let disp := disparity - min_disparity.
Let disp_range := max_disparity - min_disparity.
Let idx (x y : Z) := y * width * disp_range + x * disp_range + disp.

Lemma volume_index_bound x y :
  0 <= x < width -> 0 <= y < height ->
  0 <= idx x y < width * height * disp_range.
Proof.
  intros Hx Hy. subst idx disp disp_range. cbn beta.
  pose proof (pixel_index_bound width height x y Hx Hy).
  replace (y * width * (max_disparity - min_disparity)
           + x * (max_disparity - min_disparity))
    with ((y * width + x) * (max_disparity - min_disparity)) by lia.
  nia.
Qed.

Lemma volume_index_inj x y x' y' :
  0 <= x < width -> 0 <= y < height -> 0 <= x' < width -> 0 <= y' < height ->
  idx x y = idx x' y' -> x = x' /\ y = y'.
Proof.
  intros Hx Hy Hx' Hy' Heq. subst idx disp disp_range. cbn beta in Heq.
  apply (pixel_index_inj width); [done|done|]. nia.
Qed.

(** The sum of the first pass at [(x, y)] over the plane [plane], and the
    sum of the second pass. *)
Let first_arm (p : Z * Z) : list (Z * Z) :=
  if horizontal_first then RegionSpec.horizontal_arm width arms p
  else RegionSpec.vertical_arm width arms p.
Let second_arm (p : Z * Z) : list (Z * Z) :=
  if horizontal_first then RegionSpec.vertical_arm width arms p
  else RegionSpec.horizontal_arm width arms p.

Lemma aggr_pixel_row k x y (tmp : list (list float32)) :
  0 <= x < width -> 0 <= y < height -> k = 0 \/ k = 1 ->
  CrossAggregator.aggr_pixel width arms horizontal_first k y x tmp
  = RegionSpec.row_sum (fun q => rd (rd tmp k) (snd q * width + fst q))
      (if k =? 0 then first_arm (x, y) else second_arm (x, y)).
Proof.
  intros Hx Hy Hk.
  unfold CrossAggregator.aggr_pixel, RegionSpec.row_sum, first_arm, second_arm,
    RegionSpec.horizontal_arm, RegionSpec.vertical_arm, for_loop.
  cbn zeta. simpl fst; simpl snd.
  destruct horizontal_first, Hk as [-> | ->]; simpl;
    rewrite fold_left_fmap; simpl;
    match goal with
    | |- fold_left _ (seqZ _ ?n) _ = fold_left _ (seqZ _ ?m) _ =>
        replace n with m by lia
    end;
    apply fold_left_ext_in; intros c t _;
    first [reflexivity | do 2 f_equal; lia].
Qed.

Let slice_body (x y : Z) (st : list (list float32) * list float32) :=
  let '(vec_cost_tmp_, cost_aggr_) := st in
  (wr vec_cost_tmp_ 0
      (wr (rd vec_cost_tmp_ 0) (y * width + x)
          (rd cost_aggr_ (y * width * disp_range + x * disp_range + disp))),
   cost_aggr_).

Let pass_body (k x y : Z) (st : list (list float32) * list float32) :=
  let '(vec_cost_tmp_, cost_aggr_) := st in
  let cost :=
    CrossAggregator.aggr_pixel width arms horizontal_first k y x vec_cost_tmp_ in
  if k =? 0 then
    (wr vec_cost_tmp_ 1 (wr (rd vec_cost_tmp_ 1) (y * width + x) cost),
     cost_aggr_)
  else
    (vec_cost_tmp_,
     wr cost_aggr_ (y * width * disp_range + x * disp_range + disp)
        (F32.div cost
           (F32.of_Z (rd (rd vec_sup_count_ (if horizontal_first then 0 else 1))
                         (y * width + x))))).

Lemma AggregateInArms_passes st :
  CrossAggregator.AggregateInArms width height min_disparity max_disparity
    arms vec_sup_count_ disparity horizontal_first st
  = for_loop 0 height (fun y => for_loop 0 width (fun x => pass_body 1 x y))
      (for_loop 0 height (fun y => for_loop 0 width (fun x => pass_body 0 x y))
         (for_loop 0 height (fun y => for_loop 0 width (fun x => slice_body x y))
            st)).
Proof.
  unfold CrossAggregator.AggregateInArms.
  replace (disparity <? min_disparity) with false by (symmetry; apply Z.ltb_ge; lia).
  replace (max_disparity <=? disparity) with false by (symmetry; apply Z.leb_gt; lia).
  replace (max_disparity - min_disparity <=? 0) with false
    by (symmetry; apply Z.leb_gt; lia).
  simpl orb. cbn iota. rewrite for_loop_0_2. reflexivity.
Qed.

Lemma slice_pass tmp aggr :
  length tmp = 2%nat -> Z.of_nat (length (rd tmp 0)) = width * height ->
  let st := for_loop 0 height (fun y =>
              for_loop 0 width (fun x => slice_body x y)) (tmp, aggr) in
  length (fst st) = 2%nat /\ rd (fst st) 1 = rd tmp 1 /\ snd st = aggr
  /\ length (rd (fst st) 0) = length (rd tmp 0)
  /\ forall x y, 0 <= x < width -> 0 <= y < height ->
       rd (rd (fst st) 0) (y * width + x) = rd aggr (idx x y).
Proof.
  intros Hl2 Hl0 st. subst st.
  destruct (pixel_loop_cells width height (fun x y => y * width + x)
    (fun s : list (list float32) * list float32 => length (fst s) = 2%nat)
    (fun s => rd (fst s) 0) (fun s => (rd (fst s) 1, snd s))
    (fun x y (o : list float32 * list float32) => rd (snd o) (idx x y))
    slice_body (tmp, aggr) Hw Hh) as (Hi & Ho & Hl & Ha).
  - intros x y Hx Hy. simpl.
    pose proof (pixel_index_bound width height x y Hx Hy). lia.
  - intros x y x' y' Hx Hy Hx' Hy' Heq. by apply (pixel_index_inj width).
  - done.
  - intros x y [t a] Hx Hy Hi. simpl in Hi. simpl.
    split; [by rewrite length_wr|]. split.
    + rewrite rd_wr_eq; [done|lia].
    + f_equal. by rewrite rd_wr_ne.
  - simpl in Ho. injection Ho as Ho1 Ho2. by repeat split.
Qed.

Lemma first_pass tmp aggr :
  length tmp = 2%nat -> Z.of_nat (length (rd tmp 1)) = width * height ->
  let st := for_loop 0 height (fun y =>
              for_loop 0 width (fun x => pass_body 0 x y)) (tmp, aggr) in
  length (fst st) = 2%nat /\ rd (fst st) 0 = rd tmp 0 /\ snd st = aggr
  /\ length (rd (fst st) 1) = length (rd tmp 1)
  /\ forall x y, 0 <= x < width -> 0 <= y < height ->
       rd (rd (fst st) 1) (y * width + x)
       = RegionSpec.row_sum (fun q => rd (rd tmp 0) (snd q * width + fst q))
           (first_arm (x, y)).
Proof.
  intros Hl2 Hl1 st. subst st.
  destruct (pixel_loop_cells width height (fun x y => y * width + x)
    (fun s : list (list float32) * list float32 => length (fst s) = 2%nat)
    (fun s => rd (fst s) 1) (fun s => (rd (fst s) 0, snd s))
    (fun x y (o : list float32 * list float32) =>
       RegionSpec.row_sum (fun q => rd (fst o) (snd q * width + fst q))
         (first_arm (x, y)))
    (pass_body 0) (tmp, aggr) Hw Hh) as (Hi & Ho & Hl & Ha).
  - intros x y Hx Hy. simpl.
    pose proof (pixel_index_bound width height x y Hx Hy). lia.
  - intros x y x' y' Hx Hy Hx' Hy' Heq. by apply (pixel_index_inj width).
  - done.
  - intros x y [t a] Hx Hy Hi. simpl in Hi. unfold pass_body. simpl.
    split; [by rewrite length_wr|]. split.
    + rewrite rd_wr_eq by lia. f_equal.
      by rewrite (aggr_pixel_row 0 x y t Hx Hy) by (by left).
    + f_equal. by rewrite rd_wr_ne.
  - simpl in Ho. injection Ho as Ho1 Ho2. by repeat split.
Qed.

Lemma second_pass tmp aggr :
  Z.of_nat (length aggr) = width * height * disp_range ->
  let st := for_loop 0 height (fun y =>
              for_loop 0 width (fun x => pass_body 1 x y)) (tmp, aggr) in
  fst st = tmp /\ length (snd st) = length aggr
  /\ forall x y, 0 <= x < width -> 0 <= y < height ->
       rd (snd st) (idx x y)
       = F32.div
           (RegionSpec.row_sum (fun q => rd (rd tmp 1) (snd q * width + fst q))
              (second_arm (x, y)))
           (F32.of_Z (rd (rd vec_sup_count_ (if horizontal_first then 0 else 1))
                         (y * width + x))).
Proof.
  intros Hl st. subst st.
  destruct (pixel_loop_cells width height idx
    (fun s : list (list float32) * list float32 => True)
    snd fst
    (fun x y (o : list (list float32)) =>
       F32.div
         (RegionSpec.row_sum (fun q => rd (rd o 1) (snd q * width + fst q))
            (second_arm (x, y)))
         (F32.of_Z (rd (rd vec_sup_count_ (if horizontal_first then 0 else 1))
                       (y * width + x))))
    (pass_body 1) (tmp, aggr) Hw Hh) as (Hi & Ho & Hl' & Ha).
  - intros x y Hx Hy. simpl. rewrite Hl. by apply volume_index_bound.
  - apply volume_index_inj.
  - done.
  - intros x y [t a] Hx Hy Hi. unfold pass_body. simpl.
    split; [done|]. split; [|done].
    by rewrite (aggr_pixel_row 1 x y t Hx Hy) by (by right).
  - by repeat split.
Qed.

End AggregateInArms.

(** The arms that [BuildArms] stores stay inside the image. *)
Lemma BuildArms_in_bounds width height img_left L1 L2 t1 t2 arms0 :
  0 <= width -> 0 <= height -> Z.of_nat (length arms0) = width * height ->
  RegionSpec.arms_in_bounds width height
    (CrossAggregator.BuildArms width height img_left L1 L2 t1 t2 arms0) = true.
Proof.
  intros Hw Hh Hlen. unfold RegionSpec.arms_in_bounds.
  apply forallb_forall. intros [x y] Hin.
  apply list_elem_of_In, elem_of_row_major in Hin as [Hx Hy]. simpl fst; simpl snd.
  destruct (BuildArms_rd width height img_left L1 L2 t1 t2 arms0 Hw Hh Hlen)
    as [_ Hrd].
  rewrite (Hrd x y Hx Hy).
  cbn [CrossArm.left CrossArm.right CrossArm.top CrossArm.bottom].
  destruct (FindHorizontalArm_spec width height img_left L1 L2 t1 t2 x y Hx Hy)
    as [Hl Hr].
  destruct (FindVerticalArm_spec width height img_left L1 L2 t1 t2 x y Hx Hy)
    as [Ht Hb].
  pose proof (largest_prefix_end_in_image _ _ _ _ _ _ _ _ _ _ _ _ Hx Hy Hl).
  pose proof (largest_prefix_end_in_image _ _ _ _ _ _ _ _ _ _ _ _ Hx Hy Hr).
  pose proof (largest_prefix_end_in_image _ _ _ _ _ _ _ _ _ _ _ _ Hx Hy Ht).
  pose proof (largest_prefix_end_in_image _ _ _ _ _ _ _ _ _ _ _ _ Hx Hy Hb).
  destruct Hl as (? & _), Hr as (? & _), Ht as (? & _), Hb as (? & _).
  rewrite !andb_true_iff, !Z.leb_le, !Z.ltb_lt. lia.
Qed.

(** C9.  For every pixel and both pass orientations, the support count
    that [ComputeSupPixelCount] stores is the number of cost terms of the
    pixel's two-pass cross region, and the value that [AggregateInArms]
    writes for the pixel is the sum of the costs of exactly that region
    (added row by row) divided by the stored count: each aggregation
    iteration averages the costs over the region. *)
Theorem support_count_is_region_size
    (width height min_disparity max_disparity : Z)
    (arms : list CrossArm.t)
    (vec_sup_count_tmp_ : list Z) (vec_sup_count_ : list (list Z))
    (vec_cost_tmp_ : list (list float32)) (cost_aggr_ : list float32) :
  0 <= width -> 0 <= height ->
  RegionSpec.arms_in_bounds width height arms = true ->
  Z.of_nat (length vec_sup_count_tmp_) = width * height ->
  length vec_sup_count_ = 2%nat ->
  Z.of_nat (length (rd vec_sup_count_ 0)) = width * height ->
  Z.of_nat (length (rd vec_sup_count_ 1)) = width * height ->
  length vec_cost_tmp_ = 2%nat ->
  Z.of_nat (length (rd vec_cost_tmp_ 0)) = width * height ->
  Z.of_nat (length (rd vec_cost_tmp_ 1)) = width * height ->
  Z.of_nat (length cost_aggr_)
  = width * height * (max_disparity - min_disparity) ->
  let sup :=
    snd (CrossAggregator.ComputeSupPixelCount width height arms
           (vec_sup_count_tmp_, vec_sup_count_)) in
  forall (horizontal_first : bool) (disparity x y : Z),
    min_disparity <= disparity < max_disparity ->
    0 <= x < width -> 0 <= y < height ->
    let region := RegionSpec.cross_region width arms horizontal_first (x, y) in
    let disp_range := max_disparity - min_disparity in
    let cost (q : Z * Z) :=
      rd cost_aggr_ (snd q * width * disp_range + fst q * disp_range
                     + (disparity - min_disparity)) in
    rd (rd sup (if horizontal_first then 0 else 1)) (y * width + x)
    = RegionSpec.region_size region
    /\ rd (snd (CrossAggregator.AggregateInArms width height
                  min_disparity max_disparity arms sup disparity
                  horizontal_first (vec_cost_tmp_, cost_aggr_)))
          (y * width * disp_range + x * disp_range
           + (disparity - min_disparity))
       = F32.div (RegionSpec.region_sum cost region)
                 (F32.of_Z (RegionSpec.region_size region)).
Proof.
  intros Hw Hh Harms Hst Hs2 Hs0 Hs1 Ht2 Ht0 Ht1 Haggr sup hf d x y Hd Hx Hy.
  cbn zeta.
  destruct (ComputeSupPixelCount_spec width height arms Hw Hh Harms
              vec_sup_count_tmp_ vec_sup_count_ Hst Hs2 Hs0 Hs1)
    as (_ & _ & _ & _ & Hsup).
  fold sup in Hsup. split; [by apply Hsup|].
  rewrite (AggregateInArms_passes width height min_disparity max_disparity
             arms sup d hf Hd).
  destruct (slice_pass width height min_disparity max_disparity d Hw Hh
              vec_cost_tmp_ cost_aggr_ Ht2 Ht0) as (Ha2 & Ha1 & Haa & Ha0 & Hslice).
  destruct (for_loop 0 height (fun y0 => for_loop 0 width (fun x0 => _))
              (vec_cost_tmp_, cost_aggr_)) as [tmpA aggrA] eqn:EA in *.
  simpl in Ha2, Ha1, Haa, Ha0, Hslice. subst aggrA.
  destruct (first_pass width height min_disparity max_disparity arms sup d hf
              Hw Hh tmpA cost_aggr_ Ha2 ltac:(congruence))
    as (Hb2 & Hb0 & Hba & Hb1 & Hfirst).
  destruct (for_loop 0 height (fun y0 => for_loop 0 width (fun x0 => _))
              (tmpA, cost_aggr_)) as [tmpB aggrB] eqn:EB in *.
  simpl in Hb2, Hb0, Hba, Hb1, Hfirst. subst aggrB.
  destruct (second_pass width height min_disparity max_disparity arms sup d hf
              Hw Hh Hd tmpB cost_aggr_ Haggr) as (_ & _ & Hsecond).
  rewrite (Hsecond x y Hx Hy). rewrite (Hsup hf x y Hx Hy). f_equal.
  unfold RegionSpec.region_sum, RegionSpec.row_sum at 1, RegionSpec.cross_region.
  destruct hf; rewrite fold_left_fmap; apply fold_left_ext_in;
    intros c q Hq; f_equal.
  all: assert (Hqi : 0 <= fst q < width /\ 0 <= snd q < height)
    by (apply (arm_in_image width height arms (x, y) q Harms Hx Hy); auto).
  all: destruct q as [qx qy]; simpl in Hqi; simpl fst; simpl snd.
  all: rewrite (Hfirst qx qy) by lia.
  all: apply row_sum_ext; intros q' Hq'.
  all: assert (Hqi' : 0 <= fst q' < width /\ 0 <= snd q' < height)
    by (apply (arm_in_image width height arms (qx, qy) q' Harms);
        [simpl; lia|simpl; lia|auto]).
  all: destruct q' as [qx' qy']; simpl in Hqi'; simpl fst; simpl snd.
  all: by rewrite (Hslice qx' qy') by lia.
Qed.

Lemma support_count_is_region_size_witness :
  rd (rd (snd (CrossAggregator.ComputeSupPixelCount 2 2 Examples.arms_2x2
                 (CrossAggregator.fresh 4,
                  [CrossAggregator.fresh 4; CrossAggregator.fresh 4]))) 0)
     (1 * 2 + 0)
  = RegionSpec.region_size
      (RegionSpec.cross_region 2 Examples.arms_2x2 true (0, 1)).
Proof.
  exact (proj1 (support_count_is_region_size 2 2 0 2 Examples.arms_2x2
    (CrossAggregator.fresh 4)
    [CrossAggregator.fresh 4; CrossAggregator.fresh 4]
    [CrossAggregator.fresh 4; CrossAggregator.fresh 4]
    Examples.cost_2x2x2
    ltac:(lia) ltac:(lia) ltac:(vm_compute; reflexivity)
    ltac:(reflexivity) ltac:(reflexivity) ltac:(reflexivity) ltac:(reflexivity)
    ltac:(reflexivity) ltac:(reflexivity) ltac:(reflexivity) ltac:(reflexivity)
    true 1 0 1 ltac:(lia) ltac:(lia) ltac:(lia))).
Defined.

(** ** Initialisation and the guard of [Match] *)

(** *** The initialisation of the aggregator and of the refiner *)

Lemma to_sint32_mul_r n m : to_sint32 (n * to_sint32 m) = to_sint32 (n * m).
Proof. by rewrite (Z.mul_comm n), to_sint32_mul, Z.mul_comm. Qed.

Lemma fresh_nonempty {A} `{Inhabited A} n :
  0 < n -> @CrossAggregator.fresh A _ n <> [].
Proof.
  intros Hn. unfold CrossAggregator.fresh.
  destruct (Z.to_nat n) eqn:E; [lia|done].
Qed.

Lemma rd_pair_0 {A} `{Inhabited A} (a b : list A) : rd [a; b] 0 = a.
Proof. done. Qed.

Lemma rd_pair_1 {A} `{Inhabited A} (a b : list A) : rd [a; b] 1 = b.
Proof. done. Qed.

(** The outcome of [CrossAggregator::Initialize], by the three [sint32]
    values it computes. *)
Lemma CrossAggregator_Initialize_spec width height min_disparity max_disparity ag :
  let img_size := to_sint32 (width * height) in
  let disp_range := to_sint32 (max_disparity - min_disparity) in
  let aggr_size := to_sint32 (img_size * disp_range) in
  match
    CrossAggregator.Initialize width height min_disparity max_disparity ag
  with
  | Returns (b, ag') =>
      CrossAggregator.is_initialized_ ag' = b
      /\ CrossAggregator.width_ ag' = width
      /\ CrossAggregator.height_ ag' = height
      /\ CrossAggregator.min_disparity_ ag' = min_disparity
      /\ CrossAggregator.max_disparity_ ag' = max_disparity
      /\ (b = true <-> 0 < img_size /\ 0 < disp_range /\ 0 < aggr_size)
      /\ ~ (0 < img_size /\ 0 < disp_range /\ aggr_size < 0)
  | Throws e ag' =>
      e = length_error
      /\ (0 < img_size /\ 0 < disp_range /\ aggr_size < 0)
      /\ CrossAggregator.is_initialized_ ag'
         = CrossAggregator.is_initialized_ ag
      /\ CrossAggregator.width_ ag' = width
      /\ CrossAggregator.height_ ag' = height
      /\ CrossAggregator.min_disparity_ ag' = min_disparity
      /\ CrossAggregator.max_disparity_ ag' = max_disparity
  | Halts _ => False
  end.
Proof.
  intros img_size disp_range aggr_size.
  unfold CrossAggregator.Initialize. cbv zeta.
  fold img_size disp_range. fold aggr_size.
  destruct (Z.leb_spec img_size 0) as [Hi|Hi]; cbn [orb].
  { repeat split; try done; lia. }
  destruct (Z.leb_spec disp_range 0) as [Hr|Hr].
  { repeat split; try done; lia. }
  destruct (Z.ltb_spec aggr_size 0) as [Ha|Ha]; [by repeat split|].
  cbn [CrossAggregator.is_initialized_ CrossAggregator.width_
       CrossAggregator.height_ CrossAggregator.min_disparity_
       CrossAggregator.max_disparity_].
  split; [done|]. do 4 (split; [done|]). split; [|lia].
  rewrite !rd_pair_0, !rd_pair_1.
  rewrite !(bool_decide_eq_false_2
              (@CrossAggregator.fresh float32 _ img_size = []))
    by (by apply fresh_nonempty).
  rewrite !(bool_decide_eq_false_2
              (@CrossAggregator.fresh Z _ img_size = []))
    by (by apply fresh_nonempty).
  rewrite !(bool_decide_eq_false_2
              (@CrossAggregator.fresh CrossArm.t _ img_size = []))
    by (by apply fresh_nonempty).
  cbn [negb andb].
  destruct (decide (aggr_size = 0)) as [Hz|Hz].
  - rewrite Hz. change (Z.to_nat 0) with 0%nat. rewrite resize_0.
    rewrite bool_decide_eq_true_2 by done. split; [discriminate|lia].
  - rewrite bool_decide_eq_false_2; [cbn; split; [lia|done]|].
    intros Hnil. apply (f_equal length) in Hnil.
    rewrite length_resize in Hnil. simpl in Hnil. lia.
Qed.

(** The outcome of [MultiStepRefiner::Initialize]. *)
Lemma MultiStepRefiner_Initialize_spec width height rf :
  match MultiStepRefiner.Initialize width height rf with
  | Returns (b, rf') =>
      (b = true <-> 0 < width /\ 0 < height)
      /\ ~ (0 < width /\ 0 < height /\ to_sint32 (width * height) < 0)
  | Throws e rf' =>
      e = length_error
      /\ 0 < width /\ 0 < height /\ to_sint32 (width * height) < 0
  | Halts _ => False
  end.
Proof.
  unfold MultiStepRefiner.Initialize. cbv zeta.
  destruct (Z.leb_spec width 0); cbn [orb]; [split; [split|]; (done || lia)|].
  destruct (Z.leb_spec height 0); [split; [split|]; (done || lia)|].
  destruct (Z.ltb_spec (to_sint32 (width * height)) 0);
    [by repeat split|split; [split|]; (done || lia)].
Qed.

Section Initialize.

Variable CostComputer : Type.
Variable CostComputer_Initialize :
  Z -> Z -> Z -> Z -> CostComputer -> bool * CostComputer.
Variable CostComputer_Compute :
  list Z -> list Z -> float32 -> float32 -> CostComputer -> CostComputer.
Variable CostComputer_get_cost_ptr : CostComputer -> option (list float32).
Variable CostComputer_put_cost :
  option (list float32) -> CostComputer -> CostComputer.
Variables (ray_yy ray_xx : Z -> Z -> Z -> Z).

Let Initialize := ADCensusStereo.Initialize CostComputer CostComputer_Initialize.
Let Match :=
  ADCensusStereo.Match CostComputer CostComputer_Compute
    CostComputer_get_cost_ptr CostComputer_put_cost ray_yy ray_xx.
Let flag := ADCensusStereo.is_initialized_ CostComputer.

(** *** The outcome of [Initialize] *)

(** The object once [Initialize] has stored its arguments. *)
Let stored (width height : Z) (option : ADCensusOption.t)
    (o : ADCensusStereo.t CostComputer) : ADCensusStereo.t CostComputer :=
  ADCensusStereo.mk CostComputer width height option
    (ADCensusStereo.img_left_ CostComputer o)
    (ADCensusStereo.img_right_ CostComputer o)
    (ADCensusStereo.disp_left_ CostComputer o)
    (ADCensusStereo.disp_right_ CostComputer o)
    (ADCensusStereo.is_initialized_ CostComputer o)
    (ADCensusStereo.cost_computer_ CostComputer o)
    (ADCensusStereo.aggregator_ CostComputer o)
    (ADCensusStereo.refiner_ CostComputer o).

(** Every path of [Initialize], by the values that decide it: the early
    returns, the two exceptions, the refusals of the cost computer and of
    the aggregator, and the success. *)
Lemma Initialize_spec width height option o :
  let min_disparity := ADCensusOption.min_disparity option in
  let max_disparity := ADCensusOption.max_disparity option in
  let img_size := to_sint32 (width * height) in
  let disp_range := to_sint32 (max_disparity - min_disparity) in
  let aggr_size := to_sint32 (img_size * disp_range) in
  let cc_ok :=
    fst (CostComputer_Initialize width height min_disparity max_disparity
           (ADCensusStereo.cost_computer_ CostComputer o)) in
  let early := width <= 0 \/ height <= 0 \/ disp_range <= 0 in
  match Initialize width height option o with
  | Returns (b, o') =>
      ADCensusStereo.width_ CostComputer o' = width
      /\ ADCensusStereo.height_ CostComputer o' = height
      /\ ADCensusStereo.option_ CostComputer o' = option
      /\ (early -> b = false /\ o' = stored width height option o)
      /\ (~ early -> flag o' = b)
      /\ (b = true <->
          ~ early /\ 0 < img_size /\ cc_ok = true /\ 0 < aggr_size)
      /\ (b = true ->
          ADCensusStereo.disp_left_ CostComputer o'
          = Some (replicate (Z.to_nat img_size) F32.zero)
          /\ ADCensusStereo.disp_right_ CostComputer o'
             = Some (replicate (Z.to_nat img_size) F32.zero)
          /\ CrossAggregator.is_initialized_
               (ADCensusStereo.aggregator_ CostComputer o') = true
          /\ CrossAggregator.width_
               (ADCensusStereo.aggregator_ CostComputer o') = width
          /\ CrossAggregator.height_
               (ADCensusStereo.aggregator_ CostComputer o') = height
          /\ CrossAggregator.min_disparity_
               (ADCensusStereo.aggregator_ CostComputer o') = min_disparity
          /\ CrossAggregator.max_disparity_
               (ADCensusStereo.aggregator_ CostComputer o') = max_disparity)
      /\ ~ (~ early /\ img_size < 0)
      /\ ~ (~ early /\ 0 < img_size /\ cc_ok = true /\ aggr_size < 0)
  | Throws e o' =>
      ADCensusStereo.width_ CostComputer o' = width
      /\ ADCensusStereo.height_ CostComputer o' = height
      /\ ADCensusStereo.option_ CostComputer o' = option
      /\ flag o' = flag o
      /\ ((e = bad_array_new_length /\ ~ early /\ img_size < 0)
          \/ (e = length_error /\ ~ early /\ 0 < img_size /\ cc_ok = true
              /\ aggr_size < 0))
  | Halts _ => False
  end.
Proof.
  intros min_disparity max_disparity img_size disp_range aggr_size cc_ok early.
  unfold Initialize, ADCensusStereo.Initialize, flag. cbv zeta.
  cbn [ADCensusStereo.width_ ADCensusStereo.height_ ADCensusStereo.option_
       ADCensusStereo.cost_computer_ ADCensusStereo.aggregator_
       ADCensusStereo.refiner_ ADCensusStereo.disp_left_
       ADCensusStereo.disp_right_ ADCensusStereo.is_initialized_
       ADCensusStereo.img_left_ ADCensusStereo.img_right_].
  fold min_disparity max_disparity. fold img_size disp_range.
  assert (Hearly : forall b, early -> b = false ->
    ADCensusStereo.width_ CostComputer (stored width height option o) = width
    /\ ADCensusStereo.height_ CostComputer (stored width height option o)
       = height
    /\ ADCensusStereo.option_ CostComputer (stored width height option o)
       = option
    /\ (early -> b = false
                 /\ stored width height option o = stored width height option o)
    /\ (~ early ->
        ADCensusStereo.is_initialized_ CostComputer
          (stored width height option o) = b)
    /\ (b = true <->
        ~ early /\ 0 < img_size /\ cc_ok = true /\ 0 < aggr_size)
    /\ (b = true ->
        ADCensusStereo.disp_left_ CostComputer (stored width height option o)
        = Some (replicate (Z.to_nat img_size) F32.zero)
        /\ ADCensusStereo.disp_right_ CostComputer
             (stored width height option o)
           = Some (replicate (Z.to_nat img_size) F32.zero)
        /\ CrossAggregator.is_initialized_
             (ADCensusStereo.aggregator_ CostComputer
                (stored width height option o)) = true
        /\ CrossAggregator.width_
             (ADCensusStereo.aggregator_ CostComputer
                (stored width height option o)) = width
        /\ CrossAggregator.height_
             (ADCensusStereo.aggregator_ CostComputer
                (stored width height option o)) = height
        /\ CrossAggregator.min_disparity_
             (ADCensusStereo.aggregator_ CostComputer
                (stored width height option o)) = min_disparity
        /\ CrossAggregator.max_disparity_
             (ADCensusStereo.aggregator_ CostComputer
                (stored width height option o)) = max_disparity)
    /\ ~ (~ early /\ img_size < 0)
    /\ ~ (~ early /\ 0 < img_size /\ cc_ok = true /\ aggr_size < 0)).
  { intros b He ->. do 3 (split; [done|]). split; [done|].
    split; [done|]. split; [split; [done|tauto]|].
    split; [done|]. split; tauto. }
  destruct (Z.leb_spec width 0) as [Hw|Hw]; cbn [orb].
  { apply (Hearly false); [by left|done]. }
  destruct (Z.leb_spec height 0) as [Hh|Hh].
  { apply (Hearly false); [right; by left|done]. }
  destruct (Z.leb_spec disp_range 0) as [Hr|Hr].
  { apply (Hearly false); [right; by right|done]. }
  clear Hearly.
  assert (Hne : ~ early) by (unfold early; lia).
  destruct (Z.ltb_spec img_size 0) as [Hi|Hi].
  { do 4 (split; [done|]). left. by repeat split. }
  unfold cc_ok.
  destruct (CostComputer_Initialize width height min_disparity max_disparity _)
    as [ok_c cc]. cbn [fst].
  destruct ok_c; cbn [negb].
  2:{ do 3 (split; [done|]). split; [done|]. split; [done|].
      split; [split; [done|by intros (_ & _ & ? & _)]|].
      split; [done|]. split; [lia|]. by intros (_ & _ & ? & _). }
  pose proof (CrossAggregator_Initialize_spec width height min_disparity
                max_disparity (ADCensusStereo.aggregator_ CostComputer o))
    as Hag. cbv zeta in Hag. fold img_size disp_range in Hag.
  fold aggr_size in Hag.
  destruct (CrossAggregator.Initialize width height min_disparity
              max_disparity _) as [[ok_a ag]|e ag|h]; [| |done].
  2:{ cbn [within mbind outcome_bind ADCensusStereo.put_aggregator
           ADCensusStereo.width_ ADCensusStereo.height_
           ADCensusStereo.option_ ADCensusStereo.is_initialized_].
      destruct Hag as (-> & (Hi' & _ & Ha) & _).
      do 4 (split; [done|]). right. by repeat split. }
  cbn [within mbind outcome_bind ADCensusStereo.put_aggregator
       ADCensusStereo.width_ ADCensusStereo.height_ ADCensusStereo.option_
       ADCensusStereo.is_initialized_ ADCensusStereo.refiner_
       ADCensusStereo.img_left_ ADCensusStereo.img_right_
       ADCensusStereo.cost_computer_ ADCensusStereo.aggregator_].
  destruct Hag as (Hf & Haw & Hah & Hamin & Hamax & Hiff & Hnthrow).
  destruct ok_a; cbn [negb].
  2:{ do 3 (split; [done|]). split; [done|]. split; [done|].
      split; [split; [done|]|].
      { intros (_ & Hi' & _ & Ha). destruct Hiff as [_ Hiff].
        by apply Hiff. }
      split; [done|]. split; [lia|].
      intros (_ & Hi' & _ & Ha). by apply Hnthrow. }
  destruct Hiff as [Hiff _]. destruct (Hiff eq_refl) as (Hi' & _ & Ha).
  pose proof (MultiStepRefiner_Initialize_spec width height
                (ADCensusStereo.refiner_ CostComputer o)) as Hrf.
  fold img_size in Hrf.
  destruct (MultiStepRefiner.Initialize width height _)
    as [[ok_r rf]|e rf|h]; [| |done].
  2:{ destruct Hrf as (_ & _ & _ & ?). lia. }
  destruct Hrf as [[_ Hrf] _]. rewrite (Hrf (conj Hw Hh)).
  cbn [within mbind outcome_bind negb ADCensusStereo.new_float32
       ADCensusStereo.is_null andb
       ADCensusStereo.width_ ADCensusStereo.height_ ADCensusStereo.option_
       ADCensusStereo.is_initialized_ ADCensusStereo.disp_left_
       ADCensusStereo.disp_right_ ADCensusStereo.aggregator_].
  do 3 (split; [done|]). split; [done|]. split; [done|].
  split; [split; [by intros _|done]|].
  split; [intros _; by repeat split|]. split; lia.
Qed.

(** A successful [Initialize] leaves an aggregator that is sound. *)
Lemma Initialize_sound width height option o o' :
  Initialize width height option o = Returns (true, o') ->
  flag o' = true
  /\ CrossAggregator.sound (ADCensusStereo.aggregator_ CostComputer o').
Proof.
  intros Hr. pose proof (Initialize_spec width height option o) as H.
  cbv zeta in H. rewrite Hr in H.
  destruct H as (_ & _ & _ & _ & Hflag & [Hiff _] & Hgood & _).
  destruct (Hiff eq_refl) as (Hne & Hi & _ & Ha).
  destruct (Hgood eq_refl) as (_ & _ & Hf & Hw & Hh & Hmin & Hmax).
  split; [by apply Hflag|].
  intros _. rewrite Hw, Hh, Hmin, Hmax.
  rewrite to_sint32_mul_r, to_sint32_mul in Ha. lia.
Qed.

(** *** The stages of [Match] *)

(** What no stage changes: the flag, the dimensions, the options, the
    images, and the configuration of the aggregator. *)
Let core (o : ADCensusStereo.t CostComputer) :=
  (ADCensusStereo.is_initialized_ CostComputer o,
   ADCensusStereo.width_ CostComputer o,
   ADCensusStereo.height_ CostComputer o,
   ADCensusStereo.option_ CostComputer o,
   ADCensusStereo.img_left_ CostComputer o,
   ADCensusStereo.img_right_ CostComputer o,
   (CrossAggregator.is_initialized_ (ADCensusStereo.aggregator_ CostComputer o),
    CrossAggregator.width_ (ADCensusStereo.aggregator_ CostComputer o),
    CrossAggregator.height_ (ADCensusStereo.aggregator_ CostComputer o),
    CrossAggregator.min_disparity_ (ADCensusStereo.aggregator_ CostComputer o),
    CrossAggregator.max_disparity_ (ADCensusStereo.aggregator_ CostComputer o))).

Lemma ComputeCost_core o :
  core (ADCensusStereo.ComputeCost CostComputer CostComputer_Compute o)
  = core o.
Proof.
  unfold ADCensusStereo.ComputeCost.
  destruct (ADCensusStereo.img_left_ CostComputer o) eqn:El; [|done].
  destruct (ADCensusStereo.img_right_ CostComputer o) eqn:Er; [|done].
  unfold core.
  cbn [ADCensusStereo.width_ ADCensusStereo.height_ ADCensusStereo.option_
       ADCensusStereo.is_initialized_ ADCensusStereo.img_left_
       ADCensusStereo.img_right_ ADCensusStereo.aggregator_].
  by rewrite El, Er.
Qed.

(** [Aggregate] returns on a sound aggregator and keeps its
    configuration. *)
Lemma Aggregate_spec num_iters ag :
  match CrossAggregator.Aggregate num_iters ag with
  | Returns ag' =>
      CrossAggregator.is_initialized_ ag' = CrossAggregator.is_initialized_ ag
      /\ CrossAggregator.width_ ag' = CrossAggregator.width_ ag
      /\ CrossAggregator.height_ ag' = CrossAggregator.height_ ag
      /\ CrossAggregator.min_disparity_ ag' = CrossAggregator.min_disparity_ ag
      /\ CrossAggregator.max_disparity_ ag' = CrossAggregator.max_disparity_ ag
  | Throws _ _ => False
  | Halts h => h = memcpy_size /\ ~ CrossAggregator.sound ag
  end.
Proof.
  unfold CrossAggregator.Aggregate, CrossAggregator.sound.
  destruct (CrossAggregator.is_initialized_ ag) eqn:E; cbn [negb]; [|done].
  cbv zeta.
  destruct (CrossAggregator.ComputeSupPixelCount _ _ _ _) as [sup_tmp sup].
  destruct (Z.ltb_spec (to_sint32 (CrossAggregator.width_ ag
                                   * CrossAggregator.height_ ag
                                   * (CrossAggregator.max_disparity_ ag
                                      - CrossAggregator.min_disparity_ ag))) 0)
    as [Hc|Hc].
  - split; [done|]. intros Hs. specialize (Hs eq_refl). lia.
  - destruct (for_loop 0 num_iters _ _) as [hf [tmp aggr]]. by repeat split.
Qed.

Lemma CostAggregation_spec o :
  match
    ADCensusStereo.CostAggregation CostComputer CostComputer_get_cost_ptr o
  with
  | Returns o' => core o' = core o
  | Throws _ _ => False
  | Halts h =>
      h = memcpy_size
      /\ ~ CrossAggregator.sound (ADCensusStereo.aggregator_ CostComputer o)
  end.
Proof.
  unfold ADCensusStereo.CostAggregation.
  destruct (ADCensusStereo.img_left_ CostComputer o) as [l|] eqn:El; [|done].
  destruct (ADCensusStereo.img_right_ CostComputer o) as [r|] eqn:Er; [|done].
  cbv zeta.
  match goal with
  | |- context [CrossAggregator.Aggregate 4 ?a] =>
      pose proof (Aggregate_spec 4 a) as H;
      destruct (CrossAggregator.Aggregate 4 a) as [ag'|e ag'|h]
  end; [| |done..].
  - cbn [within mbind outcome_bind]. unfold core, ADCensusStereo.put_aggregator.
    cbn [ADCensusStereo.width_ ADCensusStereo.height_ ADCensusStereo.option_
         ADCensusStereo.is_initialized_ ADCensusStereo.img_left_
         ADCensusStereo.img_right_ ADCensusStereo.aggregator_].
    destruct H as (-> & -> & -> & -> & ->). by rewrite El, Er.
  - done.
Qed.

(** With the assertion satisfied, the sweeps return. *)
Lemma sweeps_return width height img_left img_right min_disparity
    max_disparity so_p1 so_p2 so_tso src dst fwd :
  0 < width -> 0 < height -> min_disparity < max_disparity ->
  is_Some (ScanlineOptimizer.ScanlineOptimizeLeftRight width height img_left
             img_right min_disparity max_disparity so_p1 so_p2 so_tso
             src dst fwd)
  /\ is_Some (ScanlineOptimizer.ScanlineOptimizeUpDown width height img_left
                img_right min_disparity max_disparity so_p1 so_p2 so_tso
                src dst fwd).
Proof.
  intros Hw Hh Hd.
  unfold ScanlineOptimizer.ScanlineOptimizeLeftRight,
    ScanlineOptimizer.ScanlineOptimizeUpDown. cbv zeta.
  destruct (Z.ltb_spec 0 width); [|lia].
  destruct (Z.ltb_spec 0 height); [|lia].
  destruct (Z.ltb_spec min_disparity max_disparity); [|lia].
  cbn [andb negb]. split; by eexists.
Qed.

Lemma Optimize_returns width height img_left img_right min_disparity
    max_disparity so_p1 so_p2 so_tso cost_init cost_aggr :
  0 < width -> 0 < height -> min_disparity < max_disparity ->
  is_Some (ScanlineOptimizer.Optimize width height img_left img_right
             min_disparity max_disparity so_p1 so_p2 so_tso
             cost_init cost_aggr).
Proof.
  intros Hw Hh Hd. unfold ScanlineOptimizer.Optimize.
  pose proof (fun src dst fwd =>
    sweeps_return width height img_left img_right min_disparity
      max_disparity so_p1 so_p2 so_tso src dst fwd Hw Hh Hd) as Hs.
  destruct (proj1 (Hs cost_aggr cost_init true)) as [v1 ->]. cbn [mbind option_bind].
  destruct (proj1 (Hs v1 cost_aggr false)) as [v2 ->]. cbn [mbind option_bind].
  destruct (proj2 (Hs v2 v1 true)) as [v3 ->]. cbn [mbind option_bind].
  destruct (proj2 (Hs v3 v2 false)) as [v4 ->]. cbn [mbind option_bind].
  by eexists.
Qed.

Lemma ScanlineOptimize_spec o :
  match
    ADCensusStereo.ScanlineOptimize CostComputer CostComputer_get_cost_ptr
      CostComputer_put_cost o
  with
  | Returns o' => core o' = core o
  | Throws _ _ => False
  | Halts h =>
      h = assertion_failed
      /\ 0 < ADCensusStereo.width_ CostComputer o
      /\ 0 < ADCensusStereo.height_ CostComputer o
      /\ ADCensusOption.max_disparity (ADCensusStereo.option_ CostComputer o)
         <= ADCensusOption.min_disparity (ADCensusStereo.option_ CostComputer o)
  end.
Proof.
  unfold ADCensusStereo.ScanlineOptimize, ScanlineOptimizer.Optimize_guarded.
  assert (Hput : forall c ag,
    (CrossAggregator.is_initialized_ (ADCensusStereo.put_aggregator_cost c ag),
     CrossAggregator.width_ (ADCensusStereo.put_aggregator_cost c ag),
     CrossAggregator.height_ (ADCensusStereo.put_aggregator_cost c ag),
     CrossAggregator.min_disparity_ (ADCensusStereo.put_aggregator_cost c ag),
     CrossAggregator.max_disparity_ (ADCensusStereo.put_aggregator_cost c ag))
    = (CrossAggregator.is_initialized_ ag, CrossAggregator.width_ ag,
       CrossAggregator.height_ ag, CrossAggregator.min_disparity_ ag,
       CrossAggregator.max_disparity_ ag)).
  { intros [c|] ag; reflexivity. }
  assert (Hcore : forall ci ca,
    core (ADCensusStereo.mk CostComputer
            (ADCensusStereo.width_ CostComputer o)
            (ADCensusStereo.height_ CostComputer o)
            (ADCensusStereo.option_ CostComputer o)
            (ADCensusStereo.img_left_ CostComputer o)
            (ADCensusStereo.img_right_ CostComputer o)
            (ADCensusStereo.disp_left_ CostComputer o)
            (ADCensusStereo.disp_right_ CostComputer o)
            (ADCensusStereo.is_initialized_ CostComputer o)
            (CostComputer_put_cost ci
               (ADCensusStereo.cost_computer_ CostComputer o))
            (ADCensusStereo.put_aggregator_cost ca
               (ADCensusStereo.aggregator_ CostComputer o))
            (ADCensusStereo.refiner_ CostComputer o)) = core o).
  { intros ci ca. unfold core.
    cbn [ADCensusStereo.width_ ADCensusStereo.height_ ADCensusStereo.option_
         ADCensusStereo.is_initialized_ ADCensusStereo.img_left_
         ADCensusStereo.img_right_ ADCensusStereo.aggregator_].
    by rewrite Hput. }
  destruct (ADCensusStereo.img_left_ CostComputer o) as [l|]; [|apply Hcore].
  destruct (ADCensusStereo.img_right_ CostComputer o) as [r|]; [|apply Hcore].
  destruct (CostComputer_get_cost_ptr _) as [ci|]; [|apply Hcore].
  destruct (ADCensusStereo.aggregator_cost_ptr _) as [ca|]; [|apply Hcore].
  destruct (Z.leb_spec (ADCensusStereo.width_ CostComputer o) 0) as [Hw|Hw];
    cbn [orb]; [apply Hcore|].
  destruct (Z.leb_spec (ADCensusStereo.height_ CostComputer o) 0) as [Hh|Hh];
    [apply Hcore|].
  destruct (decide (ADCensusOption.min_disparity
                      (ADCensusStereo.option_ CostComputer o)
                    < ADCensusOption.max_disparity
                        (ADCensusStereo.option_ CostComputer o))) as [Hd|Hd].
  - destruct (Optimize_returns (ADCensusStereo.width_ CostComputer o)
                (ADCensusStereo.height_ CostComputer o) l r _ _
                (ADCensusOption.so_p1 (ADCensusStereo.option_ CostComputer o))
                (ADCensusOption.so_p2 (ADCensusStereo.option_ CostComputer o))
                (ADCensusOption.so_tso (ADCensusStereo.option_ CostComputer o))
                ci ca Hw Hh Hd) as [[ci' ca'] ->].
    cbn [mbind option_bind]. apply Hcore.
  - destruct (ScanlineOptimizer.Optimize _ _ _ _ _ _ _ _ _ _ _)
      as [[ci' ca']|]; cbn [mbind option_bind]; [apply Hcore|].
    repeat split; lia.
Qed.

Lemma ComputeDisparities_core o :
  core (ADCensusStereo.ComputeDisparities CostComputer o) = core o.
Proof. reflexivity. Qed.

(** [Refine] keeps the parameters of the refiner. *)
Lemma Refine_range img_left cost arms disp_left disp_right rf :
  MultiStepRefiner.min_disparity_
    (fst (MultiStepRefiner.Refine ray_yy ray_xx img_left cost arms
            disp_left disp_right rf))
  = MultiStepRefiner.min_disparity_ rf
  /\ MultiStepRefiner.max_disparity_
       (fst (MultiStepRefiner.Refine ray_yy ray_xx img_left cost arms
               disp_left disp_right rf))
     = MultiStepRefiner.max_disparity_ rf.
Proof.
  unfold MultiStepRefiner.Refine.
  destruct disp_left, disp_right, cost, arms; try done.
  destruct (_ || _); [done|].
  repeat match goal with
         | |- context [let '(_, _) := ?e in _] => destruct e
         end.
  done.
Qed.

Lemma MultiStepRefine_spec o :
  core (ADCensusStereo.MultiStepRefine CostComputer ray_yy ray_xx o) = core o
  /\ (is_Some (ADCensusStereo.img_left_ CostComputer o) ->
      MultiStepRefiner.min_disparity_
        (ADCensusStereo.refiner_ CostComputer
           (ADCensusStereo.MultiStepRefine CostComputer ray_yy ray_xx o))
      = ADCensusOption.min_disparity (ADCensusStereo.option_ CostComputer o)
      /\ MultiStepRefiner.max_disparity_
           (ADCensusStereo.refiner_ CostComputer
              (ADCensusStereo.MultiStepRefine CostComputer ray_yy ray_xx o))
         = ADCensusOption.max_disparity
             (ADCensusStereo.option_ CostComputer o)).
Proof.
  unfold ADCensusStereo.MultiStepRefine.
  destruct (ADCensusStereo.img_left_ CostComputer o) as [l|] eqn:El.
  2:{ split; [done|]. by intros [? ?]. }
  cbv zeta.
  match goal with
  | |- context [MultiStepRefiner.Refine ?a ?b ?c ?d ?e ?f ?g ?h] =>
      pose proof (Refine_range c d e f g h) as Hr;
      destruct (MultiStepRefiner.Refine a b c d e f g h) as [rf dl]
  end.
  cbn [fst] in Hr. split.
  - unfold core.
    cbn [ADCensusStereo.width_ ADCensusStereo.height_ ADCensusStereo.option_
         ADCensusStereo.is_initialized_ ADCensusStereo.img_left_
         ADCensusStereo.img_right_ ADCensusStereo.aggregator_].
    by rewrite El.
  - intros _. cbn [ADCensusStereo.refiner_]. exact Hr.
Qed.

Lemma core_fields o o' :
  core o' = core o ->
  flag o' = flag o
  /\ ADCensusStereo.width_ CostComputer o' = ADCensusStereo.width_ CostComputer o
  /\ ADCensusStereo.height_ CostComputer o'
     = ADCensusStereo.height_ CostComputer o
  /\ ADCensusStereo.option_ CostComputer o'
     = ADCensusStereo.option_ CostComputer o
  /\ ADCensusStereo.img_left_ CostComputer o'
     = ADCensusStereo.img_left_ CostComputer o
  /\ ADCensusStereo.img_right_ CostComputer o'
     = ADCensusStereo.img_right_ CostComputer o
  /\ (CrossAggregator.sound (ADCensusStereo.aggregator_ CostComputer o) ->
      CrossAggregator.sound (ADCensusStereo.aggregator_ CostComputer o')).
Proof.
  unfold core, flag, CrossAggregator.sound.
  intros [= -> -> -> -> -> -> -> -> -> -> ->]. by repeat split.
Qed.

(** *** The outcome of [Match] *)

(** On a matcher whose flag is set, [Match] with buffers that are not
    null never returns false and never throws.  It returns true after the
    stages have run on the dimensions and the options the matcher holds,
    or the program ends in it: in the assertion of a sweep, or in a
    [memcpy] (the final one, or the one of an aggregator that is not
    sound). *)
Lemma Match_spec img_left img_right out o :
  flag o = true ->
  let width := ADCensusStereo.width_ CostComputer o in
  let height := ADCensusStereo.height_ CostComputer o in
  let option := ADCensusStereo.option_ CostComputer o in
  match Match (Some img_left) (Some img_right) (Some out) o with
  | Returns (b, o', out') =>
      b = true
      /\ flag o' = true
      /\ ADCensusStereo.width_ CostComputer o' = width
      /\ ADCensusStereo.height_ CostComputer o' = height
      /\ ADCensusStereo.option_ CostComputer o' = option
      /\ ADCensusStereo.img_left_ CostComputer o' = Some img_left
      /\ ADCensusStereo.img_right_ CostComputer o' = Some img_right
      /\ (CrossAggregator.sound (ADCensusStereo.aggregator_ CostComputer o) ->
          CrossAggregator.sound (ADCensusStereo.aggregator_ CostComputer o'))
      /\ MultiStepRefiner.min_disparity_
           (ADCensusStereo.refiner_ CostComputer o')
         = ADCensusOption.min_disparity option
      /\ MultiStepRefiner.max_disparity_
           (ADCensusStereo.refiner_ CostComputer o')
         = ADCensusOption.max_disparity option
      /\ 0 <= to_sint32 (height * width)
      /\ out'
         = Some (memcpy out 0
                   (default [] (ADCensusStereo.disp_left_ CostComputer o')) 0
                   (to_sint32 (height * width)))
  | Throws _ _ => False
  | Halts h =>
      (h = assertion_failed /\ 0 < width /\ 0 < height
       /\ ADCensusOption.max_disparity option
          <= ADCensusOption.min_disparity option)
      \/ (h = memcpy_size
          /\ (to_sint32 (height * width) < 0
              \/ ~ CrossAggregator.sound
                     (ADCensusStereo.aggregator_ CostComputer o)))
  end.
Proof.
  intros Hflag width height option.
  unfold Match, ADCensusStereo.Match. unfold flag in Hflag. rewrite Hflag.
  cbn [negb]. cbv zeta.
  set (o1 := ADCensusStereo.mk CostComputer _ _ _ (Some img_left)
               (Some img_right) _ _ _ _ _ _).
  assert (H1 : flag o1 = true
    /\ ADCensusStereo.width_ CostComputer o1 = width
    /\ ADCensusStereo.height_ CostComputer o1 = height
    /\ ADCensusStereo.option_ CostComputer o1 = option
    /\ ADCensusStereo.img_left_ CostComputer o1 = Some img_left
    /\ ADCensusStereo.img_right_ CostComputer o1 = Some img_right
    /\ (CrossAggregator.sound (ADCensusStereo.aggregator_ CostComputer o1)
        <-> CrossAggregator.sound (ADCensusStereo.aggregator_ CostComputer o)))
    by (by repeat split).
  clearbody o1.
  destruct H1 as (F1 & W1 & Hh1 & O1 & L1 & R1 & S1).
  destruct (core_fields _ _ (ComputeCost_core o1))
    as (F2 & W2 & Hh2 & O2 & L2 & R2 & S2).
  set (o2 := ADCensusStereo.ComputeCost CostComputer CostComputer_Compute o1)
    in *. clearbody o2.
  pose proof (CostAggregation_spec o2) as H3.
  destruct (ADCensusStereo.CostAggregation CostComputer
              CostComputer_get_cost_ptr o2) as [o3|e3 s3|h3];
    cbn [mbind outcome_bind]; [|done|].
  2:{ right. destruct H3 as [-> Hn]. split; [done|]. right.
      intros Hs. apply Hn, S2. by apply S1. }
  destruct (core_fields _ _ H3) as (F3 & W3 & Hh3 & O3 & L3 & R3 & S3).
  pose proof (ScanlineOptimize_spec o3) as H4.
  destruct (ADCensusStereo.ScanlineOptimize CostComputer
              CostComputer_get_cost_ptr CostComputer_put_cost o3)
    as [o4|e4 s4|h4]; cbn [mbind outcome_bind]; [|done|].
  2:{ left. destruct H4 as (-> & ? & ? & ?).
      rewrite W3, W2, W1, Hh3, Hh2, Hh1, O3, O2, O1 in *. by repeat split. }
  destruct (core_fields _ _ H4) as (F4 & W4 & Hh4 & O4 & L4 & R4 & S4).
  destruct (core_fields _ _ (ComputeDisparities_core o4))
    as (F5 & W5 & Hh5 & O5 & L5 & R5 & S5).
  set (o5 := ADCensusStereo.ComputeDisparities CostComputer o4) in *.
  clearbody o5.
  destruct (MultiStepRefine_spec o5) as [H6 Hrange].
  destruct (core_fields _ _ H6) as (F6 & W6 & Hh6 & O6 & L6 & R6 & S6).
  set (o6 := ADCensusStereo.MultiStepRefine CostComputer ray_yy ray_xx o5)
    in *. clearbody o6.
  assert (HL : ADCensusStereo.img_left_ CostComputer o5 = Some img_left)
    by congruence.
  destruct (Hrange ltac:(by rewrite HL)) as [Hmin Hmax].
  assert (HW : ADCensusStereo.width_ CostComputer o6 = width) by congruence.
  assert (HH : ADCensusStereo.height_ CostComputer o6 = height) by congruence.
  assert (HO : ADCensusStereo.option_ CostComputer o6 = option) by congruence.
  rewrite HW, HH.
  destruct (Z.ltb_spec (to_sint32 (height * width)) 0) as [Hc|Hc];
    [right; split; [done|by left]|].
  split; [done|]. split; [congruence|]. do 3 (split; [done|]).
  split; [congruence|]. split; [congruence|].
  split; [intros Hs; by apply S6, S5, S4, S3, S2, S1|].
  split; [rewrite Hmin; congruence|]. split; [rewrite Hmax; congruence|].
  by split.
Qed.

End Initialize.




(** ** Order of the binary32 numbers *)

Lemma F32_compare_key a b :
  F32.is_nan a = false -> F32.is_nan b = false ->
  match SFcompare a b with
  | Some Lt => F32.key_lt (F32.key a) (F32.key b)
  | Some Gt => F32.key_lt (F32.key b) (F32.key a)
  | Some Eq => F32.key a = F32.key b
  | None => False
  end.
Proof.
  intros Ha Hb.
  destruct a as [sa|sa| |sa ma ea], b as [sb|sb| |sb mb eb];
    try discriminate; try destruct sa; try destruct sb; simpl;
    try (lia || reflexivity).
  all: change (Pos.compare_cont Eq ma mb) with (Pos.compare ma mb).
  all: destruct (Z.compare_spec ea eb); simpl; try lia.
  all: destruct (Pos.compare_spec ma mb); simpl; subst; try lia; reflexivity.
Qed.

Lemma F32_ltb_key a b :
  F32.is_nan a = false -> F32.is_nan b = false ->
  F32.ltb a b = true <-> F32.key_lt (F32.key a) (F32.key b).
Proof.
  intros Ha Hb. pose proof (F32_compare_key a b Ha Hb) as H.
  unfold F32.ltb, SFltb.
  destruct (SFcompare a b) as [[| |]|]; [| | |done].
  - rewrite H. split; [done|]. destruct (F32.key b) as [[? ?] ?]. simpl. lia.
  - tauto.
  - split; [done|]. destruct (F32.key a) as [[? ?] ?], (F32.key b) as [[? ?] ?].
    simpl in *. lia.
Qed.

Lemma F32_leb_key a b :
  F32.is_nan a = false -> F32.is_nan b = false ->
  F32.leb a b = true <-> ~ F32.key_lt (F32.key b) (F32.key a).
Proof.
  intros Ha Hb. pose proof (F32_compare_key a b Ha Hb) as H.
  unfold F32.leb, SFleb.
  destruct (SFcompare a b) as [[| |]|]; [| | |done].
  - rewrite H. split; [|done]. intros _. destruct (F32.key b) as [[? ?] ?].
    simpl. lia.
  - split; [|done]. intros _.
    destruct (F32.key a) as [[? ?] ?], (F32.key b) as [[? ?] ?]. simpl in *. lia.
  - split; [done|]. intros Hn. by destruct Hn.
Qed.

Lemma F32_ltb_false_leb a b :
  F32.is_nan a = false -> F32.is_nan b = false ->
  F32.ltb a b = false -> F32.leb b a = true.
Proof.
  intros Ha Hb Hlt. apply F32_leb_key; [done..|].
  intros Hk. apply (F32_ltb_key a b Ha Hb) in Hk. congruence.
Qed.

Lemma F32_leb_ltb_false a b :
  F32.leb a b = true -> F32.ltb b a = false.
Proof.
  unfold F32.leb, F32.ltb, SFleb, SFltb.
  destruct a as [sa|sa| |sa ma ea], b as [sb|sb| |sb mb eb];
    try destruct sa; try destruct sb; simpl; try done.
  all: rewrite (Z.compare_antisym ea eb).
  all: change (Pos.compare_cont Eq mb ma) with (Pos.compare mb ma).
  all: change (Pos.compare_cont Eq ma mb) with (Pos.compare ma mb).
  all: rewrite (Pos.compare_antisym ma mb).
  all: destruct (Z.compare ea eb); simpl; try done.
  all: by destruct (Pos.compare ma mb).
Qed.

Lemma F32_ltb_trans a b c :
  F32.is_nan a = false -> F32.is_nan b = false -> F32.is_nan c = false ->
  F32.ltb a b = true -> F32.ltb b c = true -> F32.ltb a c = true.
Proof.
  intros Ha Hb Hc. rewrite !F32_ltb_key by done.
  destruct (F32.key a) as [[? ?] ?], (F32.key b) as [[? ?] ?],
    (F32.key c) as [[? ?] ?]. simpl. lia.
Qed.

Lemma F32_ltb_leb_trans a b c :
  F32.is_nan a = false -> F32.is_nan b = false -> F32.is_nan c = false ->
  F32.ltb a b = true -> F32.leb b c = true -> F32.ltb a c = true.
Proof.
  intros Ha Hb Hc. rewrite !F32_ltb_key, F32_leb_key by done.
  destruct (F32.key a) as [[? ?] ?], (F32.key b) as [[? ?] ?],
    (F32.key c) as [[? ?] ?]. simpl. lia.
Qed.

Lemma F32_leb_trans a b c :
  F32.is_nan a = false -> F32.is_nan b = false -> F32.is_nan c = false ->
  F32.leb a b = true -> F32.leb b c = true -> F32.leb a c = true.
Proof.
  intros Ha Hb Hc. rewrite !F32_leb_key by done.
  destruct (F32.key a) as [[? ?] ?], (F32.key b) as [[? ?] ?],
    (F32.key c) as [[? ?] ?]. simpl. lia.
Qed.

Lemma F32_leb_refl a : F32.is_nan a = false -> F32.leb a a = true.
Proof.
  intros Ha. apply F32_leb_key; [done..|].
  destruct (F32.key a) as [[? ?] ?]. simpl. lia.
Qed.

Lemma F32_ltb_leb a b : F32.ltb a b = true -> F32.leb a b = true.
Proof.
  unfold F32.ltb, F32.leb, SFltb, SFleb.
  by destruct (SFcompare a b) as [[| |]|].
Qed.

Lemma F32_ltb_not_nan a b :
  F32.ltb a b = true -> F32.is_nan a = false /\ F32.is_nan b = false.
Proof. by destruct a, b. Qed.

Lemma F32_mul_comm a b : F32.mul a b = F32.mul b a.
Proof.
  unfold F32.mul.
  destruct a as [sa|sa| |sa ma ea], b as [sb|sb| |sb mb eb]; simpl;
    try reflexivity; try (by rewrite xorb_comm).
  by rewrite xorb_comm, Pos.mul_comm, Z.add_comm.
Qed.

(** ** The disparity pickers *)

Lemma Large_Float_not_nan : F32.is_nan Large_Float = false.
Proof. reflexivity. Qed.

Section Scan.

(** The candidates of one pixel: [cand k] is the cost compared at index
    [k], [None] when the candidate is skipped. *)
Variables (cand : Z -> option float32) (lo n : Z).
Hypothesis (Hn : 0 <= n).

Let c (k : Z) : float32 := default Large_Float (cand k).

Let body (d : Z) (st : float32 * Z * list float32) :=
  let '(min_cost, best_disparity, cost_local) := st in
  match cand (d - lo) with
  | Some cost =>
      let cost_local := wr cost_local (d - lo) cost in
      if F32.gtb min_cost cost then (cost, d, cost_local)
      else (min_cost, best_disparity, cost_local)
  | None => (min_cost, best_disparity, wr cost_local (d - lo) Large_Float)
  end.

Lemma wta_scan_local cost_local0 :
  Z.of_nat (length cost_local0) = n ->
  let '(min_cost, best_disparity, cost_local) :=
    for_loop lo (lo + n) body (Large_Float, 0, cost_local0) in
  length cost_local = length cost_local0
  /\ (forall k, 0 <= k < n -> rd cost_local k = c k).
Proof.
  intros Hlen.
  pose (P := fun (i : Z) (st : float32 * Z * list float32) =>
    length (snd st) = length cost_local0
    /\ (forall k, 0 <= k < i - lo -> rd (snd st) k = c k)).
  assert (HP : P (lo + n) (for_loop lo (lo + n) body (Large_Float, 0, cost_local0))).
  { apply (for_loop_ind P); [lia| |].
    - split; [done|]. intros; lia.
    - intros i [[mc best] cl] Hi [Hl Hcl]. simpl in Hl, Hcl.
      assert (Hcl' : forall v, c (i - lo) = v ->
        length (wr cl (i - lo) v) = length cost_local0
        /\ forall k, 0 <= k < i + 1 - lo -> rd (wr cl (i - lo) v) k = c k).
      { intros v Hv. split; [by rewrite length_wr|]. intros k Hk'.
        rewrite rd_wr by lia. case_decide; [by subst|apply Hcl; lia]. }
      unfold body, P. destruct (cand (i - lo)) as [cost|] eqn:Ecand.
      + assert (Hc : c (i - lo) = cost) by (unfold c; by rewrite Ecand).
        destruct (F32.gtb mc cost); simpl; by apply Hcl'.
      + assert (Hc : c (i - lo) = Large_Float) by (unfold c; by rewrite Ecand).
        simpl. by apply Hcl'. }
  destruct (for_loop lo (lo + n) body _) as [[mc best] cl].
  destruct HP as [Hl Hcl]. simpl in Hl, Hcl. split; [done|].
  intros k Hk. apply Hcl. lia.
Qed.

Hypothesis (Hnan : forall k v, 0 <= k < n -> cand k = Some v -> F32.is_nan v = false).

Lemma c_not_nan k : 0 <= k < n -> F32.is_nan (c k) = false.
Proof.
  intros Hk. unfold c. destruct (cand k) eqn:E; simpl; [by eapply Hnan|done].
Qed.

Lemma wta_scan cost_local0 :
  Z.of_nat (length cost_local0) = n ->
  let '(min_cost, best_disparity, cost_local) :=
    for_loop lo (lo + n) body (Large_Float, 0, cost_local0) in
  length cost_local = length cost_local0
  /\ (forall k, 0 <= k < n -> rd cost_local k = c k)
  /\ ((exists k v, 0 <= k < n /\ cand k = Some v /\ F32.ltb v Large_Float = true) ->
      exists d, PickerSpec.is_argmin c n d
                /\ best_disparity = lo + d /\ min_cost = c d).
Proof.
  intros Hlen.
  pose (P := fun (i : Z) (st : float32 * Z * list float32) =>
    let '(min_cost, best_disparity, cost_local) := st in
    length cost_local = length cost_local0
    /\ (forall k, 0 <= k < i - lo -> rd cost_local k = c k)
    /\ ((min_cost = Large_Float /\ best_disparity = 0
         /\ forall k v, 0 <= k < i - lo -> cand k = Some v ->
              F32.ltb v Large_Float = false)
        \/ (exists d, 0 <= d < i - lo /\ best_disparity = lo + d
              /\ min_cost = c d /\ F32.ltb (c d) Large_Float = true
              /\ (forall k, 0 <= k < i - lo -> F32.leb (c d) (c k) = true)
              /\ (forall k, 0 <= k < d -> F32.ltb (c d) (c k) = true)))).
  assert (HP : P (lo + n) (for_loop lo (lo + n) body (Large_Float, 0, cost_local0))).
  { apply (for_loop_ind P); [lia| |].
    - simpl. split; [done|]. split; [intros; lia|]. left.
      repeat split. intros; lia.
    - intros i [[mc best] cl] Hi (Hl & Hcl & Hsel). unfold body.
      assert (Hk : 0 <= i - lo < n) by lia.
      pose proof Large_Float_not_nan as HLF.
      assert (Hcl' : forall v, c (i - lo) = v ->
        length (wr cl (i - lo) v) = length cost_local0
        /\ forall k, 0 <= k < i + 1 - lo -> rd (wr cl (i - lo) v) k = c k).
      { intros v Hv. split; [by rewrite length_wr|]. intros k Hk'.
        rewrite rd_wr by lia. case_decide; [by subst|apply Hcl; lia]. }
      destruct (cand (i - lo)) as [cost|] eqn:Ecand.
      + assert (Hc : c (i - lo) = cost) by (unfold c; by rewrite Ecand).
        assert (Hcn : F32.is_nan cost = false) by (by eapply Hnan).
        destruct (Hcl' cost Hc) as [Hl1 Hcl1].
        destruct (F32.gtb mc cost) eqn:Egt; unfold F32.gtb in Egt;
          fold (F32.ltb cost mc) in Egt.
        * (* the candidate becomes the minimum *)
          split; [done|]. split; [done|]. right. exists (i - lo).
          split; [lia|]. split; [lia|]. rewrite Hc. split; [done|].
          destruct Hsel as [(-> & -> & Hnone)|(d & Hd & -> & -> & HdL & Hle & Hlt)].
          -- split; [done|].
             assert (Hall : forall k, 0 <= k < i - lo -> F32.ltb cost (c k) = true).
             { intros k Hk'. apply (F32_ltb_leb_trans _ Large_Float);
                 [done|done|apply c_not_nan; lia|done|].
               unfold c. destruct (cand k) as [v|] eqn:Ek; simpl.
               - apply F32_ltb_false_leb; [by eapply Hnan; [|done]; lia|done|].
                 by eapply Hnone.
               - by apply F32_leb_refl. }
             split; [|done]. intros k Hk'.
             destruct (decide (k = i - lo)) as [->|Hne];
               [rewrite Hc; by apply F32_leb_refl|].
             apply F32_ltb_leb, Hall. lia.
          -- assert (Hdn : F32.is_nan (c d) = false) by (apply c_not_nan; lia).
             split; [by apply (F32_ltb_trans _ (c d))|].
             assert (Hall : forall k, 0 <= k < i - lo -> F32.ltb cost (c k) = true).
             { intros k Hk'. apply (F32_ltb_leb_trans _ (c d));
                 [done|done|apply c_not_nan; lia|done|]. by apply Hle. }
             split; [|done]. intros k Hk'.
             destruct (decide (k = i - lo)) as [->|Hne];
               [rewrite Hc; by apply F32_leb_refl|].
             apply F32_ltb_leb, Hall. lia.
        * (* the minimum stays *)
          split; [done|]. split; [done|].
          destruct Hsel as [(-> & -> & Hnone)|(d & Hd & -> & -> & HdL & Hle & Hlt)].
          -- left. repeat split. intros k v Hk' Hv.
             destruct (decide (k = i - lo)) as [->|Hne]; [congruence|].
             eapply Hnone; [|done]. lia.
          -- right. exists d. split; [lia|]. repeat split; [done| |done].
             intros k Hk'. destruct (decide (k = i - lo)) as [->|Hne].
             ++ rewrite Hc. apply F32_ltb_false_leb; [done| |done].
                apply c_not_nan. lia.
             ++ apply Hle. lia.
      + assert (Hc : c (i - lo) = Large_Float) by (unfold c; by rewrite Ecand).
        destruct (Hcl' Large_Float Hc) as [Hl1 Hcl1].
        split; [done|]. split; [done|].
        destruct Hsel as [(-> & -> & Hnone)|(d & Hd & -> & -> & HdL & Hle & Hlt)].
        * left. repeat split. intros k v Hk' Hv.
          destruct (decide (k = i - lo)) as [->|Hne]; [congruence|].
          eapply Hnone; [|done]. lia.
        * right. exists d. split; [lia|]. repeat split; [done| |done].
          intros k Hk'. destruct (decide (k = i - lo)) as [->|Hne].
          -- rewrite Hc. by apply F32_ltb_leb.
          -- apply Hle. lia. }
  destruct (for_loop lo (lo + n) body _) as [[mc best] cl].
  destruct HP as (Hl & Hcl & Hsel). split; [done|]. split.
  { intros k Hk. apply Hcl. lia. }
  intros (k & v & Hk & Hv & HvL).
  destruct Hsel as [(-> & -> & Hnone)|(d & Hd & -> & -> & HdL & Hle & Hlt)].
  - rewrite (Hnone k v) in HvL; [done|lia|done].
  - exists d. split; [|done]. split; [lia|]. split; [|done].
    intros k' Hk'. apply Hle. lia.
Qed.

End Scan.

(** A scan that stores in the cell of each pixel a value with the
    property [Q] of that pixel. *)
Lemma pixel_loop_cells_prop {S V} `{Inhabited V} w h (idx : Z -> Z -> Z)
    (inv : S -> Prop) (arr : S -> list V) (Q : Z -> Z -> V -> Prop)
    (body : Z -> Z -> S -> S) s0 :
  0 <= w -> 0 <= h ->
  (forall x y, 0 <= x < w -> 0 <= y < h ->
     0 <= idx x y < Z.of_nat (length (arr s0))) ->
  (forall x y x' y', 0 <= x < w -> 0 <= y < h -> 0 <= x' < w -> 0 <= y' < h ->
     idx x y = idx x' y' -> x = x' /\ y = y') ->
  inv s0 ->
  (forall x y s, 0 <= x < w -> 0 <= y < h -> inv s ->
     inv (body x y s)
     /\ exists v, arr (body x y s) = wr (arr s) (idx x y) v /\ Q x y v) ->
  let s := for_loop 0 h (fun y => for_loop 0 w (fun x => body x y)) s0 in
  inv s /\ length (arr s) = length (arr s0)
  /\ forall x y, 0 <= x < w -> 0 <= y < h -> Q x y (rd (arr s) (idx x y)).
Proof.
  intros Hw Hh Hidx Hinj Hinv Hbody s.
  pose (P := fun (n : Z) (s : S) =>
    inv s /\ length (arr s) = length (arr s0)
    /\ forall x y, 0 <= x < w -> 0 <= y < h -> y * w + x < n ->
         Q x y (rd (arr s) (idx x y))).
  assert (HP : P (w * h) s).
  { subst s. apply (pixel_loop_ind P); [done|done| |].
    - repeat split; [done|]. intros x y Hx Hy Hn. nia.
    - intros x y t Hx Hy (Hi & Hl & Ha).
      destruct (Hbody x y t Hx Hy Hi) as (Hi' & v & Harr & HQ).
      split; [done|]. split; [by rewrite Harr, length_wr|].
      intros x' y' Hx' Hy' Hn. rewrite Harr.
      rewrite rd_wr by (rewrite Hl; by apply Hidx).
      case_decide as Heq.
      + by apply Hinj in Heq as [-> ->].
      + apply Ha; [done|done|].
        destruct (decide (y' * w + x' = y * w + x)) as [Heq'|]; [|lia].
        apply pixel_index_inj in Heq' as [-> ->]; [done|lia|lia]. }
  destruct HP as (Hi & Hl & Ha). repeat split; [done..|].
  intros x y Hx Hy. apply Ha; [done|done|nia].
Qed.

Lemma subpixel_parabola min_disparity (c : Z -> float32) d :
  ADCensusStereo.subpixel (min_disparity + d) (c (d - 1)) (c (d + 1)) (c d)
  = PickerSpec.parabola min_disparity c d.
Proof.
  unfold ADCensusStereo.subpixel, PickerSpec.parabola. cbn zeta.
  rewrite (F32_mul_comm _ (F32.of_Z 2)).
  by replace (min_disparity + d) with (d + min_disparity) by lia.
Qed.

Section LeftPixel.

Variables (width : Z) (option_ : ADCensusOption.t) (cost_ptr : list float32).
Variables (i j : Z).

Let min_disparity := ADCensusOption.min_disparity option_.
Let max_disparity := ADCensusOption.max_disparity option_.
Let disp_range := max_disparity - min_disparity.
Let c (d : Z) : float32 :=
  rd cost_ptr (i * width * disp_range + j * disp_range + d).

Hypothesis (Hrange : 0 < disp_range).

Lemma left_pixel cost_local0 :
  Z.of_nat (length cost_local0) = disp_range ->
  let '(min_cost, best_disparity, cost_local) :=
    for_loop min_disparity max_disparity
      (fun d '(min_cost, best_disparity, cost_local) =>
        let d_idx := d - min_disparity in
        let cost :=
          rd cost_ptr (i * width * disp_range + j * disp_range + d_idx) in
        let cost_local := wr cost_local d_idx cost in
        if F32.gtb min_cost cost then (cost, d, cost_local)
        else (min_cost, best_disparity, cost_local))
      (Large_Float, 0, cost_local0) in
  length cost_local = length cost_local0
  /\ ((forall d, 0 <= d < disp_range -> F32.is_nan (c d) = false) ->
      (exists d, 0 <= d < disp_range /\ F32.ltb (c d) Large_Float = true) ->
      exists d, PickerSpec.is_argmin c disp_range d
        /\ (if (best_disparity =? min_disparity)
               || (best_disparity =? max_disparity - 1)
            then Invalid_Float
            else ADCensusStereo.subpixel best_disparity
                   (rd cost_local (best_disparity - 1 - min_disparity))
                   (rd cost_local (best_disparity + 1 - min_disparity))
                   min_cost)
           = PickerSpec.left_record min_disparity disp_range c d).
Proof.
  intros Hlen.
  replace max_disparity with (min_disparity + disp_range)
    by (subst disp_range; lia).
  destruct (for_loop _ _ _ _) as [[mc best] cl] eqn:Eloop.
  pose proof (wta_scan_local (fun k => Some (c k)) min_disparity disp_range
                ltac:(lia) cost_local0 Hlen) as Hlocal.
  cbv beta iota zeta in Hlocal, Eloop. subst c. cbv beta iota zeta in *.
  rewrite Eloop in Hlocal. simpl default in Hlocal.
  destruct Hlocal as [Hl Hcl]. split; [done|].
  intros Hnan (k & Hk & HkL).
  pose proof (wta_scan (fun k => Some (rd cost_ptr (i * width * disp_range
                                          + j * disp_range + k)))
                min_disparity disp_range ltac:(lia)
                ltac:(intros k' v Hk' [= <-]; by apply Hnan)
                cost_local0 Hlen) as Hscan.
  cbv beta iota zeta in Hscan. rewrite Eloop in Hscan. simpl default in Hscan.
  destruct Hscan as (_ & _ & Hsel).
  destruct Hsel as (d & Harg & -> & ->).
  { exists k, (rd cost_ptr (i * width * disp_range + j * disp_range + k)).
    split; [lia|]. split; [reflexivity|assumption]. }
  exists d. split; [done|].
  unfold PickerSpec.left_record. destruct Harg as (Hd & _ & _).
  replace (min_disparity + d =? min_disparity) with (d =? 0)
    by (destruct (Z.eqb_spec d 0), (Z.eqb_spec (min_disparity + d) min_disparity);
        done || lia).
  replace (min_disparity + d =? min_disparity + disp_range - 1)
    with (d =? disp_range - 1)
    by (destruct (Z.eqb_spec d (disp_range - 1)),
          (Z.eqb_spec (min_disparity + d) (min_disparity + disp_range - 1));
        done || lia).
  destruct (Z.eqb_spec d 0) as [|Hd0]; [done|].
  destruct (Z.eqb_spec d (disp_range - 1)) as [|Hd1]; [done|]. simpl orb. cbv iota.
  replace (min_disparity + d - 1 - min_disparity) with (d - 1) by lia.
  replace (min_disparity + d + 1 - min_disparity) with (d + 1) by lia.
  rewrite !Hcl by lia.
  apply (subpixel_parabola min_disparity
           (fun k => rd cost_ptr (i * width * disp_range + j * disp_range + k))).
Qed.

End LeftPixel.

(** C3.  For every pixel of the left view whose costs are ordered (no
    NaN) and not all above [Large_Float], [ComputeDisparity] records, for
    the arg-min index [d] of the pixel's costs over [0, disp_range),
    [Invalid_Float] when [d] is [0] or [disp_range - 1], and otherwise
    [(d + min_disparity) + (c[d-1] - c[d+1]) / (2 * denom)] with
    [denom = c[d-1] + c[d+1] - 2 * c[d]] when [denom] is not zero and
    [d + min_disparity] when it is. *)
Theorem ComputeDisparity_argmin_subpixel
    (width height : Z) (option_ : ADCensusOption.t)
    (cost_ptr disp_left : list float32) (i j : Z) :
  let min_disparity := ADCensusOption.min_disparity option_ in
  let max_disparity := ADCensusOption.max_disparity option_ in
  let disp_range := max_disparity - min_disparity in
  let c (d : Z) := rd cost_ptr (i * width * disp_range + j * disp_range + d) in
  0 < disp_range ->
  0 <= j < width -> 0 <= i < height ->
  Z.of_nat (length disp_left) = width * height ->
  (forall d, 0 <= d < disp_range -> F32.is_nan (c d) = false) ->
  (exists d, 0 <= d < disp_range /\ F32.ltb (c d) Large_Float = true) ->
  exists d,
    PickerSpec.is_argmin c disp_range d
    /\ rd (ADCensusStereo.ComputeDisparity width height option_ cost_ptr disp_left)
          (i * width + j)
       = PickerSpec.left_record min_disparity disp_range c d.
Proof.
  intros min_disparity max_disparity disp_range c Hrange Hj Hi Hlen Hnan Hlt.
  unfold ADCensusStereo.ComputeDisparity.
  fold min_disparity max_disparity. fold disp_range. cbv zeta.
  replace (disp_range <=? 0) with false by (symmetry; apply Z.leb_gt; lia).
  pose (Q := fun (x y : Z) (v : float32) =>
    let c (d : Z) := rd cost_ptr (y * width * disp_range + x * disp_range + d) in
    (forall d, 0 <= d < disp_range -> F32.is_nan (c d) = false) ->
    (exists d, 0 <= d < disp_range /\ F32.ltb (c d) Large_Float = true) ->
    exists d, PickerSpec.is_argmin c disp_range d
              /\ v = PickerSpec.left_record min_disparity disp_range c d).
  match goal with
  | |- context [for_loop 0 height
                  (fun i => for_loop 0 width (@?body i)) ?s0] =>
      destruct (pixel_loop_cells_prop width height (fun x y => y * width + x)
        (fun s : list float32 * list float32 =>
           Z.of_nat (length (snd s)) = disp_range)
        fst Q (fun x y => body y x) s0) as (_ & _ & HQ)
  end.
  - lia.
  - lia.
  - intros x y Hx Hy. simpl. pose proof (pixel_index_bound width height x y Hx Hy). lia.
  - intros x y x' y' Hx Hy Hx' Hy' Heq. by apply (pixel_index_inj width).
  - simpl. rewrite length_replicate. lia.
  - intros x y [disp cl] Hx Hy Hinv. simpl in Hinv.
    pose proof (left_pixel width option_ cost_ptr y x Hrange cl Hinv) as Hpix.
    fold min_disparity max_disparity in Hpix. fold disp_range in Hpix.
    cbv beta iota zeta.
    destruct (for_loop min_disparity max_disparity _ _) as [[mc best] cl'].
    destruct Hpix as [Hl Hval].
    destruct ((best =? min_disparity) || (best =? max_disparity - 1)) eqn:Eb.
    + split; [simpl; lia|]. eexists. split; [reflexivity|].
      intros Hn Hex. exact (Hval Hn Hex).
    + split; [simpl; lia|]. eexists. split; [reflexivity|].
      intros Hn Hex. exact (Hval Hn Hex).
  - destruct (HQ j i Hj Hi Hnan Hlt) as (d & Harg & Hv). by exists d.
Qed.

Lemma ComputeDisparity_argmin_subpixel_witness :
  exists d,
    PickerSpec.is_argmin (fun d => rd Examples.cost_1x1x3 (0 * 1 * (3 - 0) + 0 * (3 - 0) + d))
      (3 - 0) d
    /\ rd (ADCensusStereo.ComputeDisparity 1 1 (Examples.option_range 0 3)
             Examples.cost_1x1x3 [F32.zero]) (0 * 1 + 0)
       = PickerSpec.left_record 0 (3 - 0)
           (fun d => rd Examples.cost_1x1x3 (0 * 1 * (3 - 0) + 0 * (3 - 0) + d)) d.
Proof.
  apply (ComputeDisparity_argmin_subpixel 1 1 (Examples.option_range 0 3)
           Examples.cost_1x1x3 [F32.zero] 0 0).
  - simpl. lia.
  - lia.
  - lia.
  - reflexivity.
  - simpl. intros d Hd.
    assert (Hcases : d = 0 \/ d = 1 \/ d = 2) by lia.
    destruct Hcases as [-> | [-> | ->]]; reflexivity.
  - exists 1. split; [simpl; lia|reflexivity].
Defined.

Section RightPixel.

Variables (width : Z) (option_ : ADCensusOption.t) (cost_ptr : list float32).
Variables (i j : Z).

Let min_disparity := ADCensusOption.min_disparity option_.
Let max_disparity := ADCensusOption.max_disparity option_.
Let disp_range := max_disparity - min_disparity.
Let c := PickerSpec.right_candidate width disp_range min_disparity cost_ptr j i.
Let cand (k : Z) : option float32 :=
  let col_left := j + k + min_disparity in
  if (0 <=? col_left) && (col_left <? width) then
    Some (rd cost_ptr (i * width * disp_range + col_left * disp_range + k))
  else None.

Hypothesis (Hrange : 0 < disp_range).

Lemma right_candidate_cand k : c k = default Large_Float (cand k).
Proof.
  unfold c, cand, PickerSpec.right_candidate. cbv zeta.
  by destruct ((0 <=? j + k + min_disparity) && (j + k + min_disparity <? width)).
Qed.

Lemma right_pixel cost_local0 :
  Z.of_nat (length cost_local0) = disp_range ->
  let '(min_cost, best_disparity, cost_local) :=
    for_loop min_disparity max_disparity
      (fun d '(min_cost, best_disparity, cost_local) =>
        let d_idx := d - min_disparity in
        let col_left := j + d in
        if (0 <=? col_left) && (col_left <? width) then
          let cost :=
            rd cost_ptr (i * width * disp_range + col_left * disp_range
                         + d_idx) in
          let cost_local := wr cost_local d_idx cost in
          if F32.gtb min_cost cost then (cost, d, cost_local)
          else (min_cost, best_disparity, cost_local)
        else
          (min_cost, best_disparity, wr cost_local d_idx Large_Float))
      (Large_Float, 0, cost_local0) in
  length cost_local = length cost_local0
  /\ ((forall d, 0 <= d < disp_range -> F32.is_nan (c d) = false) ->
      (exists d, 0 <= d < disp_range /\ F32.ltb (c d) Large_Float = true) ->
      exists d, PickerSpec.is_argmin c disp_range d
        /\ best_disparity = min_disparity + d
        /\ min_cost = c d
        /\ forall k, 0 <= k < disp_range -> rd cost_local k = c k).
Proof.
  intros Hlen.
  replace max_disparity with (min_disparity + disp_range)
    by (subst disp_range; lia).
  (* the loop, with its candidates made explicit *)
  erewrite for_loop_ext; cycle 1.
  { intros d [[mc best] cl] Hd.
    instantiate (1 := fun d st =>
      let '(min_cost, best_disparity, cost_local) := st in
      match cand (d - min_disparity) with
      | Some cost =>
          let cost_local := wr cost_local (d - min_disparity) cost in
          if F32.gtb min_cost cost then (cost, d, cost_local)
          else (min_cost, best_disparity, cost_local)
      | None =>
          (min_cost, best_disparity,
           wr cost_local (d - min_disparity) Large_Float)
      end).
    cbv beta iota zeta. unfold cand. cbv zeta.
    replace (j + (d - min_disparity) + min_disparity) with (j + d) by lia.
    by destruct ((0 <=? j + d) && (j + d <? width)). }
  pose proof (wta_scan_local cand min_disparity disp_range ltac:(lia)
                cost_local0 Hlen) as Hlocal.
  cbv beta iota zeta in Hlocal.
  destruct (for_loop _ _ _ _) as [[mc best] cl] eqn:Eloop.
  destruct Hlocal as [Hl Hcl]. split; [done|].
  intros Hnan (k & Hk & HkL).
  assert (Hnan' : forall k v, 0 <= k < disp_range -> cand k = Some v ->
            F32.is_nan v = false).
  { intros k' v Hk' Hv. specialize (Hnan k' Hk').
    rewrite right_candidate_cand, Hv in Hnan. exact Hnan. }
  pose proof (wta_scan cand min_disparity disp_range ltac:(lia) Hnan'
                cost_local0 Hlen) as Hscan.
  cbv beta iota zeta in Hscan. rewrite Eloop in Hscan.
  destruct Hscan as (_ & _ & Hsel).
  destruct Hsel as (d & Harg & -> & ->).
  { rewrite right_candidate_cand in HkL.
    destruct (cand k) as [v|] eqn:Ek; simpl in HkL; [by exists k, v|].
    by vm_compute in HkL. }
  exists d. split.
  { destruct Harg as (Hd & Hle & Hlt). split; [done|].
    split; intros k' Hk'; rewrite !right_candidate_cand; auto. }
  split; [done|]. split; [by rewrite right_candidate_cand|].
  intros k' Hk'. rewrite right_candidate_cand. by apply Hcl.
Qed.

End RightPixel.

(** C4, as the code has it.  For every pixel [(j, i)] of the right view
    that has a candidate inside the image with an ordered cost below
    [Large_Float], [ComputeDisparityRight] minimises over the indices [d]
    of [0, disp_range) the cost [C[i, j + d + min_disparity, d]], a
    candidate whose column [j + d + min_disparity] is outside [0, width)
    counting as [Large_Float]; when the arg-min index [d] is [0] or
    [disp_range - 1] it records the integer [d + min_disparity], and
    otherwise the parabolic refinement around [d]. *)
Theorem ComputeDisparityRight_argmin
    (width height : Z) (option_ : ADCensusOption.t)
    (cost_ptr disp_right : list float32) (i j : Z) :
  let min_disparity := ADCensusOption.min_disparity option_ in
  let max_disparity := ADCensusOption.max_disparity option_ in
  let disp_range := max_disparity - min_disparity in
  let c := PickerSpec.right_candidate width disp_range min_disparity cost_ptr j i in
  let disp_right' :=
    ADCensusStereo.ComputeDisparityRight width height option_ cost_ptr disp_right in
  0 < disp_range ->
  0 <= j < width -> 0 <= i < height ->
  Z.of_nat (length disp_right) = width * height ->
  (forall d, 0 <= d < disp_range -> F32.is_nan (c d) = false) ->
  (exists d, 0 <= d < disp_range /\ F32.ltb (c d) Large_Float = true) ->
  PickerSpec.right_claim width disp_range min_disparity cost_ptr disp_right' j i
  /\ exists d, PickerSpec.is_argmin c disp_range d
       /\ (d <> 0 -> d <> disp_range - 1 ->
           rd disp_right' (i * width + j)
           = PickerSpec.parabola min_disparity c d).
Proof.
  intros min_disparity max_disparity disp_range c disp_right'
    Hrange Hj Hi Hlen Hnan Hlt.
  pose (Q := fun (x y : Z) (v : float32) =>
    let c := PickerSpec.right_candidate width disp_range min_disparity cost_ptr x y in
    (forall d, 0 <= d < disp_range -> F32.is_nan (c d) = false) ->
    (exists d, 0 <= d < disp_range /\ F32.ltb (c d) Large_Float = true) ->
    exists d, PickerSpec.is_argmin c disp_range d
      /\ (d = 0 \/ d = disp_range - 1 -> v = F32.of_Z (d + min_disparity))
      /\ (d <> 0 -> d <> disp_range - 1 ->
          v = PickerSpec.parabola min_disparity c d)).
  assert (HQ : Q j i (rd disp_right' (i * width + j))).
  { subst disp_right'. unfold ADCensusStereo.ComputeDisparityRight.
    fold min_disparity max_disparity. fold disp_range. cbv zeta.
    replace (disp_range <=? 0) with false by (symmetry; apply Z.leb_gt; lia).
    match goal with
    | |- context [for_loop 0 height
                    (fun i => for_loop 0 width (@?body i)) ?s0] =>
        destruct (pixel_loop_cells_prop width height (fun x y => y * width + x)
          (fun s : list float32 * list float32 =>
             Z.of_nat (length (snd s)) = disp_range)
          fst Q (fun x y => body y x) s0) as (_ & _ & HQ)
    end.
    - lia.
    - lia.
    - intros x y Hx Hy. simpl.
      pose proof (pixel_index_bound width height x y Hx Hy). lia.
    - intros x y x' y' Hx Hy Hx' Hy' Heq. by apply (pixel_index_inj width).
    - simpl. rewrite length_replicate. lia.
    - intros x y [disp cl] Hx Hy Hinv. simpl in Hinv.
      pose proof (right_pixel width option_ cost_ptr y x Hrange cl Hinv) as Hpix.
      fold min_disparity max_disparity in Hpix. fold disp_range in Hpix.
      cbv beta iota zeta.
      destruct (for_loop min_disparity max_disparity _ _) as [[mc best] cl'].
      destruct Hpix as [Hl Hval].
      assert (Hrec : Q x y
        (if (best =? min_disparity) || (best =? max_disparity - 1)
         then F32.of_Z best
         else ADCensusStereo.subpixel best
                (rd cl' (best - 1 - min_disparity))
                (rd cl' (best + 1 - min_disparity)) mc)).
      { unfold Q. cbv zeta. intros Hn Hex.
        destruct (Hval Hn Hex) as (d & Harg & -> & -> & Hcl).
        exists d. split; [done|]. destruct Harg as (Hd & _ & _).
        replace (min_disparity + d =? min_disparity) with (d =? 0)
          by (destruct (Z.eqb_spec d 0),
                (Z.eqb_spec (min_disparity + d) min_disparity); done || lia).
        replace (min_disparity + d =? max_disparity - 1)
          with (d =? disp_range - 1)
          by (subst disp_range;
              destruct (Z.eqb_spec d (max_disparity - min_disparity - 1)),
                (Z.eqb_spec (min_disparity + d) (max_disparity - 1));
              done || lia).
        destruct (Z.eqb_spec d 0) as [Hd0|Hd0];
          [simpl; split; [intros _; f_equal; lia|lia]|].
        destruct (Z.eqb_spec d (disp_range - 1)) as [Hd1|Hd1];
          [simpl; split; [intros _; f_equal; lia|lia]|].
        simpl orb. cbv iota. split; [lia|]. intros _ _.
        replace (min_disparity + d - 1 - min_disparity) with (d - 1) by lia.
        replace (min_disparity + d + 1 - min_disparity) with (d + 1) by lia.
        rewrite !Hcl by lia.
        apply (subpixel_parabola min_disparity
                 (PickerSpec.right_candidate width disp_range min_disparity
                    cost_ptr x y)). }
      destruct ((best =? min_disparity) || (best =? max_disparity - 1)).
      + split; [simpl; lia|]. eexists. split; [reflexivity|exact Hrec].
      + split; [simpl; lia|]. eexists. split; [reflexivity|exact Hrec].
    - by apply HQ. }
  destruct (HQ Hnan Hlt) as (d & Harg & Hborder & Hinner).
  split; [by exists d|]. exists d. by split.
Qed.

Lemma ComputeDisparityRight_argmin_witness :
  PickerSpec.right_claim 2 (1 - -1) (-1) Examples.cost_2x1x2
    (ADCensusStereo.ComputeDisparityRight 2 1 (Examples.option_range (-1) 1)
       Examples.cost_2x1x2 [F32.zero; F32.zero]) 1 0.
Proof.
  apply (ComputeDisparityRight_argmin 2 1 (Examples.option_range (-1) 1)
           Examples.cost_2x1x2 [F32.zero; F32.zero] 0 1).
  - simpl. lia.
  - lia.
  - lia.
  - reflexivity.
  - simpl. intros d Hd.
    assert (Hcases : d = 0 \/ d = 1) by lia.
    destruct Hcases as [-> | ->]; reflexivity.
  - exists 0. split; [simpl; lia|reflexivity].
Defined.

(** C4 as it is stated, with the column [j + d] and the recorded integer
    [d] for the index [d] of [0, disp_range), fails for the disparity
    range [-1, 1): at the right pixel [(1, 0)] the code records [-1]. *)
Lemma ComputeDisparityRight_index_counterexample :
  ~ PickerSpec.right_claim 2 (1 - -1) 0 Examples.cost_2x1x2
      (ADCensusStereo.ComputeDisparityRight 2 1 (Examples.option_range (-1) 1)
         Examples.cost_2x1x2 [F32.zero; F32.zero]) 1 0.
Proof.
  intros (d & (Hd & _ & _) & Hval).
  assert (Hcases : d = 0 \/ d = 1) by lia.
  destruct Hcases as [-> | ->];
    specialize (Hval ltac:(lia)); vm_compute in Hval; discriminate.
Qed.

(** ** Left-right consistency check *)

(** A scan over the image is a fold over its pixels in scanline order. *)
Lemma pixel_loop_fold {S} w h (body : Z -> Z -> S -> S) s :
  for_loop 0 h (fun y => for_loop 0 w (fun x => body x y)) s
  = fold_left (fun s p => body (fst p) (snd p) s) (row_major w h) s.
Proof.
  unfold for_loop, row_major. rewrite !Z.sub_0_r.
  generalize (seqZ 0 h) as ys. intros ys. revert s.
  induction ys as [|y ys IH]; intros s; [done|].
  rewrite bind_cons, fold_left_app. simpl fold_left at 1. rewrite <- IH.
  f_equal. clear IH. generalize (seqZ 0 w) as xs. intros xs. revert s.
  induction xs as [|x xs IHx]; intros s; [done|].
  rewrite bind_cons. simpl. apply IHx.
Qed.

(** Rounding never produces a NaN. *)
Lemma shr_1_nonneg mrs : 0 <= shr_m mrs -> 0 <= shr_m (shr_1 mrs).
Proof.
  destruct mrs as [m r s]. simpl.
  destruct m as [|p|p]; [done| |lia]. by destruct p.
Qed.

Lemma iter_pos_shr_1_nonneg p : forall mrs,
  0 <= shr_m mrs -> 0 <= shr_m (SpecFloat.iter_pos shr_1 p mrs).
Proof.
  induction p as [p IH|p IH|]; intros mrs Hm; simpl.
  - apply IH, IH. by apply shr_1_nonneg.
  - by apply IH, IH.
  - by apply shr_1_nonneg.
Qed.

Lemma shr_fexp_nonneg m e l :
  0 <= m -> 0 <= shr_m (fst (shr_fexp F32.prec F32.emax m e l)).
Proof.
  intros Hm. unfold shr_fexp, shr.
  assert (H0 : 0 <= shr_m (shr_record_of_loc m l)).
  { destruct l as [|[| |]]; exact Hm. }
  destruct (fexp F32.prec F32.emax (Zdigits2 m + e) - e); simpl; [done| |done].
  by apply iter_pos_shr_1_nonneg.
Qed.

Lemma binary_round_aux_not_nan sx mx ex lx :
  0 <= mx ->
  F32.is_nan (binary_round_aux F32.prec F32.emax sx mx ex lx) = false.
Proof.
  intros Hm. unfold binary_round_aux.
  pose proof (shr_fexp_nonneg mx ex lx Hm) as H1.
  destruct (shr_fexp F32.prec F32.emax mx ex lx) as [mrs' e']. simpl in H1.
  assert (H2 : 0 <= round_nearest_even (shr_m mrs') (loc_of_shr_record mrs')).
  { unfold round_nearest_even.
    destruct (loc_of_shr_record mrs') as [|[| |]]; try lia.
    destruct (Z.even (shr_m mrs')); lia. }
  pose proof (shr_fexp_nonneg _ e' loc_Exact H2) as H3.
  destruct (shr_fexp F32.prec F32.emax _ e' loc_Exact) as [mrs'' e''].
  simpl in H3. destruct (shr_m mrs'') as [|p|p]; [done| |lia].
  by destruct (e'' <=? F32.emax - F32.prec).
Qed.

Lemma binary_normalize_not_nan m e sz :
  F32.is_nan (binary_normalize F32.prec F32.emax m e sz) = false.
Proof.
  unfold binary_normalize. destruct m as [|p|p]; [done| |];
    unfold binary_round;
    destruct (shl_align _ _ _) as [mz ez]; by apply binary_round_aux_not_nan.
Qed.

Lemma F32_sub_finite_not_nan a b :
  F32.is_finite a = true -> F32.is_nan b = false ->
  F32.is_nan (F32.sub a b) = false.
Proof.
  intros Ha Hb. unfold F32.sub, SFsub.
  destruct a as [sa|sa| |sa ma ea], b as [sb|sb| |sb mb eb]; try done.
  - by destruct sa, sb.
  - apply binary_normalize_not_nan.
Qed.

Lemma F32_abs_not_nan a : F32.is_nan (F32.abs a) = F32.is_nan a.
Proof. by destruct a. Qed.

Lemma F32_gtb_negb_leb a b :
  F32.is_nan a = false -> F32.is_nan b = false ->
  F32.gtb a b = negb (F32.leb a b).
Proof.
  intros Ha Hb. unfold F32.gtb. fold (F32.ltb b a).
  destruct (F32.leb a b) eqn:Hle; simpl.
  - by apply F32_leb_ltb_false.
  - destruct (F32.ltb b a) eqn:Hlt; [done|].
    apply F32_ltb_false_leb in Hlt; [congruence|done..].
Qed.

Lemma valid_or_sentinel_eqb v :
  RefinerSpec.valid_or_sentinel v -> F32.eqb v Invalid_Float = false ->
  F32.is_finite v = true.
Proof. intros [Hf| ->] He; [done|]. by vm_compute in He. Qed.

Lemma Forall_rd {A} `{Inhabited A} (P : A -> Prop) (l : list A) i :
  P inhabitant -> Forall P l -> P (rd l i).
Proof.
  intros Hd Hl. unfold rd. case_decide; [|done].
  destruct (l !! Z.to_nat i) as [v|] eqn:E.
  - rewrite (list_lookup_total_correct _ _ _ E).
    by eapply Forall_lookup_1.
  - rewrite list_lookup_total_alt, E. done.
Qed.

Lemma Forall_wr {A} (P : A -> Prop) (l : list A) i v :
  P v -> Forall P l -> Forall P (wr l i v).
Proof.
  intros Hv Hl. unfold wr. case_decide; [|done]. by apply Forall_insert.
Qed.

Lemma fold_left_inv_ext {S A} (Inv : S -> Prop) (f g : S -> A -> S) l s :
  Inv s ->
  (forall s a, a ∈ l -> Inv s -> f s a = g s a /\ Inv (g s a)) ->
  fold_left f l s = fold_left g l s /\ Inv (fold_left g l s).
Proof.
  revert s. induction l as [|a l IH]; intros s Hs Hfg; simpl; [done|].
  destruct (Hfg s a ltac:(left) Hs) as [-> Hs'].
  apply IH; [done|]. intros s' a' Ha'. apply Hfg. by right.
Qed.

Section LRCheck.

Variables (width height : Z) (lrcheck_thres : float32) (DR : list float32).
Hypothesis (Hthres : F32.is_nan lrcheck_thres = false).
Hypothesis (HDR : Forall (fun v => F32.is_nan v = false) DR).
Hypothesis (Hfit : forall xr y, 0 <= xr < width -> 0 <= y < height ->
  - 2 ^ 31 <= F32.lround (F32.add (F32.of_Z xr) (rd DR (y * width + xr)))
  < 2 ^ 31).

(** The body of the two loops of [OutlierDetection]. *)
Let body (x y : Z) (st : list float32 * list (Z * Z) * list (Z * Z)) :=
  let '(disp_left_, occlusions, mismatches) := st in
  let disp := rd disp_left_ (y * width + x) in
  if F32.eqb disp Invalid_Float then
    (disp_left_, occlusions, mismatches ++ [(x, y)])
  else
    let col_right := F32.lround (F32.sub (F32.of_Z x) disp) in
    if (0 <=? col_right) && (col_right <? width) then
      let disp_r := rd DR (y * width + col_right) in
      if F32.gtb (F32.abs (F32.sub disp disp_r)) lrcheck_thres then
        let col_rl :=
          to_sint32 (F32.lround (F32.add (F32.of_Z col_right) disp_r)) in
        let '(occlusions, mismatches) :=
          if (0 <? col_rl) && (col_rl <? width) then
            let disp_l := rd disp_left_ (y * width + col_rl) in
            if F32.gtb disp_l disp then (occlusions ++ [(x, y)], mismatches)
            else (occlusions, mismatches ++ [(x, y)])
          else (occlusions, mismatches ++ [(x, y)]) in
        (wr disp_left_ (y * width + x) Invalid_Float, occlusions, mismatches)
      else (disp_left_, occlusions, mismatches)
    else
      (wr disp_left_ (y * width + x) Invalid_Float,
       occlusions, mismatches ++ [(x, y)]).

Lemma lr_body_step x y st :
  0 <= y < height ->
  Forall RefinerSpec.valid_or_sentinel (fst (fst st)) ->
  body x y st = RefinerSpec.lr_step width lrcheck_thres DR st (x, y)
  /\ Forall RefinerSpec.valid_or_sentinel
       (fst (fst (RefinerSpec.lr_step width lrcheck_thres DR st (x, y)))).
Proof.
  destruct st as [[DL occ] mis]. simpl fst. intros Hy HDL.
  assert (Hinv : RefinerSpec.valid_or_sentinel Invalid_Float) by (by right).
  unfold body, RefinerSpec.lr_step, RefinerSpec.lr_verdict.
  cbv zeta. simpl fst; simpl snd.
  destruct (F32.eqb (rd DL (y * width + x)) Invalid_Float) eqn:Einv; [done|].
  assert (Hfin : F32.is_finite (rd DL (y * width + x)) = true).
  { apply valid_or_sentinel_eqb; [|done].
    apply Forall_rd; [by left|done]. }
  set (d := rd DL (y * width + x)) in *.
  set (xr := F32.lround (F32.sub (F32.of_Z x) d)).
  destruct ((0 <=? xr) && (xr <? width)) eqn:Exr; simpl negb; cbv iota;
    [|split; [done|by apply Forall_wr]].
  apply andb_prop in Exr as [Hxr0%Z.leb_le Hxr1%Z.ltb_lt].
  rewrite (to_sint32_id _ (Hfit xr y (conj Hxr0 Hxr1) Hy)).
  assert (Hcmp : F32.gtb (F32.abs (F32.sub d (rd DR (y * width + xr))))
                   lrcheck_thres
                 = negb (F32.leb (F32.abs (F32.sub d (rd DR (y * width + xr))))
                           lrcheck_thres)).
  { apply F32_gtb_negb_leb; [|done]. rewrite F32_abs_not_nan.
    apply F32_sub_finite_not_nan; [done|].
    by apply (Forall_rd (fun v => F32.is_nan v = false)). }
  rewrite Hcmp.
  destruct (F32.leb _ lrcheck_thres); simpl negb; cbv iota; [done|].
  set (xrl := F32.lround (F32.add (F32.of_Z xr) (rd DR (y * width + xr)))).
  destruct ((0 <? xrl) && (xrl <? width)); simpl andb; cbv iota;
    [|split; [done|by apply Forall_wr]].
  destruct (F32.gtb (rd DL (y * width + xrl)) d);
    (split; [done|by apply Forall_wr]).
Qed.

Lemma OutlierDetection_lr_check DL :
  Forall RefinerSpec.valid_or_sentinel DL ->
  MultiStepRefiner.OutlierDetection width height DR lrcheck_thres DL
  = RefinerSpec.lr_check width lrcheck_thres DR height DL.
Proof.
  intros HDL. unfold MultiStepRefiner.OutlierDetection, RefinerSpec.lr_check.
  cbv zeta.
  change (for_loop 0 height _ (DL, [], []))
    with (for_loop 0 height (fun y => for_loop 0 width (fun x => body x y))
            (DL, [], [])).
  rewrite pixel_loop_fold.
  apply (fold_left_inv_ext
           (fun st => Forall RefinerSpec.valid_or_sentinel (fst (fst st)))).
  - done.
  - intros st [x y] Hp%elem_of_row_major Hst. apply lr_body_step; [lia|done].
Qed.

End LRCheck.

(** The lists grow by appending pixels in the order of the scan. *)
Lemma lr_step_appends width thres DR DL occ mis p :
  exists DL' o m,
    RefinerSpec.lr_step width thres DR (DL, occ, mis) p
    = (DL', occ ++ o, mis ++ m)
    /\ o `sublist_of` [p] /\ m `sublist_of` [p].
Proof.
  unfold RefinerSpec.lr_step.
  destruct (RefinerSpec.lr_verdict width thres DR DL p.1 p.2) as [v inval].
  destruct v; eexists _.
  - exists [], []. rewrite !app_nil_r. split; [done|]. split; apply sublist_nil_l.
  - exists [], [p]. rewrite !app_nil_r. split; [done|]. split; [apply sublist_nil_l|done].
  - exists [p], []. rewrite !app_nil_r. split; [done|]. split; [done|apply sublist_nil_l].
Qed.

Lemma lr_check_sublists width thres DR (l : list (Z * Z)) : forall DL occ mis,
  exists o m,
    snd (fst (fold_left (RefinerSpec.lr_step width thres DR) l (DL, occ, mis)))
    = occ ++ o
    /\ snd (fold_left (RefinerSpec.lr_step width thres DR) l (DL, occ, mis))
       = mis ++ m
    /\ o `sublist_of` l /\ m `sublist_of` l.
Proof.
  induction l as [|p l IH]; intros DL occ mis; cbn [fold_left].
  - exists [], []. simpl. rewrite !app_nil_r. by repeat split.
  - destruct (lr_step_appends width thres DR DL occ mis p)
      as (DL' & o1 & m1 & -> & Ho1 & Hm1).
    destruct (IH DL' (occ ++ o1) (mis ++ m1)) as (o & m & Ho & Hm & Hso & Hsm).
    exists (o1 ++ o), (m1 ++ m). rewrite Ho, Hm, <- !app_assoc.
    split; [done|]. split; [done|].
    change (p :: l) with ([p] ++ l). split; by apply sublist_app.
Qed.

(** C5.  On a left map whose entries are finite or [Invalid_Float], a
    right map without NaN whose disparities send every column of the
    image to a column that fits a [sint32] ([round(xr + DR[y, xr])] is in
    [[-2^31, 2^31)], as for every map of disparities of an image), and an
    ordered threshold, [OutlierDetection]
    visits the pixels in scanline order and treats each pixel [(x, y)] with
    disparity [d] as follows: if [d] is [Invalid_Float] the pixel is
    appended to the mismatches; else, with [xr = round(x - d)], if [xr] is
    outside [0, width) the disparity is invalidated and the pixel appended
    to the mismatches; else if [|d - DR[y, xr]| <= lrcheck_thres] the pixel
    is kept; else, with [xrl = round(xr + DR[y, xr])], the pixel is
    appended to the occlusions when [xrl] is in the open interval
    [(0, width)] and [DL[y, xrl] > d], otherwise to the mismatches, and
    its disparity is invalidated.  Both lists are in scanline order. *)
Theorem OutlierDetection_classification
    (width height : Z) (lrcheck_thres : float32) (DL DR : list float32) :
  F32.is_nan lrcheck_thres = false ->
  Forall (fun v => F32.is_nan v = false) DR ->
  (forall xr y, 0 <= xr < width -> 0 <= y < height ->
     - 2 ^ 31 <= F32.lround (F32.add (F32.of_Z xr) (rd DR (y * width + xr)))
     < 2 ^ 31) ->
  Forall RefinerSpec.valid_or_sentinel DL ->
  let st := MultiStepRefiner.OutlierDetection width height DR lrcheck_thres DL in
  st = fold_left (RefinerSpec.lr_step width lrcheck_thres DR)
         (row_major width height) (DL, [], [])
  /\ snd (fst st) `sublist_of` row_major width height
  /\ snd st `sublist_of` row_major width height.
Proof.
  intros Hthres HDR Hfit HDL st. subst st.
  rewrite (OutlierDetection_lr_check width height lrcheck_thres DR Hthres HDR
             Hfit DL HDL).
  unfold RefinerSpec.lr_check. split; [done|].
  destruct (lr_check_sublists width lrcheck_thres DR (row_major width height)
              DL [] []) as (o & m & Ho & Hm & Hso & Hsm).
  rewrite Ho, Hm. by split.
Qed.

Lemma OutlierDetection_classification_witness :
  snd (MultiStepRefiner.OutlierDetection 3 1 Examples.DR_3x1 (F32.of_Z 1)
         Examples.DL_3x1)
  `sublist_of` row_major 3 1.
Proof.
  refine (proj2 (proj2 (OutlierDetection_classification 3 1 (F32.of_Z 1)
            Examples.DL_3x1 Examples.DR_3x1 _ _ _ _))).
  - reflexivity.
  - repeat constructor.
  - intros xr y Hxr Hy.
    assert (Hy0 : y = 0) by lia.
    assert (Hxr0 : xr = 0 \/ xr = 1 \/ xr = 2) by lia.
    subst y. destruct Hxr0 as [->|[->| ->]]; vm_compute; split; congruence.
  - constructor; [by right|]. constructor; [by left|].
    constructor; [by left|]. constructor.
Defined.

(** The column [col_rl] is a [sint32]: a right disparity of [2^32 + 512]
    sends column 0 of an image of width 514 to column 512 after the
    narrowing, and the pixel is listed as an occlusion, where the
    unreduced column [2^32 + 512] lies outside the image.  The hypothesis
    on the right map in the theorem above excludes this. *)
Example OutlierDetection_sint32_column :
  let DL := replicate 512 F32.zero ++ [F32.of_Z 1; F32.zero] in
  let DR := F32.of_Z (2 ^ 32 + 512) :: replicate 513 F32.zero in
  MultiStepRefiner.OutlierDetection 514 1 DR (F32.of_Z 1) DL
  = (wr DL 0 Invalid_Float, [(0, 0)], [])
  /\ RefinerSpec.lr_check 514 (F32.of_Z 1) DR 1 DL
     = (wr DL 0 Invalid_Float, [], [(0, 0)]).
Proof. split; [vm_compute; reflexivity|lazy; reflexivity]. Qed.

(** ** Iterative region voting *)

Lemma list_eq_rd {A} `{Inhabited A} (l1 l2 : list A) :
  length l1 = length l2 ->
  (forall i, 0 <= i < Z.of_nat (length l1) -> rd l1 i = rd l2 i) ->
  l1 = l2.
Proof.
  intros Hlen Hrd. apply (list_eq_same_length _ _ (length l1)); [done|done|].
  intros i x y Hi Hx Hy. specialize (Hrd (Z.of_nat i) ltac:(lia)).
  unfold rd in Hrd. rewrite !decide_True, Nat2Z.id in Hrd by lia.
  rewrite (list_lookup_total_correct _ _ _ Hx),
    (list_lookup_total_correct _ _ _ Hy) in Hrd.
  done.
Qed.

Lemma rd_replicate {A} `{Inhabited A} (n : nat) (v : A) i :
  0 <= i < Z.of_nat n -> rd (replicate n v) i = v.
Proof.
  intros Hi. unfold rd. rewrite decide_True by lia.
  apply list_lookup_total_correct, lookup_replicate_2. lia.
Qed.

Lemma rd_wr_any {A} `{Inhabited A} (l : list A) v x b :
  0 <= b < Z.of_nat (length l) ->
  rd (wr l v x) b = if decide (v = b) then x else rd l b.
Proof.
  intros Hb. case_decide as Hv.
  - subst. by apply rd_wr_eq.
  - by apply rd_wr_ne.
Qed.

Lemma memset_zero_replicate (histogram : list Z) n :
  Z.of_nat (length histogram) = n ->
  MultiStepRefiner.memset_zero histogram n = replicate (Z.to_nat n) 0.
Proof.
  intros Hlen. unfold MultiStepRefiner.memset_zero.
  assert (HP : length (for_loop 0 n (fun d h => wr h d 0) histogram)
               = length histogram
    /\ forall b, 0 <= b < n ->
         rd (for_loop 0 n (fun d h => wr h d 0) histogram) b = 0).
  { apply (for_loop_ind (fun i h =>
      length h = length histogram /\ forall b, 0 <= b < i -> rd h b = 0));
      [lia| |].
    - split; [done|]. intros; lia.
    - intros i h Hi [Hl Hz]. split; [by rewrite length_wr|].
      intros b Hb. rewrite rd_wr_any by lia. case_decide; [done|].
      apply Hz. lia. }
  destruct HP as [Hl Hz]. apply list_eq_rd.
  - rewrite Hl, length_replicate. lia.
  - intros i Hi. rewrite Hz by lia. symmetry. apply rd_replicate. lia.
Qed.

Section Voting.

Variables (width_ : Z) (cross_arms_ : list CrossArm.t).
Variables (min_disparity_ max_disparity_ irv_ts_ : Z) (irv_th_ : float32).

Let disp_range := max_disparity_ - min_disparity_.
Let vote_of := RefinerSpec.vote_of width_ min_disparity_.

(** The body of the two loops that fill the histogram. *)
Let add_vote (DL : list float32) (histogram : list Z) (q : Z * Z) : list Z :=
  let d := rd DL (snd q * width_ + fst q) in
  if F32.neqb d Invalid_Float then
    let di := F32.lround d in
    wr histogram (di - min_disparity_) (rd histogram (di - min_disparity_) + 1)
  else histogram.

Lemma bin_count_cons v vs b :
  RefinerSpec.bin_count (v :: vs) b
  = (if decide (v = b) then 1 else 0) + RefinerSpec.bin_count vs b.
Proof.
  unfold RefinerSpec.bin_count. rewrite filter_cons.
  case_decide; simpl; lia.
Qed.

Lemma bin_count_nonneg vs b : 0 <= RefinerSpec.bin_count vs b.
Proof. unfold RefinerSpec.bin_count. lia. Qed.

Lemma add_vote_vote_of DL histogram q :
  add_vote DL histogram q
  = match vote_of DL q with
    | Some v => wr histogram v (rd histogram v + 1)
    | None => histogram
    end.
Proof.
  unfold add_vote, vote_of, RefinerSpec.vote_of. cbv zeta.
  by destruct (F32.neqb _ _).
Qed.

Lemma add_votes DL (qs : list (Z * Z)) : forall histogram,
  let histogram' := fold_left (add_vote DL) qs histogram in
  length histogram' = length histogram
  /\ forall b, 0 <= b < Z.of_nat (length histogram) ->
       rd histogram' b
       = rd histogram b + RefinerSpec.bin_count (omap (vote_of DL) qs) b.
Proof.
  induction qs as [|q qs IH]; intros histogram; cbn [fold_left].
  - split; [done|]. intros b Hb. unfold RefinerSpec.bin_count. simpl. lia.
  - specialize (IH (add_vote DL histogram q)). cbv zeta in IH.
    destruct IH as [Hl Hrd].
    assert (Hom : omap (vote_of DL) (q :: qs)
      = match vote_of DL q with
        | Some v => v :: omap (vote_of DL) qs
        | None => omap (vote_of DL) qs
        end) by reflexivity.
    rewrite Hom. clear Hom. rewrite add_vote_vote_of in Hl, Hrd |- *.
    destruct (vote_of DL q) as [v|].
    + rewrite length_wr in Hl, Hrd. split; [done|]. intros b Hb.
      rewrite Hrd by lia. rewrite bin_count_cons, rd_wr_any by lia.
      case_decide; subst; lia.
    + split; [done|]. intros b Hb. by rewrite Hrd by lia.
Qed.

(** The loops over the vertical arm and the horizontal arms visit the
    voting region. *)
Lemma region_loops {S} (f : S -> Z * Z -> S) (p : Z * Z) (s : S) :
  let x := fst p in
  let y := snd p in
  let arm := rd cross_arms_ (y * width_ + x) in
  for_loop (- CrossArm.top arm) (CrossArm.bottom arm + 1) (fun t s =>
    let yt := y + t in
    let arm2 := rd cross_arms_ (yt * width_ + x) in
    for_loop (- CrossArm.left arm2) (CrossArm.right arm2 + 1)
      (fun u s => f s (x + u, yt)) s) s
  = fold_left f (RefinerSpec.vote_region width_ cross_arms_ p) s.
Proof.
  cbv zeta. unfold RefinerSpec.vote_region, RegionSpec.cross_region,
    RegionSpec.vertical_arm, for_loop. cbv zeta.
  replace (CrossArm.bottom (rd cross_arms_ (p.2 * width_ + p.1)) + 1
           - - CrossArm.top (rd cross_arms_ (p.2 * width_ + p.1)))
    with (CrossArm.bottom (rd cross_arms_ (p.2 * width_ + p.1)) + 1
          + CrossArm.top (rd cross_arms_ (p.2 * width_ + p.1))) by lia.
  generalize (seqZ (- CrossArm.top (rd cross_arms_ (p.2 * width_ + p.1)))
                (CrossArm.bottom (rd cross_arms_ (p.2 * width_ + p.1)) + 1
                 + CrossArm.top (rd cross_arms_ (p.2 * width_ + p.1)))).
  intros ts. revert s. induction ts as [|t ts IH]; intros s; [done|].
  rewrite !fmap_cons. cbn [concat fold_left]. rewrite fold_left_app, <- IH.
  f_equal. unfold RegionSpec.horizontal_arm. cbv zeta. simpl fst; simpl snd.
  rewrite fold_left_fmap.
  replace (CrossArm.right (rd cross_arms_ ((p.2 + t) * width_ + p.1)) + 1
           - - CrossArm.left (rd cross_arms_ ((p.2 + t) * width_ + p.1)))
    with (CrossArm.right (rd cross_arms_ ((p.2 + t) * width_ + p.1)) + 1
          + CrossArm.left (rd cross_arms_ ((p.2 + t) * width_ + p.1))) by lia.
  reflexivity.
Qed.

Lemma total_votes_snoc (h : Z -> Z) i :
  0 <= i ->
  RefinerSpec.total_votes h (i + 1) = RefinerSpec.total_votes h i + h i.
Proof.
  intros Hi. unfold RefinerSpec.total_votes.
  rewrite (seqZ_app 0 i 1) by lia. rewrite fmap_app, fold_left_app.
  rewrite (seqZ_cons _ 1) by lia. rewrite seqZ_nil by lia. simpl.
  by rewrite Z.add_0_l.
Qed.

Lemma total_votes_ext (h h' : Z -> Z) n :
  (forall b, 0 <= b < n -> h b = h' b) ->
  RefinerSpec.total_votes h n = RefinerSpec.total_votes h' n.
Proof.
  intros Hh. unfold RefinerSpec.total_votes. f_equal.
  apply list_fmap_ext. intros i b Hb. apply Hh.
  apply lookup_seqZ in Hb. lia.
Qed.

Lemma total_votes_zero (h : Z -> Z) n :
  0 <= n -> (forall b, 0 <= b < n -> h b = 0) -> RefinerSpec.total_votes h n = 0.
Proof.
  intros Hn Hz. replace n with (Z.of_nat (Z.to_nat n)) in * by lia.
  clear Hn. induction (Z.to_nat n) as [|k IH]; [done|].
  rewrite Nat2Z.inj_succ, <- Z.add_1_r, total_votes_snoc by lia.
  rewrite IH; [|intros; apply Hz; lia]. rewrite Hz by lia. lia.
Qed.

(** The loop that finds the peak of the histogram. *)
Lemma peak_loop (h : Z -> Z) n :
  0 <= n -> (forall b, 0 <= b < n -> 0 <= h b) ->
  let '(best_disp, count, max_ht) :=
    for_loop 0 n (fun d '(best_disp, count, max_ht) =>
      let hd := h d in
      let '(max_ht, best_disp) :=
        if max_ht <? hd then (hd, d) else (max_ht, best_disp) in
      (best_disp, count + hd, max_ht)) (0, 0, 0) in
  count = RefinerSpec.total_votes h n
  /\ RefinerSpec.is_peak h n best_disp max_ht.
Proof.
  intros Hn Hh.
  pose (P := fun (i : Z) (st : Z * Z * Z) =>
    let '(best_disp, count, max_ht) := st in
    count = RefinerSpec.total_votes h i
    /\ RefinerSpec.is_peak h i best_disp max_ht).
  assert (HP : P n (for_loop 0 n (fun d '(best_disp, count, max_ht) =>
      let hd := h d in
      let '(max_ht, best_disp) :=
        if max_ht <? hd then (hd, d) else (max_ht, best_disp) in
      (best_disp, count + hd, max_ht)) (0, 0, 0))).
  { apply (for_loop_ind P); [done| |].
    - split; [done|]. split; [intros; lia|by left].
    - intros i [[best count] max_ht] Hi [Hc [Hle Hpk]]. cbv zeta.
      destruct (Z.ltb_spec max_ht (h i)) as [Hlt|Hge]; simpl.
      + split; [by rewrite total_votes_snoc, Hc by lia|]. split.
        * intros b Hb. destruct (decide (b = i)) as [->|]; [lia|].
          specialize (Hle b ltac:(lia)). lia.
        * right. split; [destruct Hpk as [[-> _]|(? & _)]; lia|].
          split; [lia|]. split; [done|]. intros b Hb.
          specialize (Hle b ltac:(lia)). lia.
      + split; [by rewrite total_votes_snoc, Hc by lia|]. split.
        * intros b Hb. destruct (decide (b = i)) as [->|]; [lia|].
          apply Hle. lia.
        * destruct Hpk as [[-> ->]|(H0 & Hb & Hhb & Hfirst)]; [by left|].
          right. repeat split; done || lia. }
  by destruct (for_loop 0 n _ _) as [[best count] max_ht].
Qed.

(** A quotient of zero votes exceeds no threshold. *)
Lemma no_votes_no_ratio th :
  F32.gtb (F32.div (F32.mul (F32.of_Z 0) (F32.of_Z 1)) (F32.of_Z 0)) th = false.
Proof. by destruct th. Qed.

(** The function that [vote_pixel] computes on the disparity map. *)
Let vote (DL : list float32) (p : Z * Z) : list float32 :=
  fst (MultiStepRefiner.vote_pixel width_ cross_arms_ min_disparity_
         max_disparity_ irv_ts_ irv_th_ p
         (DL, replicate (Z.to_nat disp_range) 0)).

Lemma vote_pixel_valid DL histogram p :
  F32.neqb (rd DL (snd p * width_ + fst p)) Invalid_Float = true ->
  MultiStepRefiner.vote_pixel width_ cross_arms_ min_disparity_
    max_disparity_ irv_ts_ irv_th_ p (DL, histogram) = (DL, histogram).
Proof.
  intros Hv. unfold MultiStepRefiner.vote_pixel. cbv zeta. by rewrite Hv.
Qed.

Lemma vote_pixel_invalid DL histogram p :
  Z.of_nat (length histogram) = disp_range ->
  F32.neqb (rd DL (snd p * width_ + fst p)) Invalid_Float = false ->
  let histogram' :=
    fold_left (add_vote DL) (RefinerSpec.vote_region width_ cross_arms_ p)
      (replicate (Z.to_nat disp_range) 0) in
  MultiStepRefiner.vote_pixel width_ cross_arms_ min_disparity_
    max_disparity_ irv_ts_ irv_th_ p (DL, histogram)
  = (let '(best_disp, count, max_ht) :=
       for_loop 0 disp_range (fun d '(best_disp, count, max_ht) =>
         let hd := rd histogram' d in
         let '(max_ht, best_disp) :=
           if max_ht <? hd then (hd, d) else (max_ht, best_disp) in
         (best_disp, count + hd, max_ht)) (0, 0, 0) in
     if 0 <? max_ht then
       if (irv_ts_ <? count)
          && F32.gtb (F32.div (F32.mul (F32.of_Z max_ht) (F32.of_Z 1))
                              (F32.of_Z count)) irv_th_
       then wr DL (snd p * width_ + fst p) (F32.of_Z (best_disp + min_disparity_))
       else DL
     else DL,
     histogram').
Proof.
  intros Hlen Hinv histogram'. unfold MultiStepRefiner.vote_pixel. cbv zeta.
  rewrite Hinv. fold disp_range. rewrite (memset_zero_replicate _ _ Hlen).
  pose proof (region_loops (add_vote DL) p
                (replicate (Z.to_nat disp_range) 0)) as Hloops.
  cbv zeta in Hloops. fold histogram' in Hloops.
  match goal with
  | |- context [for_loop (- CrossArm.top ?a) ?hi ?body ?init] =>
      rewrite (for_loop_ext (- CrossArm.top a) hi body
        (fun t hist =>
           for_loop (- CrossArm.left (rd cross_arms_ ((p.2 + t) * width_ + p.1)))
             (CrossArm.right (rd cross_arms_ ((p.2 + t) * width_ + p.1)) + 1)
             (fun u hist' => add_vote DL hist' (p.1 + u, p.2 + t)) hist) init)
  end.
  - rewrite Hloops.
    by destruct (for_loop 0 disp_range _ _) as [[best count] max_ht].
  - intros t hist Ht. cbv beta. apply for_loop_ext. intros u hist' Hu.
    unfold add_vote. cbv zeta. simpl fst; simpl snd.
    by replace ((p.2 + t) * width_ + p.1 + u)
      with ((p.2 + t) * width_ + (p.1 + u)) by lia.
Qed.

(** The histogram that [vote_pixel] receives does not matter. *)
Lemma vote_pixel_vote DL histogram p :
  Z.of_nat (length histogram) = disp_range ->
  fst (MultiStepRefiner.vote_pixel width_ cross_arms_ min_disparity_
         max_disparity_ irv_ts_ irv_th_ p (DL, histogram)) = vote DL p
  /\ length (snd (MultiStepRefiner.vote_pixel width_ cross_arms_ min_disparity_
                    max_disparity_ irv_ts_ irv_th_ p (DL, histogram)))
     = length histogram.
Proof.
  intros Hlen. unfold vote.
  destruct (F32.neqb (rd DL (snd p * width_ + fst p)) Invalid_Float) eqn:Hv.
  - by rewrite !vote_pixel_valid.
  - rewrite (vote_pixel_invalid DL histogram p Hlen Hv).
    rewrite (vote_pixel_invalid DL (replicate (Z.to_nat disp_range) 0) p)
      by (rewrite ?length_replicate; done || lia).
    cbv zeta. split; [by destruct (for_loop 0 disp_range _ _) as [[? ?] ?]|].
    destruct (for_loop 0 disp_range _ _) as [[? ?] ?]. simpl.
    destruct (add_votes DL (RefinerSpec.vote_region width_ cross_arms_ p)
                (replicate (Z.to_nat disp_range) 0)) as [Hl _].
    rewrite Hl, length_replicate. lia.
Qed.

Hypothesis (Hrange : 0 < disp_range).

Lemma vote_rule DL p :
  RefinerSpec.voting_rule width_ cross_arms_ min_disparity_ disp_range
    irv_ts_ irv_th_ DL p (vote DL p).
Proof.
  unfold RefinerSpec.voting_rule, vote.
  destruct (F32.neqb (rd DL (snd p * width_ + fst p)) Invalid_Float) eqn:Hv.
  - by rewrite vote_pixel_valid.
  - rewrite (vote_pixel_invalid DL (replicate (Z.to_nat disp_range) 0) p)
      by (rewrite ?length_replicate; done || lia).
    cbv zeta.
    set (h := RefinerSpec.bin_count
                (RefinerSpec.votes width_ cross_arms_ min_disparity_ DL p)).
    destruct (add_votes DL (RefinerSpec.vote_region width_ cross_arms_ p)
                (replicate (Z.to_nat disp_range) 0)) as [Hl Hrd].
    set (histogram' := fold_left (add_vote DL) _ _) in *.
    assert (Hh : forall b, 0 <= b < disp_range -> rd histogram' b = h b).
    { intros b Hb. rewrite Hrd by (rewrite length_replicate; lia).
      rewrite rd_replicate by lia. done. }
    erewrite for_loop_ext; cycle 1.
    { intros d [[best count] max_ht] Hd. cbv zeta. rewrite (Hh d Hd).
      instantiate (1 := fun d '(best_disp, count, max_ht) =>
        let hd := h d in
        let '(max_ht, best_disp) :=
          if max_ht <? hd then (hd, d) else (max_ht, best_disp) in
        (best_disp, count + hd, max_ht)). reflexivity. }
    pose proof (peak_loop h disp_range ltac:(lia)
                  ltac:(intros; apply bin_count_nonneg)) as Hpeak.
    destruct (for_loop 0 disp_range _ _) as [[best count] max_ht].
    destruct Hpeak as [-> Hpeak]. simpl fst.
    exists best, max_ht. split; [done|].
    destruct (Z.ltb_spec 0 max_ht) as [Hpos|Hzero]; [done|].
    destruct Hpeak as [Hle [[-> ->]|(? & _)]]; [|lia].
    rewrite total_votes_zero; [|lia|].
    + by rewrite no_votes_no_ratio, andb_false_r.
    + intros b Hb. specialize (Hle b Hb). pose proof (bin_count_nonneg
        (RefinerSpec.votes width_ cross_arms_ min_disparity_ DL p) b).
      subst h. lia.
Qed.

Lemma erase_filled_filter DL (trg : list (Z * Z)) :
  MultiStepRefiner.erase_filled width_ DL trg
  = filter (RefinerSpec.still_invalid width_ DL) trg.
Proof.
  induction trg as [|pix trg IH]; [done|]. cbn [MultiStepRefiner.erase_filled].
  rewrite filter_cons, IH.
  destruct (decide (RefinerSpec.still_invalid width_ DL pix)) as [Hs|Hs];
    unfold RefinerSpec.still_invalid, F32.eqb in Hs; unfold F32.neqb.
  - by rewrite Hs.
  - apply not_true_is_false in Hs. by rewrite Hs.
Qed.

Lemma vote_pixels DL histogram (trg : list (Z * Z)) :
  Z.of_nat (length histogram) = disp_range ->
  fst (fold_left (fun st pix =>
         MultiStepRefiner.vote_pixel width_ cross_arms_ min_disparity_
           max_disparity_ irv_ts_ irv_th_ pix st) trg (DL, histogram))
  = fold_left vote trg DL
  /\ Z.of_nat (length (snd (fold_left (fun st pix =>
         MultiStepRefiner.vote_pixel width_ cross_arms_ min_disparity_
           max_disparity_ irv_ts_ irv_th_ pix st) trg (DL, histogram))))
     = disp_range.
Proof.
  revert DL histogram. induction trg as [|pix trg IH]; intros DL histogram Hlen;
    cbn [fold_left]; [done|].
  destruct (vote_pixel_vote DL histogram pix Hlen) as [Hv Hl].
  destruct (MultiStepRefiner.vote_pixel _ _ _ _ _ _ pix (DL, histogram))
    as [DL1 hist1]. simpl in Hv, Hl. subst DL1.
  apply IH. lia.
Qed.

Lemma for_loop_iter {S} (f : S -> S) (n : nat) s :
  for_loop 0 (Z.of_nat n) (fun _ => f) s = Nat.iter n f s.
Proof.
  induction n as [|n IH]; [done|].
  rewrite Nat2Z.inj_succ, <- Z.add_1_r, for_loop_last by lia.
  by rewrite IH.
Qed.

Lemma IterativeRegionVoting_voting st :
  MultiStepRefiner.IterativeRegionVoting width_ cross_arms_ min_disparity_
    max_disparity_ irv_ts_ irv_th_ st
  = RefinerSpec.voting width_ vote st.
Proof.
  unfold MultiStepRefiner.IterativeRegionVoting. cbv zeta. fold disp_range.
  replace (disp_range <=? 0) with false by (symmetry; apply Z.leb_gt; lia).
  unfold RefinerSpec.voting.
  set (iteration := fun '(DL, mismatches, occlusions) =>
    let '(DL0, mismatches0) :=
      RefinerSpec.voting_pass width_ vote DL mismatches in
    let '(DL1, occlusions0) :=
      RefinerSpec.voting_pass width_ vote DL0 occlusions in
    (DL1, mismatches0, occlusions0)).
  match goal with
  | |- context [for_loop 0 5 (fun _ => for_loop 0 2 ?body)] =>
      set (pass := body)
  end.
  (* one iteration of the code, on a histogram of the right length *)
  assert (Hiter : forall s hist,
    Z.of_nat (length hist) = disp_range ->
    exists hist',
      for_loop 0 2 pass (s, hist) = (iteration s, hist')
      /\ Z.of_nat (length hist') = disp_range).
  { intros [[DL mis] occ] hist Hlen. rewrite for_loop_0_2.
    unfold pass. cbv beta iota. simpl Z.eqb. cbv iota.
    destruct (vote_pixels DL hist mis Hlen) as [Hv1 Hl1].
    destruct (fold_left _ mis (DL, hist)) as [DL1 hist1]. simpl in Hv1, Hl1.
    destruct (vote_pixels DL1 hist1 occ Hl1) as [Hv3 Hl3].
    destruct (fold_left _ occ (DL1, hist1)) as [DL2 hist2].
    simpl in Hv3, Hl3.
    exists hist2. split; [|done].
    unfold iteration, RefinerSpec.voting_pass. cbv zeta.
    rewrite !erase_filled_filter. by subst. }
  assert (Hall : forall n : nat, forall s hist,
    Z.of_nat (length hist) = disp_range ->
    exists hist',
      for_loop 0 (Z.of_nat n) (fun _ => for_loop 0 2 pass) (s, hist)
      = (Nat.iter n iteration s, hist')
      /\ Z.of_nat (length hist') = disp_range).
  { induction n as [|n IH]; intros s hist Hlen.
    - exists hist. by rewrite for_loop_nil.
    - rewrite Nat2Z.inj_succ, <- Z.add_1_r, for_loop_last by lia.
      destruct (IH s hist Hlen) as (hist1 & -> & Hl1).
      destruct (Hiter (Nat.iter n iteration s) hist1 Hl1)
        as (hist2 & -> & Hl2).
      by exists hist2. }
  destruct (Hall 5%nat st (replicate (Z.to_nat disp_range) 0))
    as (hist' & Heq & _); [rewrite length_replicate; lia|].
  change (Z.of_nat 5) with 5 in Heq. rewrite Heq. reflexivity.
Qed.

End Voting.

(** C6.  With a non-empty disparity range, [IterativeRegionVoting] runs
    five iterations, each a pass over the mismatches followed by a pass
    over the occlusions; in a pass the pixels of the list vote one after
    the other and then the pixels that are no longer [Invalid_Float] leave
    the list.  A pixel that is still invalid builds the histogram of the
    rounded valid disparities of its region (the horizontal arms of the
    pixels of its vertical arm) and receives [best_d + min_disparity] if
    and only if the total count exceeds [irv_ts] and the peak's fraction
    [max_h / count] exceeds [irv_th]. *)
Theorem IterativeRegionVoting_rule
    (width : Z) (cross_arms : list CrossArm.t)
    (min_disparity max_disparity irv_ts : Z) (irv_th : float32)
    (st : list float32 * list (Z * Z) * list (Z * Z)) :
  0 < max_disparity - min_disparity ->
  exists vote : list float32 -> Z * Z -> list float32,
    (forall DL p,
       RefinerSpec.voting_rule width cross_arms min_disparity
         (max_disparity - min_disparity) irv_ts irv_th DL p (vote DL p))
    /\ MultiStepRefiner.IterativeRegionVoting width cross_arms min_disparity
         max_disparity irv_ts irv_th st
       = RefinerSpec.voting width vote st.
Proof.
  intros Hrange. eexists. split.
  - intros DL p. by apply vote_rule.
  - by apply IterativeRegionVoting_voting.
Qed.

Lemma IterativeRegionVoting_rule_witness :
  exists vote : list float32 -> Z * Z -> list float32,
    (forall DL p,
       RefinerSpec.voting_rule 2 Examples.arms_2x2 0 (2 - 0) 0
         (F32.div (F32.of_Z 2) (F32.of_Z 5)) DL p (vote DL p))
    /\ MultiStepRefiner.IterativeRegionVoting 2 Examples.arms_2x2 0 2 0
         (F32.div (F32.of_Z 2) (F32.of_Z 5))
         ([Invalid_Float; F32.of_Z 1; F32.of_Z 1; F32.of_Z 0], [(0, 0)], [])
       = RefinerSpec.voting 2 vote
           ([Invalid_Float; F32.of_Z 1; F32.of_Z 1; F32.of_Z 0], [(0, 0)], []).
Proof.
  apply (IterativeRegionVoting_rule 2 Examples.arms_2x2 0 2 0
           (F32.div (F32.of_Z 2) (F32.of_Z 5))).
  lia.
Defined.

(** ** Proper interpolation *)

Section Interpolation.

Variables (width_ height_ : Z) (img_left_ : list Z).
Variables (min_disparity_ max_disparity_ : Z).
Variables (ray_yy ray_xx : Z -> Z -> Z -> Z).

(** A ray over a map without a valid disparity finds nothing. *)
Lemma ray_search_all_invalid DL s x y ms :
  (forall i, 0 <= i < width_ * height_ -> rd DL i = Invalid_Float) ->
  MultiStepRefiner.ray_search width_ height_ ray_yy ray_xx DL s x y ms = None.
Proof.
  intros Hinv. induction ms as [|m ms IH]; [done|].
  cbn [MultiStepRefiner.ray_search]. cbv zeta.
  destruct (Z.ltb_spec (ray_yy s m y) 0); [done|].
  destruct (Z.leb_spec height_ (ray_yy s m y)); [done|].
  destruct (Z.ltb_spec (ray_xx s m x) 0); [done|].
  destruct (Z.leb_spec width_ (ray_xx s m x)); [done|]. cbn [orb].
  rewrite Hinv by (apply pixel_index_bound; lia).
  exact IH.
Qed.

Lemma collect_all_invalid DL x y :
  (forall i, 0 <= i < width_ * height_ -> rd DL i = Invalid_Float) ->
  MultiStepRefiner.collect width_ height_ min_disparity_ max_disparity_
    ray_yy ray_xx DL x y = [].
Proof.
  intros Hinv. unfold MultiStepRefiner.collect. cbv zeta.
  apply (for_loop_ind (fun _ acc => acc = [])); [lia|done|].
  intros s acc _ ->. by rewrite ray_search_all_invalid.
Qed.

(** The fill value of a pixel without candidates is the zero the buffer
    [fill_disps] was created with. *)
Lemma fill_values_no_candidate k DL (trg : list (Z * Z)) n :
  0 <= n < Z.of_nat (length trg) ->
  MultiStepRefiner.collect width_ height_ min_disparity_ max_disparity_
    ray_yy ray_xx DL (fst (rd trg n)) (snd (rd trg n)) = [] ->
  rd (MultiStepRefiner.fill_values width_ height_ img_left_ min_disparity_
        max_disparity_ ray_yy ray_xx k DL trg) n = F32.zero.
Proof.
  intros Hn Hnone. unfold MultiStepRefiner.fill_values.
  enough (Hinv :
    (fun (i : Z) (fill : list float32) =>
       length fill = length trg /\ rd fill n = F32.zero)
      (Z.of_nat (length trg))
      (for_loop 0 (Z.of_nat (length trg)) (fun (n0 : Z) fill_disps =>
         let pix := rd trg n0 in
         let x := pix.1 in
         let y := pix.2 in
         let disp_collects :=
           MultiStepRefiner.collect width_ height_ min_disparity_
             max_disparity_ ray_yy ray_xx DL x y in
         if MultiStepRefiner.is_empty disp_collects then fill_disps
         else wr fill_disps n0
                (MultiStepRefiner.choose width_ img_left_ k x y disp_collects))
         (replicate (length trg) F32.zero))) by apply Hinv.
  apply for_loop_ind; [lia| |].
  - split; [apply length_replicate|].
    apply rd_replicate. lia.
  - intros i fill Hi [Hlen Hz]. cbv zeta.
    destruct (MultiStepRefiner.is_empty _) eqn:E; [done|].
    rewrite length_wr. split; [done|].
    destruct (decide (i = n)) as [->|Hne].
    + by rewrite Hnone in E.
    + by rewrite rd_wr_ne.
Qed.

(** The second loop writes the fill value of every listed pixel. *)
Lemma ProperInterpolation_mismatch_pass DL (trg : list (Z * Z)) n :
  0 <= n < Z.of_nat (length trg) ->
  let idx (p : Z * Z) := snd p * width_ + fst p in
  0 <= idx (rd trg n) < Z.of_nat (length DL) ->
  (forall n', n < n' < Z.of_nat (length trg) ->
     idx (rd trg n') <> idx (rd trg n)) ->
  rd (MultiStepRefiner.ProperInterpolation width_ height_ img_left_
        min_disparity_ max_disparity_ ray_yy ray_xx trg [] DL)
     (idx (rd trg n))
  = rd (MultiStepRefiner.fill_values width_ height_ img_left_ min_disparity_
          max_disparity_ ray_yy ray_xx 0 DL trg) n.
Proof.
  intros Hn idx Hidx Hlast. unfold MultiStepRefiner.ProperInterpolation.
  cbv zeta. rewrite for_loop_0_2. cbv beta. simpl Z.eqb. cbv iota.
  cbn [MultiStepRefiner.is_empty].
  destruct trg as [|p0 trg0] eqn:Etrg; [simpl in Hn; lia|].
  cbn [MultiStepRefiner.is_empty]. rewrite <- Etrg in *. clear Etrg p0 trg0.
  set (fill := MultiStepRefiner.fill_values _ _ _ _ _ _ _ _ _ _).
  enough (Hinv :
    (fun (i : Z) (DL' : list float32) =>
       length DL' = length DL
       /\ (n < i -> rd DL' (idx (rd trg n)) = rd fill n))
      (Z.of_nat (length trg))
      (for_loop 0 (Z.of_nat (length trg)) (fun (n0 : Z) disp_left_ =>
         let pix := rd trg n0 in
         let x := pix.1 in
         let y := pix.2 in
         wr disp_left_ (y * width_ + x) (rd fill n0)) DL))
    by (apply Hinv; lia).
  apply for_loop_ind; [lia| |].
  - split; [done|lia].
  - intros i DL' Hi [Hlen Hz]. cbv zeta. rewrite length_wr. split; [done|].
    intros Hni. fold (idx (rd trg i)).
    destruct (decide (i = n)) as [->|Hne].
    + apply rd_wr_eq. rewrite Hlen. exact Hidx.
    + rewrite rd_wr_ne by (apply Hlast; lia). apply Hz. lia.
Qed.

End Interpolation.

(** C2.  The two loops of [ProperInterpolation] over a list are separate:
    every fill value is computed from the map as it is before the pass
    writes to it.  But a listed pixel for which no ray finds a candidate
    is not left as it is: the second loop writes to every listed pixel,
    and the fill value of such a pixel is the [0.0f] that [fill_disps] was
    created with, so the pixel's entry becomes [0.0f], which is not
    [Invalid_Float]. *)
Theorem ProperInterpolation_no_candidate_zero
    (width height : Z) (img_left : list Z) (min_disparity max_disparity : Z)
    (ray_yy ray_xx : Z -> Z -> Z -> Z)
    (DL : list float32) (mismatches : list (Z * Z)) (n : Z) :
  let idx (p : Z * Z) := snd p * width + fst p in
  let p := rd mismatches n in
  0 <= n < Z.of_nat (length mismatches) ->
  0 <= idx p < Z.of_nat (length DL) ->
  (forall n', n < n' < Z.of_nat (length mismatches) ->
     idx (rd mismatches n') <> idx p) ->
  rd DL (idx p) = Invalid_Float ->
  MultiStepRefiner.collect width height min_disparity max_disparity
    ray_yy ray_xx DL (fst p) (snd p) = [] ->
  rd (MultiStepRefiner.ProperInterpolation width height img_left
        min_disparity max_disparity ray_yy ray_xx mismatches [] DL) (idx p)
  = F32.zero
  /\ F32.zero <> Invalid_Float.
Proof.
  intros idx p Hn Hidx Hlast _ Hnone. split; [|done].
  unfold p, idx.
  rewrite (ProperInterpolation_mismatch_pass width height img_left
             min_disparity max_disparity ray_yy ray_xx DL mismatches n Hn
             Hidx Hlast).
  by apply fill_values_no_candidate.
Qed.

Lemma ProperInterpolation_no_candidate_zero_witness :
  rd (MultiStepRefiner.ProperInterpolation 1 1 [0; 0; 0] 1 4
        (fun s m y => y + m) (fun s m x => x + m) [(0, 0)] []
        [Invalid_Float]) 0
  = F32.zero
  /\ F32.zero <> Invalid_Float.
Proof.
  apply (ProperInterpolation_no_candidate_zero 1 1 [0; 0; 0] 1 4
           (fun s m y => y + m) (fun s m x => x + m)
           [Invalid_Float] [(0, 0)] 0).
  - simpl. lia.
  - simpl. lia.
  - simpl. lia.
  - reflexivity.
  - reflexivity.
Defined.

(** ** The range of the disparities *)

(** C1.  A 1 x 1 image with the disparities 1, 2 and 3: every right
    sample lies outside the image, so the three final costs of the pixel
    are equal (the specification gives 2).  The left picker records
    [Invalid_Float], the consistency check lists the pixel as a mismatch,
    no vote and no ray can reach a valid disparity, and
    [ProperInterpolation] writes its initial fill value [0.0f].  Whatever
    the right disparity map and the ray tables are, [Refine] returns the
    map [[0.0f]]: the entry is not [Invalid_Float] and it is not above
    [min_disparity - 0.5 = 0.5]. *)
Theorem Refine_zero_outside_range
    (ray_yy ray_xx : Z -> Z -> Z -> Z) (disp_right : list float32) :
  let option := Examples.option_range 1 4 in
  let img_left := [0; 0; 0] in
  let cost := F32.of_Z <$> [2; 2; 2] in
  let arms :=
    CrossAggregator.BuildArms 1 1 img_left 34 17 20 6 (CrossAggregator.fresh 1) in
  let disp_left := ADCensusStereo.ComputeDisparity 1 1 option cost [F32.zero] in
  exists rf,
    MultiStepRefiner.Initialize 1 1 MultiStepRefiner.new = Returns (true, rf)
  /\ let refiner :=
       MultiStepRefiner.SetParam 1 4 20
         (ADCensusOption.irv_th option) (ADCensusOption.lrcheck_thres option)
         true true true false rf in
  snd (MultiStepRefiner.Refine ray_yy ray_xx img_left (Some cost) (Some arms)
         (Some disp_left) (Some disp_right) refiner)
  = Some [F32.zero]
  /\ F32.zero <> Invalid_Float
  /\ F32.ltb (F32.sub (F32.of_Z 1) (F32.div (F32.of_Z 1) (F32.of_Z 2)))
             F32.zero = false.
Proof.
  intros option img_left cost arms disp_left.
  eexists. split; [reflexivity|]. intros refiner.
  split; [|split; [done|reflexivity]].
  assert (HDL : disp_left = [Invalid_Float]) by (vm_compute; reflexivity).
  assert (Harms : arms = [CrossArm.mk 0 0 0 0]) by (vm_compute; reflexivity).
  assert (Hrf : refiner =
    MultiStepRefiner.mk 1 1 1 4 20
      (ADCensusOption.irv_th option) (ADCensusOption.lrcheck_thres option)
      true true true false [0] [] []) by reflexivity.
  rewrite HDL, Harms, Hrf. clear HDL Harms Hrf disp_left arms refiner.
  assert (Hod :
    MultiStepRefiner.OutlierDetection 1 1 disp_right
      (ADCensusOption.lrcheck_thres option) [Invalid_Float]
    = ([Invalid_Float], [], [(0, 0)])) by reflexivity.
  assert (Hirv :
    MultiStepRefiner.IterativeRegionVoting 1 [CrossArm.mk 0 0 0 0] 1 4 20
      (ADCensusOption.irv_th option) ([Invalid_Float], [(0, 0)], [])
    = ([Invalid_Float], [(0, 0)], [])) by (vm_compute; reflexivity).
  assert (Hpi :
    MultiStepRefiner.ProperInterpolation 1 1 img_left 1 4 ray_yy ray_xx
      [(0, 0)] [] [Invalid_Float] = [F32.zero]).
  { unfold MultiStepRefiner.ProperInterpolation. cbv zeta.
    rewrite for_loop_0_2. cbv beta. simpl Z.eqb. cbv iota.
    cbn [MultiStepRefiner.is_empty].
    unfold MultiStepRefiner.fill_values. cbn [length].
    change (Z.of_nat 1) with (0 + 1).
    rewrite !for_loop_last, !for_loop_nil by lia. cbv zeta.
    rewrite collect_all_invalid; [reflexivity|].
    intros i Hi. by replace i with 0 by lia. }
  assert (Hmf :
    MultiStepRefiner.MedianFilter [F32.zero] 1 1 3 = [F32.zero])
    by (vm_compute; reflexivity).
  unfold MultiStepRefiner.Refine.
  cbn [MultiStepRefiner.width_ MultiStepRefiner.height_
       MultiStepRefiner.min_disparity_ MultiStepRefiner.max_disparity_
       MultiStepRefiner.irv_ts_ MultiStepRefiner.irv_th_
       MultiStepRefiner.lrcheck_thres_ MultiStepRefiner.do_lr_check_
       MultiStepRefiner.do_region_voting_ MultiStepRefiner.do_interpolating_
       MultiStepRefiner.do_discontinuity_adjustment_
       MultiStepRefiner.vec_edge_left_ MultiStepRefiner.occlusions_
       MultiStepRefiner.mismatches_].
  change ((1 <=? 0) || (1 <=? 0)) with false. cbv iota.
  rewrite Hod, Hirv, Hpi, Hmf. reflexivity.
Qed.

(** ** Scanline optimisation *)

(** C7.  A row of three pixels with the disparities 0 and 1, a flat left
    image and a right image whose middle pixel is bright, swept from left
    to right.  At [x = 1] the left distance [d1] is 0.  For [d = 0] the
    right column [xr = 1] is inside [(0, width - 1)] and [d2] becomes 100.
    For [d = 1] the column [xr = 0] is outside, and the recurrence of the
    specification takes [d2 := d1 = 0], hence [P1 = p1 = 1] and
    [L = (1 + min(2, 0 + 1, ..)) / 2 = 1].  The code declares [d2]
    before the loop over [d] and does not reset it: [d2] is still 100,
    [P1 = p1 / 4] and the code stores [(1 + 1/4) / 2 = 5/8]. *)
Theorem ScanlineOptimizeLeftRight_stale_d2 :
  let p1 := F32.of_Z 1 in
  let p2 := F32.of_Z 3 in
  exists dst,
    ScanlineOptimizer.ScanlineOptimizeLeftRight 3 1
      Examples.left_3x1 Examples.right_3x1 0 2 p1 p2 15
      Examples.cost_3x1x2 (replicate 6 F32.zero) true = Some dst
  /\ rd dst (1 * 2 + 1) = F32.div (F32.of_Z 5) (F32.of_Z 8)
  /\ ScanlineSpec.path 3 Examples.left_3x1 Examples.right_3x1 0 2 p1 p2 15
       Examples.cost_3x1x2 0 1 1
     = F32.of_Z 1
  /\ rd dst (1 * 2 + 1)
     <> ScanlineSpec.path 3 Examples.left_3x1 Examples.right_3x1 0 2 p1 p2 15
          Examples.cost_3x1x2 0 1 1.
Proof.
  intros p1 p2. eexists. split; [vm_compute; reflexivity|].
  match goal with |- rd ?v _ = _ /\ _ => set (dst := v) end.
  assert (Hcode : rd dst (1 * 2 + 1) = F32.div (F32.of_Z 5) (F32.of_Z 8))
    by (vm_compute; reflexivity).
  assert (Hspec :
    ScanlineSpec.path 3 Examples.left_3x1 Examples.right_3x1 0 2 p1 p2 15
      Examples.cost_3x1x2 0 1 1 = F32.of_Z 1)
    by (vm_compute; reflexivity).
  split; [exact Hcode|]. split; [exact Hspec|].
  rewrite Hcode, Hspec. vm_compute. discriminate.
Qed.

(** * Further properties of the code *)

(** ** The lists of the consistency check *)

Lemma F32_eqb_Invalid a : F32.eqb a Invalid_Float = true <-> a = Invalid_Float.
Proof.
  split; [|by intros ->].
  destruct a as [s|s| |s m e]; try discriminate.
  destruct s; [discriminate|done].
Qed.

Section OutlierLists.

Variables (width height : Z) (lrcheck_thres : float32) (DR : list float32).

(** What one pixel of the scan does: it leaves a valid pixel alone, or
    lists the pixel in one of the two lists with its entry invalid. *)
Let body (x y : Z) (st : list float32 * list (Z * Z) * list (Z * Z)) :=
  let '(disp_left_, occlusions, mismatches) := st in
  let disp := rd disp_left_ (y * width + x) in
  if F32.eqb disp Invalid_Float then
    (disp_left_, occlusions, mismatches ++ [(x, y)])
  else
    let col_right := F32.lround (F32.sub (F32.of_Z x) disp) in
    if (0 <=? col_right) && (col_right <? width) then
      let disp_r := rd DR (y * width + col_right) in
      if F32.gtb (F32.abs (F32.sub disp disp_r)) lrcheck_thres then
        let col_rl :=
          to_sint32 (F32.lround (F32.add (F32.of_Z col_right) disp_r)) in
        let '(occlusions, mismatches) :=
          if (0 <? col_rl) && (col_rl <? width) then
            let disp_l := rd disp_left_ (y * width + col_rl) in
            if F32.gtb disp_l disp then (occlusions ++ [(x, y)], mismatches)
            else (occlusions, mismatches ++ [(x, y)])
          else (occlusions, mismatches ++ [(x, y)]) in
        (wr disp_left_ (y * width + x) Invalid_Float, occlusions, mismatches)
      else (disp_left_, occlusions, mismatches)
    else
      (wr disp_left_ (y * width + x) Invalid_Float,
       occlusions, mismatches ++ [(x, y)]).

Lemma outlier_body_cases x y DL occ mis :
  (exists DL' occ' mis',
     body x y (DL, occ, mis) = (DL', occ', mis')
     /\ occ' ++ mis' ≡ₚ (x, y) :: occ ++ mis
     /\ ((DL' = DL /\ rd DL (y * width + x) = Invalid_Float)
         \/ DL' = wr DL (y * width + x) Invalid_Float))
  \/ (body x y (DL, occ, mis) = (DL, occ, mis)
      /\ rd DL (y * width + x) <> Invalid_Float).
Proof.
  unfold body. cbv zeta.
  assert (Hm : occ ++ mis ++ [(x, y)] ≡ₚ (x, y) :: occ ++ mis).
  { rewrite (assoc_L (++)). by rewrite <- Permutation_cons_append. }
  assert (Ho : (occ ++ [(x, y)]) ++ mis ≡ₚ (x, y) :: occ ++ mis).
  { rewrite <- (assoc_L (++)). simpl. by rewrite <- Permutation_middle. }
  destruct (F32.eqb (rd DL (y * width + x)) Invalid_Float) eqn:Einv.
  { left. eexists _, _, _. split; [reflexivity|]. split; [done|].
    left. split; [done|]. by apply F32_eqb_Invalid. }
  assert (Hne : rd DL (y * width + x) <> Invalid_Float).
  { intros Heq. apply F32_eqb_Invalid in Heq. congruence. }
  destruct ((0 <=? _) && (_ <? width)).
  - destruct (F32.gtb _ lrcheck_thres); [|by right].
    left. destruct ((0 <? _) && (_ <? width)).
    + destruct (F32.gtb _ _); eexists _, _, _;
        (split; [reflexivity|]); (split; [done|by right]).
    + eexists _, _, _. split; [reflexivity|]. split; [done|by right].
  - left. eexists _, _, _. split; [reflexivity|]. split; [done|by right].
Qed.

(** The lists of [OutlierDetection] and its map. *)
Lemma OutlierDetection_lists (DL : list float32) :
  0 < width -> 0 < height -> Z.of_nat (length DL) = width * height ->
  let st := MultiStepRefiner.OutlierDetection width height DR lrcheck_thres DL in
  let DL' := fst (fst st) in
  let listed := snd (fst st) ++ snd st in
  length DL' = length DL
  /\ NoDup listed
  /\ (forall p, p ∈ listed -> 0 <= fst p < width /\ 0 <= snd p < height)
  /\ forall x y, 0 <= x < width -> 0 <= y < height ->
       ((x, y) ∈ listed <-> rd DL' (y * width + x) = Invalid_Float)
       /\ ((x, y) ∉ listed -> rd DL' (y * width + x) = rd DL (y * width + x)).
Proof.
  intros Hw Hh Hlen st DL' listed. subst DL' listed st.
  unfold MultiStepRefiner.OutlierDetection. cbv zeta.
  change (for_loop 0 height _ (DL, [], []))
    with (for_loop 0 height (fun y => for_loop 0 width (fun x => body x y))
            (DL, [], [])).
  pose (P := fun (n : Z) (st : list float32 * list (Z * Z) * list (Z * Z)) =>
    let DL' := fst (fst st) in
    let listed := snd (fst st) ++ snd st in
    length DL' = length DL
    /\ NoDup listed
    /\ (forall p, p ∈ listed ->
          0 <= fst p < width /\ 0 <= snd p < height
          /\ snd p * width + fst p < n)
    /\ (forall x y, 0 <= x < width -> 0 <= y < height ->
          ((x, y) ∈ listed <-> y * width + x < n
                               /\ rd DL' (y * width + x) = Invalid_Float)
          /\ ((x, y) ∉ listed ->
              rd DL' (y * width + x) = rd DL (y * width + x)))).
  assert (HP : P (width * height)
    (for_loop 0 height (fun y => for_loop 0 width (fun x => body x y))
       (DL, [], []))).
  { apply (pixel_loop_ind P); [lia|lia| |].
    - unfold P. simpl. split; [done|]. split; [constructor|].
      split; [by intros p Hp%elem_of_nil|].
      intros x y Hx Hy. split; [|done]. split; [by intros Hp%elem_of_nil|].
      intros [Hn _]. nia.
    - intros x y [[DL1 occ] mis] Hx Hy (Hl & Hnd & Hin & Hcell).
      simpl in Hl, Hnd, Hin, Hcell.
      pose proof (pixel_index_bound width height x y Hx Hy) as Hb.
      assert (Hfresh : (x, y) ∉ occ ++ mis).
      { intros Hp. apply Hin in Hp. simpl in Hp. lia. }
      destruct (outlier_body_cases x y DL1 occ mis)
        as [(DL2 & occ2 & mis2 & -> & Hperm & HDL2) | [-> Hne]].
      + unfold P. simpl.
        assert (Hl2 : length DL2 = length DL).
        { destruct HDL2 as [[-> _] | ->]; [done|by rewrite length_wr]. }
        assert (Hinv2 : rd DL2 (y * width + x) = Invalid_Float).
        { destruct HDL2 as [[-> ?] | ->]; [done|].
          apply rd_wr_eq. lia. }
        assert (Hother : forall i, i <> y * width + x -> rd DL2 i = rd DL1 i).
        { intros i Hi. destruct HDL2 as [[-> _] | ->]; [done|].
          by apply rd_wr_ne. }
        split; [done|]. split; [rewrite Hperm; by constructor|].
        split.
        * intros p Hp. rewrite Hperm in Hp. apply elem_of_cons in Hp as [->|Hp].
          -- simpl. lia.
          -- apply Hin in Hp. lia.
        * intros x' y' Hx' Hy'. rewrite Hperm. rewrite elem_of_cons.
          destruct (decide (y' * width + x' = y * width + x)) as [Heq|Hneq].
          -- apply pixel_index_inj in Heq as [-> ->]; [|lia|lia].
             split; [|intros Hn; exfalso; apply Hn; by left].
             split; [intros _; split; [lia|done]|by left].
          -- rewrite Hother by done.
             destruct (Hcell x' y' Hx' Hy') as [Hiff Hframe].
             assert (Hp : (x', y') <> (x, y)) by (intros [= -> ->]; lia).
             split.
             ++ rewrite Hiff. split.
                ** intros [?|[? ?]]; [done|]. split; [lia|done].
                ** intros [? ?]. right. split; [lia|done].
             ++ intros Hn. apply Hframe. intros ?. apply Hn. by right.
      + unfold P. simpl. split; [done|]. split; [done|]. split.
        * intros p Hp. apply Hin in Hp. lia.
        * intros x' y' Hx' Hy'. destruct (Hcell x' y' Hx' Hy') as [Hiff Hframe].
          split; [|done]. rewrite Hiff. split.
          -- intros [? ?]. split; [lia|done].
          -- intros [Hn Hv]. split; [|done].
             destruct (decide (y' * width + x' = y * width + x)) as [Heq|]; [|lia].
             apply pixel_index_inj in Heq as [-> ->]; [|lia|lia].
             exfalso. by apply Hne. }
  destruct HP as (Hl & Hnd & Hin & Hcell).
  split; [done|]. split; [done|]. split.
  - intros p Hp. apply Hin in Hp. lia.
  - intros x y Hx Hy. destruct (Hcell x y Hx Hy) as [Hiff Hframe].
    split; [|done]. rewrite Hiff.
    pose proof (pixel_index_bound width height x y Hx Hy).
    split; [by intros [_ ?]|]. intros ?. split; [lia|done].
Qed.

End OutlierLists.

(** X1.  On a map of [width * height] entries, [OutlierDetection] lists
    every pixel at most once and in one list only, and when it returns a
    pixel of the image is in one of the two lists if and only if its
    entry is [Invalid_Float]; the entry of a pixel that is not listed is
    the one it had before. *)
Theorem OutlierDetection_partition
    (width height : Z) (lrcheck_thres : float32) (DR DL : list float32) :
  0 < width -> 0 < height -> Z.of_nat (length DL) = width * height ->
  let '(DL', occlusions, mismatches) :=
    MultiStepRefiner.OutlierDetection width height DR lrcheck_thres DL in
  length DL' = length DL
  /\ NoDup occlusions /\ NoDup mismatches
  /\ (forall p, p ∈ occlusions -> p ∉ mismatches)
  /\ forall x y, 0 <= x < width -> 0 <= y < height ->
       ((x, y) ∈ occlusions \/ (x, y) ∈ mismatches
        <-> rd DL' (y * width + x) = Invalid_Float)
       /\ ((x, y) ∉ occlusions -> (x, y) ∉ mismatches ->
           rd DL' (y * width + x) = rd DL (y * width + x)).
Proof.
  intros Hw Hh Hlen.
  pose proof (OutlierDetection_lists width height lrcheck_thres DR DL
                Hw Hh Hlen) as H. cbv zeta in H.
  destruct (MultiStepRefiner.OutlierDetection width height DR lrcheck_thres DL)
    as [[DL' occlusions] mismatches].
  cbn [fst snd] in H. destruct H as (Hl & Hnd & _ & Hcells).
  apply list.NoDup_app in Hnd as (Hno & Hdisj & Hnm).
  split; [done|]. split; [done|]. split; [done|]. split; [done|].
  intros x y Hx Hy. destruct (Hcells x y Hx Hy) as [Hiff Hframe].
  rewrite <- Hiff, elem_of_app. split; [done|].
  intros Ho Hm. apply Hframe. rewrite elem_of_app. tauto.
Qed.

Lemma OutlierDetection_partition_witness :
  let '(DL', occlusions, mismatches) :=
    MultiStepRefiner.OutlierDetection 3 1 Examples.DR_3x1 (F32.of_Z 1)
      Examples.DL_3x1 in
  length DL' = length Examples.DL_3x1
  /\ NoDup occlusions /\ NoDup mismatches
  /\ (forall p, p ∈ occlusions -> p ∉ mismatches)
  /\ forall x y, 0 <= x < 3 -> 0 <= y < 1 ->
       ((x, y) ∈ occlusions \/ (x, y) ∈ mismatches
        <-> rd DL' (y * 3 + x) = Invalid_Float)
       /\ ((x, y) ∉ occlusions -> (x, y) ∉ mismatches ->
           rd DL' (y * 3 + x) = rd Examples.DL_3x1 (y * 3 + x)).
Proof.
  apply (OutlierDetection_partition 3 1 (F32.of_Z 1) Examples.DR_3x1
           Examples.DL_3x1).
  - lia.
  - lia.
  - reflexivity.
Defined.

(** ** What region voting changes *)

Lemma rd_wr_cases {A} `{Inhabited A} (l : list A) i v j :
  rd (wr l i v) j = rd l j \/ (j = i /\ rd (wr l i v) j = v).
Proof.
  destruct (decide (i = j)) as [->|Hne]; [|left; by apply rd_wr_ne].
  destruct (decide (0 <= j < Z.of_nat (length l))) as [Hin|Hout].
  - right. split; [done|]. by apply rd_wr_eq.
  - left. f_equal. unfold wr. case_decide; [|done].
    apply list_insert_ge. lia.
Qed.

Section VotingFrame.

Variables (width_ : Z) (cross_arms_ : list CrossArm.t).
Variables (min_disparity_ max_disparity_ irv_ts_ : Z) (irv_th_ : float32).
Hypothesis (Hrange : 0 < max_disparity_ - min_disparity_).

(** [filled DL DL']: the map [DL'] is [DL] with some invalid entries
    replaced by integer disparities of the range. *)
Let filled (DL DL' : list float32) : Prop :=
  length DL' = length DL
  /\ forall i, rd DL' i = rd DL i
               \/ (rd DL i = Invalid_Float
                   /\ exists k, min_disparity_ <= k < max_disparity_
                                /\ rd DL' i = F32.of_Z k).

Lemma filled_refl DL : filled DL DL.
Proof. split; [done|]. by left. Qed.

Lemma filled_trans DL0 DL1 DL2 :
  filled DL0 DL1 -> filled DL1 DL2 -> filled DL0 DL2.
Proof.
  intros [Hl1 H1] [Hl2 H2]. split; [congruence|]. intros i.
  destruct (H1 i) as [E1|[Hinv (k & Hk & E1)]],
           (H2 i) as [E2|[Hinv2 (k2 & Hk2 & E2)]].
  - left. congruence.
  - right. split; [congruence|]. by exists k2.
  - right. split; [done|]. exists k. split; [done|congruence].
  - right. split; [done|]. by exists k2.
Qed.

Lemma voting_rule_filled DL p DL' :
  RefinerSpec.voting_rule width_ cross_arms_ min_disparity_
    (max_disparity_ - min_disparity_) irv_ts_ irv_th_ DL p DL' ->
  filled DL DL'.
Proof.
  unfold RefinerSpec.voting_rule.
  destruct (F32.neqb (rd DL (snd p * width_ + fst p)) Invalid_Float) eqn:Hv.
  { intros ->. apply filled_refl. }
  intros (best & max_h & Hpeak & ->).
  assert (Hinv : rd DL (snd p * width_ + fst p) = Invalid_Float).
  { apply F32_eqb_Invalid. unfold F32.neqb in Hv. unfold F32.eqb.
    by apply negb_false_iff in Hv. }
  assert (Hbest : 0 <= best < max_disparity_ - min_disparity_).
  { destruct Hpeak as [_ [[_ ->]|(_ & ? & _)]]; lia. }
  destruct (_ && _); [|apply filled_refl].
  split; [apply length_wr|]. intros i.
  destruct (rd_wr_cases DL (snd p * width_ + fst p)
              (F32.of_Z (best + min_disparity_)) i) as [E|[-> E]];
    [by left|].
  right. split; [done|]. exists (best + min_disparity_). split; [lia|done].
Qed.

Lemma voting_pass_filled (vote : list float32 -> Z * Z -> list float32)
    DL (trg : list (Z * Z)) :
  (forall DL p, filled DL (vote DL p)) ->
  let r := RefinerSpec.voting_pass width_ vote DL trg in
  filled DL (fst r) /\ snd r `sublist_of` trg
  /\ forall p, p ∈ snd r -> rd (fst r) (snd p * width_ + fst p) = Invalid_Float.
Proof.
  intros Hvote r. subst r. unfold RefinerSpec.voting_pass. cbv zeta. simpl.
  split; [|split].
  - revert DL. induction trg as [|p trg IH]; intros DL; simpl.
    + apply filled_refl.
    + eapply filled_trans; [apply Hvote|apply IH].
  - apply sublist_filter.
  - intros p Hp. apply list_elem_of_filter in Hp as [Hp _].
    by apply F32_eqb_Invalid.
Qed.

(** An entry that is invalid after a step was invalid before. *)
Lemma filled_invalid DL DL' i :
  filled DL DL' -> rd DL' i = Invalid_Float -> rd DL i = Invalid_Float.
Proof. intros [_ Hf] Hi. destruct (Hf i) as [E|[E _]]; congruence. Qed.

(** The pixels of [Q] whose entry is invalid are in one of the lists. *)
Let holes_listed (Q : Z * Z -> Prop)
    (st : list float32 * list (Z * Z) * list (Z * Z)) : Prop :=
  forall p, Q p -> rd (fst (fst st)) (snd p * width_ + fst p) = Invalid_Float ->
    p ∈ snd (fst st) \/ p ∈ snd st.

Lemma IterativeRegionVoting_holes_listed (Q : Z * Z -> Prop)
    (DL : list float32) (mismatches occlusions : list (Z * Z)) :
  (forall p, Q p -> rd DL (snd p * width_ + fst p) = Invalid_Float ->
     p ∈ mismatches \/ p ∈ occlusions) ->
  let st :=
    MultiStepRefiner.IterativeRegionVoting width_ cross_arms_ min_disparity_
      max_disparity_ irv_ts_ irv_th_ (DL, mismatches, occlusions) in
  length (fst (fst st)) = length DL
  /\ snd (fst st) `sublist_of` mismatches
  /\ snd st `sublist_of` occlusions
  /\ forall p, Q p ->
       rd (fst (fst st)) (snd p * width_ + fst p) = Invalid_Float ->
       p ∈ snd (fst st) \/ p ∈ snd st.
Proof.
  intros Hholes st. subst st.
  rewrite (IterativeRegionVoting_voting width_ cross_arms_ min_disparity_
             max_disparity_ irv_ts_ irv_th_ Hrange).
  set (vote := fun (DL : list float32) (p : Z * Z) =>
    fst (MultiStepRefiner.vote_pixel width_ cross_arms_ min_disparity_
           max_disparity_ irv_ts_ irv_th_ p
           (DL, replicate (Z.to_nat (max_disparity_ - min_disparity_)) 0))).
  assert (Hvote : forall DL p, filled DL (vote DL p)).
  { intros DL0 p. apply (voting_rule_filled DL0 p).
    apply (vote_rule width_ cross_arms_ min_disparity_ max_disparity_
             irv_ts_ irv_th_ Hrange). }
  unfold RefinerSpec.voting.
  set (iteration := fun '(DL, mismatches, occlusions) =>
    let '(DL0, mismatches0) :=
      RefinerSpec.voting_pass width_ vote DL mismatches in
    let '(DL1, occlusions0) :=
      RefinerSpec.voting_pass width_ vote DL0 occlusions in
    (DL1, mismatches0, occlusions0)).
  pose (J := fun st : list float32 * list (Z * Z) * list (Z * Z) =>
    length (fst (fst st)) = length DL
    /\ snd (fst st) `sublist_of` mismatches
    /\ snd st `sublist_of` occlusions
    /\ holes_listed Q st).
  assert (Hpass : forall DL0 (trg : list (Z * Z)) p,
    rd (fst (RefinerSpec.voting_pass width_ vote DL0 trg))
       (snd p * width_ + fst p) = Invalid_Float ->
    rd DL0 (snd p * width_ + fst p) = Invalid_Float
    /\ (p ∈ trg -> p ∈ snd (RefinerSpec.voting_pass width_ vote DL0 trg))).
  { intros DL0 trg p Hp.
    destruct (voting_pass_filled vote DL0 trg Hvote) as (Hf & _ & _).
    split; [by eapply filled_invalid|].
    intros Hin. unfold RefinerSpec.voting_pass in *. cbv zeta in *.
    cbn [fst snd] in *. apply list_elem_of_filter. split; [|done].
    by apply F32_eqb_Invalid. }
  assert (Hiter : forall st, J st -> J (iteration st)).
  { intros [[DL0 mis0] occ0] (Hl & Hsm & Hso & Hh). unfold iteration.
    cbn [fst snd] in Hl, Hsm, Hso.
    destruct (voting_pass_filled vote DL0 mis0 Hvote) as ([Hl1 _] & S1 & _).
    pose proof (Hpass DL0 mis0) as Hp1.
    destruct (RefinerSpec.voting_pass width_ vote DL0 mis0) as [DL1 mis1].
    destruct (voting_pass_filled vote DL1 occ0 Hvote) as ([Hl2 _] & S2 & _).
    pose proof (Hpass DL1 occ0) as Hp2.
    destruct (RefinerSpec.voting_pass width_ vote DL1 occ0) as [DL2 occ2].
    cbn [fst snd] in *. unfold J. cbn [fst snd].
    split; [congruence|]. split; [by etrans|]. split; [by etrans|].
    intros p HQ Hinv. cbn [fst snd] in *.
    destruct (Hp2 p Hinv) as [Hinv1 Hkeep2].
    destruct (Hp1 p Hinv1) as [Hinv0 Hkeep1].
    destruct (Hh p HQ Hinv0) as [Hm|Ho]; [left; by apply Hkeep1|].
    right. by apply Hkeep2. }
  assert (Hn : forall k : nat,
            J (Nat.iter k iteration (DL, mismatches, occlusions))).
  { induction k as [|k IH]; [|rewrite Nat.iter_succ; by apply Hiter].
    unfold J. cbn [Nat.iter nat_rect fst snd]. by repeat split. }
  exact (Hn 5%nat).
Qed.

(** X2.  With a non-empty disparity range, [IterativeRegionVoting] keeps
    the size of the map and changes only entries that were
    [Invalid_Float], each to an integer disparity of
    [[min_disparity, max_disparity)]; the two lists only lose pixels, and
    every pixel left in the occlusion list is still invalid. *)
Theorem IterativeRegionVoting_fills_invalid_only
    (DL : list float32) (mismatches occlusions : list (Z * Z)) :
  let st :=
    MultiStepRefiner.IterativeRegionVoting width_ cross_arms_ min_disparity_
      max_disparity_ irv_ts_ irv_th_ (DL, mismatches, occlusions) in
  let DL' := fst (fst st) in
  length DL' = length DL
  /\ (forall i, rd DL' i = rd DL i
                \/ (rd DL i = Invalid_Float
                    /\ exists k, min_disparity_ <= k < max_disparity_
                                 /\ rd DL' i = F32.of_Z k))
  /\ snd (fst st) `sublist_of` mismatches
  /\ snd st `sublist_of` occlusions
  /\ forall p, p ∈ snd st -> rd DL' (snd p * width_ + fst p) = Invalid_Float.
Proof.
  intros st DL'. subst DL' st.
  rewrite (IterativeRegionVoting_voting width_ cross_arms_ min_disparity_
             max_disparity_ irv_ts_ irv_th_ Hrange).
  set (vote := fun (DL : list float32) (p : Z * Z) =>
    fst (MultiStepRefiner.vote_pixel width_ cross_arms_ min_disparity_
           max_disparity_ irv_ts_ irv_th_ p
           (DL, replicate (Z.to_nat (max_disparity_ - min_disparity_)) 0))).
  assert (Hvote : forall DL p, filled DL (vote DL p)).
  { intros DL0 p. apply (voting_rule_filled DL0 p).
    apply (vote_rule width_ cross_arms_ min_disparity_ max_disparity_
             irv_ts_ irv_th_ Hrange). }
  unfold RefinerSpec.voting.
  set (iteration := fun '(DL, mismatches, occlusions) =>
    let '(DL0, mismatches0) :=
      RefinerSpec.voting_pass width_ vote DL mismatches in
    let '(DL1, occlusions0) :=
      RefinerSpec.voting_pass width_ vote DL0 occlusions in
    (DL1, mismatches0, occlusions0)).
  assert (Hiter : forall DL0 mis0 occ0,
    let r := iteration (DL0, mis0, occ0) in
    filled DL0 (fst (fst r)) /\ snd (fst r) `sublist_of` mis0
    /\ snd r `sublist_of` occ0
    /\ forall p, p ∈ snd r ->
         rd (fst (fst r)) (snd p * width_ + fst p) = Invalid_Float).
  { intros DL0 mis0 occ0. unfold iteration.
    destruct (voting_pass_filled vote DL0 mis0 Hvote) as (F1 & S1 & _).
    destruct (RefinerSpec.voting_pass width_ vote DL0 mis0) as [DL1 mis1].
    destruct (voting_pass_filled vote DL1 occ0 Hvote) as (F2 & S2 & I2).
    destruct (RefinerSpec.voting_pass width_ vote DL1 occ0) as [DL2 occ2].
    simpl in *. split; [by eapply filled_trans|]. by repeat split. }
  assert (Hn : forall n : nat,
    let r := Nat.iter (S n) iteration (DL, mismatches, occlusions) in
    filled DL (fst (fst r)) /\ snd (fst r) `sublist_of` mismatches
    /\ snd r `sublist_of` occlusions
    /\ forall p, p ∈ snd r ->
         rd (fst (fst r)) (snd p * width_ + fst p) = Invalid_Float).
  { induction n as [|n IH].
    - apply Hiter.
    - cbv zeta in *. rewrite (Nat.iter_succ (S n)).
      destruct (Nat.iter (S n) iteration _) as [[DL1 mis1] occ1].
      destruct IH as (F1 & S1 & O1 & _). simpl in F1, S1, O1.
      destruct (Hiter DL1 mis1 occ1) as (F2 & S2 & O2 & I2).
      split; [by eapply filled_trans|].
      split; [by etrans|]. split; [by etrans|done]. }
  destruct (Hn 4%nat) as ([Hl Hf] & Hs & Ho & Hi). by repeat split.
Qed.

End VotingFrame.

Lemma IterativeRegionVoting_fills_invalid_only_witness :
  let st :=
    MultiStepRefiner.IterativeRegionVoting 2 Examples.arms_2x2 0 2 0
      (F32.div (F32.of_Z 2) (F32.of_Z 5))
      ([Invalid_Float; F32.of_Z 1; F32.of_Z 1; F32.of_Z 0], [(0, 0)], []) in
  length (fst (fst st)) = 4%nat.
Proof.
  refine (proj1 (IterativeRegionVoting_fills_invalid_only 2 Examples.arms_2x2
            0 2 0 (F32.div (F32.of_Z 2) (F32.of_Z 5)) _
            [Invalid_Float; F32.of_Z 1; F32.of_Z 1; F32.of_Z 0] [(0, 0)] [])).
  lia.
Defined.

(** ** What proper interpolation writes *)

Section InterpolationCells.

Variables (width_ height_ : Z) (img_left_ : list Z).
Variables (min_disparity_ max_disparity_ : Z).
Variables (ray_yy ray_xx : Z -> Z -> Z -> Z).

Let idx (p : Z * Z) : Z := snd p * width_ + fst p.

Let collect := MultiStepRefiner.collect width_ height_ min_disparity_
                 max_disparity_ ray_yy ray_xx.

(** The fill value of a pixel, from the map [DL] the pass starts with. *)
Let fill_of (k : Z) (DL : list float32) (p : Z * Z) : float32 :=
  if MultiStepRefiner.is_empty (collect DL (fst p) (snd p)) then F32.zero
  else MultiStepRefiner.choose width_ img_left_ k (fst p) (snd p)
         (collect DL (fst p) (snd p)).

(** The pass over one list: the two loops of the body of the loop on
    [k]. *)
Let pass (k : Z) (trg : list (Z * Z)) (DL : list float32) : list float32 :=
  if MultiStepRefiner.is_empty trg then DL
  else
    for_loop 0 (Z.of_nat (length trg)) (fun n disp_left_ =>
      let pix := rd trg n in
      let x := fst pix in
      let y := snd pix in
      wr disp_left_ (y * width_ + x)
         (rd (MultiStepRefiner.fill_values width_ height_ img_left_
                min_disparity_ max_disparity_ ray_yy ray_xx k DL trg) n))
      DL.

Lemma ProperInterpolation_passes mismatches occlusions DL :
  MultiStepRefiner.ProperInterpolation width_ height_ img_left_
    min_disparity_ max_disparity_ ray_yy ray_xx mismatches occlusions DL
  = pass 1 occlusions (pass 0 mismatches DL).
Proof.
  unfold MultiStepRefiner.ProperInterpolation. cbv zeta.
  by rewrite for_loop_0_2.
Qed.

Lemma fill_values_cells k DL (trg : list (Z * Z)) n :
  0 <= n < Z.of_nat (length trg) ->
  rd (MultiStepRefiner.fill_values width_ height_ img_left_ min_disparity_
        max_disparity_ ray_yy ray_xx k DL trg) n
  = fill_of k DL (rd trg n).
Proof.
  intros Hn. unfold MultiStepRefiner.fill_values.
  pose (P := fun (i : Z) (fill : list float32) =>
    length fill = length trg
    /\ (forall m, 0 <= m < i -> rd fill m = fill_of k DL (rd trg m))
    /\ (forall m, i <= m < Z.of_nat (length trg) -> rd fill m = F32.zero)).
  enough (Hinv : P (Z.of_nat (length trg))
      (for_loop 0 (Z.of_nat (length trg)) (fun (n0 : Z) fill_disps =>
         let pix := rd trg n0 in
         let x := pix.1 in
         let y := pix.2 in
         let disp_collects :=
           MultiStepRefiner.collect width_ height_ min_disparity_
             max_disparity_ ray_yy ray_xx DL x y in
         if MultiStepRefiner.is_empty disp_collects then fill_disps
         else wr fill_disps n0
                (MultiStepRefiner.choose width_ img_left_ k x y disp_collects))
         (replicate (length trg) F32.zero))) by (by apply Hinv).
  apply (for_loop_ind P); [lia| |].
  - split; [apply length_replicate|]. split; [intros; lia|].
    intros m Hm. apply rd_replicate. lia.
  - intros i fill Hi (Hlen & Hdone & Hrest). unfold P. cbv zeta.
    fold (collect DL (rd trg i).1 (rd trg i).2).
    destruct (MultiStepRefiner.is_empty _) eqn:E.
    + split; [done|]. split; [|intros; apply Hrest; lia].
      intros m Hm. destruct (decide (m = i)) as [->|]; [|apply Hdone; lia].
      unfold fill_of. rewrite E. apply Hrest. lia.
    + rewrite length_wr. split; [done|]. split.
      * intros m Hm. rewrite rd_wr_any by lia. case_decide as Hmi.
        -- subst m. unfold fill_of. by rewrite E.
        -- apply Hdone. lia.
      * intros m Hm. rewrite rd_wr_ne by lia. apply Hrest. lia.
Qed.

(** The pass writes the fill value of every pixel of its list and
    nothing else. *)
Lemma pass_cells k (trg : list (Z * Z)) DL :
  length (pass k trg DL) = length DL
  /\ (forall i, (forall n, 0 <= n < Z.of_nat (length trg) -> idx (rd trg n) <> i) ->
        rd (pass k trg DL) i = rd DL i)
  /\ (forall n, 0 <= n < Z.of_nat (length trg) ->
        0 <= idx (rd trg n) < Z.of_nat (length DL) ->
        (forall n', n < n' < Z.of_nat (length trg) ->
           idx (rd trg n') <> idx (rd trg n)) ->
        rd (pass k trg DL) (idx (rd trg n)) = fill_of k DL (rd trg n)).
Proof.
  unfold pass. destruct (MultiStepRefiner.is_empty trg) eqn:Eempty.
  { split; [done|]. split; [done|]. intros n Hn.
    destruct trg; [simpl in Hn; lia|done]. }
  set (fill := MultiStepRefiner.fill_values _ _ _ _ _ _ _ _ _ _).
  pose (P := fun (i : Z) (DL' : list float32) =>
    length DL' = length DL
    /\ (forall j, (forall n, 0 <= n < i -> idx (rd trg n) <> j) ->
          rd DL' j = rd DL j)
    /\ (forall n, 0 <= n < i ->
          0 <= idx (rd trg n) < Z.of_nat (length DL) ->
          (forall n', n < n' < i -> idx (rd trg n') <> idx (rd trg n)) ->
          rd DL' (idx (rd trg n)) = rd fill n)).
  enough (Hinv : P (Z.of_nat (length trg))
      (for_loop 0 (Z.of_nat (length trg)) (fun (n0 : Z) disp_left_ =>
         let pix := rd trg n0 in
         let x := pix.1 in
         let y := pix.2 in
         wr disp_left_ (y * width_ + x) (rd fill n0)) DL)).
  { destruct Hinv as (Hl & Hframe & Hcell). split; [done|].
    split; [done|]. intros n Hn Hidx Hlast.
    etrans; [exact (Hcell n Hn Hidx Hlast)|by apply fill_values_cells]. }
  apply (for_loop_ind P); [lia| |].
  - split; [done|]. split; [done|]. intros; lia.
  - intros i DL' Hi (Hl & Hframe & Hcell). unfold P. cbv zeta.
    fold (idx (rd trg i)). rewrite length_wr. split; [done|]. split.
    + intros j Hj. rewrite rd_wr_ne by (apply Hj; lia).
      apply Hframe. intros n Hn. apply Hj. lia.
    + intros n Hn Hidx Hlast. destruct (decide (n = i)) as [->|Hne].
      * apply rd_wr_eq. by rewrite Hl.
      * rewrite rd_wr_ne by (apply Hlast; lia).
        apply Hcell; [lia|done|]. intros n' Hn'. apply Hlast. lia.
Qed.

(** X3.  [ProperInterpolation] keeps the size of the map and writes only
    to the pixels of its two lists: every other entry is left as it
    was. *)
Theorem ProperInterpolation_frame
    (mismatches occlusions : list (Z * Z)) (DL : list float32) :
  let DL' :=
    MultiStepRefiner.ProperInterpolation width_ height_ img_left_
      min_disparity_ max_disparity_ ray_yy ray_xx mismatches occlusions DL in
  length DL' = length DL
  /\ forall i,
       (forall p, p ∈ mismatches ++ occlusions -> snd p * width_ + fst p <> i) ->
       rd DL' i = rd DL i.
Proof.
  intros DL'. subst DL'. rewrite ProperInterpolation_passes.
  destruct (pass_cells 1 occlusions (pass 0 mismatches DL)) as (Hl1 & Hf1 & _).
  destruct (pass_cells 0 mismatches DL) as (Hl0 & Hf0 & _).
  split; [congruence|]. intros i Hi.
  assert (Hlisted : forall (l : list (Z * Z)) n,
            0 <= n < Z.of_nat (length l) -> rd l n ∈ l).
  { intros l n Hn. unfold rd. rewrite decide_True by lia.
    apply list_elem_of_lookup_total_2. lia. }
  rewrite Hf1, Hf0; [done| |].
  - intros n Hn. apply Hi. apply elem_of_app. left. by apply Hlisted.
  - intros n Hn. apply Hi. apply elem_of_app. right. by apply Hlisted.
Qed.

(** The smallest disparity of a list of candidates, below [m]. *)
Lemma min_disp_fold (cands : list (Z * float32)) : forall m,
  F32.is_nan m = false ->
  (forall c, c ∈ cands -> F32.is_nan (snd c) = false) ->
  let v := fold_left (fun min_disp dc => F32.std_min min_disp (snd dc)) cands m in
  F32.is_nan v = false
  /\ (v = m \/ exists c, c ∈ cands /\ v = snd c)
  /\ F32.leb v m = true
  /\ forall c, c ∈ cands -> F32.leb v (snd c) = true.
Proof.
  induction cands as [|c cands IH]; intros m Hm Hnan; cbn [fold_left].
  { split; [done|]. split; [by left|]. split; [by apply F32_leb_refl|].
    by intros c Hc%elem_of_nil. }
  assert (Hc : F32.is_nan (snd c) = false) by (apply Hnan; by left).
  assert (Hstep : F32.is_nan (F32.std_min m (snd c)) = false
                  /\ (F32.std_min m (snd c) = m \/ F32.std_min m (snd c) = snd c)
                  /\ F32.leb (F32.std_min m (snd c)) m = true
                  /\ F32.leb (F32.std_min m (snd c)) (snd c) = true).
  { unfold F32.std_min. destruct (F32.ltb (snd c) m) eqn:E.
    - split; [done|]. split; [by right|].
      split; [by apply F32_ltb_leb|by apply F32_leb_refl].
    - split; [done|]. split; [by left|].
      split; [by apply F32_leb_refl|by apply F32_ltb_false_leb]. }
  destruct Hstep as (Hn1 & Hv1 & Hle1 & Hlec).
  destruct (IH (F32.std_min m (snd c)) Hn1) as (Hn & Hv & Hle & Hall).
  { intros c' Hc'. apply Hnan. by right. }
  split; [done|]. split; [|split].
  - destruct Hv as [->|(c' & Hc' & ->)].
    + destruct Hv1 as [->| ->]; [by left|]. right. exists c. split; [by left|done].
    + right. exists c'. split; [by right|done].
  - by apply (F32_leb_trans _ (F32.std_min m (snd c)) m).
  - intros c' [->|Hc']%elem_of_cons; [|by apply Hall].
    by apply (F32_leb_trans _ (F32.std_min m (snd c)) (snd c)).
Qed.

(** X4.  An occlusion for which the rays find candidates, none of them a
    NaN, is filled with the smallest of [Large_Float] and the candidates'
    disparities; the candidates are read from the map as the pass over
    the mismatches left it. *)
Theorem ProperInterpolation_occlusion_min
    (mismatches occlusions : list (Z * Z)) (DL : list float32) (n : Z) :
  let DL1 :=
    MultiStepRefiner.ProperInterpolation width_ height_ img_left_
      min_disparity_ max_disparity_ ray_yy ray_xx mismatches [] DL in
  let p := rd occlusions n in
  let cands :=
    MultiStepRefiner.collect width_ height_ min_disparity_ max_disparity_
      ray_yy ray_xx DL1 (fst p) (snd p) in
  let v :=
    rd (MultiStepRefiner.ProperInterpolation width_ height_ img_left_
          min_disparity_ max_disparity_ ray_yy ray_xx mismatches occlusions DL)
       (snd p * width_ + fst p) in
  0 <= n < Z.of_nat (length occlusions) ->
  0 <= snd p * width_ + fst p < Z.of_nat (length DL) ->
  (forall n', n < n' < Z.of_nat (length occlusions) ->
     snd (rd occlusions n') * width_ + fst (rd occlusions n')
     <> snd p * width_ + fst p) ->
  cands <> [] ->
  (forall c, c ∈ cands -> F32.is_nan (snd c) = false) ->
  (v = Large_Float \/ exists c, c ∈ cands /\ v = snd c)
  /\ F32.leb v Large_Float = true
  /\ forall c, c ∈ cands -> F32.leb v (snd c) = true.
Proof.
  intros DL1 p cands v Hn Hidx Hlast Hne Hnan. subst v.
  assert (HDL1 : DL1 = pass 0 mismatches DL).
  { subst DL1. by rewrite ProperInterpolation_passes. }
  rewrite ProperInterpolation_passes.
  destruct (pass_cells 0 mismatches DL) as (Hl0 & _).
  destruct (pass_cells 1 occlusions (pass 0 mismatches DL)) as (_ & _ & Hcell).
  fold (idx p). unfold p. rewrite Hcell; [|done|by rewrite Hl0|done].
  unfold fill_of. fold p. rewrite <- HDL1.
  change (collect DL1 (fst p) (snd p)) with cands. clearbody cands.
  destruct cands as [|c0 cands0]; [done|]. cbn [MultiStepRefiner.is_empty].
  unfold MultiStepRefiner.choose. simpl Z.eqb. cbv iota.
  destruct (min_disp_fold (c0 :: cands0) Large_Float Large_Float_not_nan Hnan)
    as (_ & Hv & Hle & Hall).
  exact (conj Hv (conj Hle Hall)).
Qed.

(** The candidate closest in colour, among those closer than [m0]. *)
Lemma closest_fold (dist : Z * float32 -> Z) (cands : list (Z * float32)) :
  forall m0 d0,
  let r := fold_left (fun '(min_dist, d) dc =>
             if dist dc <? min_dist then (dist dc, snd dc) else (min_dist, d))
             cands (m0, d0) in
  fst r <= m0
  /\ (forall c, c ∈ cands -> fst r <= dist c)
  /\ (r = (m0, d0) \/ exists c, c ∈ cands /\ dist c = fst r /\ snd r = snd c).
Proof.
  induction cands as [|c cands IH]; intros m0 d0; cbn [fold_left].
  { split; [simpl; lia|]. split; [by intros c Hc%elem_of_nil|by left]. }
  destruct (Z.ltb_spec (dist c) m0) as [Hlt|Hge].
  - destruct (IH (dist c) (snd c)) as (Hle & Hall & Hr).
    split; [lia|]. split.
    + intros c' [->|Hc']%elem_of_cons; [done|by apply Hall].
    + right. destruct Hr as [->|(c' & Hc' & Hd & Hs)].
      * exists c. split; [by left|done].
      * exists c'. split; [by right|done].
  - destruct (IH m0 d0) as (Hle & Hall & Hr).
    split; [done|]. split.
    + intros c' [->|Hc']%elem_of_cons; [lia|by apply Hall].
    + destruct Hr as [->|(c' & Hc' & Hd & Hs)]; [by left|].
      right. exists c'. split; [by right|done].
Qed.

(** X5.  A mismatch that is not listed as an occlusion too, and for which
    the rays find a candidate whose colour is closer than 9999 to the
    pixel's (every candidate of an 8-bit image is), is filled with the
    disparity of a candidate whose colour is closest to the pixel's, in
    the sum of the absolute channel differences. *)
Theorem ProperInterpolation_mismatch_closest
    (mismatches occlusions : list (Z * Z)) (DL : list float32) (n : Z) :
  let p := rd mismatches n in
  let cands :=
    MultiStepRefiner.collect width_ height_ min_disparity_ max_disparity_
      ray_yy ray_xx DL (fst p) (snd p) in
  let color := color_at img_left_ (snd p * width_ * 3 + 3 * fst p) in
  let dist (dc : Z * float32) :=
    Z.abs (r_ color - r_ (color_at img_left_ (fst dc)))
    + Z.abs (g_ color - g_ (color_at img_left_ (fst dc)))
    + Z.abs (b_ color - b_ (color_at img_left_ (fst dc))) in
  0 <= n < Z.of_nat (length mismatches) ->
  0 <= snd p * width_ + fst p < Z.of_nat (length DL) ->
  (forall n', n < n' < Z.of_nat (length mismatches) ->
     snd (rd mismatches n') * width_ + fst (rd mismatches n')
     <> snd p * width_ + fst p) ->
  (forall q, q ∈ occlusions -> snd q * width_ + fst q <> snd p * width_ + fst p) ->
  (exists c, c ∈ cands /\ dist c < 9999) ->
  exists c,
    c ∈ cands
    /\ rd (MultiStepRefiner.ProperInterpolation width_ height_ img_left_
             min_disparity_ max_disparity_ ray_yy ray_xx mismatches occlusions
             DL) (snd p * width_ + fst p) = snd c
    /\ forall c', c' ∈ cands -> dist c <= dist c'.
Proof.
  intros p cands color dist Hn Hidx Hlast Hocc (c1 & Hc1 & Hd1).
  rewrite ProperInterpolation_passes.
  destruct (pass_cells 0 mismatches DL) as (_ & _ & Hcell).
  destruct (pass_cells 1 occlusions (pass 0 mismatches DL)) as (_ & Hframe & _).
  rewrite Hframe.
  2:{ intros m Hm. apply Hocc. unfold rd. rewrite decide_True by lia.
      apply list_elem_of_lookup_total_2. lia. }
  fold (idx p). unfold p. rewrite Hcell; [|done|done|done].
  unfold fill_of. fold p.
  change (collect DL (fst p) (snd p)) with cands. clearbody cands.
  destruct cands as [|c0 cands0]; [by apply elem_of_nil in Hc1|].
  cbn [MultiStepRefiner.is_empty].
  unfold MultiStepRefiner.choose. simpl Z.eqb. cbv iota zeta. fold color.
  destruct (closest_fold dist (c0 :: cands0) 9999 F32.zero) as (Hle & Hall & Hr).
  change (fold_left _ (c0 :: cands0) (9999, F32.zero))
    with (fold_left (fun '(min_dist, d) (dc : Z * float32) =>
            if dist dc <? min_dist then (dist dc, snd dc) else (min_dist, d))
            (c0 :: cands0) (9999, F32.zero)).
  destruct Hr as [Hr|(c & Hc & Hd & Hs)].
  - rewrite Hr in Hall. simpl in Hall. specialize (Hall c1 Hc1). lia.
  - exists c. split; [done|]. split; [done|].
    intros c' Hc'. rewrite Hd. by apply Hall.
Qed.

(** *** What is written is never the invalid value *)

Lemma ray_search_valid DL s x y ms dc :
  MultiStepRefiner.ray_search width_ height_ ray_yy ray_xx DL s x y ms = Some dc ->
  snd dc <> Invalid_Float.
Proof.
  induction ms as [|m ms IH]; [done|].
  cbn [MultiStepRefiner.ray_search]. cbv zeta.
  destruct (_ || _); [done|].
  destruct (F32.neqb _ Invalid_Float) eqn:E; [|exact IH].
  intros [= <-]. cbn [snd]. intros Heq.
  apply F32_eqb_Invalid in Heq. unfold F32.neqb, F32.eqb in *.
  rewrite Heq in E. discriminate.
Qed.

Lemma collect_valid DL x y c :
  c ∈ collect DL x y -> snd c <> Invalid_Float.
Proof.
  unfold collect, MultiStepRefiner.collect. cbv zeta. revert c.
  pose (P := fun (_ : Z) (acc : list (Z * float32)) =>
    forall c, c ∈ acc -> snd c <> Invalid_Float).
  apply (for_loop_ind P); [lia|by intros c Hc%elem_of_nil|].
  intros s acc _ Hacc. unfold P.
  destruct (MultiStepRefiner.ray_search _ _ _ _ _ _ _ _ _) as [dc|] eqn:E;
    [|exact Hacc].
  intros c [Hc|Hc%list_elem_of_singleton]%elem_of_app; [by apply Hacc|].
  subst c. by eapply ray_search_valid.
Qed.

Lemma fill_of_valid k DL p : fill_of k DL p <> Invalid_Float.
Proof.
  unfold fill_of. destruct (MultiStepRefiner.is_empty _); [done|].
  pose proof (collect_valid DL (fst p) (snd p)) as Hvalid.
  generalize dependent (collect DL (fst p) (snd p)). intros cands Hvalid.
  unfold MultiStepRefiner.choose. destruct (k =? 0).
  - cbv zeta.
    match goal with
    | |- snd (fold_left ?f _ _) <> _ =>
        enough (Hfold : forall (l : list (Z * float32)) acc,
                  (forall c, c ∈ l -> snd c <> Invalid_Float) ->
                  snd acc <> Invalid_Float ->
                  snd (fold_left f l acc) <> Invalid_Float)
          by (by apply Hfold)
    end.
    induction l as [|c l IH]; intros [m d] Hl Hacc; [done|].
    cbn [fold_left]. apply IH; [intros c' Hc'; apply Hl; by right|].
    destruct (_ <? m); [|done]. cbn [snd]. apply Hl. by left.
  - match goal with
    | |- fold_left ?f _ _ <> _ =>
        enough (Hfold : forall (l : list (Z * float32)) acc,
                  (forall c, c ∈ l -> snd c <> Invalid_Float) ->
                  acc <> Invalid_Float ->
                  fold_left f l acc <> Invalid_Float)
          by (by apply Hfold)
    end.
    induction l as [|c l IH]; intros acc Hl Hacc; [done|].
    cbn [fold_left]. apply IH; [intros c' Hc'; apply Hl; by right|].
    unfold F32.std_min. destruct (F32.ltb _ _); [|done]. apply Hl. by left.
Qed.

(** After a pass, the entries that were valid and the entries of the
    listed pixels are valid. *)
Lemma pass_valid k (trg : list (Z * Z)) DL j :
  rd DL j <> Invalid_Float
  \/ (0 <= j < Z.of_nat (length DL) /\ exists p, p ∈ trg /\ idx p = j) ->
  rd (pass k trg DL) j <> Invalid_Float.
Proof.
  intros Hj. unfold pass.
  destruct (MultiStepRefiner.is_empty trg) eqn:Eempty.
  { destruct Hj as [Hj|(_ & p & Hp & _)]; [done|].
    destruct trg; [by apply elem_of_nil in Hp|done]. }
  set (fill := MultiStepRefiner.fill_values _ _ _ _ _ _ _ _ _ _).
  pose (P := fun (i : Z) (DL' : list float32) =>
    length DL' = length DL
    /\ (rd DL j <> Invalid_Float
        \/ (0 <= j < Z.of_nat (length DL)
            /\ exists n, 0 <= n < i /\ idx (rd trg n) = j) ->
        rd DL' j <> Invalid_Float)).
  enough (Hinv : P (Z.of_nat (length trg))
      (for_loop 0 (Z.of_nat (length trg)) (fun (n0 : Z) disp_left_ =>
         let pix := rd trg n0 in
         let x := pix.1 in
         let y := pix.2 in
         wr disp_left_ (y * width_ + x) (rd fill n0)) DL)).
  { destruct Hinv as [_ Hinv]. apply Hinv.
    destruct Hj as [Hj|(Hb & p & Hp & Hidx)]; [by left|]. right.
    split; [done|]. apply list_elem_of_lookup_1 in Hp as [n Hn].
    pose proof (lookup_lt_Some _ _ _ Hn) as Hlt.
    exists (Z.of_nat n). split; [lia|].
    replace (rd trg (Z.of_nat n)) with p; [done|].
    unfold rd. rewrite decide_True by lia. rewrite Nat2Z.id.
    symmetry. by apply list_lookup_total_correct. }
  apply (for_loop_ind P); [lia| |].
  - split; [done|]. intros [H0|(_ & n & Hn & _)]; [done|lia].
  - intros i DL' Hi [Hl Hold]. unfold P. cbv zeta.
    fold (idx (rd trg i)). rewrite length_wr. split; [done|].
    intros Hcase.
    destruct (decide (idx (rd trg i) = j /\ 0 <= j < Z.of_nat (length DL)))
      as [[Hhit Hb]|Hmiss].
    + subst j. rewrite rd_wr_eq by (by rewrite Hl).
      unfold fill. rewrite fill_values_cells by done. apply fill_of_valid.
    + destruct (rd_wr_cases DL' (idx (rd trg i)) (rd fill i) j)
        as [->|[-> Hv]].
      * apply Hold. destruct Hcase as [H0|(Hb & n & Hn & Hidx)]; [by left|].
        right. split; [done|]. exists n. split; [|done].
        destruct (decide (n = i)) as [->|]; [|lia].
        exfalso. by apply Hmiss.
      * rewrite Hv. unfold fill. rewrite fill_values_cells by done.
        apply fill_of_valid.
Qed.

Lemma ProperInterpolation_valid mismatches occlusions DL j :
  rd DL j <> Invalid_Float
  \/ (0 <= j < Z.of_nat (length DL)
      /\ exists p, p ∈ mismatches ++ occlusions /\ snd p * width_ + fst p = j) ->
  rd (MultiStepRefiner.ProperInterpolation width_ height_ img_left_
        min_disparity_ max_disparity_ ray_yy ray_xx mismatches occlusions DL) j
  <> Invalid_Float.
Proof.
  intros Hj. rewrite ProperInterpolation_passes.
  destruct (pass_cells 0 mismatches DL) as (Hl0 & _).
  apply pass_valid.
  destruct Hj as [Hj|(Hb & p & [Hp|Hp]%elem_of_app & Hidx)].
  - left. apply pass_valid. by left.
  - left. apply pass_valid. right. split; [done|]. by exists p.
  - right. rewrite Hl0. split; [done|]. by exists p.
Qed.

Lemma length_ProperInterpolation mismatches occlusions DL :
  length (MultiStepRefiner.ProperInterpolation width_ height_ img_left_
            min_disparity_ max_disparity_ ray_yy ray_xx mismatches occlusions
            DL) = length DL.
Proof.
  rewrite ProperInterpolation_passes.
  destruct (pass_cells 1 occlusions (pass 0 mismatches DL)) as (Hl1 & _).
  destruct (pass_cells 0 mismatches DL) as (Hl0 & _). congruence.
Qed.

End InterpolationCells.

Lemma ProperInterpolation_occlusion_min_witness :
  F32.leb
    (rd (MultiStepRefiner.ProperInterpolation 3 1 Examples.left_3x1 0 4
           (fun s m y => y) (fun s m x => x + m) [] [(0, 0)]
           Examples.DL_3x1) 0)
    Large_Float = true.
Proof.
  refine (proj1 (proj2 (ProperInterpolation_occlusion_min 3 1 Examples.left_3x1
            0 4 (fun s m y => y) (fun s m x => x + m) [] [(0, 0)]
            Examples.DL_3x1 0 _ _ _ _ _))).
  - simpl. lia.
  - simpl. lia.
  - simpl. lia.
  - vm_compute. discriminate.
  - vm_compute. intros c Hc.
    repeat (apply elem_of_cons in Hc as [->|Hc]; [reflexivity|]).
    by apply elem_of_nil in Hc.
Defined.

Lemma ProperInterpolation_mismatch_closest_witness :
  exists c : Z * float32,
    rd (MultiStepRefiner.ProperInterpolation 3 1 Examples.left_3x1 0 4
          (fun s m y => y) (fun s m x => x + m) [(0, 0)] []
          Examples.DL_3x1) 0 = snd c.
Proof.
  destruct (ProperInterpolation_mismatch_closest 3 1 Examples.left_3x1 0 4
              (fun s m y => y) (fun s m x => x + m) [(0, 0)] []
              Examples.DL_3x1 0) as (c & _ & Hc & _).
  - simpl. lia.
  - simpl. lia.
  - simpl. lia.
  - by intros q Hq%elem_of_nil.
  - exists (3, F32.of_Z 1). split; [|reflexivity].
    vm_compute. left.
  - by exists c.
Defined.

(** ** Edges and the adjustment at depth discontinuities *)

(** A loop keeps what each of its iterations keeps. *)
Lemma for_loop_inv {S} (I : S -> Prop) lo hi (body : Z -> S -> S) s :
  I s ->
  (forall i s, lo <= i < hi -> I s -> I (body i s)) ->
  I (for_loop lo hi body s).
Proof.
  intros Hs Hstep. destruct (decide (lo <= hi)) as [Hle|Hgt].
  - apply (for_loop_ind (fun _ => I)); [done|done|].
    intros i t Hi Ht. by apply Hstep.
  - by rewrite for_loop_nil by lia.
Qed.

(** X6.  On a mask of [width * height] bytes, [EdgeDetect] first clears
    the mask, so its result does not depend on what the mask held; every
    byte of the result is 0 or 1, and the pixels of the first and last
    row and column are never marked. *)
Theorem EdgeDetect_mask
    (edge_mask : list Z) (disp_ptr : list float32) (width height : Z)
    (threshold : float32) :
  0 < width -> 0 < height ->
  Z.of_nat (length edge_mask) = width * height ->
  let mask :=
    MultiStepRefiner.EdgeDetect edge_mask disp_ptr width height threshold in
  mask
  = MultiStepRefiner.EdgeDetect (replicate (Z.to_nat (width * height)) 0)
      disp_ptr width height threshold
  /\ length mask = length edge_mask
  /\ forall x y, 0 <= x < width -> 0 <= y < height ->
       (rd mask (y * width + x) = 0 \/ rd mask (y * width + x) = 1)
       /\ (x = 0 \/ x = width - 1 \/ y = 0 \/ y = height - 1 ->
           rd mask (y * width + x) = 0).
Proof.
  intros Hw Hh Hlen mask. subst mask.
  assert (Hclear : forall m : list Z, Z.of_nat (length m) = width * height ->
            for_loop 0 (width * height) (fun i m => wr m i 0) m
            = replicate (Z.to_nat (width * height)) 0).
  { intros m Hm. exact (memset_zero_replicate m (width * height) Hm). }
  unfold MultiStepRefiner.EdgeDetect. cbv zeta.
  rewrite (Hclear edge_mask Hlen).
  rewrite (Hclear (replicate (Z.to_nat (width * height)) 0))
    by (rewrite length_replicate; lia).
  split; [done|].
  pose (I := fun m : list Z =>
    length m = length edge_mask
    /\ forall x y, 0 <= x < width -> 0 <= y < height ->
         (rd m (y * width + x) = 0 \/ rd m (y * width + x) = 1)
         /\ (x = 0 \/ x = width - 1 \/ y = 0 \/ y = height - 1 ->
             rd m (y * width + x) = 0)).
  enough (HI : I (for_loop 1 (height - 1) (fun y =>
             for_loop 1 (width - 1) (fun x edge_mask0 =>
               if F32.gtb _ threshold then wr edge_mask0 (y * width + x) 1
               else edge_mask0))
             (replicate (Z.to_nat (width * height)) 0))) by exact HI.
  apply for_loop_inv.
  - split; [rewrite length_replicate; lia|].
    intros x y Hx Hy. pose proof (pixel_index_bound width height x y Hx Hy).
    rewrite rd_replicate by lia. by split; [left|].
  - intros y m Hy Hm. apply for_loop_inv; [done|].
    intros x m' Hx [Hl Hcells].
    destruct (F32.gtb _ threshold); [|done].
    split; [by rewrite length_wr|].
    intros x' y' Hx' Hy'.
    pose proof (pixel_index_bound width height x y ltac:(lia) ltac:(lia)).
    rewrite rd_wr by lia. case_decide as Heq.
    + apply pixel_index_inj in Heq as [-> ->]; [|lia|lia].
      split; [by right|]. lia.
    + by apply Hcells.
Qed.

Lemma EdgeDetect_mask_witness :
  length (MultiStepRefiner.EdgeDetect [1; 1; 1; 1; 1; 1; 1; 1; 1]
            (F32.of_Z <$> [0; 0; 0; 0; 9; 0; 0; 0; 3]) 3 3 (F32.of_Z 5))
  = 9%nat.
Proof.
  refine (proj1 (proj2 (EdgeDetect_mask [1; 1; 1; 1; 1; 1; 1; 1; 1]
            (F32.of_Z <$> [0; 0; 0; 0; 9; 0; 0; 0; 3]) 3 3 (F32.of_Z 5)
            _ _ _))).
  - lia.
  - lia.
  - reflexivity.
Defined.

(** X7.  On a map of [width * height] entries,
    [DepthDiscontinuityAdjustment] only copies disparities: the map keeps
    its size, every entry of the result is the entry of some pixel of the
    map it received, and an entry is [Invalid_Float] afterwards if and
    only if it was before. *)
Theorem DepthDiscontinuityAdjustment_copies
    (width height : Z) (cost : list float32)
    (min_disparity max_disparity : Z)
    (vec_edge_left : list Z) (DL : list float32) :
  Z.of_nat (length DL) = width * height ->
  let DL' :=
    snd (MultiStepRefiner.DepthDiscontinuityAdjustment width height cost
           min_disparity max_disparity (vec_edge_left, DL)) in
  length DL' = length DL
  /\ forall i,
       (rd DL' i = Invalid_Float <-> rd DL i = Invalid_Float)
       /\ (0 <= i < Z.of_nat (length DL) ->
           exists j, 0 <= j < Z.of_nat (length DL) /\ rd DL' i = rd DL j).
Proof.
  intros Hsize DL'. subst DL'.
  pose (I := fun m : list float32 =>
    length m = length DL
    /\ forall i, (rd m i = Invalid_Float <-> rd DL i = Invalid_Float)
                 /\ (0 <= i < Z.of_nat (length DL) ->
                     exists j, 0 <= j < Z.of_nat (length DL)
                               /\ rd m i = rd DL j)).
  assert (HI0 : I DL).
  { split; [done|]. intros i. split; [done|]. intros Hi. by exists i. }
  unfold MultiStepRefiner.DepthDiscontinuityAdjustment. cbv zeta.
  destruct (max_disparity - min_disparity <=? 0); [exact HI0|].
  cbn [snd]. apply for_loop_inv; [exact HI0|].
  intros y m Hy Hm. apply for_loop_inv; [exact Hm|].
  intros x m1 Hx Hm1.
  destruct (rd _ (y * width + x) =? 1); [|done].
  destruct (F32.neqb (rd m1 (y * width + x)) Invalid_Float) eqn:Hd; [|done].
  assert (Hvalid : rd m1 (y * width + x) <> Invalid_Float).
  { intros Heq. apply F32_eqb_Invalid in Heq. unfold F32.neqb in Hd.
    unfold F32.eqb in Heq. by rewrite Heq in Hd. }
  pose (J := fun s : list float32 * float32 =>
    I (fst s) /\ rd (fst s) (y * width + x) <> Invalid_Float).
  enough (HJ : J (for_loop 0 2 (fun k '(disp_left_, c0) =>
      let x2 := if k =? 0 then x - 1 else x + 1 in
      let d2 := rd disp_left_ (y * width + x2) in
      let d2i := to_sint32 (F32.lround d2) in
      if F32.neqb d2 Invalid_Float then
        let c :=
          if k =? 0
          then rd cost (y * width * (max_disparity - min_disparity)
                        + x * (max_disparity - min_disparity)
                        + - (max_disparity - min_disparity) + d2i)
          else rd cost (y * width * (max_disparity - min_disparity)
                        + x * (max_disparity - min_disparity)
                        + (max_disparity - min_disparity) + d2i) in
        if F32.ltb c c0 then (wr disp_left_ (y * width + x) d2, c)
        else (disp_left_, c0)
      else (disp_left_, c0))
      (m1, rd cost (y * width * (max_disparity - min_disparity)
                    + x * (max_disparity - min_disparity)
                    + to_sint32 (F32.lround (rd m1 (y * width + x))))))) by apply HJ.
  apply for_loop_inv; [by split|].
  intros k [m2 c0] Hk [[Hl Hcells] Hv]. simpl in Hl, Hcells, Hv. cbv zeta.
  set (x2 := if k =? 0 then x - 1 else x + 1).
  assert (Hx2 : 0 <= x2 < width) by (subst x2; destruct (k =? 0); lia).
  pose proof (pixel_index_bound width height x2 y Hx2 Hy) as Hb.
  set (d2 := rd m2 (y * width + x2)).
  destruct (F32.neqb d2 Invalid_Float) eqn:Hd2; [|by split].
  destruct (F32.ltb _ c0); [|by split].
  assert (Hd2v : d2 <> Invalid_Float).
  { intros Heq. apply F32_eqb_Invalid in Heq. unfold F32.neqb in Hd2.
    unfold F32.eqb in Heq. by rewrite Heq in Hd2. }
  split; simpl.
  - split; [by rewrite length_wr|]. intros i.
    destruct (rd_wr_cases m2 (y * width + x) d2 i) as [->|[-> ->]];
      [apply Hcells|].
    split.
    + split; [done|]. intros Hi. by apply Hcells in Hi.
    + intros _. subst d2. apply Hcells. lia.
  - destruct (rd_wr_cases m2 (y * width + x) d2 (y * width + x))
      as [->|[_ ->]]; done.
Qed.

Lemma DepthDiscontinuityAdjustment_copies_witness :
  exists j, 0 <= j < 9
    /\ rd (snd (MultiStepRefiner.DepthDiscontinuityAdjustment 3 3
                  Examples.cost_3x3x2 0 2
                  ([0; 0; 0; 0; 0; 0; 0; 0; 0], Examples.DL_3x3))) 4
       = rd Examples.DL_3x3 j.
Proof.
  apply (proj2 (proj2 (DepthDiscontinuityAdjustment_copies 3 3
           Examples.cost_3x3x2 0 2 [0; 0; 0; 0; 0; 0; 0; 0; 0] Examples.DL_3x3
           ltac:(reflexivity)) 4)).
  simpl. lia.
Defined.

(** ** The scanline sweeps *)

(** The two sweep functions run the same computation along each of their
    paths. *)
Lemma ScanlineOptimizeLeftRight_paths
    width_ height_ img_left_ img_right_ min_disparity_ max_disparity_
    so_p1_ so_p2_ so_tso_ cost_so_src cost_so_dst (is_forward : bool) :
  0 < width_ -> 0 < height_ -> min_disparity_ < max_disparity_ ->
  ScanlineOptimizer.ScanlineOptimizeLeftRight width_ height_ img_left_
    img_right_ min_disparity_ max_disparity_ so_p1_ so_p2_ so_tso_
    cost_so_src cost_so_dst is_forward
  = Some (
    let disp_range := max_disparity_ - min_disparity_ in
    let direction := if is_forward then 1 else -1 in
    for_loop 0 height_ (fun y =>
      PathSpec.path_row width_ img_left_ img_right_ min_disparity_
        max_disparity_ so_p1_ so_p2_ so_tso_ cost_so_src
        (if is_forward then y * width_ * disp_range
         else y * width_ * disp_range + (width_ - 1) * disp_range)
        (if is_forward then y * width_ * 3
         else y * width_ * 3 + 3 * (width_ - 1))
        (if is_forward then 0 else width_ - 1)
        (direction * disp_range) (direction * 3) direction width_
        (fun pos => pos)
        (fun _ xr => y * width_ * 3 + 3 * xr)
        (fun _ xr => y * width_ * 3 + 3 * (xr - direction)))
      cost_so_dst).
Proof.
  intros Hw Hh Hd. unfold ScanlineOptimizer.ScanlineOptimizeLeftRight.
  cbv zeta.
  destruct (Z.ltb_spec 0 width_); [|lia].
  destruct (Z.ltb_spec 0 height_); [|lia].
  destruct (Z.ltb_spec min_disparity_ max_disparity_); [|lia].
  reflexivity.
Qed.

Lemma ScanlineOptimizeUpDown_paths
    width_ height_ img_left_ img_right_ min_disparity_ max_disparity_
    so_p1_ so_p2_ so_tso_ cost_so_src cost_so_dst (is_forward : bool) :
  0 < width_ -> 0 < height_ -> min_disparity_ < max_disparity_ ->
  ScanlineOptimizer.ScanlineOptimizeUpDown width_ height_ img_left_
    img_right_ min_disparity_ max_disparity_ so_p1_ so_p2_ so_tso_
    cost_so_src cost_so_dst is_forward
  = Some (
    let disp_range := max_disparity_ - min_disparity_ in
    let direction := if is_forward then 1 else -1 in
    for_loop 0 width_ (fun x =>
      PathSpec.path_row width_ img_left_ img_right_ min_disparity_
        max_disparity_ so_p1_ so_p2_ so_tso_ cost_so_src
        (if is_forward then x * disp_range
         else (height_ - 1) * width_ * disp_range + x * disp_range)
        (if is_forward then 3 * x else (height_ - 1) * width_ * 3 + 3 * x)
        (if is_forward then 0 else height_ - 1)
        (direction * width_ * disp_range) (direction * width_ * 3)
        direction height_
        (fun _ => x)
        (fun y xr => y * width_ * 3 + 3 * xr)
        (fun y xr => (y - direction) * width_ * 3 + 3 * xr))
      cost_so_dst).
Proof.
  intros Hw Hh Hd. unfold ScanlineOptimizer.ScanlineOptimizeUpDown.
  cbv zeta.
  destruct (Z.ltb_spec 0 width_); [|lia].
  destruct (Z.ltb_spec 0 height_); [|lia].
  destruct (Z.ltb_spec min_disparity_ max_disparity_); [|lia].
  reflexivity.
Qed.

(** When the assertion fails, the sweeps end the program. *)
Lemma ScanlineOptimizeLeftRight_asserts
    width_ height_ img_left_ img_right_ min_disparity_ max_disparity_
    so_p1_ so_p2_ so_tso_ cost_so_src cost_so_dst (is_forward : bool) :
  ScanlineOptimizer.ScanlineOptimizeLeftRight width_ height_ img_left_
    img_right_ min_disparity_ max_disparity_ so_p1_ so_p2_ so_tso_
    cost_so_src cost_so_dst is_forward = None
  <-> ~ (0 < width_ /\ 0 < height_ /\ min_disparity_ < max_disparity_).
Proof.
  unfold ScanlineOptimizer.ScanlineOptimizeLeftRight. cbv zeta.
  destruct (Z.ltb_spec 0 width_), (Z.ltb_spec 0 height_),
    (Z.ltb_spec min_disparity_ max_disparity_); cbn [andb negb];
    split; (done || lia || (intros Hn; exfalso; apply Hn; lia)).
Qed.

Lemma memcpy_cells {A} `{Inhabited A} (dst : list A) doff (src : list A) soff n :
  0 <= doff -> doff + n <= Z.of_nat (length dst) ->
  length (memcpy dst doff src soff n) = length dst
  /\ (forall d, 0 <= d < n -> rd (memcpy dst doff src soff n) (doff + d) = rd src (soff + d))
  /\ (forall i, ~ (doff <= i < doff + n) -> rd (memcpy dst doff src soff n) i = rd dst i).
Proof.
  intros Hoff Hlen. unfold memcpy.
  pose (P := fun (k : Z) (v : list A) =>
    length v = length dst
    /\ (forall d, 0 <= d < k -> rd v (doff + d) = rd src (soff + d))
    /\ (forall i, ~ (doff <= i < doff + k) -> rd v i = rd dst i)).
  destruct (decide (0 <= n)) as [Hn|Hn].
  - enough (HP : P n (for_loop 0 n (fun i dst0 =>
               wr dst0 (doff + i) (rd src (soff + i))) dst)) by exact HP.
    apply (for_loop_ind P); [done| |].
    + split; [done|]. split; [intros; lia|done].
    + intros k v Hk (Hl & Hd & Hf). unfold P. rewrite length_wr.
      split; [done|]. split.
      * intros d Hd'. rewrite rd_wr_any by lia. case_decide; [f_equal; lia|].
        apply Hd. lia.
      * intros i Hi. rewrite rd_wr_ne by lia. apply Hf. lia.
  - rewrite for_loop_nil by lia. split; [done|]. split; [intros; lia|done].
Qed.

Lemma rd_cells n v off d :
  0 <= d < n -> rd (PathSpec.cells n v off) d = rd v (off + d).
Proof.
  intros Hd. unfold PathSpec.cells, rd at 1. rewrite decide_True by lia.
  apply list_lookup_total_correct. rewrite list_lookup_fmap.
  rewrite (lookup_seqZ_lt 0 n (Z.to_nat d)) by lia.
  rewrite Z2Nat.id by lia. reflexivity.
Qed.

Lemma length_cells n v off :
  0 <= n -> Z.of_nat (length (PathSpec.cells n v off)) = n.
Proof. intros. unfold PathSpec.cells. rewrite length_fmap, length_seqZ. lia. Qed.

Lemma cells_ext n v v' off off' :
  (forall d, 0 <= d < n -> rd v (off + d) = rd v' (off' + d)) ->
  PathSpec.cells n v off = PathSpec.cells n v' off'.
Proof.
  intros Hd. unfold PathSpec.cells. apply list_fmap_ext.
  intros i d Hi%lookup_seqZ. apply Hd. lia.
Qed.

Lemma rd_cons_0 {A} `{Inhabited A} (a : A) l : rd (a :: l) 0 = a.
Proof. reflexivity. Qed.

Lemma rd_cons_succ {A} `{Inhabited A} (a : A) l i :
  0 <= i -> rd (a :: l) (i + 1) = rd l i.
Proof.
  intros Hi. unfold rd. rewrite !decide_True by lia.
  replace (Z.to_nat (i + 1)) with (S (Z.to_nat i)) by lia. done.
Qed.

Lemma rd_app_l {A} `{Inhabited A} (l l' : list A) i :
  0 <= i < Z.of_nat (length l) -> rd (l ++ l') i = rd l i.
Proof.
  intros Hi. unfold rd. rewrite !decide_True by lia.
  apply lookup_total_app_l. lia.
Qed.

Lemma rd_app_r {A} `{Inhabited A} (l l' : list A) i :
  Z.of_nat (length l) <= i -> rd (l ++ l') i = rd l' (i - Z.of_nat (length l)).
Proof.
  intros Hi. unfold rd. rewrite !decide_True by lia.
  rewrite lookup_total_app_r by lia. f_equal. lia.
Qed.

(** [memcpy(&cost_last_path[1], cost_aggr_row, ...)] on a padded array. *)
Lemma memcpy_padded n (clp v : list float32) off :
  0 <= n -> Z.of_nat (length clp) = n + 2 ->
  rd clp 0 = Large_Float -> rd clp (n + 1) = Large_Float ->
  memcpy clp 1 v off n = PathSpec.padded n v off.
Proof.
  intros Hn Hlen H0 Hlast.
  destruct (memcpy_cells clp 1 v off n ltac:(lia) ltac:(lia)) as (Hl & Hd & Hf).
  pose proof (length_cells n v off Hn) as Hlc.
  apply list_eq_rd.
  - rewrite Hl. unfold PathSpec.padded. simpl. rewrite length_app. simpl. lia.
  - intros i Hi. rewrite Hl in Hi. unfold PathSpec.padded.
    destruct (decide (i = 0)) as [->|Hi0].
    { rewrite Hf by lia. by rewrite rd_cons_0. }
    replace i with ((i - 1) + 1) at 2 by lia. rewrite rd_cons_succ by lia.
    destruct (decide (i = n + 1)) as [->|Hin].
    + rewrite Hf by lia. rewrite rd_app_r by lia.
      rewrite Hlast. replace (n + 1 - 1 - Z.of_nat _) with 0 by lia. done.
    + rewrite rd_app_l by lia. rewrite rd_cells by lia.
      replace i with (1 + (i - 1)) at 1 by lia. by rewrite Hd by lia.
Qed.

Lemma padded_ends n v off :
  0 <= n ->
  Z.of_nat (length (PathSpec.padded n v off)) = n + 2
  /\ rd (PathSpec.padded n v off) 0 = Large_Float
  /\ rd (PathSpec.padded n v off) (n + 1) = Large_Float.
Proof.
  intros Hn. pose proof (length_cells n v off Hn) as Hlc.
  unfold PathSpec.padded. split; [|split].
  - simpl. rewrite length_app. simpl. lia.
  - reflexivity.
  - rewrite rd_cons_succ by lia. rewrite rd_app_r by lia.
    by replace (n - Z.of_nat _) with 0 by lia.
Qed.

(** A minimum that starts at [Large_Float] is [Large_Float] or below
    it. *)
Lemma min_fold_below (l : list float32) : forall m,
  (m = Large_Float \/ F32.ltb m Large_Float = true) ->
  let r := fold_left F32.std_min l m in
  r = Large_Float \/ F32.ltb r Large_Float = true.
Proof.
  induction l as [|c l IH]; intros m Hm; cbn [fold_left]; [done|].
  apply IH. unfold F32.std_min. destruct (F32.ltb c m) eqn:E; [|done].
  right. destruct Hm as [->|Hm]; [done|].
  destruct (F32_ltb_not_nan _ _ E) as [Hc Hmn].
  by apply (F32_ltb_trans c m Large_Float Hc Hmn Large_Float_not_nan).
Qed.

(** The minimum of the padded costs is the minimum of the costs. *)
Lemma min_of_path_padded n v off :
  ScanlineOptimizer.min_of_path (PathSpec.padded n v off)
  = PathSpec.min_cells n v off.
Proof.
  unfold ScanlineOptimizer.min_of_path, PathSpec.padded, PathSpec.min_cells.
  cbn [fold_left]. rewrite fold_left_app. cbn [fold_left].
  change (F32.std_min Large_Float Large_Float) with Large_Float.
  destruct (min_fold_below (PathSpec.cells n v off) Large_Float ltac:(by left))
    as [->|Hlt]; [done|].
  unfold F32.std_min at 1.
  by rewrite (F32_leb_ltb_false _ _ (F32_ltb_leb _ _ Hlt)).
Qed.

Lemma running_d2_step width min_disparity (right_dist : Z -> Z) x d1 i :
  0 <= i ->
  (if (0 <? x - i - min_disparity) && (x - i - min_disparity <? width - 1)
   then right_dist (x - i - min_disparity)
   else if i =? 0 then d1
        else PathSpec.running_d2 width min_disparity right_dist x d1 (i - 1))
  = PathSpec.running_d2 width min_disparity right_dist x d1 i.
Proof.
  intros Hi. unfold PathSpec.running_d2. cbv zeta.
  repeat match goal with
  | |- context [?a <? ?b] => destruct (Z.ltb_spec a b)
  | |- context [?a <=? ?b] => destruct (Z.leb_spec a b)
  | |- context [?a =? ?b] => destruct (Z.eqb_spec a b)
  end; simpl; try reflexivity; try lia; f_equal; lia.
Qed.

Section DisparityLoop.

Variables (width_ : Z) (img_right_ : list Z).
Variables (min_disparity_ max_disparity_ : Z).
Variables (so_p1_ so_p2_ : float32) (so_tso_ : Z).
Variables (cost_so_src : list float32) (right_pixel right_last : Z -> Z).
Variables (x src dst d1 : Z) (cost_last_path : list float32).
Variables (mincost_last_path : float32) (cost_so_dst : list float32).

Let n := max_disparity_ - min_disparity_.

Let right_dist (xr : Z) : Z :=
  ScanlineOptimizer.to_uint8
    (ColorDist (color_at img_right_ (right_pixel xr))
               (color_at img_right_ (right_last xr))).

Let value (d : Z) : float32 :=
  let d2 := PathSpec.running_d2 width_ min_disparity_ right_dist x d1 d in
  let '(P1, P2) := ScanlineOptimizer.penalties so_p1_ so_p2_ so_tso_ d1 d2 in
  ScanlineOptimizer.path_cost (rd cost_so_src (src + d)) cost_last_path
    mincost_last_path d P1 P2.

(** The loop over the disparities of one pixel writes the [n] costs of
    the pixel and returns their minimum. *)
Lemma disparity_loop_cells :
  0 <= n -> 0 <= dst -> dst + n <= Z.of_nat (length cost_so_dst) ->
  let r :=
    ScanlineOptimizer.disparity_loop width_ img_right_ min_disparity_
      max_disparity_ so_p1_ so_p2_ so_tso_ cost_so_src right_pixel right_last
      x src dst d1 cost_last_path mincost_last_path cost_so_dst in
  length (snd (fst r)) = length cost_so_dst
  /\ (forall i, ~ (dst <= i < dst + n) -> rd (snd (fst r)) i = rd cost_so_dst i)
  /\ (forall d, 0 <= d < n -> rd (snd (fst r)) (dst + d) = value d)
  /\ snd r = fold_left F32.std_min (value <$> seqZ 0 n) Large_Float.
Proof.
  intros Hn Hdst Hlen r. subst r. unfold ScanlineOptimizer.disparity_loop.
  cbv zeta. fold n.
  pose (P := fun (i : Z) (s : Z * list float32 * float32) =>
    fst (fst s) = (if i =? 0 then d1
                   else PathSpec.running_d2 width_ min_disparity_ right_dist
                          x d1 (i - 1))
    /\ length (snd (fst s)) = length cost_so_dst
    /\ (forall j, ~ (dst <= j < dst + i) -> rd (snd (fst s)) j = rd cost_so_dst j)
    /\ (forall d, 0 <= d < i -> rd (snd (fst s)) (dst + d) = value d)
    /\ snd s = fold_left F32.std_min (value <$> seqZ 0 i) Large_Float).
  enough (HP : P n (for_loop 0 n (fun d '(d2, cost_so_dst0, min_cost) =>
      let d3 :=
        if (0 <? x - d - min_disparity_) && (x - d - min_disparity_ <? width_ - 1)
        then right_dist (x - d - min_disparity_) else d2 in
      let '(P1, P2) := ScanlineOptimizer.penalties so_p1_ so_p2_ so_tso_ d1 d3 in
      let cost_s :=
        ScanlineOptimizer.path_cost (rd cost_so_src (src + d)) cost_last_path
          mincost_last_path d P1 P2 in
      (d3, wr cost_so_dst0 (dst + d) cost_s, F32.std_min min_cost cost_s))
      (d1, cost_so_dst, Large_Float))).
  { destruct HP as (_ & Hl & Hf & Hc & Hm). done. }
  apply (for_loop_ind P); [done| |].
  - unfold P. simpl. split; [done|]. split; [done|]. split; [done|].
    split; [intros; lia|done].
  - intros i [[d2 v] m] Hi (Hd2 & Hl & Hf & Hc & Hm). simpl in Hd2, Hl, Hf, Hc, Hm.
    cbv zeta. subst d2.
    rewrite (running_d2_step width_ min_disparity_ right_dist x d1 i) by lia.
    assert (Hval : (let '(P1, P2) :=
               ScanlineOptimizer.penalties so_p1_ so_p2_ so_tso_ d1
                 (PathSpec.running_d2 width_ min_disparity_ right_dist x d1 i) in
             ScanlineOptimizer.path_cost (rd cost_so_src (src + i))
               cost_last_path mincost_last_path i P1 P2) = value i) by done.
    destruct (ScanlineOptimizer.penalties so_p1_ so_p2_ so_tso_ d1 _)
      as [P1 P2] eqn:Epen.
    unfold P. cbn [fst snd]. rewrite length_wr.
    split.
    { destruct (Z.eqb_spec (i + 1) 0); [lia|]. f_equal. lia. }
    split; [done|]. split; [|split].
    + intros j Hj. rewrite rd_wr_ne by lia. apply Hf. lia.
    + intros d Hd. rewrite rd_wr_any by lia. case_decide as Hdi.
      * replace d with i by lia. exact Hval.
      * apply Hc. lia.
    + rewrite (seqZ_app 0 i 1) by lia. rewrite fmap_app, fold_left_app.
      rewrite <- Hm. simpl. by rewrite Z.add_0_l, Hval.
Qed.

End DisparityLoop.

Section PathRow.

Variables (width_ : Z) (img_left_ img_right_ : list Z).
Variables (min_disparity_ max_disparity_ : Z).
Variables (so_p1_ so_p2_ : float32) (so_tso_ : Z).
Variables (cost_so_src : list float32).
Variables (c0 i0 pos0 cstep istep dir len : Z) (x_of : Z -> Z).
Variables (right_pixel right_last : Z -> Z -> Z).

Let n := max_disparity_ - min_disparity_.

(** The offsets and the coordinate of the pixel number [j] of the
    path. *)
Let cj (j : Z) : Z := c0 + j * cstep.
Let ij (j : Z) : Z := i0 + j * istep.
Let pj (j : Z) : Z := pos0 + j * dir.

Let right_dist (pos xr : Z) : Z :=
  ScanlineOptimizer.to_uint8
    (ColorDist (color_at img_right_ (right_pixel pos xr))
               (color_at img_right_ (right_last pos xr))).

Let d1_of (j : Z) : Z :=
  ScanlineOptimizer.to_uint8
    (ColorDist (color_at img_left_ (ij j)) (color_at img_left_ (ij (j - 1)))).

(** The cost of the recurrence at the pixel number [j], from the costs
    of the pixel number [j - 1] in the volume [v]. *)
Let value (v : list float32) (j d : Z) : float32 :=
  PathSpec.step_cost min_disparity_ max_disparity_ so_p1_ so_p2_ so_tso_
    v (cj (j - 1)) (rd cost_so_src (cj j + d)) (d1_of j)
    (PathSpec.running_d2 width_ min_disparity_ (right_dist (pj j))
       (x_of (pj j)) (d1_of j) d) d.

Lemma value_ext v v' j d :
  (forall e, 0 <= e < n -> rd v (cj (j - 1) + e) = rd v' (cj (j - 1) + e)) ->
  value v j d = value v' j d.
Proof.
  intros He. unfold value, PathSpec.step_cost, PathSpec.padded,
    PathSpec.min_cells. cbv zeta. fold n.
  by rewrite (cells_ext n v v' (cj (j - 1)) (cj (j - 1)) He).
Qed.

Lemma path_row_cells (cost_so_dst : list float32) :
  0 < n -> 0 < len -> (n <= cstep \/ cstep <= - n) ->
  (forall j, 0 <= j < len ->
     0 <= cj j /\ cj j + n <= Z.of_nat (length cost_so_dst)) ->
  let v :=
    PathSpec.path_row width_ img_left_ img_right_ min_disparity_
      max_disparity_ so_p1_ so_p2_ so_tso_ cost_so_src c0 i0 pos0 cstep istep
      dir len x_of right_pixel right_last cost_so_dst in
  length v = length cost_so_dst
  /\ (forall i, (forall j, 0 <= j < len -> ~ (cj j <= i < cj j + n)) ->
        rd v i = rd cost_so_dst i)
  /\ (forall d, 0 <= d < n -> rd v (c0 + d) = rd cost_so_src (c0 + d))
  /\ (forall j d, 1 <= j < len -> 0 <= d < n -> rd v (cj j + d) = value v j d).
Proof.
  intros Hn Hlen Hstep Hin v. subst v.
  assert (Hdisj : forall j j' d, j <> j' -> 0 <= d < n ->
            ~ (cj j' <= cj j + d < cj j' + n)).
  { intros j j' d Hne Hd. unfold cj. destruct Hstep; nia. }
  unfold PathSpec.path_row. cbv zeta. fold n.
  destruct (memcpy_cells cost_so_dst c0 cost_so_src c0 n) as (Hl1 & Hseed1 & Hf1).
  { specialize (Hin 0). unfold cj in Hin. lia. }
  { specialize (Hin 0). unfold cj in Hin. lia. }
  set (dst1 := memcpy cost_so_dst c0 cost_so_src c0 n) in *.
  rewrite (memcpy_padded n _ dst1 c0); cycle 1.
  { lia. }
  { rewrite length_replicate. lia. }
  { apply rd_replicate. lia. }
  { apply rd_replicate. lia. }
  rewrite min_of_path_padded.
  pose (Q := fun (k : Z) (st : ScanlineOptimizer.path_state) =>
    ScanlineOptimizer.ps_cost_init st = cj (k + 1)
    /\ ScanlineOptimizer.ps_cost_aggr st = cj (k + 1)
    /\ ScanlineOptimizer.ps_img st = ij (k + 1)
    /\ ScanlineOptimizer.ps_pos st = pj (k + 1)
    /\ ScanlineOptimizer.ps_color_last st = color_at img_left_ (ij k)
    /\ ScanlineOptimizer.ps_cost_last_path st
       = PathSpec.padded n (ScanlineOptimizer.ps_dst st) (cj k)
    /\ ScanlineOptimizer.ps_mincost_last_path st
       = PathSpec.min_cells n (ScanlineOptimizer.ps_dst st) (cj k)
    /\ length (ScanlineOptimizer.ps_dst st) = length cost_so_dst
    /\ (forall i, (forall j, 0 <= j <= k -> ~ (cj j <= i < cj j + n)) ->
          rd (ScanlineOptimizer.ps_dst st) i = rd cost_so_dst i)
    /\ (forall d, 0 <= d < n ->
          rd (ScanlineOptimizer.ps_dst st) (c0 + d) = rd cost_so_src (c0 + d))
    /\ (forall j d, 1 <= j <= k -> 0 <= d < n ->
          rd (ScanlineOptimizer.ps_dst st) (cj j + d)
          = value (ScanlineOptimizer.ps_dst st) j d)).
  match goal with
  | |- context [for_loop 0 (len - 1) ?body ?init] =>
      assert (HQ : Q (len - 1) (for_loop 0 (len - 1) body init))
  end.
  { apply (for_loop_ind Q); [lia| |].
    - unfold Q. cbn [ScanlineOptimizer.ps_cost_init ScanlineOptimizer.ps_cost_aggr
        ScanlineOptimizer.ps_img ScanlineOptimizer.ps_pos
        ScanlineOptimizer.ps_color_last ScanlineOptimizer.ps_cost_last_path
        ScanlineOptimizer.ps_mincost_last_path ScanlineOptimizer.ps_dst].
      unfold cj, ij, pj.
      split; [lia|]. split; [lia|]. split; [lia|]. split; [lia|].
      split; [f_equal; lia|].
      split; [f_equal; lia|]. split; [f_equal; lia|]. split; [done|].
      split; [|split; [done|intros; lia]].
      intros i Hi. apply Hf1. specialize (Hi 0 ltac:(lia)). lia.
    - intros k [dstk ci ca im ps cl clp mc] Hk HQk. unfold Q in HQk.
      cbn [ScanlineOptimizer.ps_cost_init ScanlineOptimizer.ps_cost_aggr
        ScanlineOptimizer.ps_img ScanlineOptimizer.ps_pos
        ScanlineOptimizer.ps_color_last ScanlineOptimizer.ps_cost_last_path
        ScanlineOptimizer.ps_mincost_last_path ScanlineOptimizer.ps_dst] in HQk.
      destruct HQk as (-> & -> & -> & -> & -> & -> & -> & Hl & Hf & Hseed & Hrec).
      cbn [ScanlineOptimizer.ps_cost_init ScanlineOptimizer.ps_cost_aggr
        ScanlineOptimizer.ps_img ScanlineOptimizer.ps_pos
        ScanlineOptimizer.ps_color_last ScanlineOptimizer.ps_cost_last_path
        ScanlineOptimizer.ps_mincost_last_path ScanlineOptimizer.ps_dst].
      cbv zeta.
      destruct (Hin (k + 1) ltac:(lia)) as [Hc0 Hc1].
      pose proof (disparity_loop_cells width_ img_right_ min_disparity_
        max_disparity_ so_p1_ so_p2_ so_tso_ cost_so_src
        (right_pixel (pj (k + 1))) (right_last (pj (k + 1)))
        (x_of (pj (k + 1))) (cj (k + 1)) (cj (k + 1))
        (ScanlineOptimizer.to_uint8
           (ColorDist (color_at img_left_ (ij (k + 1)))
                      (color_at img_left_ (ij k))))
        (PathSpec.padded n dstk (cj k)) (PathSpec.min_cells n dstk (cj k))
        dstk ltac:(fold n; lia) Hc0 ltac:(fold n; rewrite Hl; exact Hc1)) as Hloop.
      cbv zeta in Hloop. fold n in Hloop.
      destruct (ScanlineOptimizer.disparity_loop _ _ _ _ _ _ _ _ _ _ _ _ _ _ _ _ _)
        as [[d2 dst2] mc2].
      cbn [fst snd] in Hloop. destruct Hloop as (Hl2 & Hf2 & Hc2 & Hm2).
      assert (Hval : forall d, 0 <= d < n ->
                rd dst2 (cj (k + 1) + d) = value dst2 (k + 1) d).
      { intros d Hd. rewrite (Hc2 d Hd).
        rewrite (value_ext dst2 dstk (k + 1) d).
        - unfold value, PathSpec.step_cost, d1_of. cbv zeta. fold n.
          by replace (k + 1 - 1) with k by lia.
        - intros e He. apply Hf2. replace (k + 1 - 1) with k by lia.
          apply Hdisj; [lia|done]. }
      unfold Q.
      cbn [ScanlineOptimizer.ps_cost_init ScanlineOptimizer.ps_cost_aggr
        ScanlineOptimizer.ps_img ScanlineOptimizer.ps_pos
        ScanlineOptimizer.ps_color_last ScanlineOptimizer.ps_cost_last_path
        ScanlineOptimizer.ps_mincost_last_path ScanlineOptimizer.ps_dst].
      split; [unfold cj; lia|]. split; [unfold cj; lia|].
      split; [unfold ij; lia|]. split; [unfold pj; lia|].
      split; [done|]. split; [|split; [|split; [congruence|split; [|split]]]].
      + destruct (padded_ends n dstk (cj k) ltac:(lia)) as (Hpl & Hp0 & Hpn).
        by apply memcpy_padded; [lia|..].
      + rewrite Hm2. unfold PathSpec.min_cells. f_equal.
        unfold PathSpec.cells. apply list_fmap_ext.
        intros i d Hi%lookup_seqZ. symmetry. rewrite (Hc2 d ltac:(lia)).
        reflexivity.
      + intros i Hi. rewrite Hf2 by (apply (Hi (k + 1)); lia).
        apply Hf. intros j Hj. apply Hi. lia.
      + intros d Hd. rewrite <- (Hseed d Hd). apply Hf2.
        replace c0 with (cj 0) by (unfold cj; lia). apply Hdisj; [lia|done].
      + intros j d Hj Hd. destruct (decide (j = k + 1)) as [->|Hne].
        * by apply Hval.
        * rewrite (value_ext dst2 dstk j d).
          -- rewrite <- (Hrec j d ltac:(lia) Hd). apply Hf2.
             apply Hdisj; [lia|done].
          -- intros e He. apply Hf2. apply Hdisj; [lia|done]. }
  destruct HQ as (_ & _ & _ & _ & _ & _ & _ & Hl & Hf & Hseed & Hrec).
  split; [done|]. split; [|split; [done|]].
  - intros i Hi. apply Hf. intros j Hj. apply Hi. lia.
  - intros j d Hj Hd. apply Hrec; [lia|done].
Qed.

(** The costs that a path stores do not depend on what the destination
    held. *)
Lemma path_row_agree (v1 v2 : list float32) :
  0 < n -> 0 < len -> (n <= cstep \/ cstep <= - n) ->
  length v1 = length v2 ->
  (forall j, 0 <= j < len -> 0 <= cj j /\ cj j + n <= Z.of_nat (length v1)) ->
  forall j d, 0 <= j < len -> 0 <= d < n ->
    rd (PathSpec.path_row width_ img_left_ img_right_ min_disparity_
          max_disparity_ so_p1_ so_p2_ so_tso_ cost_so_src c0 i0 pos0 cstep
          istep dir len x_of right_pixel right_last v1) (cj j + d)
    = rd (PathSpec.path_row width_ img_left_ img_right_ min_disparity_
            max_disparity_ so_p1_ so_p2_ so_tso_ cost_so_src c0 i0 pos0 cstep
            istep dir len x_of right_pixel right_last v2) (cj j + d).
Proof.
  intros Hn Hlen Hstep Hl Hin.
  destruct (path_row_cells v1 Hn Hlen Hstep Hin) as (_ & _ & Hseed1 & Hrec1).
  destruct (path_row_cells v2 Hn Hlen Hstep) as (_ & _ & Hseed2 & Hrec2).
  { intros j Hj. rewrite <- Hl. by apply Hin. }
  set (r1 := PathSpec.path_row _ _ _ _ _ _ _ _ _ _ _ _ _ _ _ _ _ _ _ v1) in *.
  set (r2 := PathSpec.path_row _ _ _ _ _ _ _ _ _ _ _ _ _ _ _ _ _ _ _ v2) in *.
  assert (Hall : forall k : nat, forall d, Z.of_nat k < len -> 0 <= d < n ->
            rd r1 (cj (Z.of_nat k) + d) = rd r2 (cj (Z.of_nat k) + d)).
  { induction k as [|k IH]; intros d Hk Hd.
    - replace (cj (Z.of_nat 0)) with c0 by (unfold cj; lia).
      by rewrite Hseed1, Hseed2.
    - rewrite Hrec1, Hrec2 by lia. apply value_ext.
      intros e He. replace (Z.of_nat (S k) - 1) with (Z.of_nat k) by lia.
      apply IH; lia. }
  intros j d Hj Hd. replace j with (Z.of_nat (Z.to_nat j)) by lia.
  apply Hall; lia.
Qed.

End PathRow.

Lemma step_cost_ext min_disparity max_disparity p1 p2 tso v v' last c d1 d2 d :
  (forall e, 0 <= e < max_disparity - min_disparity ->
     rd v (last + e) = rd v' (last + e)) ->
  PathSpec.step_cost min_disparity max_disparity p1 p2 tso v last c d1 d2 d
  = PathSpec.step_cost min_disparity max_disparity p1 p2 tso v' last c d1 d2 d.
Proof.
  intros He. unfold PathSpec.step_cost, PathSpec.padded, PathSpec.min_cells.
  cbv zeta. by rewrite (cells_ext _ v v' last last He).
Qed.

(** The costs of two pixels do not overlap in a volume. *)
Lemma cell_bounds w h n x y :
  0 < n -> 0 <= x < w -> 0 <= y < h ->
  0 <= y * w * n + x * n /\ y * w * n + x * n + n <= w * h * n.
Proof.
  intros Hn Hx Hy. pose proof (pixel_index_bound w h x y Hx Hy) as Hb.
  replace (y * w * n + x * n) with ((y * w + x) * n) by lia. nia.
Qed.

Lemma cell_disjoint w n x y x' y' e :
  0 < n -> 0 <= x < w -> 0 <= x' < w -> 0 <= e < n ->
  (x, y) <> (x', y') ->
  ~ (y * w * n + x * n <= y' * w * n + x' * n + e < y * w * n + x * n + n).
Proof.
  intros Hn Hx Hx' He Hne Hin.
  assert (Ha : y * w + x = y' * w + x').
  { replace (y * w * n + x * n) with ((y * w + x) * n) in Hin by lia.
    replace (y' * w * n + x' * n) with ((y' * w + x') * n) in Hin by lia.
    nia. }
  apply pixel_index_inj in Ha as [-> ->]; [done|lia|lia].
Qed.

(** X8.  The horizontal sweep, on volumes of
    [width * height * disp_range] costs.  The first pixel of every row
    ([x = 0] forwards, [x = width - 1] backwards) receives its source
    costs.  Every other pixel receives, for each disparity, the cost of
    the recurrence on its source cost and on the costs that the sweep
    itself stored for the last pixel [(x - dir, y)], with the penalties
    chosen by the distance [d1] to the last pixel in the left image and by
    the value [d2] that the loop over the disparities holds at that
    disparity.  What the destination held before does not matter. *)
Theorem ScanlineOptimizeLeftRight_recurrence
    (width height : Z) (img_left img_right : list Z)
    (min_disparity max_disparity : Z) (so_p1 so_p2 : float32) (so_tso : Z)
    (cost_so_src cost_so_dst : list float32) (is_forward : bool) :
  0 < width -> 0 < height -> 0 < max_disparity - min_disparity ->
  Z.of_nat (length cost_so_dst)
  = width * height * (max_disparity - min_disparity) ->
  let n := max_disparity - min_disparity in
  let dir := if is_forward then 1 else -1 in
  let x0 := if is_forward then 0 else width - 1 in
  let cell (x y : Z) := y * width * n + x * n in
  exists v,
    ScanlineOptimizer.ScanlineOptimizeLeftRight width height img_left
      img_right min_disparity max_disparity so_p1 so_p2 so_tso
      cost_so_src cost_so_dst is_forward = Some v
  /\ length v = length cost_so_dst
  /\ forall x y d, 0 <= x < width -> 0 <= y < height -> 0 <= d < n ->
       rd v (cell x y + d)
       = if x =? x0 then rd cost_so_src (cell x y + d)
         else
           let d1 :=
             ScanlineOptimizer.to_uint8
               (ColorDist (color_at img_left (y * width * 3 + 3 * x))
                          (color_at img_left (y * width * 3 + 3 * (x - dir)))) in
           let d2 :=
             PathSpec.running_d2 width min_disparity
               (fun xr =>
                  ScanlineOptimizer.to_uint8
                    (ColorDist
                       (color_at img_right (y * width * 3 + 3 * xr))
                       (color_at img_right (y * width * 3 + 3 * (xr - dir)))))
               x d1 d in
           PathSpec.step_cost min_disparity max_disparity so_p1 so_p2 so_tso
             v (cell (x - dir) y) (rd cost_so_src (cell x y + d)) d1 d2 d.
Proof.
  intros Hw Hh Hn Hlen n dir x0 cell. eexists.
  split; [apply ScanlineOptimizeLeftRight_paths; lia|]. cbv zeta. fold n. fold dir.
  assert (Hdir : (dir = 1 /\ x0 = 0) \/ (dir = -1 /\ x0 = width - 1)).
  { subst dir x0. destruct is_forward; [by left|by right]. }
  pose (spec := fun (v : list float32) (x y d : Z) =>
    rd v (cell x y + d)
    = if x =? x0 then rd cost_so_src (cell x y + d)
      else
        let d1 :=
          ScanlineOptimizer.to_uint8
            (ColorDist (color_at img_left (y * width * 3 + 3 * x))
                       (color_at img_left (y * width * 3 + 3 * (x - dir)))) in
        let d2 :=
          PathSpec.running_d2 width min_disparity
            (fun xr =>
               ScanlineOptimizer.to_uint8
                 (ColorDist
                    (color_at img_right (y * width * 3 + 3 * xr))
                    (color_at img_right (y * width * 3 + 3 * (xr - dir)))))
            x d1 d in
        PathSpec.step_cost min_disparity max_disparity so_p1 so_p2 so_tso
          v (cell (x - dir) y) (rd cost_so_src (cell x y + d)) d1 d2 d).
  pose (R := fun (k : Z) (v : list float32) =>
    length v = length cost_so_dst
    /\ forall x y d, 0 <= x < width -> 0 <= y < k -> 0 <= d < n -> spec v x y d).
  match goal with
  | |- context [for_loop 0 height ?body cost_so_dst] =>
      assert (HR : R height (for_loop 0 height body cost_so_dst))
  end.
  2:{ destruct HR as [Hl Hs]. split; [done|]. intros x y d Hx Hy Hd.
      exact (Hs x y d Hx Hy Hd). }
  apply (for_loop_ind R); [lia| |].
  { split; [done|]. intros; lia. }
  intros y v Hy [Hl Hspec].
  set (c0 := if is_forward then y * width * n
             else y * width * n + (width - 1) * n).
  set (i0 := if is_forward then y * width * 3
             else y * width * 3 + 3 * (width - 1)).
  assert (Hc0 : c0 = cell x0 y).
  { subst c0 x0 cell. destruct is_forward; simpl; lia. }
  assert (Hi0 : i0 = y * width * 3 + 3 * x0).
  { subst i0 x0. destruct is_forward; lia. }
  assert (Hcj : forall j, c0 + j * (dir * n) = cell (x0 + j * dir) y).
  { intros j. rewrite Hc0. unfold cell. destruct Hdir as [[-> _]|[-> _]]; lia. }
  assert (Hxj : forall j, 0 <= j < width -> 0 <= x0 + j * dir < width).
  { intros j Hj. destruct Hdir as [[-> ->]|[-> ->]]; lia. }
  change (R (y + 1)
    (PathSpec.path_row width img_left img_right min_disparity max_disparity
       so_p1 so_p2 so_tso cost_so_src c0 i0 x0 (dir * n) (dir * 3) dir
       width (fun pos => pos) (fun _ xr => y * width * 3 + 3 * xr)
       (fun _ xr => y * width * 3 + 3 * (xr - dir)) v)).
  pose proof (path_row_cells width img_left img_right min_disparity
    max_disparity so_p1 so_p2 so_tso cost_so_src c0 i0 x0 (dir * n) (dir * 3)
    dir width (fun pos => pos)
    (fun _ xr => y * width * 3 + 3 * xr)
    (fun _ xr => y * width * 3 + 3 * (xr - dir)) v) as Hrow.
  cbv zeta in Hrow. fold n in Hrow.
  set (v' := PathSpec.path_row _ _ _ _ _ _ _ _ _ _ _ _ _ _ _ _ _ _ _ _) in *.
  destruct Hrow as (Hl' & Hf & Hseed & Hrec).
  { exact Hn. }
  { exact Hw. }
  { destruct Hdir as [[-> _]|[-> _]]; lia. }
  { intros j Hj. rewrite Hcj, Hl, Hlen. fold n.
    apply (cell_bounds width height n); [done|by apply Hxj|lia]. }
  assert (Hframe : forall x' y' e, 0 <= x' < width -> y' <> y -> 0 <= e < n ->
    rd v' (cell x' y' + e) = rd v (cell x' y' + e)).
  { intros x' y' e Hx' Hy' He. apply Hf. intros j Hj. rewrite Hcj.
    apply cell_disjoint; [done|by apply Hxj|done|done|].
    intros [= _ ?]. lia. }
  split; [congruence|].
  intros x' y' d Hx' Hy' Hd. unfold spec.
  destruct (decide (y' = y)) as [->|Hne].
  - (* the row that was just swept *)
    destruct (Z.eqb_spec x' x0) as [->|Hx0].
    + rewrite <- Hc0. apply Hseed. done.
    + set (j := (x' - x0) * dir).
      assert (Hj : 1 <= j < width).
      { subst j. destruct Hdir as [[-> ->]|[-> ->]]; lia. }
      assert (Hxj' : x0 + j * dir = x').
      { subst j. destruct Hdir as [[-> ->]|[-> ->]]; lia. }
      assert (Hxj1 : x0 + (j - 1) * dir = x' - dir).
      { subst j. destruct Hdir as [[-> ->]|[-> ->]]; lia. }
      pose proof (Hrec j d Hj Hd) as Hr. cbv beta in Hr.
      rewrite !Hcj, Hxj', Hxj1 in Hr. rewrite Hr. cbv zeta.
      replace (i0 + j * (dir * 3)) with (y * width * 3 + 3 * x')
        by (rewrite Hi0, <- Hxj'; lia).
      replace (i0 + (j - 1) * (dir * 3)) with (y * width * 3 + 3 * (x' - dir))
        by (rewrite Hi0, <- Hxj1; lia).
      reflexivity.
  - (* an earlier row *)
    assert (Hy'' : 0 <= y' < y) by lia.
    pose proof (Hspec x' y' d Hx' Hy'' Hd) as Hs. unfold spec in Hs.
    rewrite Hframe by done. rewrite Hs.
    destruct (Z.eqb_spec x' x0) as [->|Hx0]; [done|]. cbv zeta.
    apply step_cost_ext. intros e He. fold n in He. symmetry.
    apply Hframe; [|done|done].
    destruct Hdir as [[-> ->]|[-> ->]]; lia.
Qed.

Lemma ScanlineOptimizeLeftRight_recurrence_witness :
  exists v,
    ScanlineOptimizer.ScanlineOptimizeLeftRight 3 1 Examples.left_3x1
      Examples.right_3x1 0 2 (F32.of_Z 1) (F32.of_Z 3) 15
      Examples.cost_3x1x2 (replicate 6 F32.zero) true = Some v
    /\ length v = 6%nat
    /\ rd v 3
       = PathSpec.step_cost 0 2 (F32.of_Z 1) (F32.of_Z 3) 15 v 0
           (rd Examples.cost_3x1x2 3) 0 100 1.
Proof.
  destruct (ScanlineOptimizeLeftRight_recurrence 3 1 Examples.left_3x1
              Examples.right_3x1 0 2 (F32.of_Z 1) (F32.of_Z 3) 15
              Examples.cost_3x1x2 (replicate 6 F32.zero) true)
    as (v & Hv & Hl & Hrec).
  - lia.
  - lia.
  - lia.
  - reflexivity.
  - exists v. split; [exact Hv|]. split; [exact Hl|].
    exact (Hrec 1 0 1 ltac:(lia) ltac:(lia) ltac:(lia)).
Defined.

(** X9.  The vertical sweep, on volumes of
    [width * height * disp_range] costs.  The first pixel of every column
    ([y = 0] downwards, [y = height - 1] upwards) receives its source
    costs; every other pixel receives the cost of the recurrence on its
    source cost and on the costs stored for the last pixel
    [(x, y - dir)].  The distance [d2] compares the pixels of the right
    image at column [x - d - min_disparity] in the rows [y] and
    [y - dir]. *)
Theorem ScanlineOptimizeUpDown_recurrence
    (width height : Z) (img_left img_right : list Z)
    (min_disparity max_disparity : Z) (so_p1 so_p2 : float32) (so_tso : Z)
    (cost_so_src cost_so_dst : list float32) (is_forward : bool) :
  0 < width -> 0 < height -> 0 < max_disparity - min_disparity ->
  Z.of_nat (length cost_so_dst)
  = width * height * (max_disparity - min_disparity) ->
  let n := max_disparity - min_disparity in
  let dir := if is_forward then 1 else -1 in
  let y0 := if is_forward then 0 else height - 1 in
  let cell (x y : Z) := y * width * n + x * n in
  exists v,
    ScanlineOptimizer.ScanlineOptimizeUpDown width height img_left
      img_right min_disparity max_disparity so_p1 so_p2 so_tso
      cost_so_src cost_so_dst is_forward = Some v
  /\ length v = length cost_so_dst
  /\ forall x y d, 0 <= x < width -> 0 <= y < height -> 0 <= d < n ->
       rd v (cell x y + d)
       = if y =? y0 then rd cost_so_src (cell x y + d)
         else
           let d1 :=
             ScanlineOptimizer.to_uint8
               (ColorDist (color_at img_left (y * width * 3 + 3 * x))
                          (color_at img_left ((y - dir) * width * 3 + 3 * x))) in
           let d2 :=
             PathSpec.running_d2 width min_disparity
               (fun xr =>
                  ScanlineOptimizer.to_uint8
                    (ColorDist
                       (color_at img_right (y * width * 3 + 3 * xr))
                       (color_at img_right ((y - dir) * width * 3 + 3 * xr))))
               x d1 d in
           PathSpec.step_cost min_disparity max_disparity so_p1 so_p2 so_tso
             v (cell x (y - dir)) (rd cost_so_src (cell x y + d)) d1 d2 d.
Proof.
  intros Hw Hh Hn Hlen n dir y0 cell. eexists.
  split; [apply ScanlineOptimizeUpDown_paths; lia|]. cbv zeta. fold n. fold dir.
  assert (Hdir : (dir = 1 /\ y0 = 0) \/ (dir = -1 /\ y0 = height - 1)).
  { subst dir y0. destruct is_forward; [by left|by right]. }
  pose (spec := fun (v : list float32) (x y d : Z) =>
    rd v (cell x y + d)
    = if y =? y0 then rd cost_so_src (cell x y + d)
      else
        let d1 :=
          ScanlineOptimizer.to_uint8
            (ColorDist (color_at img_left (y * width * 3 + 3 * x))
                       (color_at img_left ((y - dir) * width * 3 + 3 * x))) in
        let d2 :=
          PathSpec.running_d2 width min_disparity
            (fun xr =>
               ScanlineOptimizer.to_uint8
                 (ColorDist
                    (color_at img_right (y * width * 3 + 3 * xr))
                    (color_at img_right ((y - dir) * width * 3 + 3 * xr))))
            x d1 d in
        PathSpec.step_cost min_disparity max_disparity so_p1 so_p2 so_tso
          v (cell x (y - dir)) (rd cost_so_src (cell x y + d)) d1 d2 d).
  pose (R := fun (k : Z) (v : list float32) =>
    length v = length cost_so_dst
    /\ forall x y d, 0 <= x < k -> 0 <= y < height -> 0 <= d < n -> spec v x y d).
  match goal with
  | |- context [for_loop 0 width ?body cost_so_dst] =>
      assert (HR : R width (for_loop 0 width body cost_so_dst))
  end.
  2:{ destruct HR as [Hl Hs]. split; [done|]. intros x y d Hx Hy Hd.
      exact (Hs x y d Hx Hy Hd). }
  apply (for_loop_ind R); [lia| |].
  { split; [done|]. intros; lia. }
  intros x v Hx [Hl Hspec].
  set (c0 := if is_forward then x * n
             else (height - 1) * width * n + x * n).
  set (i0 := if is_forward then 3 * x
             else (height - 1) * width * 3 + 3 * x).
  assert (Hc0 : c0 = cell x y0).
  { subst c0 y0 cell. destruct is_forward; simpl; lia. }
  assert (Hi0 : i0 = y0 * width * 3 + 3 * x).
  { subst i0 y0. destruct is_forward; lia. }
  assert (Hcj : forall j, c0 + j * (dir * width * n) = cell x (y0 + j * dir)).
  { intros j. rewrite Hc0. unfold cell. destruct Hdir as [[-> _]|[-> _]]; lia. }
  assert (Hyj : forall j, 0 <= j < height -> 0 <= y0 + j * dir < height).
  { intros j Hj. destruct Hdir as [[-> ->]|[-> ->]]; lia. }
  change (R (x + 1)
    (PathSpec.path_row width img_left img_right min_disparity max_disparity
       so_p1 so_p2 so_tso cost_so_src c0 i0 y0 (dir * width * n)
       (dir * width * 3) dir height (fun _ => x)
       (fun y xr => y * width * 3 + 3 * xr)
       (fun y xr => (y - dir) * width * 3 + 3 * xr) v)).
  pose proof (path_row_cells width img_left img_right min_disparity
    max_disparity so_p1 so_p2 so_tso cost_so_src c0 i0 y0 (dir * width * n)
    (dir * width * 3) dir height (fun _ => x)
    (fun y xr => y * width * 3 + 3 * xr)
    (fun y xr => (y - dir) * width * 3 + 3 * xr) v) as Hrow.
  cbv zeta in Hrow. fold n in Hrow.
  set (v' := PathSpec.path_row _ _ _ _ _ _ _ _ _ _ _ _ _ _ _ _ _ _ _ _) in *.
  destruct Hrow as (Hl' & Hf & Hseed & Hrec).
  { exact Hn. }
  { exact Hh. }
  { destruct Hdir as [[-> _]|[-> _]]; nia. }
  { intros j Hj. rewrite Hcj, Hl, Hlen. fold n.
    apply (cell_bounds width height n); [done|lia|by apply Hyj]. }
  assert (Hframe : forall x' y' e, 0 <= x' < width -> x' <> x -> 0 <= e < n ->
    rd v' (cell x' y' + e) = rd v (cell x' y' + e)).
  { intros x' y' e Hx' Hne He. apply Hf. intros j Hj. rewrite Hcj.
    apply cell_disjoint; [done|lia|done|done|].
    intros [= ? _]. lia. }
  split; [congruence|].
  intros x' y' d Hx' Hy' Hd. unfold spec.
  destruct (decide (x' = x)) as [->|Hne].
  - (* the column that was just swept *)
    destruct (Z.eqb_spec y' y0) as [->|Hy0].
    + rewrite <- Hc0. apply Hseed. done.
    + assert (Hex : exists j, 1 <= j < height /\ y' = y0 + j * dir).
      { exists ((y' - y0) * dir).
        destruct Hdir as [[-> ->]|[-> ->]]; lia. }
      destruct Hex as (j & Hj & ->).
      pose proof (Hrec j d Hj Hd) as Hr. cbv beta in Hr.
      rewrite !Hcj in Hr. rewrite Hr. cbv zeta.
      replace (y0 + (j - 1) * dir) with (y0 + j * dir - dir) by lia.
      replace (i0 + j * (dir * width * 3))
        with ((y0 + j * dir) * width * 3 + 3 * x) by (rewrite Hi0; lia).
      replace (i0 + (j - 1) * (dir * width * 3))
        with ((y0 + j * dir - dir) * width * 3 + 3 * x) by (rewrite Hi0; lia).
      reflexivity.
  - (* an earlier column *)
    assert (Hx'' : 0 <= x' < x) by lia.
    pose proof (Hspec x' y' d Hx'' Hy' Hd) as Hs. unfold spec in Hs.
    rewrite Hframe by (done || lia). rewrite Hs.
    destruct (Z.eqb_spec y' y0) as [->|Hy0]; [done|]. cbv zeta.
    apply step_cost_ext. intros e He. fold n in He. symmetry.
    apply Hframe; [lia|done|done].
Qed.

Lemma ScanlineOptimizeUpDown_recurrence_witness :
  exists v,
    ScanlineOptimizer.ScanlineOptimizeUpDown 1 2 Examples.left_1x2
      Examples.right_1x2 0 2 (F32.of_Z 1) (F32.of_Z 3) 15
      Examples.cost_1x2x2 (replicate 4 F32.zero) true = Some v
    /\ length v = 4%nat
    /\ rd v 2
       = PathSpec.step_cost 0 2 (F32.of_Z 1) (F32.of_Z 3) 15 v 0
           (rd Examples.cost_1x2x2 2) 50 50 0.
Proof.
  destruct (ScanlineOptimizeUpDown_recurrence 1 2 Examples.left_1x2
              Examples.right_1x2 0 2 (F32.of_Z 1) (F32.of_Z 3) 15
              Examples.cost_1x2x2 (replicate 4 F32.zero) true)
    as (v & Hv & Hl & Hrec).
  - lia.
  - lia.
  - lia.
  - reflexivity.
  - exists v. split; [exact Hv|]. split; [exact Hl|].
    exact (Hrec 0 1 0 ltac:(lia) ltac:(lia) ltac:(lia)).
Defined.

(** ** The scratch volume of the optimiser *)

Lemma cell_decompose w h n i :
  0 < w -> 0 < n -> 0 <= i < w * h * n ->
  exists x y d, 0 <= x < w /\ 0 <= y < h /\ 0 <= d < n
                /\ i = y * w * n + x * n + d.
Proof.
  intros Hw Hn Hi.
  exists ((i / n) mod w), ((i / n) / w), (i mod n).
  pose proof (Z.div_mod i n ltac:(lia)) as E1.
  pose proof (Z.mod_pos_bound i n Hn) as B1.
  pose proof (Z.div_mod (i / n) w ltac:(lia)) as E2.
  pose proof (Z.mod_pos_bound (i / n) w Hw) as B2.
  assert (Hq : 0 <= i / n < w * h).
  { split; [apply Z.div_pos; lia|]. apply Z.div_lt_upper_bound; lia. }
  assert (Hy : 0 <= i / n / w < h).
  { split; [apply Z.div_pos; lia|]. apply Z.div_lt_upper_bound; lia. }
  repeat split; lia.
Qed.

(** The horizontal sweep overwrites its destination entirely. *)
Lemma ScanlineOptimizeLeftRight_dst_irrelevant
    (width height : Z) (img_left img_right : list Z)
    (min_disparity max_disparity : Z) (so_p1 so_p2 : float32) (so_tso : Z)
    (cost_so_src v1 v2 : list float32) (is_forward : bool) :
  0 < width -> 0 < height -> 0 < max_disparity - min_disparity ->
  Z.of_nat (length v1) = width * height * (max_disparity - min_disparity) ->
  length v2 = length v1 ->
  ScanlineOptimizer.ScanlineOptimizeLeftRight width height img_left img_right
    min_disparity max_disparity so_p1 so_p2 so_tso cost_so_src v1 is_forward
  = ScanlineOptimizer.ScanlineOptimizeLeftRight width height img_left img_right
      min_disparity max_disparity so_p1 so_p2 so_tso cost_so_src v2 is_forward.
Proof.
  intros Hw Hh Hn Hlen Hl12.
  rewrite !ScanlineOptimizeLeftRight_paths by lia. f_equal. cbv zeta.
  set (n := max_disparity - min_disparity) in *.
  set (dir := if is_forward then 1 else -1).
  set (x0 := if is_forward then 0 else width - 1).
  assert (Hdir : (dir = 1 /\ x0 = 0) \/ (dir = -1 /\ x0 = width - 1)).
  { subst dir x0. destruct is_forward; [by left|by right]. }
  set (row := fun (y : Z) =>
    PathSpec.path_row width img_left img_right min_disparity max_disparity
      so_p1 so_p2 so_tso cost_so_src
      (if is_forward then y * width * n else y * width * n + (width - 1) * n)
      (if is_forward then y * width * 3 else y * width * 3 + 3 * (width - 1))
      x0 (dir * n) (dir * 3) dir width (fun pos => pos)
      (fun _ xr => y * width * 3 + 3 * xr)
      (fun _ xr => y * width * 3 + 3 * (xr - dir))).
  change (for_loop 0 height row v1 = for_loop 0 height row v2).
  pose (cell := fun x y : Z => y * width * n + x * n).
  assert (Hrow : forall y a b, 0 <= y < height ->
    Z.of_nat (length a) = width * height * n -> length b = length a ->
    length (row y a) = length a /\ length (row y b) = length a
    /\ (forall x d, 0 <= x < width -> 0 <= d < n ->
          rd (row y a) (cell x y + d) = rd (row y b) (cell x y + d))
    /\ (forall x y' d, 0 <= x < width -> y' <> y -> 0 <= d < n ->
          rd (row y a) (cell x y' + d) = rd a (cell x y' + d)
          /\ rd (row y b) (cell x y' + d) = rd b (cell x y' + d))).
  { intros y a b Hy Ha Hab. subst row. cbv beta.
    set (c0 := if is_forward then y * width * n
               else y * width * n + (width - 1) * n).
    set (i0 := if is_forward then y * width * 3
               else y * width * 3 + 3 * (width - 1)).
    assert (Hcj : forall j, c0 + j * (dir * n) = cell (x0 + j * dir) y).
    { intros j. clear Hdir. subst c0 cell dir x0. cbv beta.
      destruct is_forward; lia. }
    assert (Hxj : forall j, 0 <= j < width -> 0 <= x0 + j * dir < width).
    { intros j Hj. destruct Hdir as [[-> ->]|[-> ->]]; lia. }
    assert (Hstep : n <= dir * n \/ dir * n <= - n).
    { destruct Hdir as [[-> _]|[-> _]]; lia. }
    assert (Hin : forall j, 0 <= j < width ->
              0 <= c0 + j * (dir * n)
              /\ c0 + j * (dir * n) + n <= Z.of_nat (length a)).
    { intros j Hj. rewrite Hcj, Ha.
      apply (cell_bounds width height n); [done|by apply Hxj|lia]. }
    destruct (path_row_cells width img_left img_right min_disparity
      max_disparity so_p1 so_p2 so_tso cost_so_src c0 i0 x0 (dir * n) (dir * 3)
      dir width (fun pos => pos) (fun _ xr => y * width * 3 + 3 * xr)
      (fun _ xr => y * width * 3 + 3 * (xr - dir)) a Hn Hw Hstep Hin)
      as (Hla & Hfa & _ & _).
    destruct (path_row_cells width img_left img_right min_disparity
      max_disparity so_p1 so_p2 so_tso cost_so_src c0 i0 x0 (dir * n) (dir * 3)
      dir width (fun pos => pos) (fun _ xr => y * width * 3 + 3 * xr)
      (fun _ xr => y * width * 3 + 3 * (xr - dir)) b Hn Hw Hstep)
      as (Hlb & Hfb & _ & _).
    { intros j Hj. rewrite Hab. by apply Hin. }
    split; [done|]. split; [congruence|]. split.
    - intros x d Hx Hd.
      assert (Hex : exists j, 0 <= j < width /\ x = x0 + j * dir).
      { exists ((x - x0) * dir). destruct Hdir as [[-> ->]|[-> ->]]; lia. }
      destruct Hex as (j & Hj & ->). rewrite <- Hcj.
      apply (path_row_agree width img_left img_right min_disparity
        max_disparity so_p1 so_p2 so_tso cost_so_src c0 i0 x0 (dir * n)
        (dir * 3) dir width (fun pos => pos)
        (fun _ xr => y * width * 3 + 3 * xr)
        (fun _ xr => y * width * 3 + 3 * (xr - dir)) a b Hn Hw Hstep
        (eq_sym Hab) Hin j d Hj Hd).
    - intros x y' d Hx Hy' Hd.
      assert (Hout : forall j, 0 <= j < width ->
                ~ (c0 + j * (dir * n) <= cell x y' + d
                   < c0 + j * (dir * n) + (max_disparity - min_disparity))).
      { intros j Hj. rewrite Hcj. fold n.
        apply cell_disjoint; [done|by apply Hxj|done|done|].
        intros [= _ ?]. lia. }
      split; [by apply Hfa|by apply Hfb]. }
  assert (Hall : forall k : nat, Z.of_nat k <= height ->
    let a := for_loop 0 (Z.of_nat k) row v1 in
    let b := for_loop 0 (Z.of_nat k) row v2 in
    length a = length v1 /\ length b = length v1
    /\ forall x y d, 0 <= x < width -> 0 <= y < Z.of_nat k -> 0 <= d < n ->
         rd a (cell x y + d) = rd b (cell x y + d)).
  { induction k as [|k IH]; intros Hk.
    - simpl. rewrite !for_loop_nil by lia. split; [done|]. split; [done|].
      intros; lia.
    - cbv zeta. rewrite Nat2Z.inj_succ, <- Z.add_1_r.
      rewrite !for_loop_last by lia.
      destruct (IH ltac:(lia)) as (Hla & Hlb & Hcells).
      set (a := for_loop 0 (Z.of_nat k) row v1) in *.
      set (b := for_loop 0 (Z.of_nat k) row v2) in *.
      destruct (Hrow (Z.of_nat k) a b ltac:(lia) ltac:(lia) ltac:(congruence))
        as (Hra & Hrb & Hsame & Hother).
      split; [congruence|]. split; [congruence|].
      intros x y d Hx Hy Hd.
      destruct (decide (y = Z.of_nat k)) as [->|Hne]; [by apply Hsame|].
      destruct (Hother x y d Hx Hne Hd) as [-> ->]. apply Hcells; lia. }
  destruct (Hall (Z.to_nat height) ltac:(lia)) as (Hla & Hlb & Hcells).
  rewrite Z2Nat.id in Hla, Hlb, Hcells by lia.
  apply list_eq_rd; [congruence|].
  intros i Hi. rewrite Hla, Hlen in Hi.
  destruct (cell_decompose width height n i Hw Hn Hi)
    as (x & y & d & Hx & Hy & Hd & ->).
  by apply Hcells.
Qed.

(** X10.  [Optimize] uses [cost_init_] as scratch only: on volumes of
    [width * height * disp_range] costs, the two volumes it leaves are
    the same whatever [cost_init_] held, since the first sweep overwrites
    every cost of it. *)
Theorem Optimize_cost_init_is_scratch
    (width height : Z) (img_left img_right : list Z)
    (min_disparity max_disparity : Z) (so_p1 so_p2 : float32) (so_tso : Z)
    (cost_init cost_init' cost_aggr : list float32) :
  0 < width -> 0 < height -> 0 < max_disparity - min_disparity ->
  Z.of_nat (length cost_init)
  = width * height * (max_disparity - min_disparity) ->
  length cost_init' = length cost_init ->
  ScanlineOptimizer.Optimize width height img_left img_right min_disparity
    max_disparity so_p1 so_p2 so_tso cost_init cost_aggr
  = ScanlineOptimizer.Optimize width height img_left img_right min_disparity
      max_disparity so_p1 so_p2 so_tso cost_init' cost_aggr.
Proof.
  intros Hw Hh Hn Hlen Hl. unfold ScanlineOptimizer.Optimize. cbv zeta.
  by rewrite (ScanlineOptimizeLeftRight_dst_irrelevant width height img_left
    img_right min_disparity max_disparity so_p1 so_p2 so_tso cost_aggr
    cost_init cost_init' true Hw Hh Hn Hlen Hl).
Qed.

Lemma Optimize_cost_init_is_scratch_witness :
  ScanlineOptimizer.Optimize 3 1 Examples.left_3x1 Examples.right_3x1 0 2
    (F32.of_Z 1) (F32.of_Z 3) 15 (replicate 6 F32.zero) Examples.cost_3x1x2
  = ScanlineOptimizer.Optimize 3 1 Examples.left_3x1 Examples.right_3x1 0 2
      (F32.of_Z 1) (F32.of_Z 3) 15 (replicate 6 Large_Float)
      Examples.cost_3x1x2.
Proof.
  apply (Optimize_cost_init_is_scratch 3 1 Examples.left_3x1
           Examples.right_3x1 0 2 (F32.of_Z 1) (F32.of_Z 3) 15
           (replicate 6 F32.zero) (replicate 6 Large_Float)
           Examples.cost_3x1x2).
  - lia.
  - lia.
  - lia.
  - reflexivity.
  - reflexivity.
Defined.

(** ** The divisors of the aggregation *)

Lemma length_concat_bounds {A} (rows : list (list A)) (a b : Z) :
  0 <= a ->
  (forall r, r ∈ rows -> a <= Z.of_nat (length r) <= b) ->
  a * Z.of_nat (length rows) <= Z.of_nat (length (concat rows))
  <= b * Z.of_nat (length rows).
Proof.
  intros Ha. induction rows as [|r rows IH]; intros Hrows; simpl; [lia|].
  rewrite length_app.
  pose proof (Hrows r ltac:(left)).
  assert (Hrest : forall r', r' ∈ rows -> a <= Z.of_nat (length r') <= b)
    by (intros; apply Hrows; by right).
  specialize (IH Hrest). lia.
Qed.

Lemma region_size_bounds width height arms (hf : bool) (p : Z * Z) :
  RegionSpec.arms_in_bounds width height arms = true ->
  0 <= fst p < width -> 0 <= snd p < height ->
  1 <= RegionSpec.region_size (RegionSpec.cross_region width arms hf p)
  <= width * height.
Proof.
  intros Harms Hx Hy. destruct p as [x y]. simpl in Hx, Hy.
  pose proof (arms_in_bounds_spec width height arms x y Harms Hx Hy) as Hb.
  cbv zeta in Hb.
  unfold RegionSpec.region_size, RegionSpec.cross_region.
  destruct hf.
  - pose proof (length_vertical_arm width arms (x, y)) as Hlv.
    simpl fst in Hlv; simpl snd in Hlv. specialize (Hlv ltac:(lia) ltac:(lia)).
    pose proof (length_concat_bounds
      (RegionSpec.horizontal_arm width arms
         <$> RegionSpec.vertical_arm width arms (x, y)) 1 width ltac:(lia))
      as Hc.
    rewrite length_fmap in Hc.
    assert (Hrows : forall r,
      r ∈ RegionSpec.horizontal_arm width arms
            <$> RegionSpec.vertical_arm width arms (x, y) ->
      1 <= Z.of_nat (length r) <= width).
    { intros r (q & -> & Hq)%list_elem_of_fmap.
      destruct (arm_in_image width height arms (x, y) q Harms Hx Hy
                  ltac:(by right)) as [Hqx Hqy].
      pose proof (arms_in_bounds_spec width height arms (fst q) (snd q)
                    Harms Hqx Hqy) as Hbq. cbv zeta in Hbq.
      rewrite length_horizontal_arm by lia. lia. }
    specialize (Hc Hrows). nia.
  - pose proof (length_horizontal_arm width arms (x, y)) as Hlh.
    simpl fst in Hlh; simpl snd in Hlh. specialize (Hlh ltac:(lia) ltac:(lia)).
    pose proof (length_concat_bounds
      (RegionSpec.vertical_arm width arms
         <$> RegionSpec.horizontal_arm width arms (x, y)) 1 height ltac:(lia))
      as Hc.
    rewrite length_fmap in Hc.
    assert (Hrows : forall r,
      r ∈ RegionSpec.vertical_arm width arms
            <$> RegionSpec.horizontal_arm width arms (x, y) ->
      1 <= Z.of_nat (length r) <= height).
    { intros r (q & -> & Hq)%list_elem_of_fmap.
      destruct (arm_in_image width height arms (x, y) q Harms Hx Hy
                  ltac:(by left)) as [Hqx Hqy].
      pose proof (arms_in_bounds_spec width height arms (fst q) (snd q)
                    Harms Hqx Hqy) as Hbq. cbv zeta in Hbq.
      rewrite length_vertical_arm by lia. lia. }
    specialize (Hc Hrows). nia.
Qed.

(** X11.  For the arms that [BuildArms] constructs, every support count
    that [ComputeSupPixelCount] stores lies between 1 and
    [width * height]: the pixel itself is always counted, so the division
    in [AggregateInArms] never divides by zero. *)
Theorem support_count_positive
    (width height : Z) (img_left : list Z) (cross_L1 cross_L2 cross_t1 cross_t2 : Z)
    (vec_cross_arms_ : list CrossArm.t)
    (vec_sup_count_tmp_ : list Z) (vec_sup_count_ : list (list Z)) :
  0 <= width -> 0 <= height ->
  Z.of_nat (length vec_cross_arms_) = width * height ->
  Z.of_nat (length vec_sup_count_tmp_) = width * height ->
  length vec_sup_count_ = 2%nat ->
  Z.of_nat (length (rd vec_sup_count_ 0)) = width * height ->
  Z.of_nat (length (rd vec_sup_count_ 1)) = width * height ->
  let arms :=
    CrossAggregator.BuildArms width height img_left cross_L1 cross_L2
      cross_t1 cross_t2 vec_cross_arms_ in
  let sup :=
    snd (CrossAggregator.ComputeSupPixelCount width height arms
           (vec_sup_count_tmp_, vec_sup_count_)) in
  forall (horizontal_first : bool) (x y : Z),
    0 <= x < width -> 0 <= y < height ->
    1 <= rd (rd sup (if horizontal_first then 0 else 1)) (y * width + x)
    <= width * height.
Proof.
  intros Hw Hh Harms0 Htmp Hs2 Hs0 Hs1 arms sup hf x y Hx Hy.
  pose proof (BuildArms_in_bounds width height img_left cross_L1 cross_L2
                cross_t1 cross_t2 vec_cross_arms_ Hw Hh Harms0) as Harms.
  fold arms in Harms.
  destruct (ComputeSupPixelCount_spec width height arms Hw Hh Harms
              vec_sup_count_tmp_ vec_sup_count_ Htmp Hs2 Hs0 Hs1)
    as (_ & _ & _ & _ & Hsup).
  fold sup in Hsup. rewrite (Hsup hf x y Hx Hy).
  by apply (region_size_bounds width height arms hf (x, y)).
Qed.

Lemma support_count_positive_witness :
  1 <= rd (rd (snd (CrossAggregator.ComputeSupPixelCount 2 2
                      (CrossAggregator.BuildArms 2 2 Examples.img_2x2 34 17 20 6
                         (CrossAggregator.fresh 4))
                      (CrossAggregator.fresh 4,
                       [CrossAggregator.fresh 4; CrossAggregator.fresh 4]))) 0)
            (1 * 2 + 0)
  <= 2 * 2.
Proof.
  apply (support_count_positive 2 2 Examples.img_2x2 34 17 20 6
           (CrossAggregator.fresh 4) (CrossAggregator.fresh 4)
           [CrossAggregator.fresh 4; CrossAggregator.fresh 4]
           ltac:(lia) ltac:(lia) eq_refl eq_refl eq_refl eq_refl eq_refl
           true 0 1); lia.
Defined.

(** ** Arms on uniform images and with degenerate parameters *)

Lemma ColorDist_refl c : ColorDist c c = 0.
Proof. unfold ColorDist. lia. Qed.

Lemma ColorDist_nonneg c1 c2 : 0 <= ColorDist c1 c2.
Proof. unfold ColorDist. lia. Qed.

(** The largest prefix when the accepted steps are the first [m]. *)
Lemma largest_prefix_initial limit (accepted : Z -> bool) len m :
  0 <= m ->
  (forall n, 0 <= n -> accepted n = true <-> n < m) ->
  ArmSpec.largest_prefix limit accepted len ->
  len = Z.min m (Z.max 0 limit).
Proof.
  intros Hm Hacc (H0 & Hle & Hall & Hstop).
  assert (Hlm : len <= m).
  { destruct (decide (len = 0)) as [->|Hne]; [done|].
    specialize (Hall (len - 1) ltac:(lia)). apply Hacc in Hall; lia. }
  destruct (decide (len < limit)) as [Hlt|Hge]; [|lia].
  specialize (Hstop Hlt).
  assert (~ len < m) by (intros Hl; apply Hacc in Hl; [congruence|lia]).
  lia.
Qed.

(** The largest prefix when the first step is refused or no step is
    allowed. *)
Lemma largest_prefix_none limit (accepted : Z -> bool) len :
  limit <= 0 \/ accepted 0 = false ->
  ArmSpec.largest_prefix limit accepted len -> len = 0.
Proof.
  intros Hnone (H0 & Hle & Hall & _). destruct Hnone as [Hl|Hacc]; [lia|].
  destruct (decide (len = 0)) as [->|Hne]; [done|].
  specialize (Hall 0 ltac:(lia)). congruence.
Qed.

Section UniformImage.

Variables (width height : Z) (img_left : list Z).
Variables (cross_L1 cross_L2 cross_t1 cross_t2 : Z) (c : ADColor).
Hypothesis (Ht1 : 0 < cross_t1) (Ht2 : 0 < cross_t2).
Hypothesis (Huniform : forall x y, 0 <= x < width -> 0 <= y < height ->
              color_at img_left (y * width * 3 + 3 * x) = c).

(** On a uniform image a step is accepted exactly when its pixel is
    inside the image. *)
Lemma step_accepted_uniform x y dx dy n :
  0 <= x < width -> 0 <= y < height -> 0 <= n ->
  (dx = 0 \/ dy = 0) -> -1 <= dx <= 1 -> -1 <= dy <= 1 ->
  ArmSpec.step_accepted img_left width height cross_L2 cross_t1 cross_t2
    x y dx dy n
  = ArmSpec.in_image width height (ArmSpec.arm_pixel x y dx dy n).
Proof.
  intros Hx Hy Hn Haxis Hdx Hdy. unfold ArmSpec.step_accepted. cbv zeta.
  destruct (ArmSpec.in_image width height (ArmSpec.arm_pixel x y dx dy n))
    eqn:Ein; [|done].
  apply in_image_iff in Ein. unfold ArmSpec.arm_pixel in Ein. simpl in Ein.
  unfold ArmSpec.pixel_color, ArmSpec.arm_pixel. simpl fst; simpl snd.
  rewrite (Huniform (x + (n + 1) * dx) (y + (n + 1) * dy)) by lia.
  rewrite (Huniform x y) by lia. rewrite ColorDist_refl.
  assert (Hb1 : (0 <? cross_t1) = true) by (apply Z.ltb_lt; lia).
  assert (Hb2 : (0 <? cross_t2) = true) by (apply Z.ltb_lt; lia).
  rewrite Hb1, Hb2, orb_true_r. simpl andb.
  destruct (Z.eqb_spec n 0) as [->|Hn0]; [done|]. simpl orb.
  rewrite (Huniform (x + (n - 1 + 1) * dx) (y + (n - 1 + 1) * dy)) by nia.
  by rewrite ColorDist_refl, Hb1.
Qed.

(** X12.  On an image of one colour, with positive colour thresholds,
    every arm that [BuildArms] stores reaches the border of the image or
    the length limit [min(cross_L1, MAX_ARM_LENGTH)], whichever comes
    first. *)
Theorem BuildArms_uniform (arms0 : list CrossArm.t) (x y : Z) :
  0 <= x < width -> 0 <= y < height ->
  Z.of_nat (length arms0) = width * height ->
  let limit := Z.max 0 (Z.min cross_L1 MAX_ARM_LENGTH) in
  rd (CrossAggregator.BuildArms width height img_left cross_L1 cross_L2
        cross_t1 cross_t2 arms0) (y * width + x)
  = CrossArm.mk (Z.min x limit) (Z.min (width - 1 - x) limit)
                (Z.min y limit) (Z.min (height - 1 - y) limit).
Proof.
  intros Hx Hy Hlen limit.
  destruct (BuildArms_rd width height img_left cross_L1 cross_L2 cross_t1
              cross_t2 arms0 ltac:(lia) ltac:(lia) Hlen) as [_ Hrd].
  rewrite (Hrd x y Hx Hy).
  destruct (FindHorizontalArm_spec width height img_left cross_L1 cross_L2
              cross_t1 cross_t2 x y Hx Hy) as [Hl Hr].
  destruct (FindVerticalArm_spec width height img_left cross_L1 cross_L2
              cross_t1 cross_t2 x y Hx Hy) as [Ht Hb].
  f_equal.
  - apply (largest_prefix_initial _ _ _ x ltac:(lia)) in Hl; [exact Hl|].
    intros n Hn. rewrite step_accepted_uniform by lia.
    rewrite in_image_iff. unfold ArmSpec.arm_pixel. simpl. lia.
  - apply (largest_prefix_initial _ _ _ (width - 1 - x) ltac:(lia)) in Hr;
      [exact Hr|].
    intros n Hn. rewrite step_accepted_uniform by lia.
    rewrite in_image_iff. unfold ArmSpec.arm_pixel. simpl. lia.
  - apply (largest_prefix_initial _ _ _ y ltac:(lia)) in Ht; [exact Ht|].
    intros n Hn. rewrite step_accepted_uniform by lia.
    rewrite in_image_iff. unfold ArmSpec.arm_pixel. simpl. lia.
  - apply (largest_prefix_initial _ _ _ (height - 1 - y) ltac:(lia)) in Hb;
      [exact Hb|].
    intros n Hn. rewrite step_accepted_uniform by lia.
    rewrite in_image_iff. unfold ArmSpec.arm_pixel. simpl. lia.
Qed.

End UniformImage.

Lemma BuildArms_uniform_witness :
  rd (CrossAggregator.BuildArms 3 1 Examples.left_3x1 34 17 20 6
        (CrossAggregator.fresh 3)) (0 * 3 + 1)
  = CrossArm.mk 1 1 0 0.
Proof.
  refine (BuildArms_uniform 3 1 Examples.left_3x1 34 17 20 6
            (mkADColor 0 0 0) _ _ _ (CrossAggregator.fresh 3) 1 0 _ _ _).
  - lia.
  - lia.
  - intros x y Hx Hy.
    assert (Hc : (x = 0 \/ x = 1 \/ x = 2) /\ y = 0) by lia.
    destruct Hc as [[-> | [-> | ->]] ->]; reflexivity.
  - lia.
  - lia.
  - reflexivity.
Defined.

(** X13.  When no step is allowed ([cross_L1 <= 0]) or no colour can pass
    the first threshold ([cross_t1 <= 0]), every arm that [BuildArms]
    stores has length 0: each pixel is its own support region. *)
Theorem BuildArms_degenerate
    (width height : Z) (img_left : list Z)
    (cross_L1 cross_L2 cross_t1 cross_t2 : Z)
    (arms0 : list CrossArm.t) (x y : Z) :
  0 <= x < width -> 0 <= y < height ->
  Z.of_nat (length arms0) = width * height ->
  cross_L1 <= 0 \/ cross_t1 <= 0 ->
  rd (CrossAggregator.BuildArms width height img_left cross_L1 cross_L2
        cross_t1 cross_t2 arms0) (y * width + x)
  = CrossArm.mk 0 0 0 0.
Proof.
  intros Hx Hy Hlen Hdeg.
  destruct (BuildArms_rd width height img_left cross_L1 cross_L2 cross_t1
              cross_t2 arms0 ltac:(lia) ltac:(lia) Hlen) as [_ Hrd].
  rewrite (Hrd x y Hx Hy).
  destruct (FindHorizontalArm_spec width height img_left cross_L1 cross_L2
              cross_t1 cross_t2 x y Hx Hy) as [Hl Hr].
  destruct (FindVerticalArm_spec width height img_left cross_L1 cross_L2
              cross_t1 cross_t2 x y Hx Hy) as [Ht Hb].
  assert (Hnone : forall dx dy,
    Z.min cross_L1 MAX_ARM_LENGTH <= 0
    \/ ArmSpec.step_accepted img_left width height cross_L2 cross_t1 cross_t2
         x y dx dy 0 = false).
  { intros dx dy. destruct Hdeg as [HL|Ht1]; [left; lia|right].
    unfold ArmSpec.step_accepted. cbv zeta.
    match goal with
    | |- context [ColorDist ?a ?b <? cross_t1] =>
        pose proof (ColorDist_nonneg a b);
        replace (ColorDist a b <? cross_t1) with false
          by (symmetry; apply Z.ltb_ge; lia)
    end.
    by rewrite andb_false_r. }
  f_equal.
  - exact (largest_prefix_none _ _ _ (Hnone (-1) 0) Hl).
  - exact (largest_prefix_none _ _ _ (Hnone 1 0) Hr).
  - exact (largest_prefix_none _ _ _ (Hnone 0 (-1)) Ht).
  - exact (largest_prefix_none _ _ _ (Hnone 0 1) Hb).
Qed.

Lemma BuildArms_degenerate_witness :
  rd (CrossAggregator.BuildArms 2 2 Examples.img_2x2 34 17 0 6
        (CrossAggregator.fresh 4)) (1 * 2 + 0)
  = CrossArm.mk 0 0 0 0.
Proof.
  apply (BuildArms_degenerate 2 2 Examples.img_2x2 34 17 0 6
           (CrossAggregator.fresh 4) 0 1).
  - lia.
  - lia.
  - reflexivity.
  - right. lia.
Defined.

(** ** The matcher object and its Python wrapper *)

Lemma length_memcpy {A} `{Inhabited A} (dst : list A) doff (src : list A) soff n :
  length (memcpy dst doff src soff n) = length dst.
Proof.
  unfold memcpy.
  apply (for_loop_inv (fun v => length v = length dst)); [done|].
  intros i v _ Hv. by rewrite length_wr.
Qed.

Section Object.

Variable CostComputer : Type.
Variable CostComputer_Initialize :
  Z -> Z -> Z -> Z -> CostComputer -> bool * CostComputer.
Variable CostComputer_Compute :
  list Z -> list Z -> float32 -> float32 -> CostComputer -> CostComputer.
Variable CostComputer_get_cost_ptr : CostComputer -> option (list float32).
Variable CostComputer_put_cost :
  option (list float32) -> CostComputer -> CostComputer.
Variables (ray_yy ray_xx : Z -> Z -> Z -> Z).

Let Initialize := ADCensusStereo.Initialize CostComputer CostComputer_Initialize.
Let Reset := ADCensusStereo.Reset CostComputer CostComputer_Initialize.
Let Match :=
  ADCensusStereo.Match CostComputer CostComputer_Compute
    CostComputer_get_cost_ptr CostComputer_put_cost ray_yy ray_xx.
Let flag := ADCensusStereo.is_initialized_ CostComputer.

(** X14.  [Initialize] returns true exactly when the two dimensions are
    positive, the [sint32] values of the disparity range, of the image
    size [width * height] and of the volume size
    [img_size * disp_range] are positive, and the cost computer
    initialises; it then sets the flag, stores the dimensions and the
    options and holds two disparity maps of [img_size] entries.  It throws
    exactly when a size is negative: [bad_array_new_length] for the image
    size, [length_error] for the volume size.  When the volume
    [width * height * (max_disparity - min_disparity)] fits a [sint32],
    positive dimensions and a positive range make it succeed if and only
    if the cost computer initialises. *)
Theorem Initialize_succeeds_iff
    (width height : Z) (option : ADCensusOption.t)
    (o : ADCensusStereo.t CostComputer) :
  let min_disparity := ADCensusOption.min_disparity option in
  let max_disparity := ADCensusOption.max_disparity option in
  let img_size := to_sint32 (width * height) in
  let disp_range := to_sint32 (max_disparity - min_disparity) in
  let aggr_size := to_sint32 (img_size * disp_range) in
  let cc_ok :=
    fst (CostComputer_Initialize width height min_disparity max_disparity
           (ADCensusStereo.cost_computer_ CostComputer o)) in
  let r := Initialize width height option o in
  ((exists o', r = Returns (true, o'))
   <-> 0 < width /\ 0 < height /\ 0 < disp_range /\ 0 < img_size
       /\ 0 < aggr_size /\ cc_ok = true)
  /\ (forall o', r = Returns (true, o') ->
      flag o' = true
      /\ ADCensusStereo.width_ CostComputer o' = width
      /\ ADCensusStereo.height_ CostComputer o' = height
      /\ ADCensusStereo.option_ CostComputer o' = option
      /\ exists disp_left disp_right,
           ADCensusStereo.disp_left_ CostComputer o' = Some disp_left
           /\ ADCensusStereo.disp_right_ CostComputer o' = Some disp_right
           /\ Z.of_nat (length disp_left) = img_size
           /\ Z.of_nat (length disp_right) = img_size)
  /\ ((exists o', r = Throws bad_array_new_length o')
      <-> 0 < width /\ 0 < height /\ 0 < disp_range /\ img_size < 0)
  /\ ((exists o', r = Throws length_error o')
      <-> 0 < width /\ 0 < height /\ 0 < disp_range /\ 0 < img_size
          /\ cc_ok = true /\ aggr_size < 0)
  /\ (forall h, r <> Halts h)
  /\ (0 < width -> 0 < height -> 0 < max_disparity - min_disparity ->
      width * height * (max_disparity - min_disparity) < 2 ^ 31 ->
      ((exists o', r = Returns (true, o')) <-> cc_ok = true)).
Proof.
  intros min_disparity max_disparity img_size disp_range aggr_size cc_ok r.
  pose proof (Initialize_spec CostComputer CostComputer_Initialize
                width height option o) as H. cbv zeta in H.
  fold min_disparity max_disparity in H. fold img_size disp_range in H.
  fold aggr_size in H. fold cc_ok in H.
  change (ADCensusStereo.Initialize CostComputer CostComputer_Initialize
            width height option o) with r in H.
  assert (Hret :
    (exists o', r = Returns (true, o'))
    <-> 0 < width /\ 0 < height /\ 0 < disp_range /\ 0 < img_size
        /\ 0 < aggr_size /\ cc_ok = true).
  { destruct r as [[b o']|e o'|h]; [| |done].
    - destruct H as (_ & _ & _ & _ & _ & Hiff & _). split.
      + intros [o'' [= -> <-]]. destruct Hiff as [Hiff _].
        destruct (Hiff eq_refl) as (Hne & ? & ? & ?).
        repeat split; try done; lia.
      + intros (? & ? & ? & ? & ? & ?). destruct Hiff as [_ Hiff].
        rewrite Hiff; [by eexists|]. repeat split; try done. lia.
    - split; [by intros [? ?]|]. intros (? & ? & ? & ? & ? & ?).
      destruct H as (_ & _ & _ & _ & [(_ & _ & ?)|(_ & _ & _ & _ & ?)]); lia. }
  split; [exact Hret|]. split; [|split; [|split; [|split]]].
  - intros o' Hr. rewrite Hr in H.
    destruct H as (Hw & Hh & Ho & _ & Hflag & [Hiff _] & Hgood & _).
    destruct (Hiff eq_refl) as (Hne & Hi & _).
    destruct (Hgood eq_refl) as (Hl & Hrr & _).
    split; [by apply Hflag|]. do 3 (split; [done|]).
    eexists _, _. split; [exact Hl|]. split; [exact Hrr|].
    rewrite length_replicate. lia.
  - destruct r as [[b o']|e o'|h]; [| |done].
    + destruct H as (_ & _ & _ & _ & _ & _ & _ & Hn1 & _).
      split; [by intros [? ?]|]. intros (? & ? & ? & ?). exfalso.
      apply Hn1. split; [lia|done].
    + destruct H as (_ & _ & _ & _ & Hcase). split.
      * intros [o'' [= -> <-]].
        destruct Hcase as [(_ & Hne & ?)|(? & _)]; [|done].
        repeat split; try done; lia.
      * intros (? & ? & ? & ?).
        destruct Hcase as [(-> & _)|(_ & _ & ? & _)]; [by eexists|lia].
  - destruct r as [[b o']|e o'|h]; [| |done].
    + destruct H as (_ & _ & _ & _ & _ & _ & _ & _ & Hn2).
      split; [by intros [? ?]|]. intros (? & ? & ? & ? & ? & ?). exfalso.
      apply Hn2. repeat split; try done. lia.
    + destruct H as (_ & _ & _ & _ & Hcase). split.
      * intros [o'' [= -> <-]].
        destruct Hcase as [(? & _)|(_ & Hne & ? & ? & ?)]; [done|].
        repeat split; try done; lia.
      * intros (? & ? & ? & ? & ? & ?).
        destruct Hcase as [(_ & _ & ?)|(-> & _)]; [lia|by eexists].
  - intros h Hr. by rewrite Hr in H.
  - intros Hw Hh Hr Hfit. rewrite Hret.
    assert (Hwh : 0 < width * height) by nia.
    assert (Hi : img_size = width * height).
    { apply to_sint32_id. nia. }
    assert (Hd : disp_range = max_disparity - min_disparity).
    { apply to_sint32_id. nia. }
    assert (Ha : aggr_size = width * height * (max_disparity - min_disparity)).
    { unfold aggr_size. rewrite Hi, Hd. apply to_sint32_id. nia. }
    split; [by intros (_ & _ & _ & _ & _ & ?)|].
    intros Hc. repeat split; try done; nia.
Qed.

(** X15.  On every path of [Reset] the flag ends as the value that
    [Reset] returned, whatever the object held before, and is not set
    when an exception leaves [Reset]; [Reset] does not end the program.
    After a [Reset] that fails, [Match] returns false and leaves the
    object and the output buffer as they are. *)
Theorem Reset_flag_is_result
    (width height : Z) (opt : ADCensusOption.t)
    (o : ADCensusStereo.t CostComputer)
    (img_left img_right : option (list Z)) (out : option (list float32)) :
  match Reset width height opt o with
  | Returns r =>
      flag (snd r) = fst r
      /\ (fst r = false ->
          Match img_left img_right out (snd r) = Returns (false, snd r, out))
  | Throws e o' =>
      flag o' = false
      /\ Match img_left img_right out o' = Returns (false, o', out)
  | Halts _ => False
  end.
Proof.
  assert (HM : forall o', flag o' = false ->
            Match img_left img_right out o' = Returns (false, o', out)).
  { intros o' Hf. unfold Match, ADCensusStereo.Match.
    unfold flag in Hf. by rewrite Hf. }
  unfold Reset, ADCensusStereo.Reset, ADCensusStereo.Release. cbv zeta.
  cbn [ADCensusStereo.width_ ADCensusStereo.height_ ADCensusStereo.option_
       ADCensusStereo.cost_computer_ ADCensusStereo.aggregator_
       ADCensusStereo.refiner_ ADCensusStereo.disp_left_
       ADCensusStereo.disp_right_ ADCensusStereo.is_initialized_
       ADCensusStereo.img_left_ ADCensusStereo.img_right_].
  generalize (to_sint32 width) (to_sint32 height).
  clear width height. intros width height.
  match goal with
  | |- context [ADCensusStereo.Initialize _ _ _ _ _ ?s] =>
      pose proof (Initialize_spec CostComputer CostComputer_Initialize
                    width height opt s) as H;
      destruct (ADCensusStereo.Initialize CostComputer
                  CostComputer_Initialize width height opt s)
        as [[b o']|e o'|h]
  end; cbv zeta in H; [| |done].
  - destruct H as (_ & _ & _ & Hearly & Hflag & _).
    assert (Hb : flag o' = b).
    { destruct (decide (width <= 0 \/ height <= 0
                        \/ to_sint32 (ADCensusOption.max_disparity opt
                                      - ADCensusOption.min_disparity opt) <= 0))
        as [He|He]; [|by apply Hflag].
      destruct (Hearly He) as [-> ->]. reflexivity. }
    cbn [fst snd]. split; [exact Hb|]. intros ->. by apply HM.
  - destruct H as (_ & _ & _ & Hf & _). cbn in Hf.
    split; [exact Hf|]. by apply HM.
Qed.

Let initialize :=
  ADCensusPython.initialize CostComputer CostComputer_Initialize.
Let compute_disparity :=
  ADCensusPython.compute_disparity CostComputer CostComputer_Compute
    CostComputer_get_cost_ptr CostComputer_put_cost ray_yy ray_xx.
Let consistent := ADCensusPython.consistent CostComputer.

(** X16.  The wrapper keeps its own flag: after [initialize] returns, the
    flag is the value that it returned, and when the flag is set the
    matcher is initialised with the wrapper's dimensions; an exception
    that leaves [initialize] leaves the flag as it was, and the wrapper
    consistent if it was; [initialize] does not end the program.
    [compute_disparity] keeps the wrapper consistent whenever it returns
    or throws one of its errors; and while the flag is not set, after a
    failed [initialize] in particular, [compute_disparity] throws the
    "not initialized" error and changes nothing. *)
Theorem wrapper_flag
    (width height min_disparity max_disparity lambda_ad lambda_census : Z)
    (cross_L1 cross_L2 cross_t1 cross_t2 : Z) (so_p1 so_p2 : float32)
    (so_tso irv_ts : Z) (irv_th lrcheck_thres : float32)
    (do_lr_check do_filling do_discontinuity_adjustment : bool)
    (img_left img_right : ADCensusPython.ndarray Z)
    (o : ADCensusPython.t CostComputer) :
  match
    initialize width height min_disparity max_disparity lambda_ad
      lambda_census cross_L1 cross_L2 cross_t1 cross_t2 so_p1 so_p2 so_tso
      irv_ts irv_th lrcheck_thres do_lr_check do_filling
      do_discontinuity_adjustment o
  with
  | Returns r =>
      ADCensusPython.initialized_ CostComputer (snd r) = fst r
      /\ consistent (snd r)
  | Throws e o' =>
      ADCensusPython.initialized_ CostComputer o'
      = ADCensusPython.initialized_ CostComputer o
      /\ (consistent o -> consistent o')
  | Halts _ => False
  end
  /\ (consistent o ->
      match compute_disparity img_left img_right o with
      | Returns r => consistent (fst r)
      | Throws _ _ => False
      | Halts _ => True
      end)
  /\ (ADCensusPython.initialized_ CostComputer o = false ->
      compute_disparity img_left img_right o
      = Returns (o, inl ADCensusPython.NotInitialized)).
Proof.
  split; [|split].
  - unfold initialize, ADCensusPython.initialize. cbv zeta.
    match goal with
    | |- context [ADCensusStereo.Initialize _ _ _ _ ?opt ?s] =>
        pose proof (Initialize_spec CostComputer CostComputer_Initialize
                      width height opt s) as H;
        destruct (ADCensusStereo.Initialize CostComputer
                    CostComputer_Initialize width height opt s)
          as [[b stereo]|e stereo|h]
    end; cbv zeta in H; cbn [within mbind outcome_bind fst snd]; [| |done].
    + split; [done|].
      unfold consistent, ADCensusPython.consistent.
      cbn [ADCensusPython.initialized_ ADCensusPython.stereo_
           ADCensusPython.width_ ADCensusPython.height_].
      intros ->. destruct H as (Hw & Hh & _ & _ & Hflag & [Hiff _] & _).
      destruct (Hiff eq_refl) as (Hne & _).
      split; [by apply Hflag|by split].
    + split; [done|].
      unfold consistent, ADCensusPython.consistent.
      cbn [ADCensusPython.initialized_ ADCensusPython.stereo_
           ADCensusPython.width_ ADCensusPython.height_].
      intros Hc Hi. destruct (Hc Hi) as (Hf & _).
      destruct H as (Hw & Hh & _ & Hflag & _).
      split; [|by split]. unfold flag in Hflag. congruence.
  - intros Hcons. unfold compute_disparity, ADCensusPython.compute_disparity.
    destruct (ADCensusPython.initialized_ CostComputer o) eqn:Einit;
      cbn [negb]; [|done].
    destruct (Hcons Einit) as (Hf & Hw & Hh).
    repeat (match goal with
            | |- context [if ?c then _ else _] => destruct c
            end; [done|]).
    cbv zeta.
    match goal with
    | |- context [ADCensusStereo.Match _ _ _ _ _ _ (Some ?l) (Some ?r)
                    (Some ?d) ?s] =>
        pose proof (Match_spec CostComputer CostComputer_Compute
                      CostComputer_get_cost_ptr CostComputer_put_cost
                      ray_yy ray_xx l r d s Hf) as HM;
        destruct (ADCensusStereo.Match CostComputer CostComputer_Compute
                    CostComputer_get_cost_ptr CostComputer_put_cost
                    ray_yy ray_xx (Some l) (Some r) (Some d) s)
          as [[[b s'] out']|e s'|h]
    end; cbv zeta in HM; cbn [within mbind outcome_bind]; [|done|done].
    destruct HM as (-> & Hf' & Hw' & Hh' & _). cbn [negb fst].
    unfold consistent, ADCensusPython.consistent.
    cbn [ADCensusPython.initialized_ ADCensusPython.stereo_
         ADCensusPython.width_ ADCensusPython.height_].
    intros _. split; [exact Hf'|]. split; congruence.
  - intros Einit. unfold compute_disparity, ADCensusPython.compute_disparity.
    by rewrite Einit.
Qed.

(** A list of three numbers. *)
Lemma shape_three (l : list Z) a b c :
  l = [a; b; c]
  <-> Z.of_nat (length l) = 3 /\ rd l 0 = a /\ rd l 1 = b /\ rd l 2 = c.
Proof.
  split; [by intros ->|].
  destruct l as [|x [|y [|z [|? ?]]]]; simpl; intros (Hl & H0 & H1 & H2);
    try lia.
  cbv in H0, H1, H2. by subst.
Qed.

(** A successful [initialize] with a cost volume whose size is a
    [sint32] leaves the wrapper ready. *)
Lemma initialize_ready
    (width height min_disparity max_disparity lambda_ad lambda_census : Z)
    (cross_L1 cross_L2 cross_t1 cross_t2 : Z) (so_p1 so_p2 : float32)
    (so_tso irv_ts : Z) (irv_th lrcheck_thres : float32)
    (do_lr_check do_filling do_discontinuity_adjustment : bool)
    (o o' : ADCensusPython.t CostComputer) :
  initialize width height min_disparity max_disparity lambda_ad
    lambda_census cross_L1 cross_L2 cross_t1 cross_t2 so_p1 so_p2 so_tso
    irv_ts irv_th lrcheck_thres do_lr_check do_filling
    do_discontinuity_adjustment o = Returns (true, o') ->
  0 < max_disparity - min_disparity ->
  width * height * (max_disparity - min_disparity) < 2 ^ 31 ->
  ADCensusPython.ready CostComputer o'
  /\ ADCensusPython.width_ CostComputer o' = width
  /\ ADCensusPython.height_ CostComputer o' = height.
Proof.
  unfold initialize, ADCensusPython.initialize. cbv zeta.
  match goal with
  | |- context [ADCensusStereo.Initialize _ _ _ _ ?opt ?s] =>
      pose proof (Initialize_spec CostComputer CostComputer_Initialize
                    width height opt s) as H;
      pose proof (Initialize_sound CostComputer CostComputer_Initialize
                    width height opt s) as Hs;
      destruct (ADCensusStereo.Initialize CostComputer
                  CostComputer_Initialize width height opt s)
        as [[b stereo]|e stereo|h]
  end; cbv zeta in H; cbn [within mbind outcome_bind]; [|done|done].
  intros [= -> <-] Hd Hsize.
  destruct (Hs stereo eq_refl) as [Hf Hsound].
  destruct H as (Hw & Hh & Ho & _ & _ & [Hiff _] & _).
  destruct (Hiff eq_refl) as (Hne & Hi & _).
  unfold ADCensusPython.ready, ADCensusStereo.ready.
  cbn [ADCensusPython.initialized_ ADCensusPython.stereo_
       ADCensusPython.width_ ADCensusPython.height_].
  rewrite Hw, Hh, Ho. cbn [ADCensusOption.min_disparity
                           ADCensusOption.max_disparity].
  rewrite (Z.mul_comm height width).
  repeat split; try done; lia.
Qed.

(** X17.  On a wrapper that is ready, [compute_disparity] runs to its
    end and leaves the wrapper ready.  It returns an array exactly when
    the right image has the shape [(height, width, 3)] of the initialised
    dimensions and the left image has three dimensions, three channels,
    and a height and a width whose conversions to [int] are the
    initialised ones; the array has the shape [(height, width)] and
    [height * width] elements.  The "Stereo matching failed" error is
    never thrown. *)
Theorem compute_disparity_result
    (img_left img_right : ADCensusPython.ndarray Z)
    (o : ADCensusPython.t CostComputer) :
  ADCensusPython.ready CostComputer o ->
  let width := ADCensusPython.width_ CostComputer o in
  let height := ADCensusPython.height_ CostComputer o in
  exists o' res,
    compute_disparity img_left img_right o = Returns (o', res)
    /\ ADCensusPython.ready CostComputer o'
    /\ ((exists a, res = inr a)
        <-> exists h w,
              ADCensusPython.shape img_left = [h; w; 3]
              /\ to_sint32 h = height /\ to_sint32 w = width
              /\ ADCensusPython.shape img_right = [height; width; 3])
    /\ (forall a, res = inr a ->
          ADCensusPython.shape a = [height; width]
          /\ length (ADCensusPython.data a) = Z.to_nat (height * width))
    /\ res <> inl ADCensusPython.MatchingFailed
    /\ res <> inl ADCensusPython.NegativeCount.
Proof.
  intros Hready width height.
  pose proof Hready as (Einit & Hsr & Hw & Hh).
  pose proof Hsr as (Hf & Hwpos & Hhpos & Hcount & Hrange & Hsound).
  rewrite Hw in Hwpos. rewrite Hh in Hhpos. rewrite Hw, Hh in Hcount.
  fold width in Hwpos, Hcount. fold height in Hhpos, Hcount.
  assert (Hrhs :
    (exists h w,
       ADCensusPython.shape img_left = [h; w; 3]
       /\ to_sint32 h = height /\ to_sint32 w = width
       /\ ADCensusPython.shape img_right = [height; width; 3])
    <-> (ADCensusPython.ndim img_left = 3
         /\ ADCensusPython.ndim img_right = 3
         /\ rd (ADCensusPython.shape img_left) 2 = 3
         /\ rd (ADCensusPython.shape img_right) 2 = 3
         /\ to_sint32 (rd (ADCensusPython.shape img_left) 0) = height
         /\ to_sint32 (rd (ADCensusPython.shape img_left) 1) = width
         /\ height = rd (ADCensusPython.shape img_right) 0
         /\ width = rd (ADCensusPython.shape img_right) 1)).
  { unfold ADCensusPython.ndim. split.
    - intros (h & w & HL & <- & <- & HR).
      apply shape_three in HL as (? & <- & <- & ?).
      apply shape_three in HR as (? & ? & ? & ?). by repeat split.
    - intros (? & ? & ? & ? & ? & ? & ? & ?).
      exists (rd (ADCensusPython.shape img_left) 0),
        (rd (ADCensusPython.shape img_left) 1).
      rewrite !shape_three. by repeat split. }
  enough (Hgoal : exists o' res,
    compute_disparity img_left img_right o = Returns (o', res)
    /\ ADCensusPython.ready CostComputer o'
    /\ ((exists a, res = inr a)
        <-> ADCensusPython.ndim img_left = 3
            /\ ADCensusPython.ndim img_right = 3
            /\ rd (ADCensusPython.shape img_left) 2 = 3
            /\ rd (ADCensusPython.shape img_right) 2 = 3
            /\ to_sint32 (rd (ADCensusPython.shape img_left) 0) = height
            /\ to_sint32 (rd (ADCensusPython.shape img_left) 1) = width
            /\ height = rd (ADCensusPython.shape img_right) 0
            /\ width = rd (ADCensusPython.shape img_right) 1)
    /\ (forall a, res = inr a ->
          ADCensusPython.shape a = [height; width]
          /\ length (ADCensusPython.data a) = Z.to_nat (height * width))
    /\ res <> inl ADCensusPython.MatchingFailed
    /\ res <> inl ADCensusPython.NegativeCount).
  { destruct Hgoal as (o' & res & G1 & G2 & G3 & G4).
    exists o', res. split; [done|]. split; [done|].
    split; [by rewrite Hrhs|done]. }
  clear Hrhs.
  unfold compute_disparity, ADCensusPython.compute_disparity.
  rewrite Einit. cbn [negb]. fold width height.
  assert (Hbad : forall e,
    e <> ADCensusPython.MatchingFailed -> e <> ADCensusPython.NegativeCount ->
    ~ (ADCensusPython.ndim img_left = 3
       /\ ADCensusPython.ndim img_right = 3
       /\ rd (ADCensusPython.shape img_left) 2 = 3
       /\ rd (ADCensusPython.shape img_right) 2 = 3
       /\ to_sint32 (rd (ADCensusPython.shape img_left) 0) = height
       /\ to_sint32 (rd (ADCensusPython.shape img_left) 1) = width
       /\ height = rd (ADCensusPython.shape img_right) 0
       /\ width = rd (ADCensusPython.shape img_right) 1) ->
    exists (o' : ADCensusPython.t CostComputer)
           (res : ADCensusPython.error + ADCensusPython.ndarray float32),
      @Returns (ADCensusPython.t CostComputer) _ (o, inl e)
      = Returns (o', res)
      /\ ADCensusPython.ready CostComputer o'
      /\ ((exists a, res = inr a)
          <-> ADCensusPython.ndim img_left = 3
              /\ ADCensusPython.ndim img_right = 3
              /\ rd (ADCensusPython.shape img_left) 2 = 3
              /\ rd (ADCensusPython.shape img_right) 2 = 3
              /\ to_sint32 (rd (ADCensusPython.shape img_left) 0) = height
              /\ to_sint32 (rd (ADCensusPython.shape img_left) 1) = width
              /\ height = rd (ADCensusPython.shape img_right) 0
              /\ width = rd (ADCensusPython.shape img_right) 1)
      /\ (forall a, res = inr a ->
            ADCensusPython.shape a = [height; width]
            /\ length (ADCensusPython.data a) = Z.to_nat (height * width))
      /\ res <> inl ADCensusPython.MatchingFailed
      /\ res <> inl ADCensusPython.NegativeCount).
  { intros e He1 He2 Hn. exists o, (inl e). split; [done|].
    split; [exact Hready|]. split; [split; [by intros [? ?]|done]|].
    split; [done|]. split; congruence. }
  destruct (Z.eqb_spec (ADCensusPython.ndim img_left) 3) as [E1|E1];
    cbn [negb orb]; [|apply Hbad; [done|done|tauto]].
  destruct (Z.eqb_spec (ADCensusPython.ndim img_right) 3) as [E2|E2];
    cbn [negb orb]; [|apply Hbad; [done|done|tauto]].
  destruct (Z.eqb_spec (rd (ADCensusPython.shape img_left) 2) 3) as [E3|E3];
    cbn [negb orb]; [|apply Hbad; [done|done|tauto]].
  destruct (Z.eqb_spec (rd (ADCensusPython.shape img_right) 2) 3) as [E4|E4];
    cbn [negb orb]; [|apply Hbad; [done|done|tauto]].
  cbv zeta.
  destruct (Z.eqb_spec (to_sint32 (rd (ADCensusPython.shape img_left) 0))
              height) as [E5|E5];
    cbn [negb orb]; [|apply Hbad; [done|done|tauto]].
  destruct (Z.eqb_spec (to_sint32 (rd (ADCensusPython.shape img_left) 1))
              width) as [E6|E6];
    cbn [negb orb]; [|apply Hbad; [done|done|tauto]].
  destruct (Z.eqb_spec (to_sint32 (rd (ADCensusPython.shape img_left) 0))
              (rd (ADCensusPython.shape img_right) 0))
    as [E7|E7]; cbn [negb orb];
    [|apply Hbad; [done|done|intros (? & ? & ? & ? & ? & ? & ? & ?); lia]].
  destruct (Z.eqb_spec (to_sint32 (rd (ADCensusPython.shape img_left) 1))
              (rd (ADCensusPython.shape img_right) 1))
    as [E8|E8]; cbn [negb orb];
    [|apply Hbad; [done|done|intros (? & ? & ? & ? & ? & ? & ? & ?); lia]].
  clear Hbad. rewrite E5, E6.
  rewrite (Z.mul_comm width height).
  destruct (Z.ltb_spec (to_sint32 (height * width)) 0) as [?|_]; [lia|].
  match goal with
  | |- context [ADCensusStereo.Match _ _ _ _ _ _ (Some ?l) (Some ?r)
                  (Some ?d) ?s] =>
      pose proof (Match_spec CostComputer CostComputer_Compute
                    CostComputer_get_cost_ptr CostComputer_put_cost
                    ray_yy ray_xx l r d s Hf) as HM;
      destruct (ADCensusStereo.Match CostComputer CostComputer_Compute
                  CostComputer_get_cost_ptr CostComputer_put_cost
                  ray_yy ray_xx (Some l) (Some r) (Some d) s)
        as [[[b s'] out']|e s'|h]
  end; cbv zeta in HM; cbn [within mbind outcome_bind]; [|done|].
  2:{ exfalso. rewrite Hw, Hh in HM. fold width height in HM.
      destruct HM as [(_ & _ & _ & ?)|(_ & [?|Hn])]; [lia|lia|by apply Hn]. }
  destruct HM as (-> & Hf' & Hw' & Hh' & Ho' & _ & _ & Hs' & _ & _ & _ & ->).
  cbn [negb default]. eexists _, _. split; [reflexivity|].
  split.
  { unfold ADCensusPython.ready, ADCensusStereo.ready.
    cbn [ADCensusPython.initialized_ ADCensusPython.stereo_
         ADCensusPython.width_ ADCensusPython.height_].
    rewrite Hw', Hh', Ho', Hw, Hh. fold width height.
    repeat split; try done; try lia. by apply Hs'. }
  split; [split; [intros _; repeat split; congruence|by eexists]|].
  split; [|split; congruence].
  intros a [= <-]. cbn [ADCensusPython.shape ADCensusPython.data].
  split; [done|]. by rewrite length_resize.
Qed.

End Object.

Lemma Initialize_succeeds_iff_witness :
  exists o',
    ADCensusStereo.Initialize (option (list float32)) Examples.cc_Initialize
      2 2 Examples.default_option
      (ADCensusStereo.new (option (list float32)) None)
    = Returns (true, o').
Proof.
  apply (proj2 (proj2 (proj2 (proj2 (proj2
           (Initialize_succeeds_iff (option (list float32))
              Examples.cc_Initialize 2 2 Examples.default_option
              (ADCensusStereo.new (option (list float32)) None))))))
           ltac:(lia) ltac:(lia) ltac:(simpl; lia) ltac:(simpl; lia)).
  reflexivity.
Defined.

Lemma Reset_flag_is_result_witness :
  exists o',
    ADCensusStereo.Reset (option (list float32)) Examples.cc_Initialize
      0 2 Examples.default_option
      (ADCensusStereo.new (option (list float32)) None)
    = Returns (false, o')
    /\ ADCensusStereo.is_initialized_ (option (list float32)) o' = false
    /\ ADCensusStereo.Match (option (list float32)) Examples.cc_Compute
         Examples.cc_get_cost_ptr Examples.cc_put_cost
         (fun _ _ y => y) (fun _ _ x => x) None None None o'
       = Returns (false, o', None).
Proof.
  assert (E : exists o',
    ADCensusStereo.Reset (option (list float32)) Examples.cc_Initialize
      0 2 Examples.default_option
      (ADCensusStereo.new (option (list float32)) None)
    = Returns (false, o')) by (eexists; reflexivity).
  destruct E as [o' E].
  pose proof (Reset_flag_is_result (option (list float32))
                Examples.cc_Initialize Examples.cc_Compute
                Examples.cc_get_cost_ptr Examples.cc_put_cost
                (fun _ _ y => y) (fun _ _ x => x)
                0 2 Examples.default_option
                (ADCensusStereo.new (option (list float32)) None)
                None None None) as H.
  rewrite E in H. cbn [fst snd] in H. destruct H as [Hf HM].
  exists o'. split; [exact E|]. split; [exact Hf|exact (HM eq_refl)].
Defined.

Lemma compute_disparity_result_witness :
  exists o o' a,
    ADCensusPython.initialize (option (list float32))
      Examples.cc_Initialize 1 1 0 3 10 30 34 17 20 6
      (F32.of_Z 1) (F32.of_Z 3) 15 20 (F32.of_Z 0) (F32.of_Z 1)
      true true false
      (ADCensusPython.new (option (list float32)) (Some Examples.cost_1x1x3))
    = Returns (true, o)
    /\ ADCensusPython.compute_disparity (option (list float32))
         Examples.cc_Compute Examples.cc_get_cost_ptr Examples.cc_put_cost
         (fun _ _ y => y) (fun _ _ x => x)
         (ADCensusPython.mk_array [2 ^ 32 + 1; 1; 3] [0; 0; 0])
         (ADCensusPython.mk_array [1; 1; 3] [0; 0; 0]) o
       = Returns (o', inr a)
    /\ ADCensusPython.shape a = [1; 1].
Proof.
  assert (E : exists o,
    ADCensusPython.initialize (option (list float32))
      Examples.cc_Initialize 1 1 0 3 10 30 34 17 20 6
      (F32.of_Z 1) (F32.of_Z 3) 15 20 (F32.of_Z 0) (F32.of_Z 1)
      true true false
      (ADCensusPython.new (option (list float32)) (Some Examples.cost_1x1x3))
    = Returns (true, o)) by (eexists; vm_compute; reflexivity).
  destruct E as [o E].
  destruct (initialize_ready _ _ _ _ _ _ _ _ _ _ _ _ _ _ _ _ _ _ _ _ _ _ _ E
              ltac:(lia) ltac:(lia)) as (Hready & Hw & Hh).
  destruct (compute_disparity_result (option (list float32))
              Examples.cc_Initialize
              Examples.cc_Compute Examples.cc_get_cost_ptr
              Examples.cc_put_cost (fun _ _ y => y) (fun _ _ x => x)
              (ADCensusPython.mk_array [2 ^ 32 + 1; 1; 3] [0; 0; 0])
              (ADCensusPython.mk_array [1; 1; 3] [0; 0; 0]) o Hready)
    as (o' & res & Hres & _ & [_ Hiff] & Hshape & _).
  rewrite Hw, Hh in Hiff, Hshape.
  destruct Hiff as [a ->].
  { exists (2 ^ 32 + 1), 1. by repeat split. }
  exists o, o', a. split; [exact E|]. split; [exact Hres|].
  by destruct (Hshape a eq_refl).
Defined.

(** ** The three filling steps together *)

(** X18.  On a map of [width * height] entries, the first three steps of
    [Refine] in a row (the consistency check, region voting on its lists,
    interpolation on what voting left of them) keep the size of the map
    and leave no pixel of the image with the invalid value, whatever the
    images, the arms, the rays and the parameters are. *)
Theorem filling_leaves_no_invalid
    (width height : Z) (img_left : list Z) (cross_arms : list CrossArm.t)
    (min_disparity max_disparity irv_ts : Z) (irv_th lrcheck_thres : float32)
    (ray_yy ray_xx : Z -> Z -> Z -> Z) (DR DL : list float32) :
  0 < width -> 0 < height -> Z.of_nat (length DL) = width * height ->
  let '(DL1, occlusions, mismatches) :=
    MultiStepRefiner.OutlierDetection width height DR lrcheck_thres DL in
  let '(DL2, mismatches', occlusions') :=
    MultiStepRefiner.IterativeRegionVoting width cross_arms min_disparity
      max_disparity irv_ts irv_th (DL1, mismatches, occlusions) in
  let DL3 :=
    MultiStepRefiner.ProperInterpolation width height img_left min_disparity
      max_disparity ray_yy ray_xx mismatches' occlusions' DL2 in
  length DL3 = length DL
  /\ forall x y, 0 <= x < width -> 0 <= y < height ->
       rd DL3 (y * width + x) <> Invalid_Float.
Proof.
  intros Hw Hh Hlen.
  pose proof (OutlierDetection_lists width height lrcheck_thres DR DL
                Hw Hh Hlen) as H1. cbv zeta in H1.
  destruct (MultiStepRefiner.OutlierDetection width height DR lrcheck_thres DL)
    as [[DL1 occlusions] mismatches].
  cbn [fst snd] in H1. destruct H1 as (Hl1 & _ & _ & Hcells).
  pose (Q := fun p : Z * Z => 0 <= fst p < width /\ 0 <= snd p < height).
  assert (Hholes1 : forall p, Q p ->
            rd DL1 (snd p * width + fst p) = Invalid_Float ->
            p ∈ mismatches \/ p ∈ occlusions).
  { intros [x y] [Hx Hy] Hinv. cbn [fst snd] in *.
    destruct (Hcells x y Hx Hy) as [Hiff _].
    apply Hiff, elem_of_app in Hinv. tauto. }
  assert (H2 :
    let st :=
      MultiStepRefiner.IterativeRegionVoting width cross_arms min_disparity
        max_disparity irv_ts irv_th (DL1, mismatches, occlusions) in
    length (fst (fst st)) = length DL1
    /\ forall p, Q p ->
         rd (fst (fst st)) (snd p * width + fst p) = Invalid_Float ->
         p ∈ snd (fst st) \/ p ∈ snd st).
  { destruct (decide (0 < max_disparity - min_disparity)) as [Hrange|Hrange].
    - destruct (IterativeRegionVoting_holes_listed width cross_arms
                  min_disparity max_disparity irv_ts irv_th Hrange Q DL1
                  mismatches occlusions Hholes1) as (Hl & _ & _ & Hh2).
      by split.
    - unfold MultiStepRefiner.IterativeRegionVoting. cbv zeta.
      destruct (Z.leb_spec (max_disparity - min_disparity) 0); [|lia].
      by split. }
  cbv zeta in H2.
  destruct (MultiStepRefiner.IterativeRegionVoting width cross_arms
              min_disparity max_disparity irv_ts irv_th
              (DL1, mismatches, occlusions)) as [[DL2 mismatches'] occlusions'].
  cbn [fst snd] in H2. destruct H2 as [Hl2 Hholes2]. cbv zeta.
  split; [rewrite length_ProperInterpolation; congruence|].
  intros x y Hx Hy. apply ProperInterpolation_valid.
  destruct (F32.eqb (rd DL2 (y * width + x)) Invalid_Float) eqn:E.
  - right. apply F32_eqb_Invalid in E.
    pose proof (pixel_index_bound width height x y Hx Hy) as Hb.
    split; [rewrite Hl2, Hl1; lia|]. exists (x, y). split; [|done].
    apply elem_of_app. by apply (Hholes2 (x, y)).
  - left. intros Heq. apply F32_eqb_Invalid in Heq. congruence.
Qed.

Lemma filling_leaves_no_invalid_witness :
  F32.eqb
    (rd (let '(DL1, occlusions, mismatches) :=
           MultiStepRefiner.OutlierDetection 3 1 Examples.DR_3x1 (F32.of_Z 1)
             Examples.DL_3x1 in
         let '(DL2, mismatches', occlusions') :=
           MultiStepRefiner.IterativeRegionVoting 3 [] 0 4 20 (F32.of_Z 0)
             (DL1, mismatches, occlusions) in
         MultiStepRefiner.ProperInterpolation 3 1 Examples.left_3x1 0 4
           (fun s m y => y) (fun s m x => x + m) mismatches' occlusions' DL2)
        0)
    Invalid_Float = false.
Proof.
  pose proof (filling_leaves_no_invalid 3 1 Examples.left_3x1 [] 0 4 20
                (F32.of_Z 0) (F32.of_Z 1) (fun s m y => y)
                (fun s m x => x + m) Examples.DR_3x1 Examples.DL_3x1) as H.
  destruct (MultiStepRefiner.OutlierDetection 3 1 Examples.DR_3x1 (F32.of_Z 1)
              Examples.DL_3x1) as [[DL1 occlusions] mismatches].
  destruct (MultiStepRefiner.IterativeRegionVoting 3 [] 0 4 20 (F32.of_Z 0)
              (DL1, mismatches, occlusions)) as [[DL2 mismatches'] occlusions'].
  destruct H as [_ H]; [lia|lia|reflexivity|].
  specialize (H 0 0 ltac:(lia) ltac:(lia)). simpl in H.
  destruct (F32.eqb _ Invalid_Float) eqn:E; [|done].
  exfalso. by apply H, F32_eqb_Invalid.
Defined.
